(** * dwm: the window-management state machine of [dwm.c]

    A shallow embedding of the client/monitor model of [dwm.c] and of the
    handlers that act on it, followed by the properties of the
    specification that concern them.

    Conventions of the embedding.
    - A C [int] is a [Z] in the range of 32-bit two's complement; every
      arithmetic operation of the source is followed by the wrap-around
      [sint].  An [unsigned int] is a [Z] below [2^32], wrapped by [uint].
    - A C [float] is a binary32 value of [SpecFloat]; [double] is binary64.
    - A [Client *] or [Monitor *] is an identifier into a finite map; the
      null pointer is [None]; dereferencing a pointer that is null or not
      allocated is undefined behaviour, the outcome [None] of the monad.
    - A remainder whose division traps, [INT_MIN % -1] in [applysizehints],
      ends the program: it is the outcome [None] as well.
    - The linked lists threaded through [next] and [snext] are the lists
      [Monitor.clients] and [Monitor.stack] of client identifiers.
    - Requests to the X server are appended to a log; its replies are read
      from the record [XServer]. *)

From Stdlib Require Import ZArith String List Bool Lia Morphisms Setoid.
From Stdlib Require Import Floats.SpecFloat.
From stdpp Require Import base option list gmap strings pretty.

Local Open Scope Z_scope.

(** ** Machine integers *)

Definition sint (z : Z) : Z := (z + 2 ^ 31) mod 2 ^ 32 - 2 ^ 31.
Definition uint (z : Z) : Z := z mod 2 ^ 32.

Definition int_range (z : Z) : Prop := - 2 ^ 31 <= z < 2 ^ 31.

(** The arithmetic of [int] and of [unsigned int]. *)
Definition addi (a b : Z) : Z := sint (a + b).
Definition subi (a b : Z) : Z := sint (a - b).
Definition muli (a b : Z) : Z := sint (a * b).
Definition divi (a b : Z) : Z := sint (Z.quot a b).
Definition addu (a b : Z) : Z := uint (a + b).
Definition subu (a b : Z) : Z := uint (a - b).
Definition divu (a b : Z) : Z := Z.div a b.

Notation "a +ₛ b" := (addi a b) (at level 50, left associativity).
Notation "a -ₛ b" := (subi a b) (at level 50, left associativity).
Notation "a *ₛ b" := (muli a b) (at level 40, left associativity).
Notation "a /ₛ b" := (divi a b) (at level 40, left associativity).
Notation "a +ᵤ b" := (addu a b) (at level 50, left associativity).
Notation "a -ᵤ b" := (subu a b) (at level 50, left associativity).
Notation "a /ᵤ b" := (divu a b) (at level 40, left associativity).

(** The macros [MAX] and [MIN] of [util.h]. *)
Definition MAX (a b : Z) : Z := if b <? a then a else b.
Definition MIN (a b : Z) : Z := if a <? b then a else b.

(** C truth value of an [int]. *)
Definition truthy (z : Z) : bool := negb (z =? 0).
Definition of_bool (b : bool) : Z := if b then 1 else 0.

(** C remainder [a % b] of two [int]: it truncates toward zero, and the
    division behind it traps for a zero divisor and for [INT_MIN % -1];
    [None] is the trap. *)
Definition crem (a b : Z) : option Z :=
  if (b =? 0) || ((a =? - 2 ^ 31) && (b =? -1)) then None else Some (Z.rem a b).

(** ** Floating point: binary32 and binary64 *)

Abbreviation float := spec_float.

Module F32.
Definition prec : Z := 24.
Definition emax : Z := 128.
Definition of_int (z : Z) : float := binary_normalize prec emax z 0 false.
Definition mul : float -> float -> float := SFmul prec emax.
Definition div : float -> float -> float := SFdiv prec emax.
Definition ltb : float -> float -> bool := SFltb.
Definition zero : float := S754_zero false.
(** The float nearest to [n / 2^k]. *)
Definition dyadic (n k : Z) : float := binary_normalize prec emax n (- k) false.
End F32.

Module F64.
Definition prec : Z := 53.
Definition emax : Z := 1024.
Definition add : float -> float -> float := SFadd prec emax.
Definition half : float := binary_normalize prec emax 1 (-1) false.
(** Widening a binary32 value is exact. *)
Definition of_f32 (f : float) : float :=
  match f with
  | S754_finite s m e => binary_normalize prec emax (cond_Zopp s (Zpos m)) e s
  | _ => f
  end.
End F64.

(** Truncation toward zero of a finite value. *)
Definition ftrunc (f : float) : option Z :=
  match f with
  | S754_zero _ => Some 0
  | S754_finite s m e =>
      Some (cond_Zopp s (if 0 <=? e then Zpos m * 2 ^ e else Zpos m / 2 ^ (- e)))
  | _ => None
  end.

(** Conversion to [int]: C leaves the out-of-range case undefined; the
    value chosen is the one the x86-64 conversion instructions produce. *)
Definition float_to_int (f : float) : Z :=
  match ftrunc f with
  | Some z => if (- 2 ^ 31 <=? z) && (z <? 2 ^ 31) then z else - 2 ^ 31
  | None => - 2 ^ 31
  end.

(** Conversion to [unsigned int], through a 64-bit conversion. *)
Definition float_to_uint (f : float) : Z :=
  match ftrunc f with
  | Some z => if (- 2 ^ 63 <=? z) && (z <? 2 ^ 63) then uint z else 0
  | None => 0
  end.

(** ** Data model *)

Definition Window : Type := Z.
Definition Atom : Type := Z.
(** Addresses of heap-allocated [Client] and [Monitor] structures. *)
Definition CId : Type := nat.
Definition MonId : Type := nat.

(** The arrangers a [Layout] can point to. *)
Inductive Arranger : Type := ArrTile | ArrMonocle.

Record Layout : Type := mkLayout {
  symbol : string;
  arrange_fn : option Arranger  (* pointer to the arranger; None is NULL *)
}.

Record Rule : Type := mkRule {
  r_class : option string;
  r_instance : option string;
  r_title : option string;
  r_tags : Z;
  r_isfloating : Z;
  r_monitor : Z
}.

(** [config.h] is not part of the sources at hand: the tables and
    constants it defines are taken as a parameter. *)
Record Config : Type := mkConfig {
  ntags : Z;                  (* LENGTH(tags), at most 31 *)
  rules : list Rule;
  layout_hd : Layout;         (* layouts[0] *)
  layout_tl : list Layout;    (* layouts[1..] *)
  cfg_mfact : float;
  cfg_nmaster : Z;
  cfg_showbar : Z;
  cfg_topbar : Z;
  resizehints : Z;
  lockfullscreen : Z;
  borderpx : Z;
  snap : Z
}.

Definition TAGMASK (cfg : Config) : Z := uint (Z.shiftl 1 (ntags cfg) - 1).

Inductive NetAtom : Type :=
| NetSupported | NetWMName | NetWMState | NetWMCheck | NetWMFullscreen
| NetActiveWindow | NetWMWindowType | NetWMWindowTypeDialog | NetClientList.

Inductive WMAtom : Type := WMProtocols | WMDelete | WMState | WMTakeFocus.

Module Client.
Record t : Type := mk {
  name : string;
  mina : float;
  maxa : float;
  x : Z;
  y : Z;
  w : Z;
  h : Z;
  oldx : Z;
  oldy : Z;
  oldw : Z;
  oldh : Z;
  maximx : Z;
  maximy : Z;
  maximw : Z;
  maximh : Z;
  basew : Z;
  baseh : Z;
  incw : Z;
  inch : Z;
  maxw : Z;
  maxh : Z;
  minw : Z;
  minh : Z;
  hintsvalid : Z;
  bw : Z;
  oldbw : Z;
  tags : Z;  (* unsigned int *)
  isfixed : Z;
  isfloating : Z;
  isurgent : Z;
  neverfocus : Z;
  oldstate : Z;
  isfullscreen : Z;
  isminimized : Z;
  mon : MonId;  (* Monitor *mon *)
  win : Window
}.

Definition set_mina (v : float) (r : t) : t :=
  mk (name r) v (maxa r) (x r) (y r) (w r) (h r) (oldx r) (oldy r) (oldw r)
    (oldh r) (maximx r) (maximy r) (maximw r) (maximh r) (basew r) (baseh r)
    (incw r) (inch r) (maxw r) (maxh r) (minw r) (minh r) (hintsvalid r)
    (bw r) (oldbw r) (tags r) (isfixed r) (isfloating r) (isurgent r)
    (neverfocus r) (oldstate r) (isfullscreen r) (isminimized r) (mon r)
    (win r).
Definition set_maxa (v : float) (r : t) : t :=
  mk (name r) (mina r) v (x r) (y r) (w r) (h r) (oldx r) (oldy r) (oldw r)
    (oldh r) (maximx r) (maximy r) (maximw r) (maximh r) (basew r) (baseh r)
    (incw r) (inch r) (maxw r) (maxh r) (minw r) (minh r) (hintsvalid r)
    (bw r) (oldbw r) (tags r) (isfixed r) (isfloating r) (isurgent r)
    (neverfocus r) (oldstate r) (isfullscreen r) (isminimized r) (mon r)
    (win r).
Definition set_x (v : Z) (r : t) : t :=
  mk (name r) (mina r) (maxa r) v (y r) (w r) (h r) (oldx r) (oldy r)
    (oldw r) (oldh r) (maximx r) (maximy r) (maximw r) (maximh r) (basew r)
    (baseh r) (incw r) (inch r) (maxw r) (maxh r) (minw r) (minh r)
    (hintsvalid r) (bw r) (oldbw r) (tags r) (isfixed r) (isfloating r)
    (isurgent r) (neverfocus r) (oldstate r) (isfullscreen r)
    (isminimized r) (mon r) (win r).
Definition set_y (v : Z) (r : t) : t :=
  mk (name r) (mina r) (maxa r) (x r) v (w r) (h r) (oldx r) (oldy r)
    (oldw r) (oldh r) (maximx r) (maximy r) (maximw r) (maximh r) (basew r)
    (baseh r) (incw r) (inch r) (maxw r) (maxh r) (minw r) (minh r)
    (hintsvalid r) (bw r) (oldbw r) (tags r) (isfixed r) (isfloating r)
    (isurgent r) (neverfocus r) (oldstate r) (isfullscreen r)
    (isminimized r) (mon r) (win r).
Definition set_w (v : Z) (r : t) : t :=
  mk (name r) (mina r) (maxa r) (x r) (y r) v (h r) (oldx r) (oldy r)
    (oldw r) (oldh r) (maximx r) (maximy r) (maximw r) (maximh r) (basew r)
    (baseh r) (incw r) (inch r) (maxw r) (maxh r) (minw r) (minh r)
    (hintsvalid r) (bw r) (oldbw r) (tags r) (isfixed r) (isfloating r)
    (isurgent r) (neverfocus r) (oldstate r) (isfullscreen r)
    (isminimized r) (mon r) (win r).
Definition set_h (v : Z) (r : t) : t :=
  mk (name r) (mina r) (maxa r) (x r) (y r) (w r) v (oldx r) (oldy r)
    (oldw r) (oldh r) (maximx r) (maximy r) (maximw r) (maximh r) (basew r)
    (baseh r) (incw r) (inch r) (maxw r) (maxh r) (minw r) (minh r)
    (hintsvalid r) (bw r) (oldbw r) (tags r) (isfixed r) (isfloating r)
    (isurgent r) (neverfocus r) (oldstate r) (isfullscreen r)
    (isminimized r) (mon r) (win r).
Definition set_oldx (v : Z) (r : t) : t :=
  mk (name r) (mina r) (maxa r) (x r) (y r) (w r) (h r) v (oldy r) (oldw r)
    (oldh r) (maximx r) (maximy r) (maximw r) (maximh r) (basew r) (baseh r)
    (incw r) (inch r) (maxw r) (maxh r) (minw r) (minh r) (hintsvalid r)
    (bw r) (oldbw r) (tags r) (isfixed r) (isfloating r) (isurgent r)
    (neverfocus r) (oldstate r) (isfullscreen r) (isminimized r) (mon r)
    (win r).
Definition set_oldy (v : Z) (r : t) : t :=
  mk (name r) (mina r) (maxa r) (x r) (y r) (w r) (h r) (oldx r) v (oldw r)
    (oldh r) (maximx r) (maximy r) (maximw r) (maximh r) (basew r) (baseh r)
    (incw r) (inch r) (maxw r) (maxh r) (minw r) (minh r) (hintsvalid r)
    (bw r) (oldbw r) (tags r) (isfixed r) (isfloating r) (isurgent r)
    (neverfocus r) (oldstate r) (isfullscreen r) (isminimized r) (mon r)
    (win r).
Definition set_oldw (v : Z) (r : t) : t :=
  mk (name r) (mina r) (maxa r) (x r) (y r) (w r) (h r) (oldx r) (oldy r) v
    (oldh r) (maximx r) (maximy r) (maximw r) (maximh r) (basew r) (baseh r)
    (incw r) (inch r) (maxw r) (maxh r) (minw r) (minh r) (hintsvalid r)
    (bw r) (oldbw r) (tags r) (isfixed r) (isfloating r) (isurgent r)
    (neverfocus r) (oldstate r) (isfullscreen r) (isminimized r) (mon r)
    (win r).
Definition set_oldh (v : Z) (r : t) : t :=
  mk (name r) (mina r) (maxa r) (x r) (y r) (w r) (h r) (oldx r) (oldy r)
    (oldw r) v (maximx r) (maximy r) (maximw r) (maximh r) (basew r)
    (baseh r) (incw r) (inch r) (maxw r) (maxh r) (minw r) (minh r)
    (hintsvalid r) (bw r) (oldbw r) (tags r) (isfixed r) (isfloating r)
    (isurgent r) (neverfocus r) (oldstate r) (isfullscreen r)
    (isminimized r) (mon r) (win r).
Definition set_maximx (v : Z) (r : t) : t :=
  mk (name r) (mina r) (maxa r) (x r) (y r) (w r) (h r) (oldx r) (oldy r)
    (oldw r) (oldh r) v (maximy r) (maximw r) (maximh r) (basew r) (baseh r)
    (incw r) (inch r) (maxw r) (maxh r) (minw r) (minh r) (hintsvalid r)
    (bw r) (oldbw r) (tags r) (isfixed r) (isfloating r) (isurgent r)
    (neverfocus r) (oldstate r) (isfullscreen r) (isminimized r) (mon r)
    (win r).
Definition set_maximy (v : Z) (r : t) : t :=
  mk (name r) (mina r) (maxa r) (x r) (y r) (w r) (h r) (oldx r) (oldy r)
    (oldw r) (oldh r) (maximx r) v (maximw r) (maximh r) (basew r) (baseh r)
    (incw r) (inch r) (maxw r) (maxh r) (minw r) (minh r) (hintsvalid r)
    (bw r) (oldbw r) (tags r) (isfixed r) (isfloating r) (isurgent r)
    (neverfocus r) (oldstate r) (isfullscreen r) (isminimized r) (mon r)
    (win r).
Definition set_maximw (v : Z) (r : t) : t :=
  mk (name r) (mina r) (maxa r) (x r) (y r) (w r) (h r) (oldx r) (oldy r)
    (oldw r) (oldh r) (maximx r) (maximy r) v (maximh r) (basew r) (baseh r)
    (incw r) (inch r) (maxw r) (maxh r) (minw r) (minh r) (hintsvalid r)
    (bw r) (oldbw r) (tags r) (isfixed r) (isfloating r) (isurgent r)
    (neverfocus r) (oldstate r) (isfullscreen r) (isminimized r) (mon r)
    (win r).
Definition set_maximh (v : Z) (r : t) : t :=
  mk (name r) (mina r) (maxa r) (x r) (y r) (w r) (h r) (oldx r) (oldy r)
    (oldw r) (oldh r) (maximx r) (maximy r) (maximw r) v (basew r) (baseh r)
    (incw r) (inch r) (maxw r) (maxh r) (minw r) (minh r) (hintsvalid r)
    (bw r) (oldbw r) (tags r) (isfixed r) (isfloating r) (isurgent r)
    (neverfocus r) (oldstate r) (isfullscreen r) (isminimized r) (mon r)
    (win r).
Definition set_basew (v : Z) (r : t) : t :=
  mk (name r) (mina r) (maxa r) (x r) (y r) (w r) (h r) (oldx r) (oldy r)
    (oldw r) (oldh r) (maximx r) (maximy r) (maximw r) (maximh r) v
    (baseh r) (incw r) (inch r) (maxw r) (maxh r) (minw r) (minh r)
    (hintsvalid r) (bw r) (oldbw r) (tags r) (isfixed r) (isfloating r)
    (isurgent r) (neverfocus r) (oldstate r) (isfullscreen r)
    (isminimized r) (mon r) (win r).
Definition set_baseh (v : Z) (r : t) : t :=
  mk (name r) (mina r) (maxa r) (x r) (y r) (w r) (h r) (oldx r) (oldy r)
    (oldw r) (oldh r) (maximx r) (maximy r) (maximw r) (maximh r) (basew r)
    v (incw r) (inch r) (maxw r) (maxh r) (minw r) (minh r) (hintsvalid r)
    (bw r) (oldbw r) (tags r) (isfixed r) (isfloating r) (isurgent r)
    (neverfocus r) (oldstate r) (isfullscreen r) (isminimized r) (mon r)
    (win r).
Definition set_incw (v : Z) (r : t) : t :=
  mk (name r) (mina r) (maxa r) (x r) (y r) (w r) (h r) (oldx r) (oldy r)
    (oldw r) (oldh r) (maximx r) (maximy r) (maximw r) (maximh r) (basew r)
    (baseh r) v (inch r) (maxw r) (maxh r) (minw r) (minh r) (hintsvalid r)
    (bw r) (oldbw r) (tags r) (isfixed r) (isfloating r) (isurgent r)
    (neverfocus r) (oldstate r) (isfullscreen r) (isminimized r) (mon r)
    (win r).
Definition set_inch (v : Z) (r : t) : t :=
  mk (name r) (mina r) (maxa r) (x r) (y r) (w r) (h r) (oldx r) (oldy r)
    (oldw r) (oldh r) (maximx r) (maximy r) (maximw r) (maximh r) (basew r)
    (baseh r) (incw r) v (maxw r) (maxh r) (minw r) (minh r) (hintsvalid r)
    (bw r) (oldbw r) (tags r) (isfixed r) (isfloating r) (isurgent r)
    (neverfocus r) (oldstate r) (isfullscreen r) (isminimized r) (mon r)
    (win r).
Definition set_maxw (v : Z) (r : t) : t :=
  mk (name r) (mina r) (maxa r) (x r) (y r) (w r) (h r) (oldx r) (oldy r)
    (oldw r) (oldh r) (maximx r) (maximy r) (maximw r) (maximh r) (basew r)
    (baseh r) (incw r) (inch r) v (maxh r) (minw r) (minh r) (hintsvalid r)
    (bw r) (oldbw r) (tags r) (isfixed r) (isfloating r) (isurgent r)
    (neverfocus r) (oldstate r) (isfullscreen r) (isminimized r) (mon r)
    (win r).
Definition set_maxh (v : Z) (r : t) : t :=
  mk (name r) (mina r) (maxa r) (x r) (y r) (w r) (h r) (oldx r) (oldy r)
    (oldw r) (oldh r) (maximx r) (maximy r) (maximw r) (maximh r) (basew r)
    (baseh r) (incw r) (inch r) (maxw r) v (minw r) (minh r) (hintsvalid r)
    (bw r) (oldbw r) (tags r) (isfixed r) (isfloating r) (isurgent r)
    (neverfocus r) (oldstate r) (isfullscreen r) (isminimized r) (mon r)
    (win r).
Definition set_minw (v : Z) (r : t) : t :=
  mk (name r) (mina r) (maxa r) (x r) (y r) (w r) (h r) (oldx r) (oldy r)
    (oldw r) (oldh r) (maximx r) (maximy r) (maximw r) (maximh r) (basew r)
    (baseh r) (incw r) (inch r) (maxw r) (maxh r) v (minh r) (hintsvalid r)
    (bw r) (oldbw r) (tags r) (isfixed r) (isfloating r) (isurgent r)
    (neverfocus r) (oldstate r) (isfullscreen r) (isminimized r) (mon r)
    (win r).
Definition set_minh (v : Z) (r : t) : t :=
  mk (name r) (mina r) (maxa r) (x r) (y r) (w r) (h r) (oldx r) (oldy r)
    (oldw r) (oldh r) (maximx r) (maximy r) (maximw r) (maximh r) (basew r)
    (baseh r) (incw r) (inch r) (maxw r) (maxh r) (minw r) v (hintsvalid r)
    (bw r) (oldbw r) (tags r) (isfixed r) (isfloating r) (isurgent r)
    (neverfocus r) (oldstate r) (isfullscreen r) (isminimized r) (mon r)
    (win r).
Definition set_hintsvalid (v : Z) (r : t) : t :=
  mk (name r) (mina r) (maxa r) (x r) (y r) (w r) (h r) (oldx r) (oldy r)
    (oldw r) (oldh r) (maximx r) (maximy r) (maximw r) (maximh r) (basew r)
    (baseh r) (incw r) (inch r) (maxw r) (maxh r) (minw r) (minh r) v (bw r)
    (oldbw r) (tags r) (isfixed r) (isfloating r) (isurgent r)
    (neverfocus r) (oldstate r) (isfullscreen r) (isminimized r) (mon r)
    (win r).
Definition set_bw (v : Z) (r : t) : t :=
  mk (name r) (mina r) (maxa r) (x r) (y r) (w r) (h r) (oldx r) (oldy r)
    (oldw r) (oldh r) (maximx r) (maximy r) (maximw r) (maximh r) (basew r)
    (baseh r) (incw r) (inch r) (maxw r) (maxh r) (minw r) (minh r)
    (hintsvalid r) v (oldbw r) (tags r) (isfixed r) (isfloating r)
    (isurgent r) (neverfocus r) (oldstate r) (isfullscreen r)
    (isminimized r) (mon r) (win r).
Definition set_oldbw (v : Z) (r : t) : t :=
  mk (name r) (mina r) (maxa r) (x r) (y r) (w r) (h r) (oldx r) (oldy r)
    (oldw r) (oldh r) (maximx r) (maximy r) (maximw r) (maximh r) (basew r)
    (baseh r) (incw r) (inch r) (maxw r) (maxh r) (minw r) (minh r)
    (hintsvalid r) (bw r) v (tags r) (isfixed r) (isfloating r) (isurgent r)
    (neverfocus r) (oldstate r) (isfullscreen r) (isminimized r) (mon r)
    (win r).
Definition set_tags (v : Z) (r : t) : t :=
  mk (name r) (mina r) (maxa r) (x r) (y r) (w r) (h r) (oldx r) (oldy r)
    (oldw r) (oldh r) (maximx r) (maximy r) (maximw r) (maximh r) (basew r)
    (baseh r) (incw r) (inch r) (maxw r) (maxh r) (minw r) (minh r)
    (hintsvalid r) (bw r) (oldbw r) v (isfixed r) (isfloating r)
    (isurgent r) (neverfocus r) (oldstate r) (isfullscreen r)
    (isminimized r) (mon r) (win r).
Definition set_isfixed (v : Z) (r : t) : t :=
  mk (name r) (mina r) (maxa r) (x r) (y r) (w r) (h r) (oldx r) (oldy r)
    (oldw r) (oldh r) (maximx r) (maximy r) (maximw r) (maximh r) (basew r)
    (baseh r) (incw r) (inch r) (maxw r) (maxh r) (minw r) (minh r)
    (hintsvalid r) (bw r) (oldbw r) (tags r) v (isfloating r) (isurgent r)
    (neverfocus r) (oldstate r) (isfullscreen r) (isminimized r) (mon r)
    (win r).
Definition set_isfloating (v : Z) (r : t) : t :=
  mk (name r) (mina r) (maxa r) (x r) (y r) (w r) (h r) (oldx r) (oldy r)
    (oldw r) (oldh r) (maximx r) (maximy r) (maximw r) (maximh r) (basew r)
    (baseh r) (incw r) (inch r) (maxw r) (maxh r) (minw r) (minh r)
    (hintsvalid r) (bw r) (oldbw r) (tags r) (isfixed r) v (isurgent r)
    (neverfocus r) (oldstate r) (isfullscreen r) (isminimized r) (mon r)
    (win r).
Definition set_isurgent (v : Z) (r : t) : t :=
  mk (name r) (mina r) (maxa r) (x r) (y r) (w r) (h r) (oldx r) (oldy r)
    (oldw r) (oldh r) (maximx r) (maximy r) (maximw r) (maximh r) (basew r)
    (baseh r) (incw r) (inch r) (maxw r) (maxh r) (minw r) (minh r)
    (hintsvalid r) (bw r) (oldbw r) (tags r) (isfixed r) (isfloating r) v
    (neverfocus r) (oldstate r) (isfullscreen r) (isminimized r) (mon r)
    (win r).
Definition set_oldstate (v : Z) (r : t) : t :=
  mk (name r) (mina r) (maxa r) (x r) (y r) (w r) (h r) (oldx r) (oldy r)
    (oldw r) (oldh r) (maximx r) (maximy r) (maximw r) (maximh r) (basew r)
    (baseh r) (incw r) (inch r) (maxw r) (maxh r) (minw r) (minh r)
    (hintsvalid r) (bw r) (oldbw r) (tags r) (isfixed r) (isfloating r)
    (isurgent r) (neverfocus r) v (isfullscreen r) (isminimized r) (mon r)
    (win r).
Definition set_isfullscreen (v : Z) (r : t) : t :=
  mk (name r) (mina r) (maxa r) (x r) (y r) (w r) (h r) (oldx r) (oldy r)
    (oldw r) (oldh r) (maximx r) (maximy r) (maximw r) (maximh r) (basew r)
    (baseh r) (incw r) (inch r) (maxw r) (maxh r) (minw r) (minh r)
    (hintsvalid r) (bw r) (oldbw r) (tags r) (isfixed r) (isfloating r)
    (isurgent r) (neverfocus r) (oldstate r) v (isminimized r) (mon r)
    (win r).
Definition set_isminimized (v : Z) (r : t) : t :=
  mk (name r) (mina r) (maxa r) (x r) (y r) (w r) (h r) (oldx r) (oldy r)
    (oldw r) (oldh r) (maximx r) (maximy r) (maximw r) (maximh r) (basew r)
    (baseh r) (incw r) (inch r) (maxw r) (maxh r) (minw r) (minh r)
    (hintsvalid r) (bw r) (oldbw r) (tags r) (isfixed r) (isfloating r)
    (isurgent r) (neverfocus r) (oldstate r) (isfullscreen r) v (mon r)
    (win r).
Definition set_mon (v : MonId) (r : t) : t :=
  mk (name r) (mina r) (maxa r) (x r) (y r) (w r) (h r) (oldx r) (oldy r)
    (oldw r) (oldh r) (maximx r) (maximy r) (maximw r) (maximh r) (basew r)
    (baseh r) (incw r) (inch r) (maxw r) (maxh r) (minw r) (minh r)
    (hintsvalid r) (bw r) (oldbw r) (tags r) (isfixed r) (isfloating r)
    (isurgent r) (neverfocus r) (oldstate r) (isfullscreen r)
    (isminimized r) v (win r).
End Client.

Module Monitor.
Record t : Type := mk {
  ltsymbol : string;
  mfact : float;
  nmaster : Z;
  num : Z;
  by_ : Z;  (* by: bar geometry *)
  mx : Z;
  my : Z;
  mw : Z;
  mh : Z;  (* screen size *)
  wx : Z;
  wy : Z;
  ww : Z;
  wh : Z;  (* window area *)
  seltags : Z;  (* unsigned int *)
  sellt : Z;  (* unsigned int *)
  tagset0 : Z;  (* tagset[0] *)
  tagset1 : Z;  (* tagset[1] *)
  showbar : Z;
  topbar : Z;
  clients : list CId;  (* the list threaded through Client.next *)
  sel : option CId;
  stack : list CId;  (* the list threaded through Client.snext *)
  barwin : Window;
  lt0 : Layout;  (* lt[0] *)
  lt1 : Layout  (* lt[1] *)
}.

Definition set_ltsymbol (v : string) (r : t) : t :=
  mk v (mfact r) (nmaster r) (num r) (by_ r) (mx r) (my r) (mw r) (mh r)
    (wx r) (wy r) (ww r) (wh r) (seltags r) (sellt r) (tagset0 r)
    (tagset1 r) (showbar r) (topbar r) (clients r) (sel r) (stack r)
    (barwin r) (lt0 r) (lt1 r).
Definition set_seltags (v : Z) (r : t) : t :=
  mk (ltsymbol r) (mfact r) (nmaster r) (num r) (by_ r) (mx r) (my r) (mw r)
    (mh r) (wx r) (wy r) (ww r) (wh r) v (sellt r) (tagset0 r) (tagset1 r)
    (showbar r) (topbar r) (clients r) (sel r) (stack r) (barwin r) (lt0 r)
    (lt1 r).
Definition set_tagset0 (v : Z) (r : t) : t :=
  mk (ltsymbol r) (mfact r) (nmaster r) (num r) (by_ r) (mx r) (my r) (mw r)
    (mh r) (wx r) (wy r) (ww r) (wh r) (seltags r) (sellt r) v (tagset1 r)
    (showbar r) (topbar r) (clients r) (sel r) (stack r) (barwin r) (lt0 r)
    (lt1 r).
Definition set_tagset1 (v : Z) (r : t) : t :=
  mk (ltsymbol r) (mfact r) (nmaster r) (num r) (by_ r) (mx r) (my r) (mw r)
    (mh r) (wx r) (wy r) (ww r) (wh r) (seltags r) (sellt r) (tagset0 r) v
    (showbar r) (topbar r) (clients r) (sel r) (stack r) (barwin r) (lt0 r)
    (lt1 r).
Definition set_clients (v : list CId) (r : t) : t :=
  mk (ltsymbol r) (mfact r) (nmaster r) (num r) (by_ r) (mx r) (my r) (mw r)
    (mh r) (wx r) (wy r) (ww r) (wh r) (seltags r) (sellt r) (tagset0 r)
    (tagset1 r) (showbar r) (topbar r) v (sel r) (stack r) (barwin r)
    (lt0 r) (lt1 r).
Definition set_sel (v : option CId) (r : t) : t :=
  mk (ltsymbol r) (mfact r) (nmaster r) (num r) (by_ r) (mx r) (my r) (mw r)
    (mh r) (wx r) (wy r) (ww r) (wh r) (seltags r) (sellt r) (tagset0 r)
    (tagset1 r) (showbar r) (topbar r) (clients r) v (stack r) (barwin r)
    (lt0 r) (lt1 r).
Definition set_stack (v : list CId) (r : t) : t :=
  mk (ltsymbol r) (mfact r) (nmaster r) (num r) (by_ r) (mx r) (my r) (mw r)
    (mh r) (wx r) (wy r) (ww r) (wh r) (seltags r) (sellt r) (tagset0 r)
    (tagset1 r) (showbar r) (topbar r) (clients r) (sel r) v (barwin r)
    (lt0 r) (lt1 r).
Definition set_nmaster (v : Z) (r : t) : t :=
  mk (ltsymbol r) (mfact r) v (num r) (by_ r) (mx r) (my r) (mw r) (mh r)
    (wx r) (wy r) (ww r) (wh r) (seltags r) (sellt r) (tagset0 r)
    (tagset1 r) (showbar r) (topbar r) (clients r) (sel r) (stack r)
    (barwin r) (lt0 r) (lt1 r).
Definition set_by_ (v : Z) (r : t) : t :=
  mk (ltsymbol r) (mfact r) (nmaster r) (num r) v (mx r) (my r) (mw r)
    (mh r) (wx r) (wy r) (ww r) (wh r) (seltags r) (sellt r) (tagset0 r)
    (tagset1 r) (showbar r) (topbar r) (clients r) (sel r) (stack r)
    (barwin r) (lt0 r) (lt1 r).
Definition set_wy (v : Z) (r : t) : t :=
  mk (ltsymbol r) (mfact r) (nmaster r) (num r) (by_ r) (mx r) (my r) (mw r)
    (mh r) (wx r) v (ww r) (wh r) (seltags r) (sellt r) (tagset0 r)
    (tagset1 r) (showbar r) (topbar r) (clients r) (sel r) (stack r)
    (barwin r) (lt0 r) (lt1 r).
Definition set_wh (v : Z) (r : t) : t :=
  mk (ltsymbol r) (mfact r) (nmaster r) (num r) (by_ r) (mx r) (my r) (mw r)
    (mh r) (wx r) (wy r) (ww r) v (seltags r) (sellt r) (tagset0 r)
    (tagset1 r) (showbar r) (topbar r) (clients r) (sel r) (stack r)
    (barwin r) (lt0 r) (lt1 r).
Definition set_showbar (v : Z) (r : t) : t :=
  mk (ltsymbol r) (mfact r) (nmaster r) (num r) (by_ r) (mx r) (my r) (mw r)
    (mh r) (wx r) (wy r) (ww r) (wh r) (seltags r) (sellt r) (tagset0 r)
    (tagset1 r) v (topbar r) (clients r) (sel r) (stack r) (barwin r)
    (lt0 r) (lt1 r).
End Monitor.

(** ** The X server *)

(** Constants of [X.h] and [Xutil.h]. *)
Definition CWX : Z := 1.
Definition CWY : Z := 2.
Definition CWWidth : Z := 4.
Definition CWHeight : Z := 8.
Definition CWBorderWidth : Z := 16.
Definition CWSibling : Z := 32.
Definition CWStackMode : Z := 64.
Definition PSize : Z := 8.
Definition PMinSize : Z := 16.
Definition PMaxSize : Z := 32.
Definition PResizeInc : Z := 64.
Definition PAspect : Z := 128.
Definition PBaseSize : Z := 256.
Definition NotifyNormal : Z := 0.
Definition NotifyInferior : Z := 2.
Definition WithdrawnState : Z := 0.
Definition NormalState : Z := 1.
Definition XUrgencyHint : Z := 256.
Definition Below : Z := 1.
Definition LockMask : Z := 2.
Definition None_ : Z := 0.

Record XSizeHints : Type := mkXSizeHints {
  sh_flags : Z;
  base_width : Z; base_height : Z;
  min_width : Z; min_height : Z;
  max_width : Z; max_height : Z;
  width_inc : Z; height_inc : Z;
  min_aspect_x : Z; min_aspect_y : Z;
  max_aspect_x : Z; max_aspect_y : Z
}.

(** What the server answers to the queries of the modelled functions. *)
Record XServer : Type := mkXServer {
  XGetClassHint : Window -> option string * option string; (* res_name, res_class *)
  XGetWMNormalHints : Window -> option XSizeHints;
  XQueryPointer : option (Z * Z);            (* root_x, root_y *)
  XGetWMProtocols : Window -> option (list Atom);
  XGetWMHints : Window -> option Z;          (* flags *)
  modifiermap : list (list Z);               (* eight rows of keycodes *)
  numlock_keycode : Z
}.

(** Requests sent to the server, and the calls of [resize] (kept in the
    same log so that the placement an arranger asks for can be told from
    what the size hints make of it). *)
Inductive Event : Type :=
| EvConfigureNotify (win : Window) (x y w h bw : Z)
| EvMoveResizeWindow (win : Window) (x y w h : Z)
| EvConfigureWindow (win : Window) (mask x y w h bw : Z) (sibling : Window) (stack_mode : Z)
| EvMoveWindow (win : Window) (x y : Z)
| EvRaiseWindow (win : Window)
| EvSync
| EvChangeProperty (win : Window) (prop : Atom) (data : list Z)
| EvDeleteProperty (win : Window) (prop : Atom)
| EvSetInputFocus (win : Window)
| EvSetWindowBorder (win : Window) (selected : bool)
| EvClientMessage (win : Window) (proto : Atom)
| EvGrabButtons (win : Window) (focused : Z)
| EvSetWMHints (win : Window) (flags : Z)
| EvDrainEnterNotify
| EvDrawBar (m : MonId)
| EvResize (c : CId) (x y w h interact : Z).

Module Plug.
Record t : Type := mk {
  sw : Z;
  sh : Z;  (* X display screen geometry width, height *)
  bh : Z;  (* bar height *)
  fonth : Z;  (* drw->fonts->h *)
  numlockmask : Z;  (* unsigned int *)
  netatom : NetAtom -> Atom;
  wmatom : WMAtom -> Atom;
  mons : list MonId;  (* the list threaded through Monitor.next *)
  selmon : MonId;
  root : Window;
  broken : string;
  mon_heap : gmap MonId Monitor.t;  (* allocated monitors *)
  client_heap : gmap CId Client.t;  (* allocated clients *)
  xsrv : XServer;  (* replies of the X server *)
  xlog : list Event  (* requests sent, oldest first *)
}.

Definition set_numlockmask (v : Z) (r : t) : t :=
  mk (sw r) (sh r) (bh r) (fonth r) v (netatom r) (wmatom r) (mons r)
    (selmon r) (root r) (broken r) (mon_heap r) (client_heap r) (xsrv r)
    (xlog r).
Definition set_selmon (v : MonId) (r : t) : t :=
  mk (sw r) (sh r) (bh r) (fonth r) (numlockmask r) (netatom r) (wmatom r)
    (mons r) v (root r) (broken r) (mon_heap r) (client_heap r) (xsrv r)
    (xlog r).
Definition set_mon_heap (v : gmap MonId Monitor.t) (r : t) : t :=
  mk (sw r) (sh r) (bh r) (fonth r) (numlockmask r) (netatom r) (wmatom r)
    (mons r) (selmon r) (root r) (broken r) v (client_heap r) (xsrv r)
    (xlog r).
Definition set_client_heap (v : gmap CId Client.t) (r : t) : t :=
  mk (sw r) (sh r) (bh r) (fonth r) (numlockmask r) (netatom r) (wmatom r)
    (mons r) (selmon r) (root r) (broken r) (mon_heap r) v (xsrv r)
    (xlog r).
Definition set_xlog (v : list Event) (r : t) : t :=
  mk (sw r) (sh r) (bh r) (fonth r) (numlockmask r) (netatom r) (wmatom r)
    (mons r) (selmon r) (root r) (broken r) (mon_heap r) (client_heap r)
    (xsrv r) v.
End Plug.


(** ** The monad of the handlers

    A handler reads and updates the global state [Plug.t]; its outcome is
    [None] when it dereferences a null or dangling pointer, or when a
    remainder traps. *)

Definition M (A : Type) : Type := Plug.t -> option (A * Plug.t).

Definition ret {A} (a : A) : M A := fun s => Some (a, s).

Definition bind {A B} (m : M A) (k : A -> M B) : M B :=
  fun s => match m s with
           | Some (a, s') => k a s'
           | None => None
           end.

#[global] Instance M_ret : MRet M := @ret.
#[global] Instance M_bind : MBind M := fun A B k m => bind m k.

Definition undefined {A} : M A := fun _ => None.
Definition gets {A} (f : Plug.t -> A) : M A := fun s => Some (f s, s).
Definition modify (f : Plug.t -> Plug.t) : M unit := fun s => Some (tt, f s).

(** [when b m] is [if (b) m;]. *)
Definition when (b : bool) (m : M unit) : M unit := if b then m else ret tt.

(** Dereferencing. *)
Definition deref {A} (p : option A) : M A :=
  match p with Some a => ret a | None => undefined end.
Definition client (c : CId) : M Client.t :=
  fun s => match Plug.client_heap s !! c with
           | Some v => Some (v, s)
           | None => None
           end.
Definition monitor (m : MonId) : M Monitor.t :=
  fun s => match Plug.mon_heap s !! m with
           | Some v => Some (v, s)
           | None => None
           end.

(** Assignments through a pointer. *)
Definition upd_client (c : CId) (f : Client.t -> Client.t) : M unit :=
  v ← client c;
  modify (fun s => Plug.set_client_heap (<[c := f v]> (Plug.client_heap s)) s).
Definition upd_monitor (m : MonId) (f : Monitor.t -> Monitor.t) : M unit :=
  v ← monitor m;
  modify (fun s => Plug.set_mon_heap (<[m := f v]> (Plug.mon_heap s)) s).

(** A request to the server. *)
Definition emit (e : Event) : M unit :=
  modify (fun s => Plug.set_xlog (Plug.xlog s ++ [e]) s).

(** [for] loops over a list. *)
Fixpoint forM {A} (l : list A) (f : A -> M unit) : M unit :=
  match l with
  | [] => ret tt
  | a :: l' => (f a ;; forM l' f)
  end.
Fixpoint foldM {A B} (l : list A) (f : B -> A -> M B) (b : B) : M B :=
  match l with
  | [] => ret b
  | a :: l' => b' ← f b a; foldM l' f b'
  end.

(** ** Macros *)

Definition WIDTH (c : Client.t) : Z := Client.w c +ₛ 2 *ₛ Client.bw c.
Definition HEIGHT (c : Client.t) : Z := Client.h c +ₛ 2 *ₛ Client.bw c.

(** [m->tagset[i]] and [m->lt[i]] for an index that is 0 or 1. *)
Definition tagset (m : Monitor.t) (i : Z) : Z :=
  if i =? 0 then Monitor.tagset0 m else Monitor.tagset1 m.
Definition set_tagset (i v : Z) (m : Monitor.t) : Monitor.t :=
  if i =? 0 then Monitor.set_tagset0 v m else Monitor.set_tagset1 v m.
Definition lt (m : Monitor.t) (i : Z) : Layout :=
  if i =? 0 then Monitor.lt0 m else Monitor.lt1 m.

(** [ISVISIBLE(C)]: [C->tags & C->mon->tagset[C->mon->seltags]]. *)
Definition visible (c : Client.t) (m : Monitor.t) : bool :=
  truthy (Z.land (Client.tags c) (tagset m (Monitor.seltags m))).
Definition ISVISIBLE (c : CId) : M bool :=
  v ← client c;
  m ← monitor (Client.mon v);
  ret (visible v m).

(** [INTERSECT(x,y,w,h,m)]. *)
Definition INTERSECT (x y w h : Z) (m : Monitor.t) : Z :=
  MAX 0 (MIN (x +ₛ w) (Monitor.wx m +ₛ Monitor.ww m) -ₛ MAX x (Monitor.wx m))
  *ₛ MAX 0 (MIN (y +ₛ h) (Monitor.wy m +ₛ Monitor.wh m) -ₛ MAX y (Monitor.wy m)).

(** ** Events delivered to the handlers *)

Record XConfigureRequestEvent : Type := mkConfigureRequest {
  cr_window : Window;
  cr_x : Z; cr_y : Z; cr_width : Z; cr_height : Z;
  cr_border_width : Z;
  cr_above : Window;
  cr_detail : Z;
  cr_value_mask : Z
}.

Record XCrossingEvent : Type := mkCrossing {
  xc_window : Window;
  xc_mode : Z;
  xc_detail : Z
}.

Record XClientMessageEvent : Type := mkClientMessage {
  cm_window : Window;
  cm_message_type : Atom;
  cm_l0 : Z; cm_l1 : Z; cm_l2 : Z     (* data.l[0..2] *)
}.

(** [flags & bit] as a condition. *)
Definition has (flags bit : Z) : bool := truthy (Z.land flags bit).

Section Dwm.

Variable cfg : Config.

(** ** Geometry and size hints *)

(** The assignments of [updatesizehints], given the reply to
    [XGetWMNormalHints]; without a reply [size.flags] is [PSize] and no
    other field of [size] is read. *)
Definition sizehints_of (reply : option XSizeHints) (c : Client.t) : Client.t :=
  let flags := from_option sh_flags PSize reply in
  let fld (f : XSizeHints -> Z) := from_option f 0 reply in
  let c :=
    if has flags PBaseSize then
      Client.set_baseh (fld base_height) (Client.set_basew (fld base_width) c)
    else if has flags PMinSize then
      Client.set_baseh (fld min_height) (Client.set_basew (fld min_width) c)
    else Client.set_baseh 0 (Client.set_basew 0 c) in
  let c :=
    if has flags PResizeInc then
      Client.set_inch (fld height_inc) (Client.set_incw (fld width_inc) c)
    else Client.set_inch 0 (Client.set_incw 0 c) in
  let c :=
    if has flags PMaxSize then
      Client.set_maxh (fld max_height) (Client.set_maxw (fld max_width) c)
    else Client.set_maxh 0 (Client.set_maxw 0 c) in
  let c :=
    if has flags PMinSize then
      Client.set_minh (fld min_height) (Client.set_minw (fld min_width) c)
    else if has flags PBaseSize then
      Client.set_minh (fld base_height) (Client.set_minw (fld base_width) c)
    else Client.set_minh 0 (Client.set_minw 0 c) in
  let c :=
    if has flags PAspect then
      Client.set_maxa
        (F32.div (F32.of_int (fld max_aspect_x)) (F32.of_int (fld max_aspect_y)))
        (Client.set_mina
           (F32.div (F32.of_int (fld min_aspect_y)) (F32.of_int (fld min_aspect_x)))
           c)
    else Client.set_mina F32.zero (Client.set_maxa F32.zero c) in
  let c :=
    Client.set_isfixed
      (of_bool (truthy (Client.maxw c) && truthy (Client.maxh c)
                && (Client.maxw c =? Client.minw c)
                && (Client.maxh c =? Client.minh c))) c in
  Client.set_hintsvalid 1 c.

Definition updatesizehints (c : CId) : M unit :=
  v ← client c;
  srv ← gets Plug.xsrv;
  upd_client c (sizehints_of (XGetWMNormalHints srv (Client.win v))).

(** The bounds [applysizehints] puts on the position: those of the screen
    when [interact] is set, those of the monitor's window area otherwise. *)
Definition clamp_interact (c : Client.t) (sw sh : Z) (x y w h : Z) : Z * Z :=
  let x := if sw <? x then sw -ₛ WIDTH c else x in
  let y := if sh <? y then sh -ₛ HEIGHT c else y in
  let x := if x +ₛ w +ₛ 2 *ₛ Client.bw c <? 0 then 0 else x in
  let y := if y +ₛ h +ₛ 2 *ₛ Client.bw c <? 0 then 0 else y in
  (x, y).

Definition clamp_area (c : Client.t) (m : Monitor.t) (x y w h : Z) : Z * Z :=
  let x := if Monitor.wx m +ₛ Monitor.ww m <=? x
           then Monitor.wx m +ₛ Monitor.ww m -ₛ WIDTH c else x in
  let y := if Monitor.wy m +ₛ Monitor.wh m <=? y
           then Monitor.wy m +ₛ Monitor.wh m -ₛ HEIGHT c else y in
  let x := if x +ₛ w +ₛ 2 *ₛ Client.bw c <=? Monitor.wx m then Monitor.wx m else x in
  let y := if y +ₛ h +ₛ 2 *ₛ Client.bw c <=? Monitor.wy m then Monitor.wy m else y in
  (x, y).

(** The second part: ICCCM 4.1.2.3 on a client whose hints are loaded;
    [None] where a remainder traps. *)
Definition icccm_hints (c : Client.t) (w h : Z) : option (Z * Z) :=
  let baseismin := (Client.basew c =? Client.minw c) && (Client.baseh c =? Client.minh c) in
  let '(w, h) :=
    if negb baseismin then (w -ₛ Client.basew c, h -ₛ Client.baseh c) else (w, h) in
  let '(w, h) :=
    if F32.ltb F32.zero (Client.mina c) && F32.ltb F32.zero (Client.maxa c) then
      if F32.ltb (Client.maxa c) (F32.div (F32.of_int w) (F32.of_int h)) then
        (float_to_int
           (F64.add (F64.of_f32 (F32.mul (F32.of_int h) (Client.maxa c))) F64.half), h)
      else if F32.ltb (Client.mina c) (F32.div (F32.of_int h) (F32.of_int w)) then
        (w, float_to_int
              (F64.add (F64.of_f32 (F32.mul (F32.of_int w) (Client.mina c))) F64.half))
      else (w, h)
    else (w, h) in
  let '(w, h) :=
    if baseismin then (w -ₛ Client.basew c, h -ₛ Client.baseh c) else (w, h) in
  w ← (if truthy (Client.incw c)
       then r ← crem w (Client.incw c); Some (w -ₛ sint r) else Some w);
  h ← (if truthy (Client.inch c)
       then r ← crem h (Client.inch c); Some (h -ₛ sint r) else Some h);
  let w := MAX (w +ₛ Client.basew c) (Client.minw c) in
  let h := MAX (h +ₛ Client.baseh c) (Client.minh c) in
  let w := if truthy (Client.maxw c) then MIN w (Client.maxw c) else w in
  let h := if truthy (Client.maxh c) then MIN h (Client.maxh c) else h in
  Some (w, h).

(** The rectangle [applysizehints] leaves in [*x, *y, *w, *h], and the
    value it returns. *)
Record SizeResult : Type := mkSizeResult {
  res_x : Z; res_y : Z; res_w : Z; res_h : Z;
  changed : bool
}.

Definition applysizehints (c : CId) (x y w h : Z) (interact : Z) : M SizeResult :=
  v ← client c;
  (* set minimum possible *)
  let w := MAX 1 w in
  let h := MAX 1 h in
  '(x, y) ←
    (if truthy interact then
       sw ← gets Plug.sw; sh ← gets Plug.sh;
       mret (clamp_interact v sw sh x y w h)
     else
       m ← monitor (Client.mon v);
       mret (clamp_area v m x y w h));
  bh ← gets Plug.bh;
  let h := if h <? bh then bh else h in
  let w := if w <? bh then bh else w in
  usehints ←
    (if truthy (resizehints cfg) || truthy (Client.isfloating v) then mret true
     else
       m ← monitor (Client.mon v);
       mret (negb (bool_decide (is_Some (arrange_fn (lt m (Monitor.sellt m)))))));
  '(w, h) ←
    (if usehints : bool then
       when (negb (truthy (Client.hintsvalid v))) (updatesizehints c);;
       v ← client c;
       deref (icccm_hints v w h)
     else mret (w, h));
  v ← client c;
  mret (mkSizeResult x y w h
          (negb ((x =? Client.x v) && (y =? Client.y v)
                 && (w =? Client.w v) && (h =? Client.h v)))).

Definition configure (c : CId) : M unit :=
  v ← client c;
  emit (EvConfigureNotify (Client.win v) (Client.x v) (Client.y v)
          (Client.w v) (Client.h v) (Client.bw v)).

Definition resizeclient (c : CId) (x y w h : Z) : M unit :=
  upd_client c (fun v =>
    Client.set_h h (Client.set_oldh (Client.h v)
    (Client.set_w w (Client.set_oldw (Client.w v)
    (Client.set_y y (Client.set_oldy (Client.y v)
    (Client.set_x x (Client.set_oldx (Client.x v) v))))))));;
  v ← client c;
  emit (EvConfigureWindow (Client.win v)
          (Z.lor CWX (Z.lor CWY (Z.lor CWWidth (Z.lor CWHeight CWBorderWidth))))
          x y w h (Client.bw v) 0 0);;
  configure c;;
  emit EvSync.

Definition resize (c : CId) (x y w h : Z) (interact : Z) : M unit :=
  emit (EvResize c x y w h interact);;
  r ← applysizehints c x y w h interact;
  when (changed r) (resizeclient c (res_x r) (res_y r) (res_w r) (res_h r)).

(** ** Layouts *)

(** The clients [nexttiled] stops at: not floating, and visible. *)
Definition tiled (c : CId) : M bool :=
  v ← client c;
  if truthy (Client.isfloating v) then mret false else ISVISIBLE c.

(** [nexttiled(c)] on the list that starts at [c]. *)
Fixpoint nexttiled (l : list CId) : M (list CId) :=
  match l with
  | [] => mret []
  | c :: l' => t ← tiled c; if t : bool then mret l else nexttiled l'
  end.

(** [for (c = nexttiled(m->clients); c; c = nexttiled(c->next))] with the
    loop variables [B]. *)
Definition for_tiled {B} (l : list CId) (body : B -> CId -> M B) (b : B) : M B :=
  foldM l (fun b c => t ← tiled c; if t : bool then body b c else mret b) b.

(** The width of the master area, as [tile] computes it from the number
    [n] of tiled clients. *)
Definition tile_mw (m : Monitor.t) (n : Z) : Z :=
  if uint (Monitor.nmaster m) <? n then
    if truthy (Monitor.nmaster m)
    then float_to_uint (F32.mul (F32.of_int (Monitor.ww m)) (Monitor.mfact m))
    else 0
  else uint (Monitor.ww m).

(** One iteration of the second loop of [tile]; the loop variables are
    [(i, my, ty)], all [unsigned int]. *)
Definition tile_step (m : Monitor.t) (n mw : Z) (st : Z * Z * Z) (c : CId)
    : M (Z * Z * Z) :=
  let '(i, my, ty) := st in
  v ← client c;
  if i <? uint (Monitor.nmaster m) then
    let h := (uint (Monitor.wh m) -ᵤ my) /ᵤ (MIN n (uint (Monitor.nmaster m)) -ᵤ i) in
    resize c (Monitor.wx m) (sint (uint (Monitor.wy m) +ᵤ my))
      (sint (mw -ᵤ uint (2 *ₛ Client.bw v))) (sint (h -ᵤ uint (2 *ₛ Client.bw v))) 0;;
    v ← client c;
    let my := if my +ᵤ uint (HEIGHT v) <? uint (Monitor.wh m)
              then my +ᵤ uint (HEIGHT v) else my in
    mret (i +ᵤ 1, my, ty)
  else
    let h := (uint (Monitor.wh m) -ᵤ ty) /ᵤ (n -ᵤ i) in
    resize c (sint (uint (Monitor.wx m) +ᵤ mw)) (sint (uint (Monitor.wy m) +ᵤ ty))
      (sint (uint (Monitor.ww m) -ᵤ mw -ᵤ uint (2 *ₛ Client.bw v)))
      (sint (h -ᵤ uint (2 *ₛ Client.bw v))) 0;;
    v ← client c;
    let ty := if ty +ᵤ uint (HEIGHT v) <? uint (Monitor.wh m)
              then ty +ᵤ uint (HEIGHT v) else ty in
    mret (i +ᵤ 1, my, ty).

Definition tile (mid : MonId) : M unit :=
  m ← monitor mid;
  n ← for_tiled (Monitor.clients m) (fun n _ => mret (n +ᵤ 1)) 0;
  if n =? 0 then mret tt
  else
    let mw := tile_mw m n in
    for_tiled (Monitor.clients m) (tile_step m n mw) (0, 0, 0);;
    mret tt.

(** [snprintf(m->ltsymbol, sizeof m->ltsymbol, "[%d]", n)]. *)
Definition monocle_symbol (n : Z) : string :=
  String.substring 0 15 ("[" +:+ pretty (sint n) +:+ "]").

Definition monocle (mid : MonId) : M unit :=
  m ← monitor mid;
  n ← foldM (Monitor.clients m)
        (fun n c => vis ← ISVISIBLE c; mret (if vis : bool then n +ᵤ 1 else n)) 0;
  when (0 <? n) (upd_monitor mid (Monitor.set_ltsymbol (monocle_symbol n)));;
  for_tiled (Monitor.clients m)
    (fun _ c =>
       v ← client c;
       m ← monitor mid;
       resize c (Monitor.wx m) (Monitor.wy m)
         (Monitor.ww m -ₛ 2 *ₛ Client.bw v) (Monitor.wh m -ₛ 2 *ₛ Client.bw v) 0) tt.

(** [strncpy(m->ltsymbol, symbol, sizeof m->ltsymbol)]. *)
Definition arrangemon (mid : MonId) : M unit :=
  m ← monitor mid;
  upd_monitor mid
    (Monitor.set_ltsymbol (String.substring 0 16 (symbol (lt m (Monitor.sellt m)))));;
  match arrange_fn (lt m (Monitor.sellt m)) with
  | Some ArrTile => tile mid
  | Some ArrMonocle => monocle mid
  | None => mret tt
  end.

(** [showhide(c)] on the part of the focus stack that starts at [c]. *)
Fixpoint showhide (l : list CId) : M unit :=
  match l with
  | [] => mret tt
  | c :: l' =>
      vis ← ISVISIBLE c;
      if vis : bool then
        (* show clients top down *)
        v ← client c;
        emit (EvMoveWindow (Client.win v) (Client.x v) (Client.y v));;
        m ← monitor (Client.mon v);
        when ((negb (bool_decide (is_Some (arrange_fn (lt m (Monitor.sellt m)))))
               || truthy (Client.isfloating v))
              && negb (truthy (Client.isfullscreen v)))
          (resize c (Client.x v) (Client.y v) (Client.w v) (Client.h v) 0);;
        showhide l'
      else
        (* hide clients bottom up *)
        showhide l';;
        v ← client c;
        emit (EvMoveWindow (Client.win v) (WIDTH v *ₛ (-2)) (Client.y v))
  end.

(** The drawing of the bar is left to the drawable module; only the
    request to draw is recorded. *)
Definition drawbar (mid : MonId) : M unit :=
  m ← monitor mid;
  when (truthy (Monitor.showbar m)) (emit (EvDrawBar mid)).

Definition drawbars : M unit :=
  ms ← gets Plug.mons;
  forM ms drawbar.

Definition restack (mid : MonId) : M unit :=
  drawbar mid;;
  m ← monitor mid;
  match Monitor.sel m with
  | None => mret tt
  | Some sel =>
      v ← client sel;
      let arr := bool_decide (is_Some (arrange_fn (lt m (Monitor.sellt m)))) in
      when (truthy (Client.isfloating v) || negb arr) (emit (EvRaiseWindow (Client.win v)));;
      when arr
        (foldM (Monitor.stack m)
           (fun sibling c =>
              v ← client c;
              if truthy (Client.isfloating v) then mret sibling
              else
                vis ← ISVISIBLE c;
                if vis : bool then
                  emit (EvConfigureWindow (Client.win v) (Z.lor CWSibling CWStackMode)
                          0 0 0 0 0 sibling Below);;
                  mret (Client.win v)
                else mret sibling)
           (Monitor.barwin m);;
         mret tt);;
      emit EvSync;;
      emit EvDrainEnterNotify
  end.

(** [arrange(m)]; [None] is the null pointer. *)
Definition arrange (m : option MonId) : M unit :=
  match m with
  | Some mid =>
      v ← monitor mid;
      showhide (Monitor.stack v);;
      arrangemon mid;;
      restack mid
  | None =>
      ms ← gets Plug.mons;
      forM ms (fun mid => v ← monitor mid; showhide (Monitor.stack v));;
      forM ms arrangemon
  end.

(** ** Focus and stacking *)

(** The mask [updatenumlockmask] computes: [1 << i] for the last row [i]
    of the modifier map that holds the keycode of Num_Lock. *)
Definition numlock_of (rows : list (list Z)) (keycode : Z) : Z :=
  snd (fold_left
         (fun '(i, mask) row =>
            (i + 1, if existsb (Z.eqb keycode) row then uint (Z.shiftl 1 i) else mask))
         (firstn 8 rows) (0, 0)).

Definition updatenumlockmask : M unit :=
  srv ← gets Plug.xsrv;
  modify (Plug.set_numlockmask (numlock_of (modifiermap srv) (numlock_keycode srv))).

Definition grabbuttons (c : CId) (focused : Z) : M unit :=
  updatenumlockmask;;
  v ← client c;
  emit (EvGrabButtons (Client.win v) focused).

Definition unfocus (c : option CId) (setfocus : Z) : M unit :=
  match c with
  | None => mret tt
  | Some c =>
      grabbuttons c 0;;
      v ← client c;
      emit (EvSetWindowBorder (Client.win v) false);;
      when (truthy setfocus)
        (root ← gets Plug.root;
         atoms ← gets Plug.netatom;
         emit (EvSetInputFocus root);;
         emit (EvDeleteProperty root (atoms NetActiveWindow)))
  end.

Definition seturgent (c : CId) (urg : Z) : M unit :=
  upd_client c (Client.set_isurgent urg);;
  v ← client c;
  srv ← gets Plug.xsrv;
  match XGetWMHints srv (Client.win v) with
  | None => mret tt
  | Some flags =>
      emit (EvSetWMHints (Client.win v)
              (if truthy urg then Z.lor flags XUrgencyHint
               else Z.land flags (Z.lnot XUrgencyHint)))
  end.

(** The first visible client of a focus stack. *)
Fixpoint first_visible (l : list CId) : M (option CId) :=
  match l with
  | [] => mret None
  | c :: l' => vis ← ISVISIBLE c; if vis : bool then mret (Some c) else first_visible l'
  end.

(** Unlinking [c] from a list; a client that is not on the list and has
    a null successor leaves the list as it is. *)
Fixpoint unlink (c : CId) (l : list CId) : list CId :=
  match l with
  | [] => []
  | d :: l' => if decide (d = c) then l' else d :: unlink c l'
  end.

Definition detach (c : CId) : M unit :=
  v ← client c;
  upd_monitor (Client.mon v) (fun m => Monitor.set_clients (unlink c (Monitor.clients m)) m).

Definition detachstack (c : CId) : M unit :=
  v ← client c;
  upd_monitor (Client.mon v) (fun m => Monitor.set_stack (unlink c (Monitor.stack m)) m);;
  m ← monitor (Client.mon v);
  when (bool_decide (Monitor.sel m = Some c))
    (t ← first_visible (Monitor.stack m);
     upd_monitor (Client.mon v) (Monitor.set_sel t)).

Definition attach (c : CId) : M unit :=
  v ← client c;
  upd_monitor (Client.mon v) (fun m => Monitor.set_clients (c :: Monitor.clients m) m).

Definition attachstack (c : CId) : M unit :=
  v ← client c;
  upd_monitor (Client.mon v) (fun m => Monitor.set_stack (c :: Monitor.stack m) m).

Definition sendevent (c : CId) (proto : Atom) : M bool :=
  v ← client c;
  srv ← gets Plug.xsrv;
  let exists_ :=
    match XGetWMProtocols srv (Client.win v) with
    | Some protocols => existsb (Z.eqb proto) protocols
    | None => false
    end in
  when exists_ (emit (EvClientMessage (Client.win v) proto));;
  mret exists_.

Definition setfocus (c : CId) : M unit :=
  v ← client c;
  when (negb (truthy (Client.neverfocus v)))
    (root ← gets Plug.root;
     atoms ← gets Plug.netatom;
     emit (EvSetInputFocus (Client.win v));;
     emit (EvChangeProperty root (atoms NetActiveWindow) [Client.win v]));;
  wm ← gets Plug.wmatom;
  sendevent c (wm WMTakeFocus);;
  mret tt.

Definition focus (c : option CId) : M unit :=
  c ←
    (vis ← match c with Some c => ISVISIBLE c | None => mret false end;
     if vis : bool then mret c
     else
       sm ← gets Plug.selmon;
       m ← monitor sm;
       first_visible (Monitor.stack m));
  sm ← gets Plug.selmon;
  m ← monitor sm;
  when (bool_decide (is_Some (Monitor.sel m)) && negb (bool_decide (Monitor.sel m = c)))
    (unfocus (Monitor.sel m) 0);;
  match c with
  | Some c =>
      v ← client c;
      sm ← gets Plug.selmon;
      when (negb (bool_decide (Client.mon v = sm))) (modify (Plug.set_selmon (Client.mon v)));;
      when (truthy (Client.isurgent v)) (seturgent c 0);;
      detachstack c;;
      attachstack c;;
      grabbuttons c 1;;
      emit (EvSetWindowBorder (Client.win v) true);;
      setfocus c
  | None =>
      root ← gets Plug.root;
      atoms ← gets Plug.netatom;
      emit (EvSetInputFocus root);;
      emit (EvDeleteProperty root (atoms NetActiveWindow))
  end;;
  sm ← gets Plug.selmon;
  upd_monitor sm (Monitor.set_sel c);;
  drawbars.

Definition setclientstate (c : option CId) (state : Z) : M unit :=
  c ← deref c;
  v ← client c;
  wm ← gets Plug.wmatom;
  emit (EvChangeProperty (Client.win v) (wm WMState) [state; None_]).

(** ** Fullscreen, floating, minimized *)

Definition setfullscreen (c : CId) (fullscreen : Z) : M unit :=
  v ← client c;
  atoms ← gets Plug.netatom;
  if truthy fullscreen && negb (truthy (Client.isfullscreen v)) then
    emit (EvChangeProperty (Client.win v) (atoms NetWMState) [atoms NetWMFullscreen]);;
    upd_client c (fun v =>
      Client.set_isfloating 1 (Client.set_bw 0 (Client.set_oldbw (Client.bw v)
        (Client.set_oldstate (Client.isfloating v) (Client.set_isfullscreen 1 v)))));;
    m ← monitor (Client.mon v);
    resizeclient c (Monitor.mx m) (Monitor.my m) (Monitor.mw m) (Monitor.mh m);;
    emit (EvRaiseWindow (Client.win v))
  else if negb (truthy fullscreen) && truthy (Client.isfullscreen v) then
    emit (EvChangeProperty (Client.win v) (atoms NetWMState) []);;
    upd_client c (fun v =>
      Client.set_h (Client.oldh v) (Client.set_w (Client.oldw v)
        (Client.set_y (Client.oldy v) (Client.set_x (Client.oldx v)
          (Client.set_bw (Client.oldbw v) (Client.set_isfloating (Client.oldstate v)
            (Client.set_isfullscreen 0 v)))))));;
    v ← client c;
    resizeclient c (Client.x v) (Client.y v) (Client.w v) (Client.h v);;
    arrange (Some (Client.mon v))
  else mret tt.

Definition togglefloating : M unit :=
  sm ← gets Plug.selmon;
  m ← monitor sm;
  match Monitor.sel m with
  | None => mret tt
  | Some sel =>
      v ← client sel;
      if truthy (Client.isfullscreen v) then mret tt (* no support for fullscreen windows *)
      else
        upd_client sel (fun v =>
          Client.set_isfloating
            (of_bool (negb (truthy (Client.isfloating v)) || truthy (Client.isfixed v))) v);;
        v ← client sel;
        when (truthy (Client.isfloating v))
          (resize sel (Client.x v) (Client.y v) (Client.w v) (Client.h v) 0);;
        arrange (Some sm)
  end.

(** The loop shared by [minimize] and [restore]: every minimized client
    of the monitor [mid] is resized to [50] by [height], at steps of 50
    from [x]. *)
Definition place_minimized (mid : MonId) (height : Z) (l : list CId) (x : Z) : M Z :=
  foldM l
    (fun x d =>
       v ← client d;
       if truthy (Client.isminimized v) && bool_decide (Client.mon v = mid) then
         dm ← monitor (Client.mon v);
         fh ← gets Plug.fonth;
         resize d x (Monitor.my dm +ₛ fh +ₛ 2) 50 height 0;;
         mret (x +ₛ 50)
       else mret x) x.

Definition minimize (c : option CId) : M unit :=
  match c with
  | None => mret tt
  | Some c =>
      v ← client c;
      if truthy (Client.isminimized v) then mret tt
      else
        upd_client c (fun v =>
          Client.set_maximh (Client.h v) (Client.set_maximw (Client.w v)
            (Client.set_maximy (Client.y v) (Client.set_maximx (Client.x v) v))));;
        m ← monitor (Client.mon v);
        upd_client c (fun v =>
          Client.set_isfullscreen 0 (Client.set_isfloating 1 (Client.set_isminimized 1 v)));;
        place_minimized (Client.mon v) 20 (Monitor.clients m) (Monitor.mx m);;
        upd_client c (Client.set_isfixed 1);;
        arrange (Some (Client.mon v))
  end.

Definition restore (c : option CId) : M unit :=
  match c with
  | None => mret tt
  | Some c =>
      v ← client c;
      if negb (truthy (Client.isminimized v)) then mret tt
      else
        resize c (Client.maximx v) (Client.maximy v) (Client.maximw v) (Client.maximh v) 1;;
        m ← monitor (Client.mon v);
        upd_client c (fun v => Client.set_isfixed 0 (Client.set_isminimized 0 v));;
        place_minimized (Client.mon v) 10 (Monitor.clients m) (Monitor.mx m);;
        arrange (Some (Client.mon v))
  end.

Definition toggleminimize : M unit :=
  sm ← gets Plug.selmon;
  m ← monitor sm;
  sel ← deref (Monitor.sel m);
  v ← client sel;
  if truthy (Client.isminimized v) then restore (Some sel) else minimize (Some sel).

(** ** Tags and views *)

(** [createmon]: the monitor [ecalloc] returns, zeroed, after the
    assignments of the function. *)
Definition createmon : Monitor.t :=
  let l0 := layout_hd cfg in
  let l1 := match layout_tl cfg with [] => layout_hd cfg | l :: _ => l end in
  Monitor.mk (String.substring 0 16 (symbol l0)) (cfg_mfact cfg) (cfg_nmaster cfg)
    0 0 0 0 0 0 0 0 0 0 0 0 1 1 (cfg_showbar cfg) (cfg_topbar cfg) [] None [] 0 l0 l1.

Definition view (ui : Z) : M unit :=
  sm ← gets Plug.selmon;
  m ← monitor sm;
  if Z.land ui (TAGMASK cfg) =? tagset m (Monitor.seltags m) then mret tt
  else
    upd_monitor sm (fun m => Monitor.set_seltags (Z.lxor (Monitor.seltags m) 1) m);; (* toggle sel tagset *)
    when (truthy (Z.land ui (TAGMASK cfg)))
      (upd_monitor sm (fun m => set_tagset (Monitor.seltags m) (Z.land ui (TAGMASK cfg)) m));;
    focus None;;
    sm ← gets Plug.selmon;
    arrange (Some sm).

Definition toggleview (ui : Z) : M unit :=
  sm ← gets Plug.selmon;
  m ← monitor sm;
  let newtagset := Z.lxor (tagset m (Monitor.seltags m)) (Z.land ui (TAGMASK cfg)) in
  when (truthy newtagset)
    (upd_monitor sm (fun m => set_tagset (Monitor.seltags m) newtagset m);;
     focus None;;
     sm ← gets Plug.selmon;
     arrange (Some sm)).

Definition tag (ui : Z) : M unit :=
  sm ← gets Plug.selmon;
  m ← monitor sm;
  when (bool_decide (is_Some (Monitor.sel m)) && truthy (Z.land ui (TAGMASK cfg)))
    (sel ← deref (Monitor.sel m);
     upd_client sel (Client.set_tags (Z.land ui (TAGMASK cfg)));;
     focus None;;
     sm ← gets Plug.selmon;
     arrange (Some sm)).

Definition toggletag (ui : Z) : M unit :=
  sm ← gets Plug.selmon;
  m ← monitor sm;
  match Monitor.sel m with
  | None => mret tt
  | Some sel =>
      v ← client sel;
      let newtags := Z.lxor (Client.tags v) (Z.land ui (TAGMASK cfg)) in
      when (truthy newtags)
        (upd_client sel (Client.set_tags newtags);;
         focus None;;
         sm ← gets Plug.selmon;
         arrange (Some sm))
  end.

(** ** Rules *)

(** [strstr(haystack, needle) != NULL]. *)
Fixpoint strstr (haystack needle : string) : bool :=
  if String.prefix needle haystack then true
  else match haystack with
       | EmptyString => false
       | String _ rest => strstr rest needle
       end.

(** [!pattern || strstr(text, pattern)]. *)
Definition pattern_matches (pattern : option string) (text : string) : bool :=
  match pattern with
  | None => true
  | Some p => strstr text p
  end.

(** The first monitor whose [num] is [n], or null. *)
Fixpoint monitor_numbered (n : Z) (ms : list MonId) : M (option MonId) :=
  match ms with
  | [] => mret None
  | mid :: ms' =>
      m ← monitor mid;
      if Monitor.num m =? n then mret (Some mid) else monitor_numbered n ms'
  end.

Definition applyrules (c : CId) : M unit :=
  (* rule matching *)
  upd_client c (fun v => Client.set_tags 0 (Client.set_isfloating 0 v));;
  v ← client c;
  srv ← gets Plug.xsrv;
  broken ← gets Plug.broken;
  let ch := XGetClassHint srv (Client.win v) in
  let class := from_option id broken (snd ch) in
  let instance := from_option id broken (fst ch) in
  forM (rules cfg)
    (fun r =>
       when (pattern_matches (r_title r) (Client.name v)
             && pattern_matches (r_class r) class
             && pattern_matches (r_instance r) instance)
         (upd_client c (fun v =>
            Client.set_tags (Z.lor (Client.tags v) (r_tags r))
              (Client.set_isfloating (r_isfloating r) v));;
          ms ← gets Plug.mons;
          m ← monitor_numbered (r_monitor r) ms;
          match m with
          | Some mid => upd_client c (Client.set_mon mid)
          | None => mret tt
          end));;
  v ← client c;
  if truthy (Z.land (Client.tags v) (TAGMASK cfg)) then
    upd_client c (Client.set_tags (Z.land (Client.tags v) (TAGMASK cfg)))
  else
    m ← monitor (Client.mon v);
    upd_client c (Client.set_tags (tagset m (Monitor.seltags m))).

(** ** Looking windows up *)

Definition wintoclient (w : Window) : M (option CId) :=
  ms ← gets Plug.mons;
  foldM ms
    (fun found mid =>
       match found with
       | Some _ => mret found
       | None =>
           m ← monitor mid;
           foldM (Monitor.clients m)
             (fun found c =>
                match found with
                | Some _ => mret found
                | None => v ← client c; mret (if Client.win v =? w then Some c else None)
                end) None
       end) None.

Definition recttomon (x y w h : Z) : M MonId :=
  ms ← gets Plug.mons;
  sm ← gets Plug.selmon;
  '(r, _) ← foldM ms
    (fun '(r, area) mid =>
       m ← monitor mid;
       let a := INTERSECT x y w h m in
       mret (if area <? a then (mid, a) else (r, area))) (sm, 0);
  mret r.

Definition wintomon (w : Window) : M MonId :=
  root ← gets Plug.root;
  srv ← gets Plug.xsrv;
  match (if w =? root then XQueryPointer srv else None) with
  | Some (x, y) => recttomon x y 1 1
  | None =>
      ms ← gets Plug.mons;
      bar ← foldM ms
        (fun found mid =>
           match found with
           | Some _ => mret found
           | None => m ← monitor mid; mret (if w =? Monitor.barwin m then Some mid else None)
           end) None;
      match bar with
      | Some mid => mret mid
      | None =>
          c ← wintoclient w;
          match c with
          | Some c => v ← client c; mret (Client.mon v)
          | None => gets Plug.selmon
          end
      end
  end.

(** ** Event handlers *)

Definition configurerequest (ev : XConfigureRequestEvent) : M unit :=
  c ← wintoclient (cr_window ev);
  match c with
  | Some c =>
      upd_client c (Client.set_isfloating 1);;
      v ← client c;
      (if has (cr_value_mask ev) CWBorderWidth then
         upd_client c (Client.set_bw (cr_border_width ev))
       else
         floating_or_free ←
           (if truthy (Client.isfloating v) then mret true
            else
              sm ← gets Plug.selmon;
              m ← monitor sm;
              mret (negb (bool_decide (is_Some (arrange_fn (lt m (Monitor.sellt m)))))));
         if floating_or_free : bool then
           m ← monitor (Client.mon v);
           when (has (cr_value_mask ev) CWX)
             (upd_client c (fun v =>
                Client.set_x (Monitor.mx m +ₛ cr_x ev) (Client.set_oldx (Client.x v) v)));;
           when (has (cr_value_mask ev) CWY)
             (upd_client c (fun v =>
                Client.set_y (Monitor.my m +ₛ cr_y ev) (Client.set_oldy (Client.y v) v)));;
           when (has (cr_value_mask ev) CWWidth)
             (upd_client c (fun v =>
                Client.set_w (cr_width ev) (Client.set_oldw (Client.w v) v)));;
           when (has (cr_value_mask ev) CWHeight)
             (upd_client c (fun v =>
                Client.set_h (cr_height ev) (Client.set_oldh (Client.h v) v)));;
           v ← client c;
           when ((Monitor.mx m +ₛ Monitor.mw m <? Client.x v +ₛ Client.w v)
                 && truthy (Client.isfloating v))
             (* center in x direction *)
             (upd_client c
                (Client.set_x (Monitor.mx m +ₛ (Monitor.mw m /ₛ 2 -ₛ WIDTH v /ₛ 2))));;
           v ← client c;
           when ((Monitor.my m +ₛ Monitor.mh m <? Client.y v +ₛ Client.h v)
                 && truthy (Client.isfloating v))
             (* center in y direction *)
             (upd_client c
                (Client.set_y (Monitor.my m +ₛ (Monitor.mh m /ₛ 2 -ₛ HEIGHT v /ₛ 2))));;
           when (has (cr_value_mask ev) (Z.lor CWX CWY)
                 && negb (has (cr_value_mask ev) (Z.lor CWWidth CWHeight)))
             (configure c);;
           vis ← ISVISIBLE c;
           v ← client c;
           when vis
             (emit (EvMoveResizeWindow (Client.win v) (Client.x v) (Client.y v)
                      (Client.w v) (Client.h v)))
         else configure c)
  | None =>
      emit (EvConfigureWindow (cr_window ev) (cr_value_mask ev) (cr_x ev) (cr_y ev)
              (cr_width ev) (cr_height ev) (cr_border_width ev) (cr_above ev)
              (cr_detail ev))
  end;;
  emit EvSync.

Definition enternotify (ev : XCrossingEvent) : M unit :=
  root ← gets Plug.root;
  if (negb (xc_mode ev =? NotifyNormal) || (xc_detail ev =? NotifyInferior))
     && negb (xc_window ev =? root)
  then mret tt
  else
    c ← wintoclient (xc_window ev);
    m ← match c with
        | Some c => v ← client c; mret (Client.mon v)
        | None => wintomon (xc_window ev)
        end;
    sm ← gets Plug.selmon;
    if negb (bool_decide (m = sm)) then
      smv ← monitor sm;
      unfocus (Monitor.sel smv) 1;;
      modify (Plug.set_selmon m);;
      focus c;;
      emit (EvRaiseWindow (xc_window ev));;
      setclientstate c NormalState
    else
      match c with
      | None => mret tt
      | Some _ =>
          smv ← monitor sm;
          if bool_decide (c = Monitor.sel smv) then mret tt
          else
            focus c;;
            emit (EvRaiseWindow (xc_window ev));;
            setclientstate c NormalState
      end.

Definition clientmessage (ev : XClientMessageEvent) : M unit :=
  c ← wintoclient (cm_window ev);
  match c with
  | None => mret tt
  | Some c =>
      atoms ← gets Plug.netatom;
      if cm_message_type ev =? atoms NetWMState then
        when ((cm_l1 ev =? atoms NetWMFullscreen) || (cm_l2 ev =? atoms NetWMFullscreen))
          (v ← client c;
           setfullscreen c
             (of_bool ((cm_l0 ev =? 1) (* _NET_WM_STATE_ADD *)
                       || ((cm_l0 ev =? 2) (* _NET_WM_STATE_TOGGLE *)
                           && negb (truthy (Client.isfullscreen v))))))
      else if cm_message_type ev =? atoms NetActiveWindow then
        sm ← gets Plug.selmon;
        m ← monitor sm;
        v ← client c;
        when (negb (bool_decide (Some c = Monitor.sel m)) && negb (truthy (Client.isurgent v)))
          (seturgent c 1)
      else mret tt
  end.

End Dwm.

(** * Commands and further handlers *)

Section Commands.

Variable cfg : Config.

(** ** The client list *)

Definition pop (c : CId) : M unit :=
  detach c;;
  attach c;;
  focus (Some c);;
  v ← client c;
  arrange cfg (Some (Client.mon v)).

Definition zoom : M unit :=
  sm ← gets Plug.selmon;
  m ← monitor sm;
  if negb (bool_decide (is_Some (arrange_fn (lt m (Monitor.sellt m))))) then mret tt
  else
    match Monitor.sel m with
    | None => mret tt
    | Some c =>
        v ← client c;
        if truthy (Client.isfloating v) then mret tt
        else
          t ← nexttiled (Monitor.clients m);
          match t with
          | d :: next =>
              if bool_decide (d = c) then
                t' ← nexttiled next;
                match t' with
                | [] => mret tt
                | c' :: _ => pop c'
                end
              else pop c
          | [] => pop c
          end
    end.

(** [c->next], for a client [c] of the list [l]; a client that is not on
    the list has no successor in this model. *)
Fixpoint after (c : CId) (l : list CId) : option (list CId) :=
  match l with
  | [] => None
  | d :: l' => if decide (d = c) then Some l' else after c l'
  end.

(** The clients of [l] before [c], and the list from [c] on. *)
Fixpoint upto (c : CId) (l : list CId) : option (list CId * list CId) :=
  match l with
  | [] => None
  | d :: l' =>
      if decide (d = c) then Some ([], l)
      else match upto c l' with
           | Some (pre, post) => Some (d :: pre, post)
           | None => None
           end
  end.

(** [for (i = l; i; i = i->next) if (ISVISIBLE(i)) c = i;]. *)
Definition last_visible (l : list CId) (c : option CId) : M (option CId) :=
  foldM l (fun c i => vis ← ISVISIBLE i; mret (if vis : bool then Some i else c)) c.

Definition focusstack (i : Z) : M unit :=
  sm ← gets Plug.selmon;
  m ← monitor sm;
  match Monitor.sel m with
  | None => mret tt
  | Some sel =>
      v ← client sel;
      if truthy (Client.isfullscreen v) && truthy (lockfullscreen cfg) then mret tt
      else
        c ← (if 0 <? i then
               next ← deref (after sel (Monitor.clients m));
               c ← first_visible next;
               match c with
               | Some _ => mret c
               | None => first_visible (Monitor.clients m)
               end
             else
               '(pre, post) ← deref (upto sel (Monitor.clients m));
               c ← last_visible pre None;
               match c with
               | Some _ => mret c
               | None => last_visible post None
               end);
        match c with
        | Some _ =>
            focus c;;
            sm ← gets Plug.selmon;
            restack sm
        | None => mret tt
        end
  end.

Definition focusin (w : Window) : M unit :=
  sm ← gets Plug.selmon;
  m ← monitor sm;
  match Monitor.sel m with
  | Some sel =>
      v ← client sel;
      when (negb (w =? Client.win v)) (setfocus sel)
  | None => mret tt
  end.

(** ** Monitors *)

(** [m->next], for a monitor [m] of the list [l]. *)
Fixpoint next_monitor (m : MonId) (l : list MonId) : option (option MonId) :=
  match l with
  | [] => None
  | d :: l' => if decide (d = m) then Some (head l') else next_monitor m l'
  end.

(** [for (m = l; m->next; m = m->next);]. *)
Fixpoint last_monitor (l : list MonId) : M MonId :=
  match l with
  | [] => undefined
  | m :: l' =>
      _ ← monitor m;
      match l' with
      | [] => mret m
      | _ :: _ => last_monitor l'
      end
  end.

(** [for (m = l; m->next != sm; m = m->next);]. *)
Fixpoint monitor_before (sm : MonId) (l : list MonId) : M MonId :=
  match l with
  | [] => undefined
  | m :: l' =>
      _ ← monitor m;
      if bool_decide (head l' = Some sm) then mret m else monitor_before sm l'
  end.

Definition dirtomon (dir : Z) : M (option MonId) :=
  sm ← gets Plug.selmon;
  ms ← gets Plug.mons;
  if 0 <? dir then
    _ ← monitor sm;
    next ← deref (next_monitor sm ms);
    mret (match next with Some m => Some m | None => head ms end)
  else if bool_decide (head ms = Some sm) then
    m ← last_monitor ms;
    mret (Some m)
  else
    m ← monitor_before sm ms;
    mret (Some m).

Definition focusmon (i : Z) : M unit :=
  ms ← gets Plug.mons;
  first ← deref (head ms);
  _ ← monitor first;
  match tail ms with
  | [] => mret tt
  | _ :: _ =>
      m ← dirtomon i;
      sm ← gets Plug.selmon;
      if bool_decide (m = Some sm) then mret tt
      else
        smv ← monitor sm;
        unfocus (Monitor.sel smv) 0;;
        m ← deref m;
        modify (Plug.set_selmon m);;
        focus None
  end.

Definition sendmon (c : CId) (m : option MonId) : M unit :=
  v ← client c;
  if bool_decide (Some (Client.mon v) = m) then mret tt
  else
    unfocus (Some c) 1;;
    detach c;;
    detachstack c;;
    m ← deref m;
    mv ← monitor m;
    (* assign tags of target monitor *)
    upd_client c (fun v =>
      Client.set_tags (tagset mv (Monitor.seltags mv)) (Client.set_mon m v));;
    attach c;;
    attachstack c;;
    focus None;;
    arrange cfg None.

Definition tagmon (i : Z) : M unit :=
  sm ← gets Plug.selmon;
  smv ← monitor sm;
  match Monitor.sel smv with
  | None => mret tt
  | Some sel =>
      ms ← gets Plug.mons;
      first ← deref (head ms);
      _ ← monitor first;
      match tail ms with
      | [] => mret tt
      | _ :: _ =>
          m ← dirtomon i;
          sendmon sel m
      end
  end.

Definition incnmaster (i : Z) : M unit :=
  sm ← gets Plug.selmon;
  upd_monitor sm (fun m => Monitor.set_nmaster (MAX (Monitor.nmaster m +ₛ i) 0) m);;
  arrange cfg (Some sm).

(** ** The bar *)

(** The assignments of [updatebarpos], for a bar of height [bh]. *)
Definition barpos (bh : Z) (m : Monitor.t) : Monitor.t :=
  let m := Monitor.set_wy (Monitor.my m) m in
  let m := Monitor.set_wh (Monitor.mh m) m in
  if truthy (Monitor.showbar m) then
    let m := Monitor.set_wh (Monitor.wh m -ₛ bh) m in
    let m := Monitor.set_by_
               (if truthy (Monitor.topbar m) then Monitor.wy m
                else Monitor.wy m +ₛ Monitor.wh m) m in
    Monitor.set_wy
      (if truthy (Monitor.topbar m) then Monitor.wy m +ₛ bh else Monitor.wy m) m
  else Monitor.set_by_ (sint (- bh)) m.

Definition updatebarpos (mid : MonId) : M unit :=
  bh ← gets Plug.bh;
  upd_monitor mid (barpos bh).

Definition togglebar : M unit :=
  sm ← gets Plug.selmon;
  upd_monitor sm (fun m =>
    Monitor.set_showbar (of_bool (negb (truthy (Monitor.showbar m)))) m);;
  updatebarpos sm;;
  m ← monitor sm;
  bh ← gets Plug.bh;
  emit (EvMoveResizeWindow (Monitor.barwin m) (Monitor.wx m) (Monitor.by_ m)
          (Monitor.ww m) bh);;
  arrange cfg (Some sm).

Definition expose (w : Window) (count : Z) : M unit :=
  if count =? 0 then
    m ← wintomon w;
    drawbar m
  else mret tt.

End Commands.
(** * A sample configuration and sample states

    One monitor of 1920 by 1080 with a bar of height 20 at the top, in the
    tiling layout, and two tiled clients side by side. *)

Definition layout_tile : Layout := mkLayout "[]=" (Some ArrTile).
Definition layout_float : Layout := mkLayout "><>" None.
Definition layout_monocle : Layout := mkLayout "[M]" (Some ArrMonocle).

Definition sample_cfg : Config :=
  mkConfig 9 [] layout_tile [layout_float; layout_monocle]
    (F32.dyadic 1 1) 1 1 1 0 1 1 32.

Definition sample_netatom (a : NetAtom) : Atom :=
  match a with
  | NetSupported => 301 | NetWMName => 302 | NetWMState => 303
  | NetWMCheck => 304 | NetWMFullscreen => 305 | NetActiveWindow => 306
  | NetWMWindowType => 307 | NetWMWindowTypeDialog => 308
  | NetClientList => 309
  end.

Definition sample_wmatom (a : WMAtom) : Atom :=
  match a with
  | WMProtocols => 201 | WMDelete => 202 | WMState => 203 | WMTakeFocus => 204
  end.

Definition sample_srv : XServer :=
  mkXServer (fun _ => (None, None)) (fun _ => None) None (fun _ => None)
    (fun _ => None) [] 0.

(** A client of monitor 0 on tag 1 with a border of 1 and no size hints. *)
Definition sample_client (win : Window) (x y w h isfloating : Z) : Client.t :=
  Client.mk "xterm" F32.zero F32.zero x y w h x y w h 0 0 0 0
    0 0 0 0 0 0 0 0 1 1 1 1 0 isfloating 0 0 0 0 0 0%nat win.

Definition sample_monitor : Monitor.t :=
  Monitor.mk "[]=" (F32.dyadic 1 1) 1 0 0 0 0 1920 1080 0 20 1920 1060
    0 0 1 1 1 1 [1%nat; 2%nat] (Some 1%nat) [1%nat; 2%nat] 900
    layout_tile layout_float.

Definition sample_state : Plug.t :=
  Plug.mk 1920 1080 20 18 0 sample_netatom sample_wmatom [0%nat] 0%nat 1 "broken"
    {[ 0%nat := sample_monitor ]}
    {[ 1%nat := sample_client 101 0 20 958 1058 0;
       2%nat := sample_client 102 960 20 958 1058 0 ]}
    sample_srv [].

(** The same state after client 1 went fullscreen. *)
Definition fullscreen_client : Client.t :=
  Client.set_isfullscreen 1 (Client.set_isfloating 1 (Client.set_oldbw 1
    (Client.set_bw 0 (sample_client 101 0 0 1920 1080 0)))).

Definition fullscreen_state : Plug.t :=
  Plug.set_client_heap (<[1%nat := fullscreen_client]> (Plug.client_heap sample_state))
    sample_state.

(** A request of client 1 for a border of 5. *)
Definition border_request : XConfigureRequestEvent :=
  mkConfigureRequest 101 0 0 0 0 5 0 0 CWBorderWidth.

(** A second monitor to the right of the first, and the pointer on it. *)
Definition second_monitor : Monitor.t :=
  Monitor.mk "[]=" (F32.dyadic 1 1) 1 1 0 1920 0 1920 1080 1920 20 1920 1060
    0 0 1 1 1 1 [] None [] 901 layout_tile layout_float.

Definition pointer_right_srv : XServer :=
  mkXServer (fun _ => (None, None)) (fun _ => None) (Some (2000, 500))
    (fun _ => None) (fun _ => None) [] 0.

Definition two_monitor_state : Plug.t :=
  Plug.mk 3840 1080 20 18 0 sample_netatom sample_wmatom [0%nat; 1%nat] 0%nat 1
    "broken"
    {[ 0%nat := sample_monitor; 1%nat := second_monitor ]}
    {[ 1%nat := sample_client 101 0 20 958 1058 0;
       2%nat := sample_client 102 960 20 958 1058 0 ]}
    pointer_right_srv [].

(** The pointer enters the root window. *)
Definition root_crossing : XCrossingEvent := mkCrossing 1 NotifyNormal 0.

(** The request of the tiled client 1 for the rectangle (100, 200, 800, 600). *)
Definition tiled_request : XConfigureRequestEvent :=
  mkConfigureRequest 101 100 200 800 600 0 0 0
    (Z.lor CWX (Z.lor CWY (Z.lor CWWidth CWHeight))).

(** The sample state with client 1 floating at (10, 30), 5 by 5: smaller
    than the bar height in both directions, as a ConfigureRequest for that
    size leaves it. *)
Definition small_float_state : Plug.t :=
  Plug.set_client_heap
    (<[1%nat := sample_client 101 10 30 5 5 1]> (Plug.client_heap sample_state))
    sample_state.

(** The sample state with two masters: both clients fit the master area. *)
Definition two_master_monitor : Monitor.t :=
  Monitor.mk "[]=" (F32.dyadic 1 1) 2 0 0 0 0 1920 1080 0 20 1920 1060
    0 0 1 1 1 1 [1%nat; 2%nat] (Some 1%nat) [1%nat; 2%nat] 900
    layout_tile layout_float.

Definition two_master_state : Plug.t :=
  Plug.set_mon_heap {[ 0%nat := two_master_monitor ]} sample_state.

(** One monitor with a bar of height 12 (a font of height 10) and the same
    two tiled clients. *)
Definition small_bar_monitor : Monitor.t :=
  Monitor.mk "[]=" (F32.dyadic 1 1) 1 0 0 0 0 1920 1080 0 12 1920 1068
    0 0 1 1 1 1 [1%nat; 2%nat] (Some 1%nat) [1%nat; 2%nat] 900
    layout_tile layout_float.

Definition small_bar_state : Plug.t :=
  Plug.mk 1920 1080 12 10 0 sample_netatom sample_wmatom [0%nat] 0%nat 1 "broken"
    {[ 0%nat := small_bar_monitor ]}
    {[ 1%nat := sample_client 101 0 12 958 1066 0;
       2%nat := sample_client 102 960 12 958 1066 0 ]}
    sample_srv [].

(** The sample state with client 1 floating, 100 by 100, with a width
    increment of 10 and a maximum width of 25. *)
Definition hinted_state : Plug.t :=
  Plug.set_client_heap
    (<[1%nat := Client.set_incw 10 (Client.set_maxw 25 (sample_client 101 0 20 100 100 1))]>
       (Plug.client_heap sample_state))
    sample_state.

(** The sample state with client 1 floating, 20 wide, with a base width
    of -2147483628 and a width increment of -1, as a client can set them in
    [WM_NORMAL_HINTS]. *)
Definition hostile_state : Plug.t :=
  Plug.set_client_heap
    (<[1%nat := Client.set_incw (-1)
                  (Client.set_basew (-2147483628) (sample_client 101 0 20 20 100 1))]>
       (Plug.client_heap sample_state))
    sample_state.

(** The sample configuration with [resizehints] on, and the state with
    two masters in which client 1 has a maximum width of 800. *)
Definition hinting_cfg : Config :=
  mkConfig 9 [] layout_tile [layout_float; layout_monocle]
    (F32.dyadic 1 1) 1 1 1 1 1 1 32.

Definition max_width_state : Plug.t :=
  Plug.set_client_heap
    (<[1%nat := Client.set_maxw 800 (sample_client 101 0 20 958 1058 0)]>
       (Plug.client_heap two_master_state))
    two_master_state.

(** The rule that sends Gimp to tag 4, floating, on the current monitor,
    and a server on which window 101 has that class. *)
Definition gimp_cfg : Config :=
  mkConfig 9 [mkRule (Some "Gimp"%string) None None (Z.shiftl 1 3) 1 (-1)]
    layout_tile [layout_float; layout_monocle] (F32.dyadic 1 1) 1 1 1 0 1 1 32.

Definition gimp_srv : XServer :=
  mkXServer (fun w => if w =? 101 then (Some "gimp"%string, Some "Gimp"%string)
                      else (None, None))
    (fun _ => None) None (fun _ => None) (fun _ => None) [] 0.

Definition gimp_state : Plug.t :=
  Plug.mk 1920 1080 20 18 0 sample_netatom sample_wmatom [0%nat] 0%nat 1 "broken"
    {[ 0%nat := sample_monitor ]}
    {[ 1%nat := sample_client 101 0 20 958 1058 0;
       2%nat := sample_client 102 960 20 958 1058 0 ]}
    gimp_srv [].

(** * Vocabulary of the properties *)

(** [preserves R m]: every run of [m] that returns relates the state it
    starts from to the state it ends in. *)
Definition preserves (R : relation Plug.t) {A} (m : M A) : Prop :=
  forall s a s', m s = Some (a, s') -> R s s'.

Definition client_core (c : Client.t) :=
  (Client.isfullscreen c, Client.isfloating c, Client.bw c, Client.oldbw c,
   Client.oldstate c, Client.tags c, Client.isminimized c, Client.mon c,
   Client.win c, Client.name c).

Definition monitor_core (m : Monitor.t) :=
  (Monitor.tagset0 m, Monitor.tagset1 m, Monitor.seltags m, Monitor.sellt m,
   Monitor.lt0 m, Monitor.lt1 m, Monitor.nmaster m, Monitor.mfact m,
   (Monitor.mx m, Monitor.my m, Monitor.mw m, Monitor.mh m),
   (Monitor.wx m, Monitor.wy m, Monitor.ww m, Monitor.wh m),
   Monitor.clients m, Monitor.num m, Monitor.barwin m, Monitor.showbar m).

Definition plug_core (s : Plug.t) :=
  (Plug.sw s, Plug.sh s, Plug.bh s, Plug.fonth s, Plug.mons s, Plug.root s,
   Plug.broken s, Plug.xsrv s, Plug.netatom s, Plug.wmatom s).

Definition frame (s s' : Plug.t) : Prop :=
  (forall c, client_core <$> Plug.client_heap s' !! c
             = client_core <$> Plug.client_heap s !! c)
  /\ (forall m, monitor_core <$> Plug.mon_heap s' !! m
                = monitor_core <$> Plug.mon_heap s !! m)
  /\ plug_core s' = plug_core s.

(** [post m s Q]: if the run of [m] from [s] returns, its result and final
    state satisfy [Q]. *)
Definition post {A} (m : M A) (s : Plug.t) (Q : A -> Plug.t -> Prop) : Prop :=
  forall a s', m s = Some (a, s') -> Q a s'.

(** The managed clients: those on the client list of a monitor. *)
Definition managed (s : Plug.t) (c : CId) : Prop :=
  exists m mv, m ∈ Plug.mons s /\ Plug.mon_heap s !! m = Some mv
               /\ c ∈ Monitor.clients mv.

(** A property of every managed client. *)
Definition client_inv (P : Client.t -> Prop) (s : Plug.t) : Prop :=
  forall c v, managed s c -> Plug.client_heap s !! c = Some v -> P v.

(** A fullscreen client is floating and has no border. *)
Definition fullscreen_ok (v : Client.t) : Prop :=
  truthy (Client.isfullscreen v) = true ->
  truthy (Client.isfloating v) = true /\ Client.bw v = 0.

(** The half of it that [configurerequest] keeps whatever the request. *)
Definition fullscreen_floats (v : Client.t) : Prop :=
  truthy (Client.isfullscreen v) = true -> truthy (Client.isfloating v) = true.

(** A property that only reads the frame of a client. *)
Definition core_property (P : Client.t -> Prop) : Prop :=
  forall v v', client_core v' = client_core v -> P v -> P v'.

(** Executable checks, for concrete states. *)
Definition fullscreen_okb (v : Client.t) : bool :=
  negb (truthy (Client.isfullscreen v))
  || (truthy (Client.isfloating v) && (Client.bw v =? 0)).

Definition managed_list (s : Plug.t) : list CId :=
  concat (map (fun m => from_option Monitor.clients [] (Plug.mon_heap s !! m))
              (Plug.mons s)).

Definition client_invb (p : Client.t -> bool) (s : Plug.t) : bool :=
  forallb (fun c => from_option p true (Plug.client_heap s !! c)) (managed_list s).

(** The relation "the property of the managed clients survives". *)
Definition inv_rel (P : Client.t -> Prop) (s s' : Plug.t) : Prop :=
  client_inv P s -> client_inv P s'.

(** A property of every allocated monitor. *)
Definition monitor_inv (P : Monitor.t -> Prop) (s : Plug.t) : Prop :=
  forall m mv, Plug.mon_heap s !! m = Some mv -> P mv.

Definition minv_rel (P : Monitor.t -> Prop) (s s' : Plug.t) : Prop :=
  monitor_inv P s -> monitor_inv P s'.

(** Both tagsets of a monitor have a bit set. *)
Definition tagsets_nonzero (mv : Monitor.t) : Prop :=
  Monitor.tagset0 mv <> 0 /\ Monitor.tagset1 mv <> 0.

Definition tagsets_nonzerob (mv : Monitor.t) : bool :=
  truthy (Monitor.tagset0 mv) && truthy (Monitor.tagset1 mv).

Definition monitor_invb (p : Monitor.t -> bool) (s : Plug.t) : bool :=
  forallb (fun kv => p (snd kv)) (map_to_list (Plug.mon_heap s)).

(** A property of one client. *)
Definition client_has (c : CId) (Q : Client.t -> Prop) (s : Plug.t) : Prop :=
  exists v, Plug.client_heap s !! c = Some v /\ Q v.

Definition has_rel (c : CId) (Q : Client.t -> Prop) (s s' : Plug.t) : Prop :=
  client_has c Q s -> client_has c Q s'.

(** What a log says of [configure]: a synthetic ConfigureNotify was sent. *)
Definition is_ConfigureNotify (e : Event) : bool :=
  match e with EvConfigureNotify _ _ _ _ _ _ => true | _ => false end.

(** [total m s Q]: the run of [m] from [s] returns, and its result and
    final state satisfy [Q]. *)
Definition total {A} (m : M A) (s : Plug.t) (Q : A -> Plug.t -> Prop) : Prop :=
  exists a s', m s = Some (a, s') /\ Q a s'.

(** The pointer structure of a state: which monitor a client is on, and the
    lists and the selection of a monitor. *)
Definition monitor_shape (m : Monitor.t) :=
  (Monitor.clients m, Monitor.stack m, Monitor.sel m).

Definition shape (s s' : Plug.t) : Prop :=
  (forall c, Client.mon <$> Plug.client_heap s' !! c
             = Client.mon <$> Plug.client_heap s !! c)
  /\ (forall m, monitor_shape <$> Plug.mon_heap s' !! m
                = monitor_shape <$> Plug.mon_heap s !! m)
  /\ Plug.mons s' = Plug.mons s
  /\ Plug.selmon s' = Plug.selmon s.

(** A well-formed state: no pointer dangles. *)
Definition valid_client (s : Plug.t) (c : CId) : Prop :=
  is_Some (Plug.client_heap s !! c).
Definition valid_monitor (s : Plug.t) (m : MonId) : Prop :=
  is_Some (Plug.mon_heap s !! m).

Definition wf (s : Plug.t) : Prop :=
  (forall c v, Plug.client_heap s !! c = Some v -> valid_monitor s (Client.mon v))
  /\ (forall m mv, Plug.mon_heap s !! m = Some mv ->
        (forall c, c ∈ Monitor.clients mv -> valid_client s c)
        /\ (forall c, c ∈ Monitor.stack mv -> valid_client s c)
        /\ (forall c, Monitor.sel mv = Some c -> valid_client s c))
  /\ (forall m, m ∈ Plug.mons s -> valid_monitor s m)
  /\ valid_monitor s (Plug.selmon s).

(** Executable check of [wf]. *)
Definition wfb (s : Plug.t) : bool :=
  let vc c := bool_decide (is_Some (Plug.client_heap s !! c)) in
  let vm m := bool_decide (is_Some (Plug.mon_heap s !! m)) in
  forallb (fun kv => vm (Client.mon (snd kv))) (map_to_list (Plug.client_heap s))
  && forallb (fun kv => forallb vc (Monitor.clients (snd kv))
                        && forallb vc (Monitor.stack (snd kv))
                        && from_option vc true (Monitor.sel (snd kv)))
       (map_to_list (Plug.mon_heap s))
  && forallb vm (Plug.mons s)
  && vm (Plug.selmon s).

(** [defined m s]: the run of [m] from [s] returns. *)
Definition defined {A} (m : M A) (s : Plug.t) : Prop := is_Some (m s).

Definition valid_clients (s : Plug.t) (l : list CId) : Prop :=
  forall c, c ∈ l -> valid_client s c.
Definition valid_pointer (s : Plug.t) (p : option CId) : Prop :=
  forall c, p = Some c -> valid_client s c.

(** The rectangle of a client. *)
Definition geometry (v : Client.t) : Z * Z * Z * Z :=
  (Client.x v, Client.y v, Client.w v, Client.h v).
Definition old_geometry (v : Client.t) : Z * Z * Z * Z :=
  (Client.oldx v, Client.oldy v, Client.oldw v, Client.oldh v).

(** The value mask of the [XConfigureWindow] of [resizeclient]. *)
Definition resize_mask : Z :=
  Z.lor CWX (Z.lor CWY (Z.lor CWWidth (Z.lor CWHeight CWBorderWidth))).

(** The log only grows. *)
Definition log_grows (s s' : Plug.t) : Prop :=
  exists l, Plug.xlog s' = Plug.xlog s ++ l.

(** The client [resizeclient] leaves in the heap. *)
Definition resized (x y w h : Z) (v : Client.t) : Client.t :=
  Client.set_h h (Client.set_oldh (Client.h v)
  (Client.set_w w (Client.set_oldw (Client.w v)
  (Client.set_y y (Client.set_oldy (Client.y v)
  (Client.set_x x (Client.set_oldx (Client.x v) v))))))).

(** Equality of 32-bit values. *)
Definition eqm32 (a b : Z) : Prop := uint a = uint b.

(** The clients [nexttiled] stops at, read off the state. *)
Definition tiled_pure (s : Plug.t) (c : CId) : bool :=
  match Plug.client_heap s !! c with
  | Some v =>
      if truthy (Client.isfloating v) then false
      else match Plug.mon_heap s !! Client.mon v with
           | Some m => visible v m
           | None => false
           end
  | None => false
  end.

Definition tiled_count (s : Plug.t) (l : list CId) : Z :=
  Z.of_nat (length (List.filter (tiled_pure s) l)).

(** The border of a client in a state. *)
Definition bw_of (s : Plug.t) (c : CId) : Z :=
  from_option Client.bw 0 (Plug.client_heap s !! c).

(** The calls of [resize] in a log: the client, and the [x] and [w] asked
    for. *)
Definition resize_calls (l : list Event) : list (CId * Z * Z) :=
  flat_map (fun e => match e with
                     | EvResize c x _ w _ _ => [(c, x, w)]
                     | _ => []
                     end) l.

(** Entries that are not calls of [resize]. *)
Definition quiet (e : Event) : Prop :=
  match e with EvResize _ _ _ _ _ _ => False | _ => True end.

(** A run adds to the log exactly the calls [L] of [resize]. *)
Definition calls_rel (L : list (CId * Z * Z)) (s s' : Plug.t) : Prop :=
  exists l, Plug.xlog s' = Plug.xlog s ++ l /\ resize_calls l = L.

(** A column of the full width of the window area: [x = wx] and
    [w = ww - 2 * bw]. *)
Definition full_width_column (m : Monitor.t) (bwf : CId -> Z) (c : CId)
    : CId * Z * Z :=
  (c, Monitor.wx m, sint (Monitor.ww m - 2 * bwf c)).

(** The entries a run adds to the log all satisfy [P]. *)
Definition log_ok (P : Event -> Prop) (s s' : Plug.t) : Prop :=
  exists l, Plug.xlog s' = Plug.xlog s ++ l /\ Forall P l.

Definition bw_is (bwf : CId -> Z) (s : Plug.t) : Prop :=
  forall c v, Plug.client_heap s !! c = Some v -> Client.bw v = bwf c.

Definition placing (P : Event -> Prop) (bwf : CId -> Z) (s s' : Plug.t) : Prop :=
  bw_is bwf s -> log_ok P s s' /\ bw_is bwf s'.

(** The two cases in which [tile] places one column: either [mw] is the
    whole width and the client goes to the master column, or [mw] is 0 and
    it goes to the stack column. *)
Definition column_case (m : Monitor.t) (mw i : Z) : Prop :=
  (mw = uint (Monitor.ww m) /\ (i <? uint (Monitor.nmaster m)) = true)
  \/ (mw = 0 /\ (i <? uint (Monitor.nmaster m)) = false).

(** ** Size hints *)

(** Whether [applysizehints] runs its second part on a client of the
    monitor [m]. *)
Definition hint_stage (cfg : Config) (v : Client.t) (m : Monitor.t) : bool :=
  truthy (resizehints cfg) || truthy (Client.isfloating v)
  || negb (bool_decide (is_Some (arrange_fn (lt m (Monitor.sellt m))))).

(** The client once its size hints are loaded. *)
Definition loaded_hints (srv : XServer) (v : Client.t) : Client.t :=
  if truthy (Client.hintsvalid v) then v
  else sizehints_of (XGetWMNormalHints srv (Client.win v)) v.

(** The size increments [applysizehints] divides by, once the hints of
    the client are loaded. *)
Definition hint_key (srv : XServer) (v : Client.t) : Z * Z :=
  if truthy (Client.hintsvalid v) then (Client.incw v, Client.inch v)
  else (Client.incw (sizehints_of (XGetWMNormalHints srv (Client.win v)) v),
        Client.inch (sizehints_of (XGetWMNormalHints srv (Client.win v)) v)).

(** No remainder by these increments traps: neither is -1. *)
Definition rem_safe (k : Z * Z) : Prop := fst k <> -1 /\ snd k <> -1.

Definition rem_safeb (k : Z * Z) : bool := negb (fst k =? -1) && negb (snd k =? -1).

(** No client has, or would load from the server, a size increment of
    -1: the remainders of [applysizehints] do not trap. *)
Definition hints_safe (s : Plug.t) : Prop :=
  forall c v, Plug.client_heap s !! c = Some v -> rem_safe (hint_key (Plug.xsrv s) v).

Definition hints_safeb (s : Plug.t) : bool :=
  forallb (fun kv => rem_safeb (hint_key (Plug.xsrv s) (snd kv)))
    (map_to_list (Plug.client_heap s)).

(** A run that keeps the server and these increments of every client. *)
Definition hinted (s s' : Plug.t) : Prop :=
  Plug.xsrv s' = Plug.xsrv s
  /\ forall c, hint_key (Plug.xsrv s) <$> Plug.client_heap s' !! c
               = hint_key (Plug.xsrv s) <$> Plug.client_heap s !! c.

(** The lower bounds [applysizehints] puts on a width or height before the
    second part: 1, then the bar height. *)
Definition at_least_bar (bh z : Z) : Z :=
  let z := MAX 1 z in if z <? bh then bh else z.

(** [geometry v = (x, y, w, h)], decided. *)
Definition same_geometry (v : Client.t) (x y w h : Z) : bool :=
  (x =? Client.x v) && (y =? Client.y v) && (w =? Client.w v) && (h =? Client.h v).

(** A client that sets no size hints: no base, minimum or maximum size, no
    increment, and no aspect ratio. *)
Definition no_hints (v : Client.t) : Prop :=
  Client.basew v = 0 /\ Client.baseh v = 0 /\ Client.incw v = 0 /\ Client.inch v = 0
  /\ Client.minw v = 0 /\ Client.minh v = 0 /\ Client.maxw v = 0 /\ Client.maxh v = 0
  /\ (F32.ltb F32.zero (Client.mina v) && F32.ltb F32.zero (Client.maxa v)) = false.

(** Sizes and positions far from the ends of the range of [int], a
    positive stored size of the client, and a positive window area. *)
Definition in_bounds (z : Z) : Prop := - 2 ^ 28 <= z <= 2 ^ 28.

Definition modest (s : Plug.t) (v : Client.t) (m : Monitor.t) : Prop :=
  0 <= Client.bw v <= 2 ^ 28
  /\ 0 < Client.w v <= 2 ^ 28 /\ 0 < Client.h v <= 2 ^ 28
  /\ in_bounds (Plug.bh s)
  /\ 0 <= Plug.sw s <= 2 ^ 28 /\ 0 <= Plug.sh s <= 2 ^ 28
  /\ in_bounds (Monitor.wx m) /\ in_bounds (Monitor.wy m)
  /\ 0 < Monitor.ww m <= 2 ^ 28 /\ 0 < Monitor.wh m <= 2 ^ 28.

(** The [x] and the width that [tile] asks for the client at position [i]
    of the [n] tiled ones, whose border is [bw]: the arguments of the call
    of [resize] in [tile_step]. *)
Definition tile_column (m : Monitor.t) (n i bw : Z) : Z * Z :=
  let mw := tile_mw m n in
  if i <? uint (Monitor.nmaster m)
  then (Monitor.wx m, sint (mw -ᵤ uint (2 *ₛ bw)))
  else (sint (uint (Monitor.wx m) +ᵤ mw),
        sint (uint (Monitor.ww m) -ᵤ mw -ᵤ uint (2 *ₛ bw))).

(** [applysizehints] leaves the [x] and the width [w] asked for a client
    [v] of the monitor [m] alone: the width is at least 1 and the bar
    height, the column meets the window area of the monitor, the second
    part is skipped or the client sets no size hints, and the values are
    far from the ends of the range of [int]. *)
Definition fits (cfg : Config) (s : Plug.t) (v : Client.t) (m : Monitor.t) (x w : Z)
    : Prop :=
  1 <= w <= 2 ^ 28 /\ Plug.bh s <= w /\ in_bounds (Plug.bh s)
  /\ in_bounds x /\ 0 <= Client.bw v <= 2 ^ 28
  /\ in_bounds (Monitor.wx m) /\ 0 < Monitor.ww m <= 2 ^ 28
  /\ x < Monitor.wx m + Monitor.ww m
  /\ Monitor.wx m < x + w + 2 * Client.bw v
  /\ (hint_stage cfg v m = false \/ no_hints (loaded_hints (Plug.xsrv s) v)).

(** The state [resizeclient] leaves. *)
Definition resizeclient_state (c : CId) (x y w h : Z) (v : Client.t) (s : Plug.t) : Plug.t :=
  Plug.set_xlog
    (Plug.xlog s ++
     [EvConfigureWindow (Client.win v) resize_mask x y w h (Client.bw v) 0 0;
      EvConfigureNotify (Client.win v) x y w h (Client.bw v);
      EvSync])
    (Plug.set_client_heap (<[c := resized x y w h v]> (Plug.client_heap s)) s).

(** ** Rules, in the words of the specification *)

(** [p] is a substring of [t]. *)
Definition is_substring (p t : string) : Prop :=
  exists pre post, t = (pre ++ p ++ post)%string.

(** The patterns of the rule that are not null are substrings of the
    class, the instance and the title. *)
Definition spec_rule_matches (r : Rule) (class instance title : string) : Prop :=
  (forall p, r_class r = Some p -> is_substring p class)
  /\ (forall p, r_instance r = Some p -> is_substring p instance)
  /\ (forall p, r_title r = Some p -> is_substring p title).

(** The monitor with the index [n], when there is one: the first of the
    list of monitors. *)
Definition spec_monitor_indexed (s : Plug.t) (n : Z) : option MonId :=
  List.find (fun mid => match Plug.mon_heap s !! mid with
                        | Some m => Monitor.num m =? n
                        | None => false
                        end) (Plug.mons s).

(** The rules in order, on the tags, the floating flag and the monitor of
    the client: a rule that matches ORs its tags in, sets the flag and
    re-homes the client; one that does not match changes nothing. *)
Inductive spec_rules (s : Plug.t) (class instance title : string)
  : list Rule -> Z * Z * MonId -> Z * Z * MonId -> Prop :=
| spec_rules_done acc : spec_rules s class instance title [] acc acc
| spec_rules_match r rs tags fl mon acc :
    spec_rule_matches r class instance title ->
    spec_rules s class instance title rs
      (Z.lor tags (r_tags r), r_isfloating r,
       from_option id mon (spec_monitor_indexed s (r_monitor r))) acc ->
    spec_rules s class instance title (r :: rs) (tags, fl, mon) acc
| spec_rules_skip r rs acc acc' :
    ~ spec_rule_matches r class instance title ->
    spec_rules s class instance title rs acc acc' ->
    spec_rules s class instance title (r :: rs) acc acc'.

(** ** Pointers and lists *)

(** [ISVISIBLE(c)], read off the state. *)
Definition visible_in (s : Plug.t) (c : CId) : bool :=
  match Plug.client_heap s !! c with
  | Some v => match Plug.mon_heap s !! Client.mon v with
              | Some m => visible v m
              | None => false
              end
  | None => false
  end.

(** A run that writes neither a monitor nor the selected monitor, and
    keeps the frame and the size increments of the clients. *)
Definition still (s s' : Plug.t) : Prop :=
  frame s s' /\ Plug.mon_heap s' = Plug.mon_heap s /\ Plug.selmon s' = Plug.selmon s
  /\ hinted s s'.

(** A run that frees nothing and leaves a well-formed state well-formed. *)
Definition sound (s s' : Plug.t) : Prop :=
  (wf s -> wf s')
  /\ (forall c, valid_client s c -> valid_client s' c)
  /\ (forall m, valid_monitor s m -> valid_monitor s' m).

(** The lists of a monitor as linked lists through [next] and [snext]
    are: without repetition, with the same clients on both, each of them a
    client of this monitor, and the selection among them. *)
Definition linked_monitor (s : Plug.t) (m : MonId) (mv : Monitor.t) : Prop :=
  NoDup (Monitor.clients mv) /\ NoDup (Monitor.stack mv)
  /\ (forall c, c ∈ Monitor.stack mv <-> c ∈ Monitor.clients mv)
  /\ (forall c v, c ∈ Monitor.clients mv -> Plug.client_heap s !! c = Some v ->
        Client.mon v = m)
  /\ (forall c, Monitor.sel mv = Some c -> c ∈ Monitor.stack mv).

(** A state as the lists of dwm make it: well-formed, every monitor once
    on the list of monitors, the lists of every monitor linked, and every
    client on the list of its monitor. *)
Definition linked (s : Plug.t) : Prop :=
  wf s /\ NoDup (Plug.mons s)
  /\ (forall m, valid_monitor s m -> m ∈ Plug.mons s)
  /\ (forall m mv, Plug.mon_heap s !! m = Some mv -> linked_monitor s m mv)
  /\ (forall c v, Plug.client_heap s !! c = Some v ->
        exists mv, Plug.mon_heap s !! Client.mon v = Some mv /\ c ∈ Monitor.clients mv).

(** Executable check of [linked]. *)
Definition linked_monitorb (s : Plug.t) (m : MonId) (mv : Monitor.t) : bool :=
  bool_decide (NoDup (Monitor.clients mv)) && bool_decide (NoDup (Monitor.stack mv))
  && forallb (fun c => bool_decide (c ∈ Monitor.clients mv)) (Monitor.stack mv)
  && forallb (fun c => bool_decide (c ∈ Monitor.stack mv)) (Monitor.clients mv)
  && forallb (fun c => from_option (fun v => bool_decide (Client.mon v = m)) true
                         (Plug.client_heap s !! c)) (Monitor.clients mv)
  && from_option (fun c => bool_decide (c ∈ Monitor.stack mv)) true (Monitor.sel mv).

Definition linkedb (s : Plug.t) : bool :=
  wfb s && bool_decide (NoDup (Plug.mons s))
  && forallb (fun kv => bool_decide (fst kv ∈ Plug.mons s)
                        && linked_monitorb s (fst kv) (snd kv))
       (map_to_list (Plug.mon_heap s))
  && forallb (fun kv => from_option
                          (fun mv => bool_decide (fst kv ∈ Monitor.clients mv)) false
                          (Plug.mon_heap s !! Client.mon (snd kv)))
       (map_to_list (Plug.client_heap s)).

(** The monitor [detachstack(c)] leaves: [c] is unlinked from the stack,
    and a selection of [c] passes to the first visible client left. *)
Definition detachstack_monitor (s : Plug.t) (c : CId) (mv : Monitor.t) : Monitor.t :=
  let mv1 := Monitor.set_stack (unlink c (Monitor.stack mv)) mv in
  if bool_decide (Monitor.sel mv = Some c)
  then Monitor.set_sel (List.find (visible_in s) (Monitor.stack mv1)) mv1
  else mv1.

(** The client [focus(c)] gives the focus to: [c] if it is visible, the
    first visible client of the stack of the selected monitor otherwise. *)
Definition focus_target (s : Plug.t) (c : option CId) : option CId :=
  if match c with Some c0 => visible_in s c0 | None => false end then c
  else match Plug.mon_heap s !! Plug.selmon s with
       | Some m => List.find (visible_in s) (Monitor.stack m)
       | None => None
       end.

(** The monitor of the client [focus] gives the focus to, afterwards. *)
Definition focused_monitor (f : CId) (mv : Monitor.t) : Monitor.t :=
  Monitor.set_sel (Some f) (Monitor.set_stack (f :: unlink f (Monitor.stack mv)) mv).


(** ** Looking windows up *)

(** Whether the client [c] has the window [w]. *)
Definition has_window (s : Plug.t) (w : Window) (c : CId) : bool :=
  from_option (fun v => Client.win v =? w) false (Plug.client_heap s !! c).

(** Whether the bar of the monitor [m] is the window [w]. *)
Definition has_barwin (s : Plug.t) (w : Window) (m : MonId) : bool :=
  from_option (fun mv => w =? Monitor.barwin mv) false (Plug.mon_heap s !! m).

(** The area [recttomon] computes for the monitor [m]. *)
Definition area_on (s : Plug.t) (x y w h : Z) (m : MonId) : Z :=
  from_option (INTERSECT x y w h) 0 (Plug.mon_heap s !! m).

(** The part of a client list [nexttiled] returns: from the first client
    that is neither floating nor hidden. *)
Fixpoint dropwhile_untiled (s : Plug.t) (l : list CId) : list CId :=
  match l with
  | [] => []
  | c :: l' => if tiled_pure s c then l else dropwhile_untiled s l'
  end.

(** The client [zoom] promotes on a monitor whose selection [c] is tiled:
    [c], or the second tiled client when [c] is the first. *)
Definition zoom_target (s : Plug.t) (m : Monitor.t) (c : CId) : option CId :=
  let tl := List.filter (tiled_pure s) (Monitor.clients m) in
  if bool_decide (head tl = Some c) then tl !! 1%nat else Some c.

(** ** Monitors *)

(** The position on the list of monitors [dirtomon(dir)] goes to from
    position [i]: the next one for a positive [dir], the one before
    otherwise, around the ends of a list of [n]. *)
Definition ring_step (dir : Z) (n i : nat) : nat :=
  if 0 <? dir then (S i) mod n else (i + n - 1) mod n.

(** A run that leaves the clients, the monitors and the selected monitor
    as they are. *)
Definition calm (s s' : Plug.t) : Prop :=
  Plug.client_heap s' = Plug.client_heap s /\ Plug.mon_heap s' = Plug.mon_heap s
  /\ Plug.selmon s' = Plug.selmon s /\ plug_core s' = plug_core s.

(** ** Arranging *)

(** A run that keeps the frame, the size increments of the clients and
    the selected monitor, and writes no field of a monitor but its layout
    symbol. *)
Definition laid (s s' : Plug.t) : Prop :=
  frame s s' /\ Plug.selmon s' = Plug.selmon s
  /\ (forall m, Monitor.set_ltsymbol EmptyString <$> Plug.mon_heap s' !! m
                = Monitor.set_ltsymbol EmptyString <$> Plug.mon_heap s !! m)
  /\ hinted s s'.

(** ** The bar *)

(** The bar and the window area of a monitor are where [updatebarpos]
    puts them for a bar of height [bh]. *)
Definition bar_placed (bh : Z) (m : Monitor.t) : Prop :=
  Monitor.wy m = Monitor.wy (barpos bh m)
  /\ Monitor.wh m = Monitor.wh (barpos bh m)
  /\ Monitor.by_ m = Monitor.by_ (barpos bh m).

(** ** The monocle layout *)

(** The number of visible clients of a list. *)
Definition visible_count (s : Plug.t) (l : list CId) : Z :=
  Z.of_nat (length (List.filter (visible_in s) l)).

(** ** Tags of the clients *)

(** A client has a tag. *)
Definition tagged (v : Client.t) : Prop := Client.tags v <> 0.

Definition taggedb (v : Client.t) : bool := truthy (Client.tags v).

(** ** Moving the focus along the client list *)

(** The client [focusstack(i)] gives the focus to, for a selection [c]
    between the clients [pre] and [next] of its monitor: the first visible
    client after [c] for a positive [i], the last visible one before [c]
    otherwise, in both cases around the ends of the list and back to [c]. *)
Definition focusstack_target (s : Plug.t) (i : Z) (pre : list CId) (c : CId)
    (next : list CId) : option CId :=
  if 0 <? i then List.find (visible_in s) (next ++ pre ++ [c])
  else last (List.filter (visible_in s) (c :: next ++ pre)).

(** * Properties *)

(** ** Facts on machine integers *)

Lemma sint_small z : int_range z -> sint z = z.
Proof.
  unfold int_range, sint. intros H.
  rewrite Z.mod_small by lia. lia.
Qed.

Lemma sint_range z : int_range (sint z).
Proof.
  unfold int_range, sint.
  pose proof (Z.mod_pos_bound (z + 2 ^ 31) (2 ^ 32) ltac:(lia)). lia.
Qed.

Lemma uint_small z : 0 <= z < 2 ^ 32 -> uint z = z.
Proof. intros H. unfold uint. apply Z.mod_small. lia. Qed.

Lemma uint_range z : 0 <= uint z < 2 ^ 32.
Proof. unfold uint. apply Z.mod_pos_bound. lia. Qed.

Lemma sint_uint z : sint (uint z) = sint z.
Proof.
  unfold sint, uint.
  rewrite <- (Zplus_mod_idemp_l z). reflexivity.
Qed.

Lemma truthy_true z : truthy z = true <-> z <> 0.
Proof. unfold truthy. destruct (Z.eqb_spec z 0); simpl; split; congruence. Qed.

Lemma truthy_false z : truthy z = false <-> z = 0.
Proof. unfold truthy. destruct (Z.eqb_spec z 0); simpl; split; congruence. Qed.

Example f32_half_of_1920 :
  float_to_uint (F32.mul (F32.of_int 1920) (F32.dyadic 1 1)) = 960.
Proof. vm_compute. reflexivity. Qed.

(** ** Reasoning on the monad *)

Lemma bind_Some {A B} (m : M A) (k : A -> M B) s b s2 :
  (m ≫= k) s = Some (b, s2) <->
  exists a s1, m s = Some (a, s1) /\ k a s1 = Some (b, s2).
Proof.
  unfold mbind, M_bind, bind. split.
  - destruct (m s) as [[a s1]|] eqn:E; [|discriminate]. eauto.
  - intros (a & s1 & -> & H). exact H.
Qed.

Lemma bind_None {A B} (m : M A) (k : A -> M B) s :
  m s = None -> (m ≫= k) s = None.
Proof. unfold mbind, M_bind, bind. intros ->. reflexivity. Qed.

Lemma bind_step {A B} (m : M A) (k : A -> M B) s a s1 :
  m s = Some (a, s1) -> (m ≫= k) s = k a s1.
Proof. unfold mbind, M_bind, bind. intros ->. reflexivity. Qed.

Section Preserves.

Context (R : relation Plug.t) `{!PreOrder R}.

Lemma preserves_ret {A} (a : A) : preserves R (mret a).
Proof. intros s a' s' [= _ <-]. reflexivity. Qed.

Lemma preserves_bind {A B} (m : M A) (k : A -> M B) :
  preserves R m -> (forall a, preserves R (k a)) -> preserves R (m ≫= k).
Proof.
  intros Hm Hk s b s2 (a & s1 & H1 & H2)%bind_Some.
  transitivity s1; [eapply Hm | eapply Hk]; eassumption.
Qed.

Lemma preserves_undefined {A} : preserves R (@undefined A).
Proof. intros s a s' [=]. Qed.

Lemma preserves_gets {A} (f : Plug.t -> A) : preserves R (gets f).
Proof. intros s a s' [= _ <-]. reflexivity. Qed.

Lemma preserves_deref {A} (p : option A) : preserves R (deref p).
Proof. destruct p; [apply preserves_ret | apply preserves_undefined]. Qed.

Lemma preserves_client c : preserves R (client c).
Proof.
  intros s a s'. unfold client.
  destruct (Plug.client_heap s !! c); intros [= _ <-]. reflexivity.
Qed.

Lemma preserves_monitor m : preserves R (monitor m).
Proof.
  intros s a s'. unfold monitor.
  destruct (Plug.mon_heap s !! m); intros [= _ <-]. reflexivity.
Qed.

Lemma preserves_modify f : (forall s, R s (f s)) -> preserves R (modify f).
Proof. intros H s a s' [= _ <-]. apply H. Qed.

Lemma preserves_when b m : preserves R m -> preserves R (when b m).
Proof. destruct b; [trivial | intros _; apply preserves_ret]. Qed.

Lemma preserves_forM {A} (l : list A) f :
  (forall a, preserves R (f a)) -> preserves R (forM l f).
Proof.
  intros H. induction l as [|a l IH]; simpl.
  - apply preserves_ret.
  - apply preserves_bind; auto.
Qed.

Lemma preserves_foldM {A B} (l : list A) (f : B -> A -> M B) b :
  (forall b a, preserves R (f b a)) -> preserves R (foldM l f b).
Proof.
  intros H. revert b. induction l as [|a l IH]; simpl; intros b.
  - apply preserves_ret.
  - apply preserves_bind; auto.
Qed.

Lemma preserves_upd_client c f :
  (forall s v, Plug.client_heap s !! c = Some v ->
     R s (Plug.set_client_heap (<[c := f v]> (Plug.client_heap s)) s)) ->
  preserves R (upd_client c f).
Proof.
  intros H s a s'. unfold upd_client. intros (v & s1 & H1 & H2)%bind_Some.
  unfold client in H1. destruct (Plug.client_heap s !! c) eqn:E; [|discriminate].
  injection H1 as <- <-. injection H2 as _ <-. auto.
Qed.

Lemma preserves_upd_monitor m f :
  (forall s v, Plug.mon_heap s !! m = Some v ->
     R s (Plug.set_mon_heap (<[m := f v]> (Plug.mon_heap s)) s)) ->
  preserves R (upd_monitor m f).
Proof.
  intros H s a s'. unfold upd_monitor. intros (v & s1 & H1 & H2)%bind_Some.
  unfold monitor in H1. destruct (Plug.mon_heap s !! m) eqn:E; [|discriminate].
  injection H1 as <- <-. injection H2 as _ <-. auto.
Qed.

End Preserves.

(** ** What the arrangers and the focus functions leave alone

    [resize], [arrange] and [focus] write the geometry, the size hints, the
    urgency flag, the layout symbol, the focus stack and the selection.
    Everything else is the frame. *)

#[global] Instance frame_preorder : PreOrder frame.
Proof.
  split.
  - intros s. repeat split.
  - intros s1 s2 s3 (Hc1 & Hm1 & Hp1) (Hc2 & Hm2 & Hp2). repeat split.
    + intros c. rewrite Hc2. apply Hc1.
    + intros m. rewrite Hm2. apply Hm1.
    + congruence.
Qed.

Lemma frame_upd_client s c v v' :
  Plug.client_heap s !! c = Some v ->
  client_core v' = client_core v ->
  frame s (Plug.set_client_heap (<[c := v']> (Plug.client_heap s)) s).
Proof.
  intros Hv Hf. repeat split. intros d. simpl.
  destruct (decide (c = d)) as [<-|Hne].
  - rewrite lookup_insert_eq, Hv. simpl. congruence.
  - rewrite lookup_insert_ne by assumption. reflexivity.
Qed.

Lemma frame_upd_monitor s m v v' :
  Plug.mon_heap s !! m = Some v ->
  monitor_core v' = monitor_core v ->
  frame s (Plug.set_mon_heap (<[m := v']> (Plug.mon_heap s)) s).
Proof.
  intros Hv Hf. repeat split. intros d. simpl.
  destruct (decide (m = d)) as [<-|Hne].
  - rewrite lookup_insert_eq, Hv. simpl. congruence.
  - rewrite lookup_insert_ne by assumption. reflexivity.
Qed.

Lemma frame_client s s' c v :
  frame s s' -> Plug.client_heap s !! c = Some v ->
  exists v', Plug.client_heap s' !! c = Some v' /\ client_core v' = client_core v.
Proof.
  intros (Hc & _) Hv. specialize (Hc c). rewrite Hv in Hc.
  destruct (Plug.client_heap s' !! c) as [v'|]; [|discriminate].
  simpl in Hc. exists v'. split; [reflexivity | congruence].
Qed.

Lemma frame_client_inv s s' c v' :
  frame s s' -> Plug.client_heap s' !! c = Some v' ->
  exists v, Plug.client_heap s !! c = Some v /\ client_core v' = client_core v.
Proof.
  intros (Hc & _) Hv. specialize (Hc c). rewrite Hv in Hc.
  destruct (Plug.client_heap s !! c) as [v|]; [|discriminate].
  simpl in Hc. exists v. split; [reflexivity | congruence].
Qed.

Lemma frame_monitor s s' m v :
  frame s s' -> Plug.mon_heap s !! m = Some v ->
  exists v', Plug.mon_heap s' !! m = Some v' /\ monitor_core v' = monitor_core v.
Proof.
  intros (_ & Hm & _) Hv. specialize (Hm m). rewrite Hv in Hm.
  destruct (Plug.mon_heap s' !! m) as [v'|]; [|discriminate].
  simpl in Hm. exists v'. split; [reflexivity | congruence].
Qed.

Lemma frame_monitor_inv s s' m v' :
  frame s s' -> Plug.mon_heap s' !! m = Some v' ->
  exists v, Plug.mon_heap s !! m = Some v /\ monitor_core v' = monitor_core v.
Proof.
  intros (_ & Hm & _) Hv. specialize (Hm m). rewrite Hv in Hm.
  destruct (Plug.mon_heap s !! m) as [v|]; [|discriminate].
  simpl in Hm. exists v. split; [reflexivity | congruence].
Qed.

Ltac tc_solve := try (lazymatch goal with |- PreOrder _ => apply _ end).

Lemma preserves_emit R `{!PreOrder R} e :
  (forall s, R s (Plug.set_xlog (Plug.xlog s ++ [e]) s)) -> preserves R (emit e).
Proof. intros H. apply preserves_modify; tc_solve. exact H. Qed.

Lemma frame_emit e : preserves frame (emit e).
Proof. apply preserves_emit; tc_solve. intros s. repeat split. Qed.

Create HintDb pres discriminated.
#[global] Hint Resolve frame_emit : pres.

(** Structural steps of a proof of [preserves]. *)
Ltac pres_step :=
  lazymatch goal with
  | |- preserves _ (mret _) => apply preserves_ret; tc_solve
  | |- preserves _ (ret _) => apply preserves_ret; tc_solve
  | |- preserves _ (_ ≫= _) => apply preserves_bind; tc_solve; [| intros ?]
  | |- preserves _ (when _ _) => apply preserves_when; tc_solve
  | |- preserves _ (gets _) => apply preserves_gets; tc_solve
  | |- preserves _ (deref _) => apply preserves_deref; tc_solve
  | |- preserves _ undefined => apply preserves_undefined
  | |- preserves _ (client _) => apply preserves_client; tc_solve
  | |- preserves _ (monitor _) => apply preserves_monitor; tc_solve
  | |- preserves _ (forM _ _) => apply preserves_forM; tc_solve; intros ?
  | |- preserves _ (foldM _ _ _) => apply preserves_foldM; tc_solve; intros ? ?
  | |- preserves _ (if ?b then _ else _) => destruct b
  | |- preserves _ (match ?o with Some _ => _ | None => _ end) => destruct o
  | |- preserves _ (match ?o with (_, _) => _ end) => destruct o
  | |- preserves _ (match ?o with ArrTile => _ | ArrMonocle => _ end) => destruct o
  | |- preserves frame (upd_client _ _) =>
      apply preserves_upd_client; intros ? ? ?;
      eapply frame_upd_client; [eassumption | reflexivity]
  | |- preserves frame (upd_monitor _ _) =>
      apply preserves_upd_monitor; intros ? ? ?;
      eapply frame_upd_monitor; [eassumption | reflexivity]
  end.

Ltac pres := repeat first [pres_step | solve [auto with pres]].

Section Frame.

Variable cfg : Config.

Lemma frame_sizehints_of reply v : client_core (sizehints_of reply v) = client_core v.
Proof.
  unfold sizehints_of.
  repeat match goal with |- context [if ?b then _ else _] => destruct b end;
    reflexivity.
Qed.

Lemma frame_updatesizehints c : preserves frame (updatesizehints c).
Proof.
  unfold updatesizehints. pres.
  apply preserves_upd_client. intros s v Hv.
  eapply frame_upd_client; [eassumption | apply frame_sizehints_of].
Qed.
#[local] Hint Resolve frame_updatesizehints : pres.

Lemma frame_applysizehints c x y w h i : preserves frame (applysizehints cfg c x y w h i).
Proof. unfold applysizehints. pres. Qed.
#[local] Hint Resolve frame_applysizehints : pres.

Lemma frame_configure c : preserves frame (configure c).
Proof. unfold configure. pres. Qed.
#[local] Hint Resolve frame_configure : pres.

Lemma frame_resizeclient c x y w h : preserves frame (resizeclient c x y w h).
Proof. unfold resizeclient. pres. Qed.
#[local] Hint Resolve frame_resizeclient : pres.

Lemma frame_resize c x y w h i : preserves frame (resize cfg c x y w h i).
Proof. unfold resize. pres. Qed.
#[local] Hint Resolve frame_resize : pres.

Lemma frame_ISVISIBLE c : preserves frame (ISVISIBLE c).
Proof. unfold ISVISIBLE. pres. Qed.
#[local] Hint Resolve frame_ISVISIBLE : pres.

Lemma frame_tiled c : preserves frame (tiled c).
Proof. unfold tiled. pres. Qed.
#[local] Hint Resolve frame_tiled : pres.

Lemma frame_for_tiled {B} l (body : B -> CId -> M B) b :
  (forall b c, preserves frame (body b c)) -> preserves frame (for_tiled l body b).
Proof. intros H. unfold for_tiled. pres. Qed.

Lemma frame_tile_step m n mw st c : preserves frame (tile_step cfg m n mw st c).
Proof. unfold tile_step. destruct st as [[i my] ty]. pres. Qed.
#[local] Hint Resolve frame_tile_step : pres.

Lemma frame_tile m : preserves frame (tile cfg m).
Proof. unfold tile. pres; apply frame_for_tiled; intros; pres. Qed.
#[local] Hint Resolve frame_tile : pres.

Lemma frame_monocle m : preserves frame (monocle cfg m).
Proof. unfold monocle. pres. apply frame_for_tiled; intros; pres. Qed.
#[local] Hint Resolve frame_monocle : pres.

Lemma frame_arrangemon m : preserves frame (arrangemon cfg m).
Proof. unfold arrangemon. pres. Qed.
#[local] Hint Resolve frame_arrangemon : pres.

Lemma frame_showhide l : preserves frame (showhide cfg l).
Proof. induction l as [|c l IH]; simpl; pres. Qed.
#[local] Hint Resolve frame_showhide : pres.

Lemma frame_drawbar m : preserves frame (drawbar m).
Proof. unfold drawbar. pres. Qed.
#[local] Hint Resolve frame_drawbar : pres.

Lemma frame_drawbars : preserves frame drawbars.
Proof. unfold drawbars. pres. Qed.
#[local] Hint Resolve frame_drawbars : pres.

Lemma frame_restack m : preserves frame (restack m).
Proof. unfold restack. pres. Qed.
#[local] Hint Resolve frame_restack : pres.

Lemma frame_arrange m : preserves frame (arrange cfg m).
Proof. unfold arrange. pres. Qed.
#[local] Hint Resolve frame_arrange : pres.

Lemma frame_updatenumlockmask : preserves frame updatenumlockmask.
Proof.
  unfold updatenumlockmask. pres.
  apply preserves_modify; tc_solve. intros s. repeat split.
Qed.
#[local] Hint Resolve frame_updatenumlockmask : pres.

Lemma frame_grabbuttons c f : preserves frame (grabbuttons c f).
Proof. unfold grabbuttons. pres. Qed.
#[local] Hint Resolve frame_grabbuttons : pres.

Lemma frame_unfocus c f : preserves frame (unfocus c f).
Proof. unfold unfocus. pres. Qed.
#[local] Hint Resolve frame_unfocus : pres.

Lemma frame_seturgent c u : preserves frame (seturgent c u).
Proof. unfold seturgent. pres. Qed.
#[local] Hint Resolve frame_seturgent : pres.

Lemma frame_first_visible l : preserves frame (first_visible l).
Proof. induction l as [|c l IH]; simpl; pres. Qed.
#[local] Hint Resolve frame_first_visible : pres.

Lemma frame_detachstack c : preserves frame (detachstack c).
Proof. unfold detachstack. pres. Qed.
#[local] Hint Resolve frame_detachstack : pres.

Lemma frame_attachstack c : preserves frame (attachstack c).
Proof. unfold attachstack. pres. Qed.
#[local] Hint Resolve frame_attachstack : pres.

Lemma frame_sendevent c p : preserves frame (sendevent c p).
Proof. unfold sendevent. pres. Qed.
#[local] Hint Resolve frame_sendevent : pres.

Lemma frame_setfocus c : preserves frame (setfocus c).
Proof. unfold setfocus. pres. Qed.
#[local] Hint Resolve frame_setfocus : pres.

Lemma frame_set_selmon m : preserves frame (modify (Plug.set_selmon m)).
Proof. apply preserves_modify; tc_solve. intros s. repeat split. Qed.
#[local] Hint Resolve frame_set_selmon : pres.

Lemma frame_focus c : preserves frame (focus c).
Proof. unfold focus. pres. Qed.
#[local] Hint Resolve frame_focus : pres.

Lemma frame_setclientstate c st : preserves frame (setclientstate c st).
Proof. unfold setclientstate. pres. Qed.
#[local] Hint Resolve frame_setclientstate : pres.

Lemma frame_wintoclient w : preserves frame (wintoclient w).
Proof. unfold wintoclient. pres. Qed.
#[local] Hint Resolve frame_wintoclient : pres.

Lemma frame_place_minimized m hgt l x : preserves frame (place_minimized cfg m hgt l x).
Proof. unfold place_minimized. pres. Qed.
#[local] Hint Resolve frame_place_minimized : pres.

End Frame.

#[global] Hint Resolve frame_updatesizehints frame_applysizehints frame_configure
  frame_resizeclient frame_resize frame_ISVISIBLE frame_tiled frame_tile_step
  frame_tile frame_monocle frame_arrangemon frame_showhide frame_drawbar
  frame_drawbars frame_restack frame_arrange frame_updatenumlockmask
  frame_grabbuttons frame_unfocus frame_seturgent frame_first_visible
  frame_detachstack frame_attachstack frame_sendevent frame_setfocus
  frame_set_selmon frame_focus frame_setclientstate frame_wintoclient
  frame_place_minimized : pres.

(** ** Forward reasoning on a run *)

Lemma post_ret {A} (a : A) s (Q : A -> Plug.t -> Prop) : Q a s -> post (mret a) s Q.
Proof. intros H a' s' [= <- <-]. exact H. Qed.

Lemma post_bind {A B} (m : M A) (k : A -> M B) s (Q : B -> Plug.t -> Prop) :
  post m s (fun a s1 => post (k a) s1 Q) -> post (m ≫= k) s Q.
Proof. intros H b s2 (a & s1 & H1 & H2)%bind_Some. exact (H a s1 H1 b s2 H2). Qed.

Lemma post_mono {A} (m : M A) s (Q Q' : A -> Plug.t -> Prop) :
  post m s Q -> (forall a s', Q a s' -> Q' a s') -> post m s Q'.
Proof. intros H HQ a s' Hm. apply HQ, H, Hm. Qed.

Lemma post_gets {A} (f : Plug.t -> A) s (Q : A -> Plug.t -> Prop) :
  Q (f s) s -> post (gets f) s Q.
Proof. intros H a s' [= <- <-]. exact H. Qed.

Lemma post_modify f s (Q : unit -> Plug.t -> Prop) : Q tt (f s) -> post (modify f) s Q.
Proof. intros H a s' [= <- <-]. exact H. Qed.

Lemma post_emit e s (Q : unit -> Plug.t -> Prop) :
  Q tt (Plug.set_xlog (Plug.xlog s ++ [e]) s) -> post (emit e) s Q.
Proof. apply post_modify. Qed.

Lemma post_undefined {A} s (Q : A -> Plug.t -> Prop) : post undefined s Q.
Proof. intros a s' [=]. Qed.

Lemma post_deref {A} (p : option A) s (Q : A -> Plug.t -> Prop) :
  (forall a, p = Some a -> Q a s) -> post (deref p) s Q.
Proof. destruct p; intros H; [apply post_ret; auto | apply post_undefined]. Qed.

Lemma post_client c s (Q : Client.t -> Plug.t -> Prop) :
  (forall v, Plug.client_heap s !! c = Some v -> Q v s) -> post (client c) s Q.
Proof.
  intros H v s'. unfold client.
  destruct (Plug.client_heap s !! c) eqn:E; intros [= <- <-]. auto.
Qed.

Lemma post_monitor m s (Q : Monitor.t -> Plug.t -> Prop) :
  (forall v, Plug.mon_heap s !! m = Some v -> Q v s) -> post (monitor m) s Q.
Proof.
  intros H v s'. unfold monitor.
  destruct (Plug.mon_heap s !! m) eqn:E; intros [= <- <-]. auto.
Qed.

Lemma post_upd_client c f s (Q : unit -> Plug.t -> Prop) :
  (forall v, Plug.client_heap s !! c = Some v ->
     Q tt (Plug.set_client_heap (<[c := f v]> (Plug.client_heap s)) s)) ->
  post (upd_client c f) s Q.
Proof.
  intros H. unfold upd_client. apply post_bind, post_client. intros v Hv.
  apply post_modify. auto.
Qed.

Lemma post_upd_monitor m f s (Q : unit -> Plug.t -> Prop) :
  (forall v, Plug.mon_heap s !! m = Some v ->
     Q tt (Plug.set_mon_heap (<[m := f v]> (Plug.mon_heap s)) s)) ->
  post (upd_monitor m f) s Q.
Proof.
  intros H. unfold upd_monitor. apply post_bind, post_monitor. intros v Hv.
  apply post_modify. auto.
Qed.

Lemma post_preserves R {A} (m : M A) s (Q : A -> Plug.t -> Prop) :
  preserves R m -> (forall a s', R s s' -> Q a s') -> post m s Q.
Proof. intros Hm HQ a s' H. apply HQ. eapply Hm, H. Qed.

Lemma post_when b m s (Q : unit -> Plug.t -> Prop) :
  (b = true -> post m s Q) -> (b = false -> Q tt s) -> post (when b m) s Q.
Proof. destruct b; simpl; intros H1 H2; [auto | apply post_ret; auto]. Qed.

Lemma preserves_post R {A} (m : M A) :
  (forall s, post m s (fun _ s' => R s s')) -> preserves R m.
Proof. intros H s a s' Hm. exact (H s a s' Hm). Qed.

(** Structural steps of a forward proof. *)
Ltac post_step :=
  lazymatch goal with
  | |- post (mret _) _ _ => apply post_ret
  | |- post (ret _) _ _ => apply post_ret
  | |- post (_ ≫= _) _ _ => apply post_bind
  | |- post (gets _) _ _ => apply post_gets
  | |- post (modify _) _ _ => apply post_modify
  | |- post (emit _) _ _ => apply post_emit
  | |- post undefined _ _ => apply post_undefined
  | |- post (deref _) _ _ => apply post_deref; intros ? ?
  | |- post (client _) _ _ => apply post_client; intros ? ?
  | |- post (monitor _) _ _ => apply post_monitor; intros ? ?
  | |- post (upd_client _ _) _ _ => apply post_upd_client; intros ? ?
  | |- post (upd_monitor _ _) _ _ => apply post_upd_monitor; intros ? ?
  | |- post (when _ _) _ _ => apply post_when; intros ?
  | |- post (if ?b then _ else _) _ _ => destruct b eqn:?
  | |- post (match ?o with Some _ => _ | None => _ end) _ _ => destruct o eqn:?
  end.

(** ** Functions that only read the state *)

Lemma bind_always_None {A B} (m : M A) (k : A -> M B) s :
  (forall a s1, k a s1 = None) -> (m ≫= k) s = None.
Proof.
  intros H. unfold mbind, M_bind, bind. destruct (m s) as [[a s1]|]; auto.
Qed.

Lemma pure_wintoclient w : preserves eq (wintoclient w).
Proof. unfold wintoclient. pres. Qed.

Lemma pure_ISVISIBLE c : preserves eq (ISVISIBLE c).
Proof. unfold ISVISIBLE. pres. Qed.

(** ** Invariants of the managed clients *)

Lemma frame_managed s s' c : frame s s' -> managed s c <-> managed s' c.
Proof.
  intros Hf. pose proof Hf as (_ & _ & Hp).
  assert (Plug.mons s' = Plug.mons s) as Hmons
    by (unfold plug_core in Hp; congruence).
  split; intros (m & mv & Hin & Hm & Hc).
  - destruct (frame_monitor _ _ _ _ Hf Hm) as (mv' & Hm' & Hcore).
    exists m, mv'. rewrite Hmons. repeat split; [assumption..|].
    unfold monitor_core in Hcore. congruence.
  - destruct (frame_monitor_inv _ _ _ _ Hf Hm) as (mv' & Hm' & Hcore).
    exists m, mv'. rewrite <- Hmons. repeat split; [assumption..|].
    unfold monitor_core in Hcore. congruence.
Qed.

Lemma client_inv_frame P s s' :
  core_property P -> frame s s' -> client_inv P s -> client_inv P s'.
Proof.
  intros HP Hf Hinv c v' Hman Hv'.
  destruct (frame_client_inv _ _ _ _ Hf Hv') as (v & Hv & Hcore).
  apply (HP v v' Hcore). apply (Hinv c); [|assumption].
  apply (frame_managed _ _ _ Hf). assumption.
Qed.

Lemma client_inv_upd P s c v v' :
  Plug.client_heap s !! c = Some v ->
  (P v -> P v') ->
  client_inv P s ->
  client_inv P (Plug.set_client_heap (<[c := v']> (Plug.client_heap s)) s).
Proof.
  intros Hv HP Hinv d w Hman Hw. simpl in Hw.
  assert (managed s d) as Hman' by exact Hman.
  destruct (decide (c = d)) as [<-|Hne].
  - rewrite lookup_insert_eq in Hw. injection Hw as <-. apply HP. eapply Hinv; eassumption.
  - rewrite lookup_insert_ne in Hw by assumption. eapply Hinv; eassumption.
Qed.

Lemma client_inv_log P s l :
  client_inv P s -> client_inv P (Plug.set_xlog l s).
Proof. intros H. exact H. Qed.

Lemma fullscreen_ok_core : core_property fullscreen_ok.
Proof.
  intros v v' Hcore. unfold fullscreen_ok, client_core in *.
  injection Hcore as -> -> -> _. trivial.
Qed.

Lemma fullscreen_floats_core : core_property fullscreen_floats.
Proof.
  intros v v' Hcore. unfold fullscreen_floats, client_core in *.
  injection Hcore as -> -> _. trivial.
Qed.

Lemma fullscreen_okb_spec v : fullscreen_okb v = true <-> fullscreen_ok v.
Proof.
  unfold fullscreen_okb, fullscreen_ok.
  destruct (truthy (Client.isfullscreen v)); simpl.
  - rewrite andb_true_iff, Z.eqb_eq. tauto.
  - split; [discriminate | reflexivity].
Qed.

Lemma managed_list_spec s c : managed s c <-> c ∈ managed_list s.
Proof.
  unfold managed, managed_list. rewrite list_elem_of_In, in_concat. split.
  - intros (m & mv & Hin & Hm & Hc).
    exists (Monitor.clients mv). split; [|apply list_elem_of_In; exact Hc].
    apply in_map_iff. exists m. rewrite Hm. split; [reflexivity|].
    apply list_elem_of_In. exact Hin.
  - intros (l & Hl & Hc). apply in_map_iff in Hl as (m & <- & Hin).
    destruct (Plug.mon_heap s !! m) as [mv|] eqn:Hm; simpl in Hc; [|contradiction].
    exists m, mv. rewrite !list_elem_of_In. auto.
Qed.

Lemma client_invb_spec (p : Client.t -> bool) (P : Client.t -> Prop) s :
  (forall v, p v = true <-> P v) -> client_invb p s = true <-> client_inv P s.
Proof.
  intros Hp. unfold client_invb, client_inv. rewrite forallb_forall. split.
  - intros H c v Hman Hv. apply Hp.
    specialize (H c). rewrite Hv in H. apply H.
    apply list_elem_of_In, managed_list_spec, Hman.
  - intros H c Hin. destruct (Plug.client_heap s !! c) as [v|] eqn:Hv; [|reflexivity].
    simpl. apply Hp. apply (H c); [|exact Hv].
    apply managed_list_spec, list_elem_of_In, Hin.
Qed.

(** A call to a function that keeps the frame. *)
Ltac post_frame :=
  eapply (post_preserves frame); [solve [auto with pres] | intros ? ? ?].

Ltac forward := repeat first [post_step | post_frame].

#[global] Instance inv_rel_preorder P : PreOrder (inv_rel P).
Proof. split; unfold inv_rel; [intros s | intros s1 s2 s3]; auto. Qed.

Lemma client_inv_ext P s s' c v v' :
  Plug.mons s' = Plug.mons s ->
  Plug.mon_heap s' = Plug.mon_heap s ->
  Plug.client_heap s' = <[c := v']> (Plug.client_heap s) ->
  Plug.client_heap s !! c = Some v ->
  (P v -> P v') ->
  client_inv P s -> client_inv P s'.
Proof.
  intros Hmons Hmh Hch Hv HP Hinv d w (m & mv & Hin & Hm & Hd) Hw.
  rewrite Hmons in Hin. rewrite Hmh in Hm. rewrite Hch in Hw.
  assert (managed s d) as Hman by (exists m, mv; auto).
  destruct (decide (c = d)) as [<-|Hne].
  - rewrite lookup_insert_eq in Hw. injection Hw as <-. apply HP. eapply Hinv; eassumption.
  - rewrite lookup_insert_ne in Hw by assumption. eapply Hinv; eassumption.
Qed.

Lemma client_inv_same P s s' :
  Plug.mons s' = Plug.mons s ->
  Plug.mon_heap s' = Plug.mon_heap s ->
  Plug.client_heap s' = Plug.client_heap s ->
  client_inv P s -> client_inv P s'.
Proof.
  intros Hmons Hmh Hch Hinv d w (m & mv & Hin & Hm & Hd) Hw.
  rewrite Hmons in Hin. rewrite Hmh in Hm. rewrite Hch in Hw.
  apply (Hinv d); [exists m, mv; auto | assumption].
Qed.

Lemma inv_rel_frame P {A} (m : M A) :
  core_property P -> preserves frame m -> preserves (inv_rel P) m.
Proof.
  intros HP Hm s a s' H Hinv. eapply client_inv_frame; [exact HP | | exact Hinv].
  eapply Hm, H.
Qed.

Lemma inv_rel_upd_client P c f :
  (forall v, P v -> P (f v)) -> preserves (inv_rel P) (upd_client c f).
Proof.
  intros HP. apply preserves_upd_client; tc_solve. intros s v Hv Hinv.
  apply (client_inv_ext P s _ c v (f v)); [reflexivity | reflexivity | reflexivity | exact Hv | apply HP | exact Hinv].
Qed.

Lemma inv_rel_emit P e : preserves (inv_rel P) (emit e).
Proof.
  apply preserves_emit; tc_solve. intros s Hinv.
  apply (client_inv_same P s); [reflexivity.. | exact Hinv].
Qed.

Create HintDb core_props discriminated.
#[global] Hint Resolve fullscreen_ok_core fullscreen_floats_core : core_props.

(** Steps of a proof that an invariant of the managed clients survives. *)
Ltac inv_step :=
  lazymatch goal with
  | |- preserves (inv_rel _) (emit _) => apply inv_rel_emit
  | |- preserves (inv_rel _) (upd_client _ _) =>
      apply inv_rel_upd_client; intros ?;
      unfold fullscreen_ok, fullscreen_floats; cbn; try solve [intuition congruence]
  | |- preserves (inv_rel _) _ =>
      first [ pres_step
            | apply inv_rel_frame; [solve [auto with core_props] | solve [auto with pres]] ]
  end.

Ltac inv_pres := repeat inv_step.

Section FullscreenInvariant.

Variable cfg : Config.

Lemma setfullscreen_inv c f :
  preserves (inv_rel fullscreen_ok) (setfullscreen cfg c f).
Proof. unfold setfullscreen. inv_pres. Qed.

Lemma minimize_inv c :
  preserves (inv_rel fullscreen_ok) (minimize cfg c).
Proof. unfold minimize. inv_pres. Qed.

Lemma togglefloating_inv :
  preserves (inv_rel fullscreen_ok) (togglefloating cfg).
Proof.
  apply preserves_post. intros s. unfold togglefloating. forward;
    try reflexivity; intros Hinv;
    repeat (eapply client_inv_frame; [apply fullscreen_ok_core | eassumption |]).
  all: match goal with
       | H0 : Plug.client_heap ?s0 !! ?c = Some ?v0,
         H1 : Plug.client_heap ?s0 !! ?c = Some ?v1 |- _ =>
           rewrite H0 in H1; injection H1 as <-;
           eapply (client_inv_ext _ s0 _ c v0 _);
           [reflexivity | reflexivity | reflexivity | exact H0 | | exact Hinv]
       end.
  all: unfold fullscreen_ok; cbn; intros _ Hfs; congruence.
Qed.

Lemma configurerequest_inv ev :
  has (cr_value_mask ev) CWBorderWidth = false ->
  preserves (inv_rel fullscreen_ok) (configurerequest ev).
Proof. intros Hmask. unfold configurerequest. rewrite Hmask. inv_pres. Qed.

Lemma configurerequest_floats ev :
  preserves (inv_rel fullscreen_floats) (configurerequest ev).
Proof. unfold configurerequest. inv_pres. Qed.

Lemma upd_client_run c f s a s' :
  upd_client c f s = Some (a, s') ->
  exists v, Plug.client_heap s !! c = Some v
            /\ s' = Plug.set_client_heap (<[c := f v]> (Plug.client_heap s)) s.
Proof.
  unfold upd_client, client, modify, mbind, M_bind, bind.
  destruct (Plug.client_heap s !! c) as [v|]; [|discriminate].
  intros [= _ <-]. eauto.
Qed.

(** A [configurerequest] with a border width in its mask, for the window
    of a managed client, makes the client floating and stores the border;
    for another window it passes the request on. *)
Lemma configurerequest_border ev s s' :
  has (cr_value_mask ev) CWBorderWidth = true ->
  configurerequest ev s = Some (tt, s') ->
  (exists c v,
     wintoclient (cr_window ev) s = Some (Some c, s)
     /\ Plug.client_heap s !! c = Some v
     /\ Plug.mons s' = Plug.mons s /\ Plug.mon_heap s' = Plug.mon_heap s
     /\ Plug.client_heap s'
        = <[c := Client.set_bw (cr_border_width ev) (Client.set_isfloating 1 v)]>
            (Plug.client_heap s))
  \/ (wintoclient (cr_window ev) s = Some (None, s)
      /\ Plug.mons s' = Plug.mons s /\ Plug.mon_heap s' = Plug.mon_heap s
      /\ Plug.client_heap s' = Plug.client_heap s).
Proof.
  intros Hmask. unfold configurerequest. rewrite Hmask.
  intros (oc & s0 & Hw & Hrun)%bind_Some.
  pose proof (pure_wintoclient _ _ _ _ Hw) as E. subst s0.
  apply bind_Some in Hrun as (u & s1 & Hrun & Hsync).
  injection Hsync as <-. destruct oc as [c|].
  - left. apply bind_Some in Hrun as (u1 & s2 & Hup1 & Hrun).
    apply upd_client_run in Hup1 as (v & Hv & ->).
    apply bind_Some in Hrun as (v1 & s3 & Hc & Hup2).
    unfold client in Hc. cbn in Hc. rewrite lookup_insert_eq in Hc.
    injection Hc as <- <-.
    apply upd_client_run in Hup2 as (v2 & Hv2 & ->).
    cbn in Hv2. rewrite lookup_insert_eq in Hv2. injection Hv2 as <-.
    exists c, v. split; [exact Hw|]. split; [exact Hv|].
    split; [reflexivity|]. split; [reflexivity|]. cbn. apply insert_insert_eq.
  - right. injection Hrun as _ <-. auto.
Qed.


End FullscreenInvariant.



(** ** Invariants of the monitors *)

#[global] Instance minv_rel_preorder P : PreOrder (minv_rel P).
Proof. split; unfold minv_rel; [intros s | intros s1 s2 s3]; auto. Qed.

Lemma monitor_inv_ext P s s' m v v' :
  Plug.mon_heap s' = <[m := v']> (Plug.mon_heap s) ->
  Plug.mon_heap s !! m = Some v ->
  (P v -> P v') ->
  monitor_inv P s -> monitor_inv P s'.
Proof.
  intros Hmh Hv HP Hinv d w Hw. rewrite Hmh in Hw.
  destruct (decide (m = d)) as [<-|Hne].
  - rewrite lookup_insert_eq in Hw. injection Hw as <-. apply HP. eapply Hinv; eassumption.
  - rewrite lookup_insert_ne in Hw by assumption. eapply Hinv; eassumption.
Qed.

Lemma monitor_inv_same P s s' :
  Plug.mon_heap s' = Plug.mon_heap s -> monitor_inv P s -> monitor_inv P s'.
Proof. intros Hmh Hinv d w Hw. rewrite Hmh in Hw. eapply Hinv; eassumption. Qed.

Lemma tagsets_nonzero_frame s s' :
  frame s s' -> monitor_inv tagsets_nonzero s -> monitor_inv tagsets_nonzero s'.
Proof.
  intros Hf Hinv m mv' Hm'.
  destruct (frame_monitor_inv _ _ _ _ Hf Hm') as (mv & Hm & Hcore).
  specialize (Hinv m mv Hm). unfold tagsets_nonzero, monitor_core in *.
  injection Hcore as -> ->. exact Hinv.
Qed.

Lemma tagsets_rel_frame {A} (m : M A) :
  preserves frame m -> preserves (minv_rel tagsets_nonzero) m.
Proof. intros Hm s a s' H Hinv. eapply tagsets_nonzero_frame; [eapply Hm, H | exact Hinv]. Qed.

Lemma minv_rel_upd_client P c f : preserves (minv_rel P) (upd_client c f).
Proof.
  apply preserves_upd_client; tc_solve. intros s v Hv Hinv.
  apply (monitor_inv_same P s); [reflexivity | exact Hinv].
Qed.

Lemma tagsets_nonzerob_spec mv : tagsets_nonzerob mv = true <-> tagsets_nonzero mv.
Proof.
  unfold tagsets_nonzerob, tagsets_nonzero.
  rewrite andb_true_iff, !truthy_true. reflexivity.
Qed.

Lemma monitor_invb_spec (p : Monitor.t -> bool) (P : Monitor.t -> Prop) s :
  (forall v, p v = true <-> P v) -> monitor_invb p s = true <-> monitor_inv P s.
Proof.
  intros Hp. unfold monitor_invb, monitor_inv. rewrite forallb_forall. split.
  - intros H m mv Hm. apply Hp. apply (H (m, mv)).
    apply list_elem_of_In, elem_of_map_to_list. exact Hm.
  - intros H [m mv] Hin. apply Hp. apply (H m).
    apply elem_of_map_to_list, list_elem_of_In. exact Hin.
Qed.

Lemma tagset_selected_nonzero mv :
  tagsets_nonzero mv -> tagset mv (Monitor.seltags mv) <> 0.
Proof. intros [H0 H1]. unfold tagset. destruct (Monitor.seltags mv =? 0); assumption. Qed.

Section Tagsets.

Variable cfg : Config.

Lemma createmon_tagsets : tagsets_nonzero (createmon cfg).
Proof. split; discriminate. Qed.

(** The end of a forward proof: back through the calls that keep the frame,
    then through the assignments to the monitor. *)
Ltac tagsets_back :=
  intros ?;
  repeat (eapply tagsets_nonzero_frame; [eassumption |]);
  repeat (eapply monitor_inv_ext; [reflexivity | eassumption | | ]);
  try eassumption.

Lemma view_tagsets ui : preserves (minv_rel tagsets_nonzero) (view cfg ui).
Proof.
  apply preserves_post. intros s. unfold view. forward; try reflexivity; tagsets_back.
  all: unfold tagsets_nonzero, set_tagset; cbn;
    repeat match goal with |- context [if ?b then _ else _] => destruct b end; cbn;
    rewrite ?truthy_true in *; tauto.
Qed.

Lemma toggleview_tagsets ui : preserves (minv_rel tagsets_nonzero) (toggleview cfg ui).
Proof.
  apply preserves_post. intros s. unfold toggleview. forward; try reflexivity; tagsets_back.
  all: unfold tagsets_nonzero, set_tagset; cbn;
    repeat match goal with |- context [if ?b then _ else _] => destruct b end; cbn;
    rewrite ?truthy_true in *; tauto.
Qed.

Lemma tag_tagsets ui : preserves (minv_rel tagsets_nonzero) (tag cfg ui).
Proof.
  unfold tag.
  repeat first [ apply minv_rel_upd_client | pres_step
               | apply tagsets_rel_frame; solve [auto with pres] ].
Qed.

Lemma toggletag_tagsets ui : preserves (minv_rel tagsets_nonzero) (toggletag cfg ui).
Proof.
  unfold toggletag.
  repeat first [ apply minv_rel_upd_client | pres_step
               | apply tagsets_rel_frame; solve [auto with pres] ].
Qed.

(** C3. A monitor leaves [createmon] with a bit set in both tagsets;
    [view], [toggleview], [tag] and [toggletag] keep that true of every
    monitor; hence the selected tagset [tagset[seltags]] of every monitor
    has a bit set after each of them. *)
Theorem selected_tagset_nonempty :
  tagsets_nonzero (createmon cfg)
  /\ (forall s s' ui,
        monitor_inv tagsets_nonzero s ->
        view cfg ui s = Some (tt, s') \/ toggleview cfg ui s = Some (tt, s')
        \/ tag cfg ui s = Some (tt, s') \/ toggletag cfg ui s = Some (tt, s') ->
        monitor_inv tagsets_nonzero s'
        /\ forall m mv, Plug.mon_heap s' !! m = Some mv ->
                        tagset mv (Monitor.seltags mv) <> 0).
Proof.
  split; [apply createmon_tagsets|].
  intros s s' ui Hinv Hrun.
  assert (monitor_inv tagsets_nonzero s') as Hinv'.
  { destruct Hrun as [H|[H|[H|H]]].
    - exact (view_tagsets ui s tt s' H Hinv).
    - exact (toggleview_tagsets ui s tt s' H Hinv).
    - exact (tag_tagsets ui s tt s' H Hinv).
    - exact (toggletag_tagsets ui s tt s' H Hinv). }
  split; [exact Hinv'|].
  intros m mv Hm. apply tagset_selected_nonzero, (Hinv' m mv Hm).
Qed.

End Tagsets.

Lemma selected_tagset_nonempty_witness :
  exists s', view sample_cfg 2 sample_state = Some (tt, s')
             /\ monitor_inv tagsets_nonzero s'.
Proof.
  eexists. split; [vm_compute; reflexivity|].
  refine (proj1 (proj2 (selected_tagset_nonempty sample_cfg) sample_state _ 2 _ _)).
  - apply (monitor_invb_spec tagsets_nonzerob); [apply tagsets_nonzerob_spec|].
    vm_compute. reflexivity.
  - left. vm_compute. reflexivity.
Defined.

(** ** EnterNotify *)

Lemma setclientstate_null st s : setclientstate None st s = None.
Proof. reflexivity. Qed.

(** C10 fails on the code. Whenever [enternotify] goes past its first test
    for a window that belongs to no client and to a monitor other than the
    selected one, it ends in [setclientstate(c, NormalState)] with [c] null,
    which dereferences [c]. *)
Theorem enternotify_null_client_crash (ev : XCrossingEvent) (s : Plug.t) (m : MonId) :
  ((negb (xc_mode ev =? NotifyNormal) || (xc_detail ev =? NotifyInferior))
   && negb (xc_window ev =? Plug.root s)) = false ->
  wintoclient (xc_window ev) s = Some (None, s) ->
  wintomon (xc_window ev) s = Some (m, s) ->
  m <> Plug.selmon s ->
  enternotify ev s = None.
Proof.
  intros Hpass Hc Hm Hne. unfold enternotify.
  rewrite (bind_step _ _ s (Plug.root s) s) by reflexivity.
  rewrite Hpass.
  rewrite (bind_step _ _ s None s) by exact Hc.
  rewrite (bind_step _ _ s m s) by exact Hm.
  rewrite (bind_step _ _ s (Plug.selmon s) s) by reflexivity.
  rewrite bool_decide_eq_false_2 by exact Hne. simpl negb. cbv iota.
  do 5 (apply bind_always_None; intros ? ?).
  apply setclientstate_null.
Qed.

Lemma enternotify_null_client_crash_witness :
  enternotify root_crossing two_monitor_state = None.
Proof.
  apply (enternotify_null_client_crash root_crossing two_monitor_state 1%nat).
  - reflexivity.
  - vm_compute. reflexivity.
  - vm_compute. reflexivity.
  - discriminate.
Defined.

(** ** ConfigureRequest *)

#[global] Instance has_rel_preorder c Q : PreOrder (has_rel c Q).
Proof. split; unfold has_rel; [intros s | intros s1 s2 s3]; auto. Qed.

Lemma has_rel_upd_client c Q d f :
  (forall v, Q v -> Q (f v)) -> preserves (has_rel c Q) (upd_client d f).
Proof.
  intros HQ. apply preserves_upd_client; tc_solve. intros s v Hv (w & Hw & Hq).
  unfold client_has. cbn. destruct (decide (d = c)) as [->|Hne].
  - rewrite lookup_insert_eq. exists (f v). split; [reflexivity|].
    apply HQ. congruence.
  - rewrite lookup_insert_ne by assumption. eauto.
Qed.

Lemma has_rel_emit c Q e : preserves (has_rel c Q) (emit e).
Proof. apply preserves_emit; tc_solve. intros s H. exact H. Qed.

Lemma has_rel_frame c Q {A} (m : M A) :
  core_property Q -> preserves frame m -> preserves (has_rel c Q) m.
Proof.
  intros HQ Hm s a s' H (v & Hv & Hq).
  destruct (frame_client _ _ _ _ (Hm _ _ _ H) Hv) as (v' & Hv' & Hcore).
  exists v'. split; [exact Hv' | exact (HQ _ _ Hcore Hq)].
Qed.

Lemma isfloating_core z : core_property (fun v => Client.isfloating v = z).
Proof. intros v v' Hcore. unfold client_core in Hcore. injection Hcore as _ -> _. trivial. Qed.

Lemma bw_core z : core_property (fun v => Client.bw v = z).
Proof. intros v v' Hcore. unfold client_core in Hcore. injection Hcore as _ _ -> _. trivial. Qed.

#[global] Hint Resolve isfloating_core bw_core : core_props.

Ltac has_step :=
  lazymatch goal with
  | |- preserves (has_rel _ _) (emit _) => apply has_rel_emit
  | |- preserves (has_rel _ _) (upd_client _ _) =>
      apply has_rel_upd_client; intros ?; cbn; try solve [intuition congruence]
  | |- preserves (has_rel _ _) _ =>
      first [ pres_step
            | apply has_rel_frame; [solve [auto with core_props] | solve [auto with pres]] ]
  end.

(** The answer to a request of a managed client never is the denial: the
    client is floating after the handler, whatever it was before. *)
Lemma configurerequest_floats_client ev s s' c :
  wintoclient (cr_window ev) s = Some (Some c, s) ->
  has (cr_value_mask ev) CWBorderWidth = false ->
  configurerequest ev s = Some (tt, s') ->
  client_has c (fun v => Client.isfloating v = 1) s'.
Proof.
  intros Hc Hmask. unfold configurerequest.
  rewrite (bind_step _ _ s (Some c) s) by exact Hc.
  rewrite Hmask. revert s'. generalize tt. change (post ?m s ?Q) with (post m s Q).
  apply post_bind, post_bind, post_upd_client. intros v Hv.
  eapply (post_preserves (has_rel c (fun v => Client.isfloating v = 1))).
  - repeat has_step.
  - intros _ s' Hrel. eapply post_preserves; [apply has_rel_emit|].
    intros _ s'' Hrel'. apply Hrel', Hrel.
    eexists. split; [apply lookup_insert_eq | reflexivity].
Qed.

(** C1 fails on the code. Client 1 of the sample state is tiled under the
    tiling arranger; its request for (100, 200, 800, 600) is not denied: the
    client is made floating, takes the requested rectangle, and no
    ConfigureNotify is sent. *)
Theorem configurerequest_tiled_not_denied :
  client_has 1%nat (fun v => Client.isfloating v = 0
                             /\ (Client.x v, Client.y v, Client.w v, Client.h v)
                                = (0, 20, 958, 1058)) sample_state
  /\ has (cr_value_mask tiled_request) CWBorderWidth = false
  /\ exists s', configurerequest tiled_request sample_state = Some (tt, s')
       /\ client_has 1%nat (fun v => Client.isfloating v = 1
                                     /\ (Client.x v, Client.y v, Client.w v, Client.h v)
                                        = (100, 200, 800, 600)) s'
       /\ existsb is_ConfigureNotify (Plug.xlog s') = false.
Proof.
  split; [|split].
  - eexists. split; [vm_compute; reflexivity|]. split; reflexivity.
  - reflexivity.
  - eexists. split; [vm_compute; reflexivity|]. split.
    + eexists. split; [vm_compute; reflexivity|]. split; reflexivity.
    + reflexivity.
Qed.

(** ** Well-formed states and runs that return *)

#[global] Instance shape_preorder : PreOrder shape.
Proof.
  split.
  - intros s. repeat split.
  - intros s1 s2 s3 (Hc1 & Hm1 & Hl1 & Hs1) (Hc2 & Hm2 & Hl2 & Hs2). repeat split.
    + intros c. rewrite Hc2. apply Hc1.
    + intros m. rewrite Hm2. apply Hm1.
    + congruence.
    + congruence.
Qed.

Lemma shape_valid_client s s' c : shape s s' -> valid_client s c -> valid_client s' c.
Proof.
  intros (Hc & _) [v Hv]. specialize (Hc c). rewrite Hv in Hc. unfold valid_client.
  destruct (Plug.client_heap s' !! c); [eauto | discriminate].
Qed.

Lemma shape_valid_monitor s s' m : shape s s' -> valid_monitor s m -> valid_monitor s' m.
Proof.
  intros (_ & Hm & _) [v Hv]. specialize (Hm m). rewrite Hv in Hm. unfold valid_monitor.
  destruct (Plug.mon_heap s' !! m); [eauto | discriminate].
Qed.

Lemma shape_client s s' c v' :
  shape s s' -> Plug.client_heap s' !! c = Some v' ->
  exists v, Plug.client_heap s !! c = Some v /\ Client.mon v' = Client.mon v.
Proof.
  intros (Hc & _) Hv. specialize (Hc c). rewrite Hv in Hc.
  destruct (Plug.client_heap s !! c) as [v|]; [|discriminate].
  simpl in Hc. exists v. split; [reflexivity | congruence].
Qed.

Lemma shape_monitor s s' m v' :
  shape s s' -> Plug.mon_heap s' !! m = Some v' ->
  exists v, Plug.mon_heap s !! m = Some v /\ monitor_shape v' = monitor_shape v.
Proof.
  intros (_ & Hm & _) Hv. specialize (Hm m). rewrite Hv in Hm.
  destruct (Plug.mon_heap s !! m) as [v|]; [|discriminate].
  simpl in Hm. exists v. split; [reflexivity | congruence].
Qed.

Lemma wf_shape s s' : wf s -> shape s s' -> wf s'.
Proof.
  intros (W1 & W2 & W3 & W4) Hs. pose proof Hs as (_ & _ & Hl & Hsel).
  repeat split.
  - intros c v' Hv'. destruct (shape_client _ _ _ _ Hs Hv') as (v & Hv & ->).
    eapply shape_valid_monitor; eauto.
  - intros c Hc. destruct (shape_monitor _ _ _ _ Hs H) as (v & Hv & Hsh).
    unfold monitor_shape in Hsh. injection Hsh as Hcl Hst Hse.
    destruct (W2 m v Hv) as (Wc & _ & _).
    eapply shape_valid_client; [exact Hs|]. apply Wc. rewrite <- Hcl. exact Hc.
  - intros c Hc. destruct (shape_monitor _ _ _ _ Hs H) as (v & Hv & Hsh).
    unfold monitor_shape in Hsh. injection Hsh as Hcl Hst Hse.
    destruct (W2 m v Hv) as (_ & Wst & _).
    eapply shape_valid_client; [exact Hs|]. apply Wst. rewrite <- Hst. exact Hc.
  - intros c Hc. destruct (shape_monitor _ _ _ _ Hs H) as (v & Hv & Hsh).
    unfold monitor_shape in Hsh. injection Hsh as Hcl Hst Hse.
    destruct (W2 m v Hv) as (_ & _ & Wse).
    eapply shape_valid_client; [exact Hs|]. apply Wse. rewrite <- Hse. exact Hc.
  - intros m Hm. rewrite Hl in Hm. eapply shape_valid_monitor; eauto.
  - rewrite Hsel. eapply shape_valid_monitor; eauto.
Qed.

Lemma shape_upd_client s c v v' :
  Plug.client_heap s !! c = Some v ->
  Client.mon v' = Client.mon v ->
  shape s (Plug.set_client_heap (<[c := v']> (Plug.client_heap s)) s).
Proof.
  intros Hv Hf. repeat split. intros d. simpl.
  destruct (decide (c = d)) as [<-|Hne].
  - rewrite lookup_insert_eq, Hv. simpl. congruence.
  - rewrite lookup_insert_ne by assumption. reflexivity.
Qed.

Lemma shape_upd_monitor s m v v' :
  Plug.mon_heap s !! m = Some v ->
  monitor_shape v' = monitor_shape v ->
  shape s (Plug.set_mon_heap (<[m := v']> (Plug.mon_heap s)) s).
Proof.
  intros Hv Hf. repeat split. intros d. simpl.
  destruct (decide (m = d)) as [<-|Hne].
  - rewrite lookup_insert_eq, Hv. simpl. congruence.
  - rewrite lookup_insert_ne by assumption. reflexivity.
Qed.

Lemma shape_emit e : preserves shape (emit e).
Proof. apply preserves_emit; tc_solve. intros s. repeat split. Qed.

Lemma wfb_spec s : wfb s = true -> wf s.
Proof.
  unfold wfb, wf. rewrite !andb_true_iff, !forallb_forall.
  intros [[[H1 H2] H3] H4]. repeat split.
  - intros c v Hv. specialize (H1 (c, v)). simpl in H1.
    eapply bool_decide_eq_true_1, H1, list_elem_of_In, elem_of_map_to_list, Hv.
  - intros c Hc. specialize (H2 (m, mv)). simpl in H2.
    rewrite !andb_true_iff, !forallb_forall in H2.
    destruct H2 as [[H2 _] _]; [apply list_elem_of_In, elem_of_map_to_list, H|].
    eapply bool_decide_eq_true_1, H2, list_elem_of_In, Hc.
  - intros c Hc. specialize (H2 (m, mv)). simpl in H2.
    rewrite !andb_true_iff, !forallb_forall in H2.
    destruct H2 as [[_ H2] _]; [apply list_elem_of_In, elem_of_map_to_list, H|].
    eapply bool_decide_eq_true_1, H2, list_elem_of_In, Hc.
  - intros c Hc. specialize (H2 (m, mv)). simpl in H2.
    rewrite !andb_true_iff, !forallb_forall in H2.
    destruct H2 as [_ H2]; [apply list_elem_of_In, elem_of_map_to_list, H|].
    rewrite Hc in H2. simpl in H2. exact (bool_decide_eq_true_1 _ H2).
  - intros m Hm. apply (bool_decide_eq_true_1 _ (H3 m (proj1 (list_elem_of_In _ _) Hm))).
  - exact (bool_decide_eq_true_1 _ H4).
Qed.

Lemma linked_wf s : linked s -> wf s.
Proof. intros H. apply H. Qed.

Lemma linkedb_spec s : linkedb s = true -> linked s.
Proof.
  unfold linkedb. rewrite !andb_true_iff, !forallb_forall.
  intros [[[Hwf Hnd] Hm] Hc]. apply wfb_spec in Hwf.
  split; [exact Hwf|]. split; [exact (bool_decide_eq_true_1 _ Hnd)|].
  split; [|split].
  - intros m [mv Hmv]. specialize (Hm (m, mv)). cbn in Hm.
    rewrite andb_true_iff in Hm.
    destruct Hm as [Hm _]; [apply list_elem_of_In, elem_of_map_to_list, Hmv|].
    exact (bool_decide_eq_true_1 _ Hm).
  - intros m mv Hmv. specialize (Hm (m, mv)). cbn in Hm.
    rewrite andb_true_iff in Hm.
    destruct Hm as [_ Hm]; [apply list_elem_of_In, elem_of_map_to_list, Hmv|].
    unfold linked_monitorb in Hm. rewrite !andb_true_iff, !forallb_forall in Hm.
    destruct Hm as [[[[[H1 H2] H3] H4] H5] H6].
    split; [exact (bool_decide_eq_true_1 _ H1)|].
    split; [exact (bool_decide_eq_true_1 _ H2)|].
    split; [|split].
    + intros c. split; intros Hin.
      * exact (bool_decide_eq_true_1 _ (H3 c (proj1 (list_elem_of_In _ _) Hin))).
      * exact (bool_decide_eq_true_1 _ (H4 c (proj1 (list_elem_of_In _ _) Hin))).
    + intros c v Hin Hv. specialize (H5 c (proj1 (list_elem_of_In _ _) Hin)).
      rewrite Hv in H5. exact (bool_decide_eq_true_1 _ H5).
    + intros c Hsel. rewrite Hsel in H6. exact (bool_decide_eq_true_1 _ H6).
  - intros c v Hv. specialize (Hc (c, v)). cbn in Hc.
    destruct (Plug.mon_heap s !! Client.mon v) as [mv|];
      [|discriminate Hc; apply list_elem_of_In, elem_of_map_to_list, Hv].
    exists mv. split; [reflexivity|].
    apply (bool_decide_eq_true_1 _ (Hc (proj1 (list_elem_of_In _ _)
                                          (proj2 (elem_of_map_to_list _ _ _) Hv)))).
Qed.

Lemma total_iff {A} (m : M A) s Q : total m s Q <-> defined m s /\ post m s Q.
Proof.
  unfold total, defined, post. split.
  - intros (a & s' & H & HQ). split; [rewrite H; eauto|].
    intros a' s'' H'. rewrite H in H'. injection H' as <- <-. exact HQ.
  - intros [[[a s'] H] HQ]. eauto.
Qed.

Lemma defined_ret {A} (a : A) s : defined (mret a) s.
Proof. unfold defined. eauto. Qed.

Lemma defined_gets {A} (f : Plug.t -> A) s : defined (gets f) s.
Proof. unfold defined, gets. eauto. Qed.

Lemma defined_modify f s : defined (modify f) s.
Proof. unfold defined, modify. eauto. Qed.

Lemma defined_emit e s : defined (emit e) s.
Proof. apply defined_modify. Qed.

Lemma defined_client c s : valid_client s c -> defined (client c) s.
Proof. intros [v Hv]. unfold defined, client. rewrite Hv. eauto. Qed.

Lemma defined_monitor m s : valid_monitor s m -> defined (monitor m) s.
Proof. intros [v Hv]. unfold defined, monitor. rewrite Hv. eauto. Qed.

Lemma defined_upd_client c f s : valid_client s c -> defined (upd_client c f) s.
Proof.
  intros [v Hv]. unfold defined, upd_client, mbind, M_bind, bind, client.
  rewrite Hv. eauto.
Qed.

Lemma defined_upd_monitor m f s : valid_monitor s m -> defined (upd_monitor m f) s.
Proof.
  intros [v Hv]. unfold defined, upd_monitor, mbind, M_bind, bind, monitor.
  rewrite Hv. eauto.
Qed.

Lemma defined_when b m s : (b = true -> defined m s) -> defined (when b m) s.
Proof. destruct b; simpl; [auto | intros _; apply defined_ret]. Qed.

(** Sequencing, when the first part keeps the shape of the state. *)
Lemma defined_bind {A B} (m : M A) (k : A -> M B) s :
  defined m s ->
  post m s (fun a s1 => defined (k a) s1) ->
  defined (m ≫= k) s.
Proof.
  intros [[a s1] H] Hk. unfold defined. rewrite (bind_step _ _ _ _ _ H).
  exact (Hk a s1 H).
Qed.

Lemma defined_bind_shape {A B} (m : M A) (k : A -> M B) s :
  preserves shape m ->
  defined m s ->
  (forall a s1, shape s s1 -> defined (k a) s1) ->
  defined (m ≫= k) s.
Proof.
  intros Hs Hm Hk. apply defined_bind; [exact Hm|].
  intros a s1 H. apply Hk. eapply Hs, H.
Qed.

Lemma valid_clients_shape s s' l : shape s s' -> valid_clients s l -> valid_clients s' l.
Proof. intros Hs H c Hc. eapply shape_valid_client; eauto. Qed.

Lemma valid_pointer_shape s s' p : shape s s' -> valid_pointer s p -> valid_pointer s' p.
Proof. intros Hs H c Hc. eapply shape_valid_client; eauto. Qed.

Lemma valid_clients_cons s c l :
  valid_clients s (c :: l) -> valid_client s c /\ valid_clients s l.
Proof.
  intros H. split; [apply H; left | intros d Hd; apply H; right; exact Hd].
Qed.

Lemma defined_foldM {A} (l : list CId) (f : A -> CId -> M A) b s :
  (forall b c, preserves shape (f b c)) ->
  (forall b c s1, shape s s1 -> c ∈ l -> defined (f b c) s1) ->
  defined (foldM l f b) s.
Proof.
  intros Hs. revert b s. induction l as [|c l IH]; intros b s Hf; simpl.
  - apply defined_ret.
  - apply defined_bind_shape; [apply Hs | apply Hf; [reflexivity | left] |].
    intros b' s1 Hs1. apply IH. intros b'' d s2 Hs2 Hd.
    apply Hf; [etransitivity; eassumption | right; exact Hd].
Qed.

Lemma defined_forM (l : list CId) (f : CId -> M unit) s :
  (forall c, preserves shape (f c)) ->
  (forall c s1, shape s s1 -> c ∈ l -> defined (f c) s1) ->
  defined (forM l f) s.
Proof.
  intros Hs. revert s. induction l as [|c l IH]; intros s Hf; simpl.
  - apply defined_ret.
  - apply defined_bind_shape; [apply Hs | apply Hf; [reflexivity | left] |].
    intros b' s1 Hs1. apply IH. intros d s2 Hs2 Hd.
    apply Hf; [etransitivity; eassumption | right; exact Hd].
Qed.

(** What [wf] says of the values read from the heaps. *)
Lemma wf_client_monitor s c v :
  wf s -> Plug.client_heap s !! c = Some v -> valid_monitor s (Client.mon v).
Proof. intros (W1 & _) Hv. eapply W1, Hv. Qed.

Lemma wf_monitor_clients s m mv :
  wf s -> Plug.mon_heap s !! m = Some mv -> valid_clients s (Monitor.clients mv).
Proof. intros (_ & W2 & _) Hv. exact (proj1 (W2 m mv Hv)). Qed.

Lemma wf_monitor_stack s m mv :
  wf s -> Plug.mon_heap s !! m = Some mv -> valid_clients s (Monitor.stack mv).
Proof. intros (_ & W2 & _) Hv. exact (proj1 (proj2 (W2 m mv Hv))). Qed.

Lemma wf_monitor_sel s m mv :
  wf s -> Plug.mon_heap s !! m = Some mv -> valid_pointer s (Monitor.sel mv).
Proof. intros (_ & W2 & _) Hv. exact (proj2 (proj2 (W2 m mv Hv))). Qed.

Lemma mon_core v v' : client_core v' = client_core v -> Client.mon v' = Client.mon v.
Proof. unfold client_core. intros H. injection H as _ _ _ _ _ _ _ -> _. reflexivity. Qed.

(** Steps of a proof that the shape is kept. *)
Create HintDb shapes discriminated.
#[global] Hint Resolve shape_emit : shapes.

Ltac shape_step :=
  lazymatch goal with
  | |- preserves shape (upd_client _ _) =>
      apply preserves_upd_client; tc_solve; intros ? ? ?;
      eapply shape_upd_client; [eassumption | reflexivity]
  | |- preserves shape (upd_monitor _ _) =>
      apply preserves_upd_monitor; tc_solve; intros ? ? ?;
      eapply shape_upd_monitor; [eassumption | reflexivity]
  | |- preserves shape _ => first [pres_step | solve [auto with shapes]]
  end.

Ltac shape_pres := repeat shape_step.

Section Shape.

Variable cfg : Config.

Lemma shape_updatesizehints c : preserves shape (updatesizehints c).
Proof.
  unfold updatesizehints. shape_pres.
  apply preserves_upd_client; tc_solve. intros s v Hv.
  eapply shape_upd_client; [eassumption | apply mon_core, frame_sizehints_of].
Qed.
#[local] Hint Resolve shape_updatesizehints : shapes.

Lemma shape_applysizehints c x y w h i : preserves shape (applysizehints cfg c x y w h i).
Proof. unfold applysizehints. shape_pres. Qed.
#[local] Hint Resolve shape_applysizehints : shapes.

Lemma shape_configure c : preserves shape (configure c).
Proof. unfold configure. shape_pres. Qed.
#[local] Hint Resolve shape_configure : shapes.

Lemma shape_resizeclient c x y w h : preserves shape (resizeclient c x y w h).
Proof. unfold resizeclient. shape_pres. Qed.
#[local] Hint Resolve shape_resizeclient : shapes.

Lemma shape_resize c x y w h i : preserves shape (resize cfg c x y w h i).
Proof. unfold resize. shape_pres. Qed.
#[local] Hint Resolve shape_resize : shapes.

Lemma shape_ISVISIBLE c : preserves shape (ISVISIBLE c).
Proof. unfold ISVISIBLE. shape_pres. Qed.
#[local] Hint Resolve shape_ISVISIBLE : shapes.

Lemma shape_tiled c : preserves shape (tiled c).
Proof. unfold tiled. shape_pres. Qed.
#[local] Hint Resolve shape_tiled : shapes.

Lemma shape_for_tiled {B} l (body : B -> CId -> M B) b :
  (forall b c, preserves shape (body b c)) -> preserves shape (for_tiled l body b).
Proof. intros H. unfold for_tiled. shape_pres. Qed.

Lemma shape_tile_step m n mw st c : preserves shape (tile_step cfg m n mw st c).
Proof. unfold tile_step. destruct st as [[i my] ty]. shape_pres. Qed.
#[local] Hint Resolve shape_tile_step : shapes.

Lemma shape_tile m : preserves shape (tile cfg m).
Proof. unfold tile. shape_pres; apply shape_for_tiled; intros; shape_pres. Qed.
#[local] Hint Resolve shape_tile : shapes.

Lemma shape_monocle m : preserves shape (monocle cfg m).
Proof. unfold monocle. shape_pres. apply shape_for_tiled; intros; shape_pres. Qed.
#[local] Hint Resolve shape_monocle : shapes.

Lemma shape_arrangemon m : preserves shape (arrangemon cfg m).
Proof. unfold arrangemon. shape_pres. Qed.
#[local] Hint Resolve shape_arrangemon : shapes.

Lemma shape_showhide l : preserves shape (showhide cfg l).
Proof. induction l as [|c l IH]; simpl; shape_pres. Qed.
#[local] Hint Resolve shape_showhide : shapes.

Lemma shape_drawbar m : preserves shape (drawbar m).
Proof. unfold drawbar. shape_pres. Qed.
#[local] Hint Resolve shape_drawbar : shapes.

Lemma shape_restack m : preserves shape (restack m).
Proof. unfold restack. shape_pres. Qed.
#[local] Hint Resolve shape_restack : shapes.

Lemma shape_arrange m : preserves shape (arrange cfg m).
Proof. unfold arrange. shape_pres. Qed.
#[local] Hint Resolve shape_arrange : shapes.

Lemma shape_place_minimized m hgt l x : preserves shape (place_minimized cfg m hgt l x).
Proof. unfold place_minimized. shape_pres. Qed.

End Shape.

Ltac shape_pres ::= repeat first [apply shape_for_tiled; intros ? ? | shape_step].

#[global] Hint Resolve shape_updatesizehints shape_applysizehints shape_configure
  shape_resizeclient shape_resize shape_ISVISIBLE shape_tiled shape_tile_step
  shape_tile shape_monocle shape_arrangemon shape_showhide shape_drawbar
  shape_restack shape_arrange shape_place_minimized : shapes.

(** ** Size increments that keep the remainders of [applysizehints] defined *)

Lemma incs_sizehints_of reply v v' :
  Client.incw (sizehints_of reply v') = Client.incw (sizehints_of reply v)
  /\ Client.inch (sizehints_of reply v') = Client.inch (sizehints_of reply v).
Proof.
  unfold sizehints_of.
  repeat match goal with |- context [if ?b then _ else _] => destruct b end;
    split; reflexivity.
Qed.

Lemma hint_key_fields srv v v' :
  Client.win v' = Client.win v ->
  Client.hintsvalid v' = Client.hintsvalid v ->
  Client.incw v' = Client.incw v ->
  Client.inch v' = Client.inch v ->
  hint_key srv v' = hint_key srv v.
Proof.
  intros Hw Hv Hi1 Hi2. unfold hint_key. rewrite Hw, Hv, Hi1, Hi2.
  destruct (truthy (Client.hintsvalid v)); [reflexivity|].
  destruct (incs_sizehints_of (XGetWMNormalHints srv (Client.win v)) v v') as [-> ->].
  reflexivity.
Qed.

Lemma hint_key_loaded srv v :
  hint_key srv v = (Client.incw (loaded_hints srv v), Client.inch (loaded_hints srv v)).
Proof. unfold hint_key, loaded_hints. destruct (truthy (Client.hintsvalid v)); reflexivity. Qed.

Lemma sizehints_of_valid reply v :
  Client.win (sizehints_of reply v) = Client.win v
  /\ Client.hintsvalid (sizehints_of reply v) = 1.
Proof.
  unfold sizehints_of.
  repeat match goal with |- context [if ?b then _ else _] => destruct b end;
    split; reflexivity.
Qed.

Lemma hint_key_sizehints_of srv v :
  truthy (Client.hintsvalid v) = false ->
  hint_key srv (sizehints_of (XGetWMNormalHints srv (Client.win v)) v) = hint_key srv v.
Proof.
  intros E. unfold hint_key at 2. rewrite E. unfold hint_key.
  destruct (sizehints_of_valid (XGetWMNormalHints srv (Client.win v)) v) as [_ ->].
  reflexivity.
Qed.

Lemma hint_key_loaded_hints srv v : hint_key srv (loaded_hints srv v) = hint_key srv v.
Proof.
  unfold loaded_hints. destruct (truthy (Client.hintsvalid v)) eqn:E; [reflexivity|].
  apply hint_key_sizehints_of, E.
Qed.

#[global] Instance hinted_preorder : PreOrder hinted.
Proof.
  split.
  - intros s. split; reflexivity.
  - intros s1 s2 s3 [Hx1 Hk1] [Hx2 Hk2]. split; [congruence|].
    rewrite Hx1 in Hk2. intros c. rewrite Hk2. apply Hk1.
Qed.

Lemma hinted_same s s' :
  Plug.client_heap s' = Plug.client_heap s -> Plug.xsrv s' = Plug.xsrv s -> hinted s s'.
Proof. intros Hc Hx. split; [exact Hx|]. intros c. rewrite Hc. reflexivity. Qed.

Lemma hinted_upd_client s c v v' :
  Plug.client_heap s !! c = Some v ->
  hint_key (Plug.xsrv s) v' = hint_key (Plug.xsrv s) v ->
  hinted s (Plug.set_client_heap (<[c := v']> (Plug.client_heap s)) s).
Proof.
  intros Hv Hk. split; [reflexivity|]. intros d. simpl.
  destruct (decide (c = d)) as [<-|Hne].
  - rewrite lookup_insert_eq, Hv. simpl. congruence.
  - rewrite lookup_insert_ne by assumption. reflexivity.
Qed.

Lemma hints_safe_hinted s s' : hinted s s' -> hints_safe s -> hints_safe s'.
Proof.
  intros [Hx Hk] Hs c v' Hv'. specialize (Hk c). rewrite Hv' in Hk. rewrite Hx.
  destruct (Plug.client_heap s !! c) as [v|] eqn:Hv; [|discriminate].
  simpl in Hk. injection Hk as ->. exact (Hs c v Hv).
Qed.

Lemma hints_safe_same s s' :
  Plug.client_heap s' = Plug.client_heap s -> Plug.xsrv s' = Plug.xsrv s ->
  hints_safe s -> hints_safe s'.
Proof. intros Hc Hx. apply hints_safe_hinted, hinted_same; assumption. Qed.

Lemma hints_safe_upd_client s c v v' :
  Plug.client_heap s !! c = Some v ->
  hint_key (Plug.xsrv s) v' = hint_key (Plug.xsrv s) v ->
  hints_safe s ->
  hints_safe (Plug.set_client_heap (<[c := v']> (Plug.client_heap s)) s).
Proof. intros Hv Hk. apply hints_safe_hinted. eapply hinted_upd_client; eassumption. Qed.

Lemma rem_safeb_spec k : rem_safeb k = true <-> rem_safe k.
Proof.
  unfold rem_safeb, rem_safe. rewrite andb_true_iff, !negb_true_iff, !Z.eqb_neq.
  reflexivity.
Qed.

Lemma hints_safeb_spec s : hints_safeb s = true -> hints_safe s.
Proof.
  unfold hints_safeb, hints_safe. rewrite forallb_forall. intros H c v Hv.
  apply rem_safeb_spec. apply (H (c, v)).
  apply list_elem_of_In, elem_of_map_to_list, Hv.
Qed.

Lemma crem_safe a b : b <> 0 -> b <> -1 -> crem a b = Some (Z.rem a b).
Proof.
  intros H0 H1. unfold crem.
  destruct (Z.eqb_spec b 0); [contradiction|].
  destruct (Z.eqb_spec b (-1)); [contradiction|].
  rewrite andb_false_r. reflexivity.
Qed.

Lemma rem_step_safe a i :
  i <> -1 ->
  exists a', (if truthy i then r ← crem a i; Some (a -ₛ sint r) else Some a) = Some a'.
Proof.
  intros Hi. destruct (truthy i) eqn:E; [|eauto].
  apply truthy_true in E. rewrite (crem_safe a i E Hi). simpl. eauto.
Qed.

Lemma icccm_hints_safe v w h :
  rem_safe (Client.incw v, Client.inch v) -> is_Some (icccm_hints v w h).
Proof.
  intros [Hw Hh]. simpl in Hw, Hh. unfold icccm_hints.
  repeat match goal with
         | |- context [let '(_, _) := ?p in _] => destruct p
         end.
  match goal with |- context [if truthy (Client.incw v) then _ else Some ?a] =>
    destruct (rem_step_safe a _ Hw) as [w1 ->] end.
  simpl.
  match goal with |- context [if truthy (Client.inch v) then _ else Some ?a] =>
    destruct (rem_step_safe a _ Hh) as [h1 ->] end.
  simpl. eauto.
Qed.

Lemma icccm_hints_loaded s c v w h :
  hints_safe s -> Plug.client_heap s !! c = Some v ->
  is_Some (icccm_hints (loaded_hints (Plug.xsrv s) v) w h).
Proof.
  intros Hs Hv. apply icccm_hints_safe. rewrite <- hint_key_loaded. exact (Hs c v Hv).
Qed.

(** Steps of a proof that a run keeps these increments. *)
Lemma hinted_emit e : preserves hinted (emit e).
Proof. apply preserves_emit; tc_solve. intros s. apply hinted_same; reflexivity. Qed.

Create HintDb hinteds discriminated.
#[global] Hint Resolve hinted_emit : hinteds.

Ltac hinted_step :=
  lazymatch goal with
  | |- preserves hinted (upd_client _ _) =>
      apply preserves_upd_client; tc_solve; intros ? ? ?;
      eapply hinted_upd_client; [eassumption | apply hint_key_fields; reflexivity]
  | |- preserves hinted (upd_monitor _ _) =>
      apply preserves_upd_monitor; tc_solve; intros ? ? ?;
      apply hinted_same; reflexivity
  | |- preserves hinted (modify _) =>
      apply preserves_modify; tc_solve; intros ?; apply hinted_same; reflexivity
  | |- preserves hinted _ => first [pres_step | solve [auto with hinteds]]
  end.

Ltac hinted_pres := repeat hinted_step.

Lemma bind_pure {A B} (m : M A) (k : A -> M B) s b s' :
  preserves eq m -> (m ≫= k) s = Some (b, s') -> exists a, k a s = Some (b, s').
Proof.
  intros Hm (a & s1 & H1 & H2)%bind_Some. rewrite <- (Hm _ _ _ H1) in H2. eauto.
Qed.

Lemma pure_run {A} (m : M A) s a s' : preserves eq m -> m s = Some (a, s') -> s' = s.
Proof. intros Hm H. symmetry. exact (Hm _ _ _ H). Qed.

Section Hinted.

Variable cfg : Config.

(** [applysizehints] changes the state only by loading the hints of a
    client that has none loaded. *)
Lemma applysizehints_state c x y w h i s r s' :
  applysizehints cfg c x y w h i s = Some (r, s') ->
  s' = s
  \/ exists v, Plug.client_heap s !! c = Some v
               /\ truthy (Client.hintsvalid v) = false
               /\ s' = Plug.set_client_heap
                         (<[c := sizehints_of (XGetWMNormalHints (Plug.xsrv s) (Client.win v)) v]>
                            (Plug.client_heap s)) s.
Proof.
  unfold applysizehints. intros (v & s0 & Hc & Hrun)%bind_Some.
  unfold client in Hc. destruct (Plug.client_heap s !! c) as [v0|] eqn:Hv; [|discriminate].
  injection Hc as -> <-.
  apply bind_pure in Hrun as [[x1 y1] Hrun]; [|pres].
  apply bind_pure in Hrun as [bh Hrun]; [|pres].
  apply bind_pure in Hrun as [usehints Hrun]; [|pres].
  apply bind_Some in Hrun as ([w1 h1] & s1 & Hwh & Hrun).
  apply pure_run in Hrun as ->; [|pres].
  destruct usehints; [|left; apply pure_run in Hwh; [exact Hwh | pres]].
  apply bind_Some in Hwh as ([] & s2 & Hupd & Hwh).
  apply pure_run in Hwh as ->; [|pres].
  destruct (truthy (Client.hintsvalid v)) eqn:E; simpl in Hupd.
  - left. apply pure_run in Hupd; [exact Hupd | pres].
  - right. exists v. split; [reflexivity|]. split; [exact E|].
    unfold updatesizehints, upd_client, client, gets, modify, mbind, M_bind, bind in Hupd.
    repeat (rewrite Hv in Hupd; simpl in Hupd). injection Hupd as <-. reflexivity.
Qed.

Lemma hinted_applysizehints c x y w h i : preserves hinted (applysizehints cfg c x y w h i).
Proof.
  intros s r s' [->|(v & Hv & E & ->)]%applysizehints_state; [reflexivity|].
  eapply hinted_upd_client; [exact Hv | apply hint_key_sizehints_of, E].
Qed.
#[local] Hint Resolve hinted_applysizehints : hinteds.

Lemma hinted_configure c : preserves hinted (configure c).
Proof. unfold configure. hinted_pres. Qed.
#[local] Hint Resolve hinted_configure : hinteds.

Lemma hinted_resizeclient c x y w h : preserves hinted (resizeclient c x y w h).
Proof. unfold resizeclient. hinted_pres. Qed.
#[local] Hint Resolve hinted_resizeclient : hinteds.

Lemma hinted_resize c x y w h i : preserves hinted (resize cfg c x y w h i).
Proof. unfold resize. hinted_pres. Qed.
#[local] Hint Resolve hinted_resize : hinteds.

Lemma hinted_ISVISIBLE c : preserves hinted (ISVISIBLE c).
Proof. unfold ISVISIBLE. hinted_pres. Qed.
#[local] Hint Resolve hinted_ISVISIBLE : hinteds.

Lemma hinted_tiled c : preserves hinted (tiled c).
Proof. unfold tiled. hinted_pres. Qed.
#[local] Hint Resolve hinted_tiled : hinteds.

Lemma hinted_for_tiled {B} l (body : B -> CId -> M B) b :
  (forall b c, preserves hinted (body b c)) -> preserves hinted (for_tiled l body b).
Proof. intros H. unfold for_tiled. hinted_pres. Qed.

Lemma hinted_tile_step m n mw st c : preserves hinted (tile_step cfg m n mw st c).
Proof. unfold tile_step. destruct st as [[i my] ty]. hinted_pres. Qed.
#[local] Hint Resolve hinted_tile_step : hinteds.

Lemma hinted_tile m : preserves hinted (tile cfg m).
Proof. unfold tile. hinted_pres; apply hinted_for_tiled; intros; hinted_pres. Qed.
#[local] Hint Resolve hinted_tile : hinteds.

Lemma hinted_monocle m : preserves hinted (monocle cfg m).
Proof. unfold monocle. hinted_pres. apply hinted_for_tiled; intros; hinted_pres. Qed.
#[local] Hint Resolve hinted_monocle : hinteds.

Lemma hinted_arrangemon m : preserves hinted (arrangemon cfg m).
Proof. unfold arrangemon. hinted_pres. Qed.
#[local] Hint Resolve hinted_arrangemon : hinteds.

Lemma hinted_showhide l : preserves hinted (showhide cfg l).
Proof. induction l as [|c l IH]; simpl; hinted_pres. Qed.
#[local] Hint Resolve hinted_showhide : hinteds.

Lemma hinted_drawbar m : preserves hinted (drawbar m).
Proof. unfold drawbar. hinted_pres. Qed.
#[local] Hint Resolve hinted_drawbar : hinteds.

Lemma hinted_restack m : preserves hinted (restack m).
Proof. unfold restack. hinted_pres. Qed.
#[local] Hint Resolve hinted_restack : hinteds.

Lemma hinted_arrange m : preserves hinted (arrange cfg m).
Proof. unfold arrange. hinted_pres. Qed.
#[local] Hint Resolve hinted_arrange : hinteds.

Lemma hinted_place_minimized m hgt l x : preserves hinted (place_minimized cfg m hgt l x).
Proof. unfold place_minimized. hinted_pres. Qed.

Lemma hinted_updatenumlockmask : preserves hinted updatenumlockmask.
Proof. unfold updatenumlockmask. hinted_pres. Qed.
#[local] Hint Resolve hinted_updatenumlockmask : hinteds.

Lemma hinted_grabbuttons c f : preserves hinted (grabbuttons c f).
Proof. unfold grabbuttons. hinted_pres. Qed.
#[local] Hint Resolve hinted_grabbuttons : hinteds.

Lemma hinted_unfocus c f : preserves hinted (unfocus c f).
Proof. unfold unfocus. hinted_pres. Qed.
#[local] Hint Resolve hinted_unfocus : hinteds.

Lemma hinted_seturgent c u : preserves hinted (seturgent c u).
Proof. unfold seturgent. hinted_pres. Qed.
#[local] Hint Resolve hinted_seturgent : hinteds.

Lemma hinted_first_visible l : preserves hinted (first_visible l).
Proof. induction l as [|c l IH]; simpl; hinted_pres. Qed.
#[local] Hint Resolve hinted_first_visible : hinteds.

Lemma hinted_detachstack c : preserves hinted (detachstack c).
Proof. unfold detachstack. hinted_pres. Qed.
#[local] Hint Resolve hinted_detachstack : hinteds.

Lemma hinted_attachstack c : preserves hinted (attachstack c).
Proof. unfold attachstack. hinted_pres. Qed.
#[local] Hint Resolve hinted_attachstack : hinteds.

Lemma hinted_detach c : preserves hinted (detach c).
Proof. unfold detach. hinted_pres. Qed.
#[local] Hint Resolve hinted_detach : hinteds.

Lemma hinted_attach c : preserves hinted (attach c).
Proof. unfold attach. hinted_pres. Qed.
#[local] Hint Resolve hinted_attach : hinteds.

Lemma hinted_sendevent c p : preserves hinted (sendevent c p).
Proof. unfold sendevent. hinted_pres. Qed.
#[local] Hint Resolve hinted_sendevent : hinteds.

Lemma hinted_setfocus c : preserves hinted (setfocus c).
Proof. unfold setfocus. hinted_pres. Qed.
#[local] Hint Resolve hinted_setfocus : hinteds.

Lemma hinted_drawbars : preserves hinted drawbars.
Proof. unfold drawbars. hinted_pres. Qed.
#[local] Hint Resolve hinted_drawbars : hinteds.

Lemma hinted_focus c : preserves hinted (focus c).
Proof. unfold focus. hinted_pres. Qed.
#[local] Hint Resolve hinted_focus : hinteds.

Lemma hinted_setclientstate c st : preserves hinted (setclientstate c st).
Proof. unfold setclientstate. hinted_pres. Qed.
#[local] Hint Resolve hinted_setclientstate : hinteds.

Lemma hinted_pop c : preserves hinted (pop cfg c).
Proof. unfold pop. hinted_pres. Qed.
#[local] Hint Resolve hinted_pop : hinteds.

End Hinted.

Ltac hinted_pres ::= repeat first [apply hinted_for_tiled; intros ? ? | hinted_step].

#[global] Hint Resolve hinted_applysizehints hinted_configure hinted_resizeclient
  hinted_resize hinted_ISVISIBLE hinted_tiled hinted_tile_step hinted_tile
  hinted_monocle hinted_arrangemon hinted_showhide hinted_drawbar hinted_restack
  hinted_arrange hinted_place_minimized hinted_updatenumlockmask hinted_grabbuttons
  hinted_unfocus hinted_seturgent hinted_first_visible hinted_detachstack
  hinted_attachstack hinted_detach hinted_attach hinted_sendevent hinted_setfocus
  hinted_drawbars hinted_focus hinted_setclientstate hinted_pop : hinteds.

Lemma hints_safe_run {A} (m : M A) s a s' :
  preserves hinted m -> m s = Some (a, s') -> hints_safe s -> hints_safe s'.
Proof. intros Hm Hrun. apply hints_safe_hinted. exact (Hm s a s' Hrun). Qed.

(** ** Single steps of a run *)

Lemma run_client c s v : Plug.client_heap s !! c = Some v -> client c s = Some (v, s).
Proof. intros H. unfold client. rewrite H. reflexivity. Qed.

Lemma run_monitor m s v : Plug.mon_heap s !! m = Some v -> monitor m s = Some (v, s).
Proof. intros H. unfold monitor. rewrite H. reflexivity. Qed.

Lemma run_upd_client c f s v :
  Plug.client_heap s !! c = Some v ->
  upd_client c f s
  = Some (tt, Plug.set_client_heap (<[c := f v]> (Plug.client_heap s)) s).
Proof. intros H. unfold upd_client. rewrite (bind_step _ _ _ _ _ (run_client _ _ _ H)). reflexivity. Qed.

Lemma geometry_sizehints_of reply v :
  geometry (sizehints_of reply v) = geometry v
  /\ Client.bw (sizehints_of reply v) = Client.bw v
  /\ Client.mon (sizehints_of reply v) = Client.mon v
  /\ Client.isfloating (sizehints_of reply v) = Client.isfloating v
  /\ Client.hintsvalid (sizehints_of reply v) = 1.
Proof.
  unfold sizehints_of, geometry.
  repeat match goal with |- context [if ?b then _ else _] => destruct b end;
    repeat split; reflexivity.
Qed.

Lemma defined_bind_hinted {A B} (m : M A) (k : A -> M B) s :
  preserves shape m ->
  preserves hinted m ->
  defined m s ->
  (forall a s1, shape s s1 -> hinted s s1 -> defined (k a) s1) ->
  defined (m ≫= k) s.
Proof.
  intros Hs Hh Hm Hk. apply defined_bind; [exact Hm|].
  intros a s1 H. apply Hk; [eapply Hs, H | eapply Hh, H].
Qed.

(** Steps of a proof that a run returns from a well-formed state. *)
Ltac transport Hs :=
  repeat match goal with
  | H : wf ?s |- _ =>
      lazymatch type of Hs with shape s _ => apply (fun w => wf_shape _ _ w Hs) in H end
  | H : valid_client ?s _ |- _ =>
      lazymatch type of Hs with shape s _ => apply (shape_valid_client _ _ _ Hs) in H end
  | H : valid_monitor ?s _ |- _ =>
      lazymatch type of Hs with shape s _ => apply (shape_valid_monitor _ _ _ Hs) in H end
  | H : valid_clients ?s _ |- _ =>
      lazymatch type of Hs with shape s _ => apply (valid_clients_shape _ _ _ Hs) in H end
  | H : valid_pointer ?s _ |- _ =>
      lazymatch type of Hs with shape s _ => apply (valid_pointer_shape _ _ _ Hs) in H end
  end.

Ltac transport_hints Hh :=
  repeat match goal with
  | H : hints_safe ?s |- _ =>
      lazymatch type of Hh with hinted s _ => apply (hints_safe_hinted _ _ Hh) in H end
  end.

Ltac learn_client Hv :=
  lazymatch type of Hv with
  | Plug.client_heap ?s !! ?c = Some ?v =>
      lazymatch goal with
      | Hwf : wf s |- _ => pose proof (wf_client_monitor _ _ _ Hwf Hv)
      end
  end.

Ltac learn_monitor Hv :=
  lazymatch type of Hv with
  | Plug.mon_heap ?s !! ?m = Some ?v =>
      lazymatch goal with
      | Hwf : wf s |- _ =>
          pose proof (wf_monitor_clients _ _ _ Hwf Hv);
          pose proof (wf_monitor_stack _ _ _ Hwf Hv);
          pose proof (wf_monitor_sel _ _ _ Hwf Hv)
      end
  end.

Ltac valid_solve :=
  first [ assumption
        | match goal with
          | H : valid_clients ?s ?l |- valid_client ?s ?c => apply H; assumption
          | H : valid_pointer ?s ?p |- valid_client ?s ?c =>
              apply H; first [assumption | reflexivity]
          | H : Plug.client_heap ?s !! ?c = Some _ |- valid_client ?s ?c =>
              eexists; exact H
          | H : Plug.mon_heap ?s !! ?m = Some _ |- valid_monitor ?s ?m =>
              eexists; exact H
          | H : wf ?s |- valid_monitor ?s (Plug.selmon ?s) => apply H
          end ].

Create HintDb defs discriminated.

(** Loops are handled once their rules are proved. *)
Ltac def_loop := fail.

Ltac def_step :=
  lazymatch goal with
  | |- defined (for_tiled _ _ _) _ => def_loop
  | |- defined (foldM _ _ _) _ => def_loop
  | |- defined (mret _) _ => apply defined_ret
  | |- defined (ret _) _ => apply defined_ret
  | |- defined (client _ ≫= _) _ =>
      apply defined_bind;
      [ apply defined_client; valid_solve
      | apply post_client;
        let v := fresh "v" in let Hv := fresh "Hv" in intros v Hv; learn_client Hv ]
  | |- defined (monitor _ ≫= _) _ =>
      apply defined_bind;
      [ apply defined_monitor; valid_solve
      | apply post_monitor;
        let v := fresh "mv" in let Hv := fresh "Hmv" in intros v Hv; learn_monitor Hv ]
  | |- defined (gets _ ≫= _) _ =>
      apply defined_bind; [apply defined_gets | apply post_gets]
  | |- defined (_ ≫= _) _ =>
      first
        [ apply defined_bind_hinted;
          [ solve [shape_pres]
          | solve [hinted_pres]
          |
          | let s1 := fresh "s" in let Hs := fresh "Hs" in let Hh := fresh "Hh" in
            intros ? s1 Hs Hh; transport Hs; transport_hints Hh ]
        | apply defined_bind_shape;
          [ solve [shape_pres]
          |
          | let s1 := fresh "s" in let Hs := fresh "Hs" in intros ? s1 Hs; transport Hs ] ]
  | |- defined (when _ _) _ => apply defined_when; intros ?
  | |- defined (if ?b then _ else _) _ => destruct b eqn:?
  | |- defined (match ?o with Some _ => _ | None => _ end) _ => destruct o eqn:?
  | |- defined (match ?o with ArrTile => _ | ArrMonocle => _ end) _ => destruct o eqn:?
  | |- defined (match ?p with (_, _) => _ end) _ => destruct p
  | |- defined (client _) _ => apply defined_client; valid_solve
  | |- defined (monitor _) _ => apply defined_monitor; valid_solve
  | |- defined (upd_client _ _) _ => apply defined_upd_client; valid_solve
  | |- defined (upd_monitor _ _) _ => apply defined_upd_monitor; valid_solve
  | |- defined (emit _) _ => apply defined_emit
  | |- defined (gets _) _ => apply defined_gets
  | |- defined (modify _) _ => apply defined_modify
  | |- defined _ _ => solve [auto with defs]
  end.

Ltac def_run := repeat def_step.

Section Defined.

Variable cfg : Config.

Lemma defined_ISVISIBLE c s : wf s -> valid_client s c -> defined (ISVISIBLE c) s.
Proof. intros Hwf Hc. unfold ISVISIBLE. def_run. Qed.
#[local] Hint Resolve defined_ISVISIBLE : defs.

Lemma defined_updatesizehints c s :
  wf s -> valid_client s c -> defined (updatesizehints c) s.
Proof. intros Hwf Hc. unfold updatesizehints. def_run. Qed.
#[local] Hint Resolve defined_updatesizehints : defs.

(** What [applysizehints] returns and the state it leaves; it traps when
    a remainder of its second part does. *)
Lemma applysizehints_run c x y w h i s v m :
  Plug.client_heap s !! c = Some v ->
  Plug.mon_heap s !! Client.mon v = Some m ->
  let v' := if hint_stage cfg v m then loaded_hints (Plug.xsrv s) v else v in
  let s' := if hint_stage cfg v m && negb (truthy (Client.hintsvalid v))
            then Plug.set_client_heap (<[c := v']> (Plug.client_heap s)) s else s in
  match (if hint_stage cfg v m
         then icccm_hints v' (at_least_bar (Plug.bh s) w) (at_least_bar (Plug.bh s) h)
         else Some (at_least_bar (Plug.bh s) w, at_least_bar (Plug.bh s) h)) with
  | Some wh =>
      exists r,
        applysizehints cfg c x y w h i s = Some (r, s')
        /\ Plug.client_heap s' !! c = Some v'
        /\ (res_x r, res_y r)
           = (if truthy i
              then clamp_interact v (Plug.sw s) (Plug.sh s) x y (MAX 1 w) (MAX 1 h)
              else clamp_area v m x y (MAX 1 w) (MAX 1 h))
        /\ (res_w r, res_h r) = wh
        /\ changed r = negb (same_geometry v (res_x r) (res_y r) (res_w r) (res_h r))
  | None => applysizehints cfg c x y w h i s = None
  end.
Proof.
  intros Hv Hm v' s'. unfold applysizehints.
  rewrite (bind_step _ _ s v s) by (apply run_client, Hv).
  set (xy := if truthy i then clamp_interact _ _ _ _ _ _ _ else clamp_area _ _ _ _ _ _).
  rewrite (bind_step _ _ s xy s).
  2:{ subst xy. destruct (truthy i); [reflexivity|].
      rewrite (bind_step _ _ s m s) by (apply run_monitor, Hm). reflexivity. }
  destruct xy as [x1 y1] eqn:Exy.
  rewrite (bind_step _ _ s (Plug.bh s) s) by reflexivity.
  rewrite (bind_step _ _ s (hint_stage cfg v m) s).
  2:{ unfold hint_stage.
      destruct (truthy (resizehints cfg) || truthy (Client.isfloating v)); [reflexivity|].
      rewrite (bind_step _ _ s m s) by (apply run_monitor, Hm). reflexivity. }
  fold (at_least_bar (Plug.bh s) w). fold (at_least_bar (Plug.bh s) h).
  set (W := at_least_bar (Plug.bh s) w). set (H := at_least_bar (Plug.bh s) h).
  assert (Plug.client_heap s' !! c = Some v') as Hv'.
  { subst s' v'. destruct (hint_stage cfg v m); [|exact Hv].
    unfold loaded_hints. destruct (truthy (Client.hintsvalid v)); [exact Hv|].
    simpl. apply lookup_insert_eq. }
  assert ((if hint_stage cfg v m
           then when (negb (truthy (Client.hintsvalid v))) (updatesizehints c);;
                v0 ← client c; deref (icccm_hints v0 W H)
           else mret (W, H)) s
          = p ← (if hint_stage cfg v m then icccm_hints v' W H else Some (W, H));
            Some (p, s')) as Hstage.
  { subst s' v'. destruct (hint_stage cfg v m); [|reflexivity].
    unfold loaded_hints in *. destruct (truthy (Client.hintsvalid v)); simpl.
    - rewrite (bind_step _ _ s tt s) by reflexivity.
      rewrite (bind_step _ _ s v s) by (apply run_client, Hv).
      destruct (icccm_hints v W H); reflexivity.
    - rewrite (bind_step _ _ s tt _) by
        (unfold updatesizehints;
         rewrite (bind_step _ _ s v s) by (apply run_client, Hv);
         rewrite (bind_step _ _ s (Plug.xsrv s) s) by reflexivity;
         apply run_upd_client, Hv).
      rewrite (bind_step _ _ _ _ _ (run_client _ _ _ Hv')).
      match goal with |- deref ?o _ = _ => destruct o end; reflexivity. }
  destruct (if hint_stage cfg v m then icccm_hints v' W H else Some (W, H))
    as [[w3 h3]|] eqn:Ewh; simpl in Hstage.
  - rewrite (bind_step _ _ _ _ _ Hstage).
    rewrite (bind_step _ _ s' v' s') by (apply run_client, Hv').
    eexists. split; [reflexivity|]. split; [exact Hv'|].
    split; [reflexivity|]. split; [reflexivity|].
    cbn [changed res_x res_y res_w res_h]. unfold same_geometry.
    assert (geometry v' = geometry v) as Hg.
    { subst v'. destruct (hint_stage cfg v m); [|reflexivity].
      unfold loaded_hints. destruct (truthy (Client.hintsvalid v)); [reflexivity|].
      apply geometry_sizehints_of. }
    unfold geometry in Hg. injection Hg as -> -> -> ->. reflexivity.
  - apply bind_None, Hstage.
Qed.

Lemma defined_applysizehints c x y w h i s :
  wf s -> hints_safe s -> valid_client s c -> defined (applysizehints cfg c x y w h i) s.
Proof.
  intros Hwf Hsafe [v Hv]. destruct (wf_client_monitor _ _ _ Hwf Hv) as [m Hm].
  pose proof (applysizehints_run c x y w h i s v m Hv Hm) as Hrun. cbv zeta in Hrun.
  destruct (hint_stage cfg v m).
  - destruct (icccm_hints_loaded s c v (at_least_bar (Plug.bh s) w)
                (at_least_bar (Plug.bh s) h) Hsafe Hv) as [wh Ewh].
    rewrite Ewh in Hrun. destruct Hrun as (r & Hrun & _). unfold defined. eauto.
  - destruct Hrun as (r & Hrun & _). unfold defined. eauto.
Qed.
#[local] Hint Resolve defined_applysizehints : defs.

Lemma defined_configure c s : wf s -> valid_client s c -> defined (configure c) s.
Proof. intros Hwf Hc. unfold configure. def_run. Qed.
#[local] Hint Resolve defined_configure : defs.

Lemma defined_resizeclient c x y w h s :
  wf s -> valid_client s c -> defined (resizeclient c x y w h) s.
Proof. intros Hwf Hc. unfold resizeclient. def_run. Qed.
#[local] Hint Resolve defined_resizeclient : defs.

Lemma defined_resize c x y w h i s :
  wf s -> hints_safe s -> valid_client s c -> defined (resize cfg c x y w h i) s.
Proof. intros Hwf Hsafe Hc. unfold resize. def_run. Qed.
#[local] Hint Resolve defined_resize : defs.

Lemma defined_tiled c s : wf s -> valid_client s c -> defined (tiled c) s.
Proof. intros Hwf Hc. unfold tiled. def_run. Qed.
#[local] Hint Resolve defined_tiled : defs.

Lemma defined_list_loop {A} (l : list CId) (f : A -> CId -> M A) b s :
  wf s -> valid_clients s l ->
  (forall b c, preserves shape (f b c)) ->
  (forall b c s1, shape s s1 -> wf s1 -> valid_client s1 c -> defined (f b c) s1) ->
  defined (foldM l f b) s.
Proof.
  intros Hwf Hl Hs Hf. apply defined_foldM; [exact Hs|].
  intros b' c s1 Hs1 Hc. apply Hf.
  - exact Hs1.
  - eapply wf_shape; eassumption.
  - eapply shape_valid_client; [exact Hs1 | apply Hl, Hc].
Qed.

Lemma defined_for_tiled {B} l (body : B -> CId -> M B) b s :
  wf s -> valid_clients s l ->
  (forall b c, preserves shape (body b c)) ->
  (forall b c s1, shape s s1 -> wf s1 -> valid_client s1 c -> defined (body b c) s1) ->
  defined (for_tiled l body b) s.
Proof.
  intros Hwf Hl Hs Hf. unfold for_tiled. apply defined_list_loop; try assumption.
  - intros; shape_pres.
  - intros b' c s1 Hs1 Hwf1 Hc. def_run.
    apply Hf; [etransitivity; eassumption | assumption | assumption].
Qed.

Lemma defined_list_loop_hinted {A} (l : list CId) (f : A -> CId -> M A) b s :
  wf s -> hints_safe s -> valid_clients s l ->
  (forall b c, preserves shape (f b c)) ->
  (forall b c, preserves hinted (f b c)) ->
  (forall b c s1, shape s s1 -> wf s1 -> hints_safe s1 -> valid_client s1 c ->
     defined (f b c) s1) ->
  defined (foldM l f b) s.
Proof.
  intros Hwf Hsafe Hl Hs Hh Hf. revert b s Hwf Hsafe Hl Hf.
  induction l as [|c l IH]; intros b s Hwf Hsafe Hl Hf; simpl.
  - apply defined_ret.
  - apply valid_clients_cons in Hl as [Hc Hl].
    apply defined_bind_hinted; [apply Hs | apply Hh | apply Hf; [reflexivity|assumption..] |].
    intros b' s1 Hs1 Hh1. apply IH.
    + eapply wf_shape; eassumption.
    + eapply hints_safe_hinted; eassumption.
    + eapply valid_clients_shape; eassumption.
    + intros b'' d s2 Hs2 Hwf2 Hsafe2 Hd.
      apply Hf; [etransitivity; eassumption | assumption..].
Qed.

Lemma defined_for_tiled_hinted {B} l (body : B -> CId -> M B) b s :
  wf s -> hints_safe s -> valid_clients s l ->
  (forall b c, preserves shape (body b c)) ->
  (forall b c, preserves hinted (body b c)) ->
  (forall b c s1, shape s s1 -> wf s1 -> hints_safe s1 -> valid_client s1 c ->
     defined (body b c) s1) ->
  defined (for_tiled l body b) s.
Proof.
  intros Hwf Hsafe Hl Hs Hh Hf. unfold for_tiled.
  apply defined_list_loop_hinted; try assumption.
  - intros; shape_pres.
  - intros; hinted_pres.
  - intros b' c s1 Hs1 Hwf1 Hsafe1 Hc. def_run.
    apply Hf; [etransitivity; eassumption | assumption..].
Qed.

Ltac def_loop ::=
  let Hs := fresh "Hs" in
  lazymatch goal with
  | |- defined (for_tiled _ _ _) _ =>
      first
        [ apply defined_for_tiled_hinted;
          [ assumption | assumption | assumption | intros ? ?; shape_pres
          | intros ? ?; hinted_pres
          | intros ? ? ? Hs ? ? ?; transport Hs ]
        | apply defined_for_tiled;
          [ assumption | assumption | intros ? ?; shape_pres
          | intros ? ? ? Hs ? ?; transport Hs ] ]
  | |- defined (foldM _ _ _) _ =>
      first
        [ apply defined_list_loop_hinted;
          [ assumption | assumption | assumption | intros ? ?; shape_pres
          | intros ? ?; hinted_pres
          | intros ? ? ? Hs ? ? ?; transport Hs ]
        | apply defined_list_loop;
          [ assumption | assumption | intros ? ?; shape_pres
          | intros ? ? ? Hs ? ?; transport Hs ] ]
  end.

Lemma defined_tile_step m n mw st c s :
  wf s -> hints_safe s -> valid_client s c -> defined (tile_step cfg m n mw st c) s.
Proof. intros Hwf Hsafe Hc. unfold tile_step. destruct st as [[i my] ty]. def_run. Qed.
#[local] Hint Resolve defined_tile_step : defs.

Lemma defined_tile m s :
  wf s -> hints_safe s -> valid_monitor s m -> defined (tile cfg m) s.
Proof. intros Hwf Hsafe Hm. unfold tile. def_run. Qed.
#[local] Hint Resolve defined_tile : defs.

Lemma defined_monocle m s :
  wf s -> hints_safe s -> valid_monitor s m -> defined (monocle cfg m) s.
Proof. intros Hwf Hsafe Hm. unfold monocle. def_run. Qed.
#[local] Hint Resolve defined_monocle : defs.

Lemma defined_arrangemon m s :
  wf s -> hints_safe s -> valid_monitor s m -> defined (arrangemon cfg m) s.
Proof. intros Hwf Hsafe Hm. unfold arrangemon. def_run. Qed.
#[local] Hint Resolve defined_arrangemon : defs.

Lemma defined_showhide l s :
  wf s -> hints_safe s -> valid_clients s l -> defined (showhide cfg l) s.
Proof.
  revert s. induction l as [|c l IH]; intros s Hwf Hsafe Hl; simpl.
  - apply defined_ret.
  - apply valid_clients_cons in Hl as [Hc Hl]. def_run; apply IH; assumption.
Qed.
#[local] Hint Resolve defined_showhide : defs.

Lemma defined_drawbar m s : wf s -> valid_monitor s m -> defined (drawbar m) s.
Proof. intros Hwf Hm. unfold drawbar. def_run. Qed.
#[local] Hint Resolve defined_drawbar : defs.

Lemma defined_restack m s : wf s -> valid_monitor s m -> defined (restack m) s.
Proof. intros Hwf Hm. unfold restack. def_run. Qed.
#[local] Hint Resolve defined_restack : defs.

Lemma defined_arrange_mon m s :
  wf s -> hints_safe s -> valid_monitor s m -> defined (arrange cfg (Some m)) s.
Proof. intros Hwf Hsafe Hm. unfold arrange. def_run. Qed.
#[local] Hint Resolve defined_arrange_mon : defs.

End Defined.

#[global] Hint Resolve defined_ISVISIBLE defined_updatesizehints defined_applysizehints
  defined_configure defined_resizeclient defined_resize defined_tiled
  defined_tile_step defined_tile defined_monocle defined_arrangemon
  defined_showhide defined_drawbar defined_restack defined_arrange_mon : defs.

(** ** The log only grows *)

#[global] Instance log_grows_preorder : PreOrder log_grows.
Proof.
  split.
  - intros s. exists []. symmetry. apply app_nil_r.
  - intros s1 s2 s3 [l1 H1] [l2 H2]. exists (l1 ++ l2).
    rewrite H2, H1. symmetry. apply app_assoc.
Qed.

Lemma log_grows_emit e : preserves log_grows (emit e).
Proof. apply preserves_emit; tc_solve. intros s. exists [e]. reflexivity. Qed.

Lemma log_grows_same s s' : Plug.xlog s' = Plug.xlog s -> log_grows s s'.
Proof. intros H. exists []. rewrite H. symmetry. apply app_nil_r. Qed.

Lemma log_grows_In s s' e : log_grows s s' -> In e (Plug.xlog s) -> In e (Plug.xlog s').
Proof. intros [l ->] H. apply in_or_app. left. exact H. Qed.

Create HintDb logs discriminated.
#[global] Hint Resolve log_grows_emit : logs.

Ltac log_step :=
  lazymatch goal with
  | |- preserves log_grows (upd_client _ _) =>
      apply preserves_upd_client; tc_solve; intros ? ? ?;
      apply log_grows_same; reflexivity
  | |- preserves log_grows (upd_monitor _ _) =>
      apply preserves_upd_monitor; tc_solve; intros ? ? ?;
      apply log_grows_same; reflexivity
  | |- preserves log_grows (modify _) =>
      apply preserves_modify; tc_solve; intros ?;
      apply log_grows_same; reflexivity
  | |- preserves log_grows _ => first [pres_step | solve [auto with logs]]
  end.

Ltac log_pres := repeat log_step.

Section Logs.

Variable cfg : Config.

Lemma log_updatesizehints c : preserves log_grows (updatesizehints c).
Proof. unfold updatesizehints. log_pres. Qed.
#[local] Hint Resolve log_updatesizehints : logs.

Lemma log_applysizehints c x y w h i : preserves log_grows (applysizehints cfg c x y w h i).
Proof. unfold applysizehints. log_pres. Qed.
#[local] Hint Resolve log_applysizehints : logs.

Lemma log_configure c : preserves log_grows (configure c).
Proof. unfold configure. log_pres. Qed.
#[local] Hint Resolve log_configure : logs.

Lemma log_resizeclient c x y w h : preserves log_grows (resizeclient c x y w h).
Proof. unfold resizeclient. log_pres. Qed.
#[local] Hint Resolve log_resizeclient : logs.

Lemma log_resize c x y w h i : preserves log_grows (resize cfg c x y w h i).
Proof. unfold resize. log_pres. Qed.
#[local] Hint Resolve log_resize : logs.

Lemma log_ISVISIBLE c : preserves log_grows (ISVISIBLE c).
Proof. unfold ISVISIBLE. log_pres. Qed.
#[local] Hint Resolve log_ISVISIBLE : logs.

Lemma log_tiled c : preserves log_grows (tiled c).
Proof. unfold tiled. log_pres. Qed.
#[local] Hint Resolve log_tiled : logs.

Lemma log_for_tiled {B} l (body : B -> CId -> M B) b :
  (forall b c, preserves log_grows (body b c)) -> preserves log_grows (for_tiled l body b).
Proof. intros H. unfold for_tiled. log_pres. Qed.

Lemma log_tile_step m n mw st c : preserves log_grows (tile_step cfg m n mw st c).
Proof. unfold tile_step. destruct st as [[i my] ty]. log_pres. Qed.
#[local] Hint Resolve log_tile_step : logs.

Lemma log_tile m : preserves log_grows (tile cfg m).
Proof. unfold tile. log_pres; apply log_for_tiled; intros; log_pres. Qed.
#[local] Hint Resolve log_tile : logs.

Lemma log_monocle m : preserves log_grows (monocle cfg m).
Proof. unfold monocle. log_pres. apply log_for_tiled; intros; log_pres. Qed.
#[local] Hint Resolve log_monocle : logs.

Lemma log_arrangemon m : preserves log_grows (arrangemon cfg m).
Proof. unfold arrangemon. log_pres. Qed.
#[local] Hint Resolve log_arrangemon : logs.

Lemma log_showhide l : preserves log_grows (showhide cfg l).
Proof. induction l as [|c l IH]; simpl; log_pres. Qed.
#[local] Hint Resolve log_showhide : logs.

Lemma log_drawbar m : preserves log_grows (drawbar m).
Proof. unfold drawbar. log_pres. Qed.
#[local] Hint Resolve log_drawbar : logs.

Lemma log_restack m : preserves log_grows (restack m).
Proof. unfold restack. log_pres. Qed.
#[local] Hint Resolve log_restack : logs.

Lemma log_arrange m : preserves log_grows (arrange cfg m).
Proof. unfold arrange. log_pres. Qed.

End Logs.

#[global] Hint Resolve log_updatesizehints log_applysizehints log_configure
  log_resizeclient log_resize log_ISVISIBLE log_tiled log_tile_step log_tile
  log_monocle log_arrangemon log_showhide log_drawbar log_restack log_arrange : logs.

(** ** Fullscreen *)

Ltac plug_simpl :=
  cbn [Plug.sw Plug.sh Plug.bh Plug.fonth Plug.numlockmask Plug.netatom
       Plug.wmatom Plug.mons Plug.selmon Plug.root Plug.broken Plug.mon_heap
       Plug.client_heap Plug.xsrv Plug.xlog Plug.set_numlockmask
       Plug.set_selmon Plug.set_mon_heap Plug.set_client_heap Plug.set_xlog] in *.

Lemma total_intro {A} (m : M A) s (Q : A -> Plug.t -> Prop) :
  defined m s -> post m s Q -> total m s Q.
Proof. intros Hd Hp. apply total_iff. auto. Qed.

Ltac heap_norm :=
  plug_simpl;
  repeat match goal with
         | Hl : <[_ := _]> _ !! _ = Some _ |- _ => rewrite lookup_insert_eq in Hl
         end;
  simplify_eq.

Lemma post_conj {A} (m : M A) s (Q1 Q2 : A -> Plug.t -> Prop) :
  post m s Q1 -> post m s Q2 -> post m s (fun a s' => Q1 a s' /\ Q2 a s').
Proof. intros H1 H2 a s' H. split; [eapply H1 | eapply H2]; exact H. Qed.

Lemma post_resizeclient c x y w h s (Q : unit -> Plug.t -> Prop) :
  (forall v, Plug.client_heap s !! c = Some v ->
     Q tt (Plug.set_xlog
             (Plug.xlog s ++
              [EvConfigureWindow (Client.win v) resize_mask x y w h (Client.bw v) 0 0;
               EvConfigureNotify (Client.win v) x y w h (Client.bw v);
               EvSync])
             (Plug.set_client_heap (<[c := resized x y w h v]> (Plug.client_heap s)) s))) ->
  post (resizeclient c x y w h) s Q.
Proof.
  intros H. unfold resizeclient, configure. repeat post_step. plug_simpl.
  repeat match goal with
         | Hl : <[_ := _]> _ !! _ = Some _ |- _ => rewrite lookup_insert_eq in Hl
         end.
  simplify_eq. rewrite <- !app_assoc. apply (H _ H0).
Qed.

Section Fullscreen.

Variable cfg : Config.

Lemma defined_setfullscreen c f s :
  wf s -> hints_safe s -> valid_client s c -> defined (setfullscreen cfg c f) s.
Proof. intros Hwf Hsafe Hc. unfold setfullscreen. def_run. Qed.

Lemma hinted_setfullscreen c f : preserves hinted (setfullscreen cfg c f).
Proof. unfold setfullscreen. hinted_pres. Qed.

Lemma shape_setfullscreen c f : preserves shape (setfullscreen cfg c f).
Proof. unfold setfullscreen. shape_pres. Qed.

Lemma setfullscreen_enter c f s v mv :
  wf s -> hints_safe s ->
  Plug.client_heap s !! c = Some v ->
  Plug.mon_heap s !! Client.mon v = Some mv ->
  truthy (Client.isfullscreen v) = false ->
  truthy f = true ->
  total (setfullscreen cfg c f) s (fun _ s1 =>
    (wf s1 /\ hints_safe s1)
    /\ client_has c (fun v1 =>
         Client.isfullscreen v1 = 1 /\ Client.isfloating v1 = 1
         /\ Client.bw v1 = 0 /\ Client.oldbw v1 = Client.bw v
         /\ Client.oldstate v1 = Client.isfloating v
         /\ geometry v1 = (Monitor.mx mv, Monitor.my mv, Monitor.mw mv, Monitor.mh mv)
         /\ old_geometry v1 = geometry v
         /\ Client.win v1 = Client.win v /\ Client.mon v1 = Client.mon v) s1).
Proof.
  intros Hwf Hsafe Hv Hmv Hfs Hf. apply total_intro.
  - apply defined_setfullscreen; [assumption | assumption | eexists; eassumption].
  - apply post_conj.
    + apply post_conj.
      * eapply post_preserves; [apply shape_setfullscreen|].
        intros _ s1 Hs. eapply wf_shape; eassumption.
      * eapply post_preserves; [apply hinted_setfullscreen|].
        intros _ s1 Hs. eapply hints_safe_hinted; eassumption.
    + unfold setfullscreen.
      repeat first [post_step | apply post_resizeclient; intros ? ?]; heap_norm.
      * eexists. split; [apply lookup_insert_eq|]. cbn. repeat split; reflexivity.
      * rewrite Hf, Hfs in *. discriminate.
      * rewrite Hf, Hfs in *. discriminate.
Qed.

Lemma wf_set_xlog l s : wf s -> wf (Plug.set_xlog l s).
Proof. intros H. exact H. Qed.

Lemma wf_upd_client s c v v' :
  wf s -> Plug.client_heap s !! c = Some v -> Client.mon v' = Client.mon v ->
  wf (Plug.set_client_heap (<[c := v']> (Plug.client_heap s)) s).
Proof. intros Hwf Hv Hm. eapply wf_shape; [exact Hwf | eapply shape_upd_client; eassumption]. Qed.

Lemma run_resizeclient c x y w h s v :
  wf s ->
  Plug.client_heap s !! c = Some v ->
  exists s', resizeclient c x y w h s = Some (tt, s')
             /\ Plug.client_heap s' = <[c := resized x y w h v]> (Plug.client_heap s)
             /\ shape s s' /\ hinted s s'.
Proof.
  intros Hwf Hv.
  destruct (defined_resizeclient c x y w h s Hwf (ex_intro _ v Hv)) as [[[] s'] Hrun].
  exists s'. split; [exact Hrun|]. split.
  - assert (post (resizeclient c x y w h) s
      (fun _ s' => Plug.client_heap s' = <[c := resized x y w h v]> (Plug.client_heap s)))
      as Hpost.
    { apply post_resizeclient. intros v' Hv'. simplify_eq. reflexivity. }
    exact (Hpost tt s' Hrun).
  - split; [eapply shape_resizeclient, Hrun | eapply hinted_resizeclient, Hrun].
Qed.

Lemma setfullscreen_leave c s1 v1 :
  wf s1 ->
  Plug.client_heap s1 !! c = Some v1 ->
  truthy (Client.isfullscreen v1) = true ->
  exists s_mid,
    setfullscreen cfg c 0 s1 = arrange cfg (Some (Client.mon v1)) s_mid
    /\ wf s_mid /\ hinted s1 s_mid
    /\ client_has c (fun v =>
         geometry v = old_geometry v1 /\ Client.bw v = Client.oldbw v1
         /\ Client.isfloating v = Client.oldstate v1 /\ Client.isfullscreen v = 0
         /\ Client.mon v = Client.mon v1) s_mid.
Proof.
  intros Hwf Hv Hfs. unfold setfullscreen.
  rewrite (bind_step _ _ _ _ _ (run_client _ _ _ Hv)).
  rewrite (bind_step _ _ s1 (Plug.netatom s1) s1) by reflexivity.
  rewrite Hfs. cbn [truthy Z.eqb negb andb].
  rewrite (bind_step (emit _) _ s1 tt _) by reflexivity.
  erewrite (bind_step (upd_client _ _)); [|apply run_upd_client; exact Hv].
  erewrite (bind_step (client _)); [|apply run_client; plug_simpl; apply lookup_insert_eq].
  match goal with |- context [(resizeclient ?c ?x ?y ?w ?h ≫= _) ?s] =>
    assert (wf s) as Hwf';
    [ eapply wf_upd_client; [apply wf_set_xlog; exact Hwf | exact Hv | reflexivity]
    | destruct (run_resizeclient c x y w h s _ Hwf'
                  ltac:(plug_simpl; apply lookup_insert_eq))
        as (s_mid & Hrun & Hheap & Hshape & Hhint) ]
  end.
  rewrite (bind_step _ _ _ _ _ Hrun). exists s_mid. split; [reflexivity|].
  split; [|split].
  - eapply wf_shape; [exact Hwf' | exact Hshape].
  - etransitivity; [|exact Hhint].
    eapply (hinted_upd_client (Plug.set_xlog _ s1)); [exact Hv|].
    apply hint_key_fields; reflexivity.
  - eexists. split; [rewrite Hheap; apply lookup_insert_eq|].
    cbn. repeat split; reflexivity.
Qed.

Lemma isfullscreen_core z : core_property (fun v => Client.isfullscreen v = z).
Proof. intros v v' Hcore. unfold client_core in Hcore. injection Hcore as -> _. trivial. Qed.

Lemma flags_core b f fs :
  core_property (fun v => Client.bw v = b /\ Client.isfloating v = f
                          /\ Client.isfullscreen v = fs).
Proof.
  intros v v' Hcore. unfold client_core in Hcore. injection Hcore as -> -> -> _. trivial.
Qed.


End Fullscreen.



(** ** Arithmetic modulo 2^32 *)

#[global] Instance eqm32_equiv : Equivalence eqm32.
Proof. unfold eqm32. split; [intros x | intros x y | intros x y z]; congruence. Qed.

#[global] Instance eqm32_add : Proper (eqm32 ==> eqm32 ==> eqm32) Z.add.
Proof.
  intros a a' Ha b b' Hb. unfold eqm32, uint in *.
  rewrite (Zplus_mod a), (Zplus_mod a'), Ha, Hb. reflexivity.
Qed.

#[global] Instance eqm32_sub : Proper (eqm32 ==> eqm32 ==> eqm32) Z.sub.
Proof.
  intros a a' Ha b b' Hb. unfold eqm32, uint in *.
  rewrite (Zminus_mod a), (Zminus_mod a'), Ha, Hb. reflexivity.
Qed.

#[global] Instance eqm32_mul : Proper (eqm32 ==> eqm32 ==> eqm32) Z.mul.
Proof.
  intros a a' Ha b b' Hb. unfold eqm32, uint in *.
  rewrite (Zmult_mod a), (Zmult_mod a'), Ha, Hb. reflexivity.
Qed.

Lemma eqm32_uint z : eqm32 (uint z) z.
Proof. unfold eqm32, uint. apply Z.mod_mod. lia. Qed.

Lemma eqm32_sint z : eqm32 (sint z) z.
Proof. unfold eqm32, uint, sint. rewrite Zminus_mod_idemp_l. f_equal. lia. Qed.

Lemma sint_eqm32 a b : eqm32 a b -> sint a = sint b.
Proof.
  unfold eqm32. intros H. rewrite <- (sint_uint a), <- (sint_uint b), H. reflexivity.
Qed.

(** ** Where an arranger places the clients *)

Create HintDb places discriminated.

#[global] Instance log_ok_preorder P : PreOrder (log_ok P).
Proof.
  split.
  - intros s. exists []. split; [symmetry; apply app_nil_r | constructor].
  - intros s1 s2 s3 (l1 & H1 & F1) (l2 & H2 & F2). exists (l1 ++ l2). split.
    + rewrite H2, H1. symmetry. apply app_assoc.
    + apply Forall_app. auto.
Qed.

#[global] Instance placing_preorder P bwf : PreOrder (placing P bwf).
Proof.
  split.
  - intros s H. split; [reflexivity | exact H].
  - intros s1 s2 s3 H12 H23 H1. destruct (H12 H1) as [L12 H2].
    destruct (H23 H2) as [L23 H3]. split; [etransitivity; eassumption | exact H3].
Qed.

Lemma placing_emit P bwf e : P e -> preserves (placing P bwf) (emit e).
Proof.
  intros He. apply preserves_emit; tc_solve. intros s H. split; [|exact H].
  exists [e]. split; [reflexivity | constructor; [exact He | constructor]].
Qed.

Lemma placing_same P bwf s s' :
  Plug.xlog s' = Plug.xlog s -> Plug.client_heap s' = Plug.client_heap s ->
  placing P bwf s s'.
Proof.
  intros Hl Hh H. split.
  - exists []. split; [rewrite Hl; symmetry; apply app_nil_r | constructor].
  - intros c v Hv. rewrite Hh in Hv. exact (H c v Hv).
Qed.

Lemma placing_upd_client P bwf c f :
  (forall v, Client.bw (f v) = Client.bw v) -> preserves (placing P bwf) (upd_client c f).
Proof.
  intros Hf. apply preserves_upd_client; tc_solve. intros s v Hv H. split.
  - exists []. split; [symmetry; apply app_nil_r | constructor].
  - intros d w Hw. cbn in Hw. destruct (decide (c = d)) as [<-|Hne].
    + rewrite lookup_insert_eq in Hw. injection Hw as <-. rewrite Hf. exact (H c v Hv).
    + rewrite lookup_insert_ne in Hw by assumption. exact (H d w Hw).
Qed.

Lemma bw_of_core v v' : client_core v' = client_core v -> Client.bw v' = Client.bw v.
Proof. unfold client_core. intros H. injection H as _ _ -> _. reflexivity. Qed.

Ltac place_step :=
  lazymatch goal with
  | |- preserves (placing _ _) (emit _) => apply placing_emit; exact I
  | |- preserves (placing _ _) (upd_client _ _) =>
      apply placing_upd_client; intros ?; reflexivity
  | |- preserves (placing _ _) (upd_monitor _ _) =>
      apply preserves_upd_monitor; tc_solve; intros ? ? ?;
      apply placing_same; reflexivity
  | |- preserves (placing _ _) _ => first [pres_step | solve [auto with places]]
  end.

Ltac place_pres := repeat place_step.

Section Placing.

Variable cfg : Config.
Variable P : Event -> Prop.
Variable bwf : CId -> Z.

Lemma placing_updatesizehints c : preserves (placing P bwf) (updatesizehints c).
Proof.
  unfold updatesizehints. place_pres.
  apply placing_upd_client. intros v. apply bw_of_core, frame_sizehints_of.
Qed.
#[local] Hint Resolve placing_updatesizehints : places.

Lemma placing_applysizehints c x y w h i :
  preserves (placing P bwf) (applysizehints cfg c x y w h i).
Proof. unfold applysizehints. place_pres. Qed.
#[local] Hint Resolve placing_applysizehints : places.

Hypothesis P_others : forall e, (forall c x y w h i, e <> EvResize c x y w h i) -> P e.

Lemma placing_resizeclient c x y w h : preserves (placing P bwf) (resizeclient c x y w h).
Proof.
  unfold resizeclient, configure.
  repeat first [ apply placing_emit; apply P_others; discriminate | place_step ].
Qed.
#[local] Hint Resolve placing_resizeclient : places.

Lemma placing_resize c x y w h i :
  P (EvResize c x y w h i) -> preserves (placing P bwf) (resize cfg c x y w h i).
Proof.
  intros HP. unfold resize.
  repeat first [ apply placing_emit; exact HP | place_step ].
Qed.

Lemma placing_ISVISIBLE c : preserves (placing P bwf) (ISVISIBLE c).
Proof. unfold ISVISIBLE. place_pres. Qed.
#[local] Hint Resolve placing_ISVISIBLE : places.

Lemma placing_tiled c : preserves (placing P bwf) (tiled c).
Proof. unfold tiled. place_pres. Qed.

End Placing.

Lemma post_tiled c s :
  post (tiled c) s (fun b s' => s' = s /\ b = tiled_pure s c).
Proof.
  unfold tiled, ISVISIBLE. repeat post_step; (split; [reflexivity|]);
    unfold tiled_pure; simplify_eq;
    repeat match goal with
           | H : _ !! _ = Some _ |- _ => rewrite H
           | H : truthy _ = _ |- _ => rewrite H
           end; reflexivity.
Qed.

Lemma frame_tiled_pure s s' c : frame s s' -> tiled_pure s' c = tiled_pure s c.
Proof.
  intros Hf. unfold tiled_pure.
  destruct (Plug.client_heap s !! c) as [v|] eqn:Hv.
  - destruct (frame_client _ _ _ _ Hf Hv) as (v' & -> & Hcore).
    unfold client_core in Hcore. injection Hcore as _ Hfl _ _ _ Htags _ Hmon _ _.
    rewrite Hfl, Hmon. destruct (truthy (Client.isfloating v)); [reflexivity|].
    destruct (Plug.mon_heap s !! Client.mon v) as [m|] eqn:Hm.
    + destruct (frame_monitor _ _ _ _ Hf Hm) as (m' & -> & Hmc).
      unfold monitor_core in Hmc. injection Hmc as Ht0 Ht1 Hsel _.
      unfold visible, tagset. rewrite Htags, Ht0, Ht1, Hsel. reflexivity.
    + destruct (Plug.mon_heap s' !! Client.mon v) as [m'|] eqn:Hm'; [|reflexivity].
      destruct (frame_monitor_inv _ _ _ _ Hf Hm') as (m & Hm0 & _). congruence.
  - destruct (Plug.client_heap s' !! c) as [v'|] eqn:Hv'; [|reflexivity].
    destruct (frame_client_inv _ _ _ _ Hf Hv') as (v & Hv0 & _). congruence.
Qed.

Lemma frame_tiled_count s s' l : frame s s' -> tiled_count s' l = tiled_count s l.
Proof.
  intros Hf. unfold tiled_count. f_equal. f_equal.
  induction l as [|c l IH]; simpl; [reflexivity|].
  rewrite (frame_tiled_pure _ _ c Hf), IH. reflexivity.
Qed.

Lemma tiled_count_nonneg s l : 0 <= tiled_count s l.
Proof. unfold tiled_count. lia. Qed.

Lemma tiled_count_cons s c l :
  tiled_count s (c :: l)
  = (if tiled_pure s c then 1 else 0) + tiled_count s l.
Proof.
  unfold tiled_count. simpl. destruct (tiled_pure s c); simpl length; lia.
Qed.

(** The first loop of [tile] counts the tiled clients. *)
Lemma post_count_tiled l k s :
  0 <= k -> k + tiled_count s l < 2 ^ 32 ->
  post (for_tiled l (fun n _ => mret (n +ᵤ 1)) k) s
    (fun n s' => s' = s /\ n = k + tiled_count s l).
Proof.
  revert k. unfold for_tiled.
  induction l as [|c l IH]; intros k Hk Hbound; simpl.
  - apply post_ret. split; [reflexivity|]. unfold tiled_count. simpl. lia.
  - rewrite tiled_count_cons in Hbound |- *.
    pose proof (tiled_count_nonneg s l).
    apply post_bind, post_bind.
    eapply post_mono; [apply post_tiled|]. intros b s' [-> ->].
    destruct (tiled_pure s c).
    + apply post_ret. unfold addu. rewrite uint_small by lia.
      eapply post_mono; [apply (IH (k + 1)); lia|].
      intros n s' [-> ->]. split; [reflexivity | lia].
    + apply post_ret.
      eapply post_mono; [apply (IH k); lia|].
      intros n s' [-> ->]. split; [reflexivity | lia].
Qed.

Lemma post_preserves2 R1 R2 {A} (m : M A) s (Q : A -> Plug.t -> Prop) :
  preserves R1 m -> preserves R2 m ->
  (forall a s', R1 s s' -> R2 s s' -> Q a s') -> post m s Q.
Proof. intros H1 H2 HQ a s' H. apply HQ; [eapply H1 | eapply H2]; exact H. Qed.

Lemma quiet_others e : (forall c x y w h i, e <> EvResize c x y w h i) -> quiet e.
Proof. intros H. destruct e; try exact I. exfalso. eapply H. reflexivity. Qed.

Lemma resize_calls_app l1 l2 : resize_calls (l1 ++ l2) = resize_calls l1 ++ resize_calls l2.
Proof. unfold resize_calls. apply flat_map_app. Qed.

Lemma resize_calls_quiet l : Forall quiet l -> resize_calls l = [].
Proof.
  induction 1 as [|e l He _ IH]; [reflexivity|].
  simpl. rewrite IH. destruct e; try reflexivity. destruct He.
Qed.

Lemma calls_rel_refl s : calls_rel [] s s.
Proof. exists []. split; [symmetry; apply app_nil_r | reflexivity]. Qed.

Lemma calls_rel_trans L1 L2 s1 s2 s3 :
  calls_rel L1 s1 s2 -> calls_rel L2 s2 s3 -> calls_rel (L1 ++ L2) s1 s3.
Proof.
  intros (l1 & H1 & C1) (l2 & H2 & C2). exists (l1 ++ l2). split.
  - rewrite H2, H1. symmetry. apply app_assoc.
  - rewrite resize_calls_app, C1, C2. reflexivity.
Qed.

Lemma calls_rel_quiet s s' : log_ok quiet s s' -> calls_rel [] s s'.
Proof. intros (l & H & F). exists l. split; [exact H | apply resize_calls_quiet, F]. Qed.

Lemma bw_is_frame bwf s s' : frame s s' -> bw_is bwf s -> bw_is bwf s'.
Proof.
  intros Hf H c v' Hv'. destruct (frame_client_inv _ _ _ _ Hf Hv') as (v & Hv & Hcore).
  rewrite (bw_of_core _ _ Hcore). exact (H c v Hv).
Qed.

Lemma bw_is_bw_of s : bw_is (bw_of s) s.
Proof. intros c v Hv. unfold bw_of. rewrite Hv. reflexivity. Qed.

Section TileColumns.

Variable cfg : Config.
Variable m : Monitor.t.
Variable bwf : CId -> Z.

Hypothesis wx_range : int_range (Monitor.wx m).

(** A call of [resize] adds itself to the log, and nothing else that is a
    call of [resize]. *)
Lemma resize_calls_rel c x y w h i s :
  bw_is bwf s ->
  post (resize cfg c x y w h i) s
    (fun _ s' => frame s s' /\ calls_rel [(c, x, w)] s s').
Proof.
  intros Hbw. unfold resize. apply post_bind, post_emit.
  eapply (post_preserves2 frame (placing quiet bwf)).
  - pres.
  - repeat first [ apply placing_applysizehints
                 | apply placing_resizeclient; apply quiet_others
                 | place_step ].
  - intros _ s' Hf Hp. split.
    + etransitivity; [|exact Hf]. repeat split.
    + apply (calls_rel_trans [(c, x, w)] [] s
               (Plug.set_xlog (Plug.xlog s ++ [EvResize c x y w h i]) s)).
      * exists [EvResize c x y w h i]. split; reflexivity.
      * apply calls_rel_quiet, Hp. exact Hbw.
Qed.

Lemma tile_step_column n mw i my ty c s :
  bw_is bwf s ->
  column_case m mw i ->
  post (tile_step cfg m n mw (i, my, ty) c) s
    (fun st s' => fst (fst st) = i +ᵤ 1
                  /\ frame s s' /\ calls_rel [full_width_column m bwf c] s s').
Proof.
  intros Hbw Hcase. unfold tile_step. apply post_bind, post_client. intros v Hv.
  pose proof (Hbw c v Hv) as Hbwc. unfold full_width_column. rewrite <- Hbwc.
  destruct Hcase as [[-> ->]|[-> ->]].
  - replace (sint (Monitor.ww m - 2 * Client.bw v))
      with (sint (uint (Monitor.ww m) -ᵤ uint (2 *ₛ Client.bw v))).
    2:{ apply sint_eqm32. unfold subu, muli.
        rewrite !eqm32_uint, !eqm32_sint. reflexivity. }
    apply post_bind.
    eapply post_mono; [apply resize_calls_rel, Hbw|].
    intros _ s' [Hf Hc]. apply post_bind, post_client. intros v' Hv'.
    apply post_ret. auto.
  - replace (sint (Monitor.ww m - 2 * Client.bw v))
      with (sint (uint (Monitor.ww m) -ᵤ 0 -ᵤ uint (2 *ₛ Client.bw v))).
    2:{ apply sint_eqm32. unfold subu, muli.
        rewrite !eqm32_uint, !eqm32_sint.
        replace (Monitor.ww m - 0) with (Monitor.ww m) by lia. reflexivity. }
    assert (sint (uint (Monitor.wx m) +ᵤ 0) = Monitor.wx m) as Hx.
    { rewrite <- (sint_small (Monitor.wx m)) at 2 by exact wx_range.
      apply sint_eqm32. unfold addu. rewrite !eqm32_uint.
      replace (Monitor.wx m + 0) with (Monitor.wx m) by lia. reflexivity. }
    apply post_bind.
    eapply post_mono; [apply resize_calls_rel, Hbw|].
    intros _ s' [Hf Hc]. rewrite Hx in Hc.
    apply post_bind, post_client. intros v' Hv'.
    apply post_ret. auto.
Qed.

(** The second loop of [tile], from the [K]-th tiled client on. *)
Lemma tile_loop_columns n mw N s0 l :
  N < 2 ^ 32 ->
  forall K my ty s,
    frame s0 s -> bw_is bwf s -> 0 <= K ->
    K + tiled_count s0 l = N ->
    (forall K', K <= K' < N -> column_case m mw K') ->
    post (for_tiled l (tile_step cfg m n mw) (K, my, ty)) s
      (fun _ s' =>
         frame s s'
         /\ calls_rel (map (full_width_column m bwf) (List.filter (tiled_pure s0) l)) s s').
Proof.
  intros HN. unfold for_tiled.
  induction l as [|c l IH]; intros K my ty s Hf0 Hbw HK Hcount Hcase; simpl.
  - apply post_ret. split; [reflexivity | apply calls_rel_refl].
  - rewrite tiled_count_cons in Hcount. pose proof (tiled_count_nonneg s0 l).
    apply post_bind, post_bind.
    eapply post_mono; [apply post_tiled|]. intros b s' [-> ->].
    rewrite (frame_tiled_pure _ _ c Hf0).
    destruct (tiled_pure s0 c).
    + eapply post_mono; [apply (tile_step_column n mw K my ty c s Hbw); apply Hcase; lia|].
      intros [[i' my'] ty'] s1 (Hi & Hf1 & Hl1). simpl in Hi. subst i'.
      unfold addu. rewrite uint_small by lia.
      eapply post_mono.
      * apply (IH (K + 1) my' ty' s1); try lia.
        -- etransitivity; eassumption.
        -- eapply bw_is_frame; eassumption.
        -- intros K' HK'. apply Hcase. lia.
      * intros _ s2 [Hf2 Hl2]. split; [etransitivity; eassumption|].
        simpl map. apply (calls_rel_trans [_] _ s s1 s2); assumption.
    + apply post_ret. apply (IH K my ty s); assumption.
Qed.

End TileColumns.

(** ** Minimized clients *)

(** C9 fails on the code. Minimizing clients 1 and 2 under a bar of height 12 leaves them as
    strips of 50 by 20 at x = 0 and x = 50; restoring client 1 then asks
    for client 2 the rectangle 50 by 10, and leaves it at 50 by 12 (the
    bar height), not 50 by 20. *)
Theorem restore_strip_height :
  exists s1 s2 s3,
    minimize sample_cfg (Some 1%nat) small_bar_state = Some (tt, s1)
    /\ minimize sample_cfg (Some 2%nat) s1 = Some (tt, s2)
    /\ client_has 1%nat (fun v => geometry v = (0, 12, 50, 20)) s2
    /\ client_has 2%nat (fun v => geometry v = (50, 12, 50, 20)) s2
    /\ restore sample_cfg (Some 1%nat) s2 = Some (tt, s3)
    /\ client_has 2%nat (fun v => truthy (Client.isminimized v) = true
                                  /\ geometry v = (0, 12, 50, 12)) s3
    /\ In (EvResize 2%nat 0 12 50 10 0) (Plug.xlog s3).
Proof.
  eexists. eexists. eexists.
  split; [vm_compute; reflexivity|].
  split; [vm_compute; reflexivity|].
  split; [eexists; split; [vm_compute; reflexivity | reflexivity]|].
  split; [eexists; split; [vm_compute; reflexivity | reflexivity]|].
  split; [vm_compute; reflexivity|].
  split; [eexists; split; [vm_compute; reflexivity | split; reflexivity]|].
  vm_compute. tauto.
Qed.

(** ** Size hints *)

Section SizeHints.

Variable cfg : Config.

Lemma resizeclient_run c x y w h s v :
  Plug.client_heap s !! c = Some v ->
  resizeclient c x y w h s = Some (tt, resizeclient_state c x y w h v s).
Proof.
  intros Hv.
  assert (defined (resizeclient c x y w h) s) as [[[] s'] Hrun].
  { unfold resizeclient, configure, defined, upd_client, emit, modify, client,
      mbind, M_bind, bind.
    rewrite Hv. plug_simpl. rewrite lookup_insert_eq. plug_simpl.
    rewrite lookup_insert_eq. eexists. reflexivity. }
  rewrite Hrun. f_equal. f_equal.
  refine (post_resizeclient c x y w h s (fun _ s' => s' = _) _ tt s' Hrun).
  intros v0 Hv0. simplify_eq. reflexivity.
Qed.

Ltac int_simpl :=
  unfold addi, subi, muli in *;
  repeat match goal with
         | |- context [sint ?z] => rewrite (sint_small z) by (unfold int_range; lia)
         | H : context [sint ?z] |- _ => rewrite (sint_small z) in H by (unfold int_range; lia)
         end.

Lemma at_least_bar_bounds bh z :
  1 <= at_least_bar bh z /\ bh <= at_least_bar bh z /\ MAX 1 z <= at_least_bar bh z
  /\ at_least_bar bh z = Z.max (Z.max 1 z) bh.
Proof.
  unfold at_least_bar, MAX.
  destruct (Z.ltb_spec z 1);
    match goal with |- context [?a <? bh] => destruct (Z.ltb_spec a bh) end; lia.
Qed.

Lemma at_least_bar_fixed bh z : 1 <= z -> bh <= z -> at_least_bar bh z = z.
Proof.
  intros H1 H2. unfold at_least_bar, MAX.
  destruct (Z.ltb_spec z 1);
    match goal with |- context [?a <? bh] => destruct (Z.ltb_spec a bh) end; lia.
Qed.

Lemma MAX_fixed z : 1 <= z -> MAX 1 z = z.
Proof. intros H. unfold MAX. destruct (Z.ltb_spec z 1); lia. Qed.


Ltac no_if a :=
  lazymatch a with context [if _ then _ else _] => fail | _ => idtac end.

Ltac clamp_cases :=
  repeat (int_simpl;
          match goal with
          | |- context [if ?a <=? ?b then _ else _] =>
              no_if a; no_if b; destruct (Z.leb_spec a b)
          | |- context [if ?a <? ?b then _ else _] =>
              no_if a; no_if b; destruct (Z.ltb_spec a b)
          end);
  int_simpl.

(** The bounds on the position hold of a position they were put on, for a
    size that is not smaller. *)
Lemma clamp_area_fixed v v2 m x y w1 h1 W H x1 y1 :
  clamp_area v m x y w1 h1 = (x1, y1) ->
  Client.bw v2 = Client.bw v ->
  0 <= Client.bw v <= 2 ^ 28 ->
  0 < Client.w v <= 2 ^ 28 -> 0 < Client.h v <= 2 ^ 28 ->
  in_bounds (Monitor.wx m) -> in_bounds (Monitor.wy m) ->
  0 < Monitor.ww m <= 2 ^ 28 -> 0 < Monitor.wh m <= 2 ^ 28 ->
  in_bounds x -> in_bounds y ->
  1 <= w1 <= W -> W <= 2 ^ 28 -> 1 <= h1 <= H -> H <= 2 ^ 28 ->
  clamp_area v2 m x1 y1 W H = (x1, y1).
Proof.
  unfold in_bounds. intros E Hbw Hb Hw Hh Hwx Hwy Hww Hwh Hx Hy Hw1 HW Hh1 HH.
  assert (x1 = fst (clamp_area v m x y w1 h1)) as Hx1 by (rewrite E; reflexivity).
  assert (y1 = snd (clamp_area v m x y w1 h1)) as Hy1 by (rewrite E; reflexivity).
  clear E. unfold clamp_area, WIDTH, HEIGHT in *. cbn [fst snd] in Hx1, Hy1.
  rewrite Hbw. f_equal.
  - clear Hy1 y1. subst x1. clamp_cases; lia.
  - clear Hx1 x1. subst y1. clamp_cases; lia.
Qed.

Lemma clamp_interact_fixed v v2 sw sh x y w1 h1 W H x1 y1 :
  clamp_interact v sw sh x y w1 h1 = (x1, y1) ->
  Client.bw v2 = Client.bw v ->
  0 <= Client.bw v <= 2 ^ 28 ->
  0 < Client.w v <= 2 ^ 28 -> 0 < Client.h v <= 2 ^ 28 ->
  0 <= sw <= 2 ^ 28 -> 0 <= sh <= 2 ^ 28 ->
  in_bounds x -> in_bounds y ->
  1 <= w1 <= W -> W <= 2 ^ 28 -> 1 <= h1 <= H -> H <= 2 ^ 28 ->
  clamp_interact v2 sw sh x1 y1 W H = (x1, y1).
Proof.
  unfold in_bounds. intros E Hbw Hb Hw Hh Hsw Hsh Hx Hy Hw1 HW Hh1 HH.
  assert (x1 = fst (clamp_interact v sw sh x y w1 h1)) as Hx1 by (rewrite E; reflexivity).
  assert (y1 = snd (clamp_interact v sw sh x y w1 h1)) as Hy1 by (rewrite E; reflexivity).
  clear E. unfold clamp_interact, WIDTH, HEIGHT in *. cbn [fst snd] in Hx1, Hy1.
  rewrite Hbw. f_equal.
  - clear Hy1 y1. subst x1. clamp_cases; lia.
  - clear Hx1 x1. subst y1. clamp_cases; lia.
Qed.

Lemma clamp_area_column v m x y w h :
  in_bounds (Monitor.wx m) -> 0 < Monitor.ww m <= 2 ^ 28 ->
  in_bounds x -> 1 <= w <= 2 ^ 28 -> 0 <= Client.bw v <= 2 ^ 28 ->
  x < Monitor.wx m + Monitor.ww m ->
  Monitor.wx m < x + w + 2 * Client.bw v ->
  fst (clamp_area v m x y w h) = x.
Proof.
  unfold in_bounds, clamp_area. intros. cbn [fst]. clamp_cases; lia.
Qed.

Lemma icccm_hints_none v w h :
  no_hints v -> 0 <= w < 2 ^ 31 -> 0 <= h < 2 ^ 31 -> icccm_hints v w h = Some (w, h).
Proof.
  intros (Hbw & Hbh & Hiw & Hih & Hmw & Hmh & Hxw & Hxh & Ha) Hw Hh.
  unfold icccm_hints. rewrite Ha, Hiw, Hih, Hxw, Hxh, Hbw, Hbh, Hmw, Hmh. cbn.
  unfold MAX. int_simpl.
  rewrite !Z.sub_0_r, !Z.add_0_r.
  destruct (Z.ltb_spec 0 w); destruct (Z.ltb_spec 0 h); do 2 f_equal; lia.
Qed.


Lemma loaded_hints_fields srv v :
  geometry (loaded_hints srv v) = geometry v
  /\ Client.bw (loaded_hints srv v) = Client.bw v
  /\ Client.mon (loaded_hints srv v) = Client.mon v
  /\ Client.isfloating (loaded_hints srv v) = Client.isfloating v
  /\ truthy (Client.hintsvalid (loaded_hints srv v)) = true.
Proof.
  unfold loaded_hints. destruct (truthy (Client.hintsvalid v)) eqn:E.
  - auto.
  - destruct (geometry_sizehints_of (XGetWMNormalHints srv (Client.win v)) v)
      as (Hg & Hb & Hm & Hf & Hh).
    rewrite Hh. auto.
Qed.

(** C7 fails on the code for a client whose size hints make a remainder
    of the second part trap: [applysizehints] then has no result.  On every
    other client and rectangle it returns; the width and height that reach
    its second part are the given ones raised to at least 1 and then to at
    least the bar height (the result is what the second part makes of
    them, or they themselves when it is skipped); and the value returned
    is nonzero exactly when the resulting rectangle differs from the one
    stored in the client. *)
Theorem applysizehints_clamps_and_changed c x y w h i s v m :
  Plug.client_heap s !! c = Some v ->
  Plug.mon_heap s !! Client.mon v = Some m ->
  let W := Z.max (Z.max 1 w) (Plug.bh s) in
  let H := Z.max (Z.max 1 h) (Plug.bh s) in
  match (if hint_stage cfg v m
         then icccm_hints (loaded_hints (Plug.xsrv s) v) W H else Some (W, H)) with
  | Some wh =>
      exists r s',
        applysizehints cfg c x y w h i s = Some (r, s')
        /\ client_has c (fun v' => geometry v' = geometry v) s'
        /\ (res_w r, res_h r) = wh
        /\ (changed r = true <-> (res_x r, res_y r, res_w r, res_h r) <> geometry v)
  | None => applysizehints cfg c x y w h i s = None
  end.
Proof.
  intros Hv Hm W H.
  pose proof (applysizehints_run cfg c x y w h i s v m Hv Hm) as Hrun. cbv zeta in Hrun.
  destruct (at_least_bar_bounds (Plug.bh s) w) as (_ & _ & _ & HW).
  destruct (at_least_bar_bounds (Plug.bh s) h) as (_ & _ & _ & HH).
  fold W in HW. fold H in HH. rewrite HW, HH in Hrun.
  assert (geometry (if hint_stage cfg v m then loaded_hints (Plug.xsrv s) v else v)
          = geometry v) as Hg
    by (destruct (hint_stage cfg v m); [apply loaded_hints_fields | reflexivity]).
  assert (forall wh,
            (exists r,
               applysizehints cfg c x y w h i s
               = Some (r, if hint_stage cfg v m && negb (truthy (Client.hintsvalid v))
                          then Plug.set_client_heap
                                 (<[c := if hint_stage cfg v m
                                         then loaded_hints (Plug.xsrv s) v else v]>
                                    (Plug.client_heap s)) s
                          else s)
               /\ Plug.client_heap
                    (if hint_stage cfg v m && negb (truthy (Client.hintsvalid v))
                     then Plug.set_client_heap
                            (<[c := if hint_stage cfg v m
                                    then loaded_hints (Plug.xsrv s) v else v]>
                               (Plug.client_heap s)) s
                     else s) !! c
                  = Some (if hint_stage cfg v m then loaded_hints (Plug.xsrv s) v else v)
               /\ (res_x r, res_y r)
                  = (if truthy i
                     then clamp_interact v (Plug.sw s) (Plug.sh s) x y (MAX 1 w) (MAX 1 h)
                     else clamp_area v m x y (MAX 1 w) (MAX 1 h))
               /\ (res_w r, res_h r) = wh
               /\ changed r = negb (same_geometry v (res_x r) (res_y r) (res_w r) (res_h r))) ->
            exists r s',
              applysizehints cfg c x y w h i s = Some (r, s')
              /\ client_has c (fun v' => geometry v' = geometry v) s'
              /\ (res_w r, res_h r) = wh
              /\ (changed r = true <-> (res_x r, res_y r, res_w r, res_h r) <> geometry v))
    as Hdone.
  { intros wh (r & Hr & Hv' & _ & Hsz & Hch).
    eexists r, _. split; [exact Hr|]. split; [|split].
    - eexists. split; [exact Hv' | exact Hg].
    - exact Hsz.
    - rewrite Hch. unfold same_geometry, geometry.
      rewrite negb_true_iff, !andb_false_iff, !Z.eqb_neq. split.
      + intros Hne Heq. injection Heq as E1 E2 E3 E4. tauto.
      + intros Hne.
        destruct (Z.eq_dec (res_x r) (Client.x v)) as [Ex|]; [|tauto].
        destruct (Z.eq_dec (res_y r) (Client.y v)) as [Ey|]; [|tauto].
        destruct (Z.eq_dec (res_w r) (Client.w v)) as [Ew|]; [|tauto].
        destruct (Z.eq_dec (res_h r) (Client.h v)) as [Eh|]; [|tauto].
        exfalso. apply Hne. congruence. }
  revert Hrun Hdone. generalize (hint_stage cfg v m) as b. intros [|].
  - destruct (icccm_hints (loaded_hints (Plug.xsrv s) v) W H) as [wh|];
      intros Hrun Hdone; [exact (Hdone wh Hrun) | exact Hrun].
  - intros Hrun Hdone. exact (Hdone _ Hrun).
Qed.

(** C8, as amended. On a client for which the second part of
    [applysizehints] is skipped, or which sets no size hints, with sizes
    and positions far from the ends of [int], a positive stored size and a
    positive window area: [applysizehints] returns; once [resizeclient] has
    stored its rectangle in the client, [applysizehints] on that rectangle
    with the same [interact] returns the same rectangle and 0, and leaves
    the state as it is. *)
Theorem applysizehints_idempotent c x y w h i s v m :
  Plug.client_heap s !! c = Some v ->
  Plug.mon_heap s !! Client.mon v = Some m ->
  hint_stage cfg v m = false \/ no_hints (loaded_hints (Plug.xsrv s) v) ->
  modest s v m ->
  in_bounds x -> in_bounds y -> in_bounds w -> in_bounds h ->
  exists r s1 s2,
    applysizehints cfg c x y w h i s = Some (r, s1)
    /\ resizeclient c (res_x r) (res_y r) (res_w r) (res_h r) s1 = Some (tt, s2)
    /\ applysizehints cfg c (res_x r) (res_y r) (res_w r) (res_h r) i s2
       = Some (mkSizeResult (res_x r) (res_y r) (res_w r) (res_h r) false, s2).
Proof.
  intros Hv Hm Hplain (Hbw & Hcw & Hch & Hbh & Hsw & Hsh & Hwx & Hwy & Hww & Hwh)
    Hx Hy Hw Hh.
  pose proof (applysizehints_run cfg c x y w h i s v m Hv Hm) as Hrun0. cbv zeta in Hrun0.
  set (v' := if hint_stage cfg v m then loaded_hints (Plug.xsrv s) v else v) in *.
  set (s1 := if hint_stage cfg v m && negb (truthy (Client.hintsvalid v)) then _ else s) in *.
  destruct (at_least_bar_bounds (Plug.bh s) w) as (HW1 & HWb & HWm & HWe).
  destruct (at_least_bar_bounds (Plug.bh s) h) as (HH1 & HHb & HHm & HHe).
  set (W := at_least_bar (Plug.bh s) w) in *. set (H := at_least_bar (Plug.bh s) h) in *.
  unfold in_bounds in *.
  assert (W <= 2 ^ 28 /\ H <= 2 ^ 28) as [HWu HHu] by lia.
  assert (geometry v' = geometry v /\ Client.bw v' = Client.bw v
          /\ Client.mon v' = Client.mon v /\ Client.isfloating v' = Client.isfloating v
          /\ (hint_stage cfg v m = true ->
              truthy (Client.hintsvalid v') = true /\ no_hints v'))
    as (Hg' & Hbw' & Hmon' & Hfl' & Hhs').
  { subst v'. destruct (hint_stage cfg v m).
    - destruct (loaded_hints_fields (Plug.xsrv s) v) as (? & ? & ? & ? & ?).
      destruct Hplain as [?|?]; [discriminate|]. auto 10.
    - repeat split; try reflexivity; discriminate. }
  assert ((if hint_stage cfg v m then icccm_hints v' W H else Some (W, H)) = Some (W, H))
    as Hres.
  { destruct (hint_stage cfg v m); [|reflexivity].
    apply icccm_hints_none; [apply Hhs'; reflexivity | lia | lia]. }
  rewrite Hres in Hrun0. destruct Hrun0 as (r & Hrun & Hv' & Hxy & Hsz' & _).
  injection Hsz' as Hrw Hrh.
  assert (Plug.mon_heap s1 = Plug.mon_heap s /\ Plug.bh s1 = Plug.bh s
          /\ Plug.sw s1 = Plug.sw s /\ Plug.sh s1 = Plug.sh s
          /\ Plug.xsrv s1 = Plug.xsrv s) as (Hs1m & Hs1b & Hs1w & Hs1h & Hs1x).
  { subst s1. destruct (_ && _); auto. }
  exists r, s1. eexists. split; [exact Hrun|].
  split; [apply resizeclient_run, Hv'|].
  set (v2 := resized (res_x r) (res_y r) (res_w r) (res_h r) v').
  set (s2 := resizeclient_state _ _ _ _ _ _ _).
  assert (Plug.client_heap s2 !! c = Some v2) as Hv2 by apply lookup_insert_eq.
  assert (Plug.mon_heap s2 !! Client.mon v2 = Some m) as Hm2.
  { change (Plug.mon_heap s1 !! Client.mon v' = Some m). rewrite Hs1m, Hmon'. exact Hm. }
  assert (hint_stage cfg v2 m = hint_stage cfg v m) as Hhs2.
  { unfold hint_stage. change (Client.isfloating v2) with (Client.isfloating v').
    rewrite Hfl'. reflexivity. }
  pose proof (applysizehints_run cfg c (res_x r) (res_y r) (res_w r) (res_h r) i s2 v2 m
                Hv2 Hm2) as Hrun2. cbv zeta in Hrun2.
  rewrite Hhs2 in Hrun2.
  change (Client.hintsvalid v2) with (Client.hintsvalid v') in Hrun2.
  change (Plug.bh s2) with (Plug.bh s1) in Hrun2.
  change (Plug.sw s2) with (Plug.sw s1) in Hrun2.
  change (Plug.sh s2) with (Plug.sh s1) in Hrun2.
  change (Plug.xsrv s2) with (Plug.xsrv s1) in Hrun2.
  rewrite Hs1b, Hs1x, Hs1w, Hs1h in Hrun2.
  rewrite Hrw, Hrh in Hrun2.
  rewrite !at_least_bar_fixed in Hrun2 by lia. rewrite !MAX_fixed in Hrun2 by lia.
  assert ((if hint_stage cfg v m
           then icccm_hints (if hint_stage cfg v m
                             then loaded_hints (Plug.xsrv s) v2 else v2) W H
           else Some (W, H))
          = Some (W, H)) as Hres2.
  { destruct (hint_stage cfg v m) eqn:Ehs; [|reflexivity].
    destruct (Hhs' eq_refl) as [Hvalid Hnone].
    apply icccm_hints_none; [|lia|lia].
    unfold loaded_hints. change (Client.hintsvalid v2) with (Client.hintsvalid v').
    rewrite Hvalid. exact Hnone. }
  rewrite Hres2 in Hrun2. destruct Hrun2 as (r2 & Hrun2 & _ & Hxy2 & Hsize & Hch2).
  assert (1 <= MAX 1 w /\ 1 <= MAX 1 h) as [Hw1 Hh1].
  { unfold MAX. destruct (Z.ltb_spec w 1); destruct (Z.ltb_spec h 1); lia. }
  assert ((res_x r2, res_y r2) = (res_x r, res_y r)) as Hpos.
  { rewrite Hxy2. destruct (truthy i).
    - eapply (clamp_interact_fixed v v2); try (symmetry; exact Hxy); try exact Hbw';
        unfold in_bounds; try lia.
    - eapply (clamp_area_fixed v v2); try (symmetry; exact Hxy); try exact Hbw';
        unfold in_bounds; try lia. }
  assert (hint_stage cfg v m && negb (truthy (Client.hintsvalid v')) = false) as Hsame.
  { destruct (hint_stage cfg v m) eqn:Ehs; [|reflexivity].
    destruct (Hhs' eq_refl) as [-> _]. reflexivity. }
  rewrite Hsame in Hrun2. rewrite Hrw, Hrh. rewrite Hrun2. f_equal. f_equal.
  destruct r2 as [x2 y2 w2 h2 ch2]. cbn [res_x res_y res_w res_h changed] in *.
  injection Hpos as -> ->. injection Hsize as -> ->.
  rewrite Hch2. unfold same_geometry. subst v2.
  cbn. rewrite Hrw, Hrh, !Z.eqb_refl. reflexivity.
Qed.

End SizeHints.

Lemma applysizehints_clamps_and_changed_witness :
  applysizehints sample_cfg 1%nat 0 20 20 100 0 hostile_state = None.
Proof.
  refine (applysizehints_clamps_and_changed sample_cfg 1%nat 0 20 20 100 0 hostile_state
            (Client.set_incw (-1)
               (Client.set_basew (-2147483628) (sample_client 101 0 20 20 100 1)))
            sample_monitor _ _).
  - vm_compute. reflexivity.
  - vm_compute. reflexivity.
Defined.

Lemma applysizehints_idempotent_witness :
  exists r s1 s2,
    applysizehints sample_cfg 1%nat 5 30 0 5 0 sample_state = Some (r, s1)
    /\ resizeclient 1%nat (res_x r) (res_y r) (res_w r) (res_h r) s1 = Some (tt, s2)
    /\ applysizehints sample_cfg 1%nat (res_x r) (res_y r) (res_w r) (res_h r) 0 s2
       = Some (mkSizeResult (res_x r) (res_y r) (res_w r) (res_h r) false, s2).
Proof.
  apply (applysizehints_idempotent sample_cfg 1%nat 5 30 0 5 0 sample_state
           (sample_client 101 0 20 958 1058 0) sample_monitor).
  - vm_compute. reflexivity.
  - vm_compute. reflexivity.
  - left. reflexivity.
  - unfold modest, in_bounds. cbn. lia.
  - unfold in_bounds. lia.
  - unfold in_bounds. lia.
  - unfold in_bounds. lia.
  - unfold in_bounds. lia.
Defined.

(** With size hints the second application can differ from the first: a
    width increment of 10 and a maximum width of 25 turn the width 100
    into 25, and 25 into 20. *)
Lemma applysizehints_not_idempotent :
  exists r1 s1 s2 r2 s3,
    applysizehints sample_cfg 1%nat 0 20 100 100 0 hinted_state = Some (r1, s1)
    /\ (res_x r1, res_y r1, res_w r1, res_h r1) = (0, 20, 25, 100)
    /\ resizeclient 1%nat 0 20 25 100 s1 = Some (tt, s2)
    /\ applysizehints sample_cfg 1%nat 0 20 25 100 0 s2 = Some (r2, s3)
    /\ (res_x r2, res_y r2, res_w r2, res_h r2) = (0, 20, 20, 100)
    /\ changed r2 = true.
Proof.
  do 5 eexists.
  split; [vm_compute; reflexivity|]. split; [reflexivity|].
  split; [vm_compute; reflexivity|].
  split; [vm_compute; reflexivity|]. split; reflexivity.
Qed.

(** ** The columns of the tiling layout *)

Lemma fits_frame cfg s s' v m x w : frame s s' -> fits cfg s v m x w -> fits cfg s' v m x w.
Proof.
  intros (_ & _ & Hp). unfold plug_core in Hp.
  assert (Plug.bh s' = Plug.bh s /\ Plug.xsrv s' = Plug.xsrv s) as [Hb Hx]
    by (split; congruence).
  unfold fits. rewrite Hb, Hx. trivial.
Qed.

Lemma tiled_pure_client s c :
  tiled_pure s c = true -> exists v, Plug.client_heap s !! c = Some v.
Proof. unfold tiled_pure. destruct (Plug.client_heap s !! c); [eauto | discriminate]. Qed.

Section Tile.

Variable cfg : Config.

(** What a call of [resize] from an arranger stores. *)
Lemma post_resize_column c x y w h s v m :
  Plug.client_heap s !! c = Some v ->
  Plug.mon_heap s !! Client.mon v = Some m ->
  int_range h ->
  post (resize cfg c x y w h 0) s (fun _ s' =>
    frame s s'
    /\ Plug.mon_heap s' = Plug.mon_heap s
    /\ (forall d, d <> c -> Plug.client_heap s' !! d = Plug.client_heap s !! d)
    /\ (fits cfg s v m x w ->
        client_has c (fun v' => Client.x v' = x /\ Client.w v' = w) s')).
Proof.
  intros Hv Hm Hh a s' Hrun.
  split; [exact (frame_resize cfg c x y w h 0 s a s' Hrun)|].
  unfold resize in Hrun.
  set (s0 := Plug.set_xlog (Plug.xlog s ++ [EvResize c x y w h 0]) s) in *.
  rewrite (bind_step _ _ s tt s0) in Hrun by reflexivity.
  pose proof (applysizehints_run cfg c x y w h 0 s0 v m Hv Hm) as Happ. cbv zeta in Happ.
  change (Plug.bh s0) with (Plug.bh s) in Happ.
  change (Plug.xsrv s0) with (Plug.xsrv s) in Happ.
  change (truthy 0) with false in Happ. cbv iota in Happ.
  set (v' := if hint_stage cfg v m then loaded_hints (Plug.xsrv s) v else v) in *.
  set (s1 := if hint_stage cfg v m && negb (truthy (Client.hintsvalid v)) then _ else s0) in *.
  destruct (if hint_stage cfg v m
            then icccm_hints v' (at_least_bar (Plug.bh s) w) (at_least_bar (Plug.bh s) h)
            else Some (at_least_bar (Plug.bh s) w, at_least_bar (Plug.bh s) h))
    as [[w3 h3]|] eqn:Ewh.
  2:{ rewrite (bind_None _ _ _ Happ) in Hrun. discriminate. }
  destruct Happ as (r & Happ & Hv' & Hxy & Hsz & Hch).
  rewrite (bind_step _ _ _ _ _ Happ) in Hrun.
  assert (Plug.mon_heap s1 = Plug.mon_heap s) as Hmh
    by (subst s1; destruct (_ && _); reflexivity).
  assert (forall d, d <> c -> Plug.client_heap s1 !! d = Plug.client_heap s !! d) as Hoth.
  { intros d Hd. subst s1. destruct (_ && _); [|reflexivity].
    cbn. apply lookup_insert_ne. congruence. }
  assert (geometry v' = geometry v) as Hg.
  { subst v'. destruct (hint_stage cfg v m); [|reflexivity].
    apply loaded_hints_fields. }
  assert (fits cfg s v m x w -> res_x r = x /\ res_w r = w) as Hfit.
  { intros (Hw & Hbh & Hbhb & Hx & Hbw & Hwx & Hww & Hlt & Hgt & Hplain).
    unfold in_bounds, int_range in *. split.
    - change (res_x r) with (fst (res_x r, res_y r)). rewrite Hxy.
      rewrite (MAX_fixed w) by lia.
      apply clamp_area_column; unfold in_bounds; lia.
    - rewrite (at_least_bar_fixed (Plug.bh s) w) in Ewh by lia.
      destruct (at_least_bar_bounds (Plug.bh s) h) as (HH1 & _ & _ & HHe).
      assert ((w3, h3) = (w, at_least_bar (Plug.bh s) h)) as E.
      { apply (inj Some). rewrite <- Ewh. subst v'.
        destruct (hint_stage cfg v m); [|reflexivity].
        destruct Hplain as [?|Hnone]; [discriminate|].
        apply icccm_hints_none; [exact Hnone | lia | lia]. }
      change (res_w r) with (fst (res_w r, res_h r)). rewrite Hsz, E. reflexivity. }
  destruct (changed r) eqn:Ech; cbn [when] in Hrun.
  - rewrite (resizeclient_run _ _ _ _ _ _ _ Hv') in Hrun. injection Hrun as _ <-.
    split; [exact Hmh|]. split.
    + intros d Hd. cbn. rewrite lookup_insert_ne by congruence. apply Hoth, Hd.
    + intros Hf. destruct (Hfit Hf) as [Ex Ew].
      eexists. split; [apply lookup_insert_eq|]. cbn. split; assumption.
  - injection Hrun as _ <-. split; [exact Hmh|]. split; [exact Hoth|].
    intros Hf. destruct (Hfit Hf) as [Ex Ew].
    exists v'. split; [exact Hv'|].
    symmetry in Hch. apply negb_false_iff in Hch. unfold same_geometry in Hch.
    rewrite !andb_true_iff, !Z.eqb_eq in Hch. destruct Hch as [[[E1 _] E3] _].
    unfold geometry in Hg. injection Hg as -> _ -> _. split; congruence.
Qed.

Lemma tile_step_places m n K my ty c s v :
  Plug.client_heap s !! c = Some v ->
  Plug.mon_heap s !! Client.mon v = Some m ->
  post (tile_step cfg m n (tile_mw m n) (K, my, ty) c) s (fun st s' =>
    fst (fst st) = K +ᵤ 1
    /\ frame s s'
    /\ Plug.mon_heap s' = Plug.mon_heap s
    /\ (forall d, d <> c -> Plug.client_heap s' !! d = Plug.client_heap s !! d)
    /\ (fits cfg s v m (fst (tile_column m n K (Client.bw v)))
          (snd (tile_column m n K (Client.bw v))) ->
        client_has c (fun v' =>
          (Client.x v', Client.w v') = tile_column m n K (Client.bw v)) s')).
Proof.
  intros Hv Hm. unfold tile_step, tile_column.
  apply post_bind, post_client. intros v0 Hv0. rewrite Hv in Hv0. injection Hv0 as <-.
  destruct (K <? uint (Monitor.nmaster m)); cbn [fst snd].
  - apply post_bind.
    eapply post_mono; [apply (post_resize_column c _ _ _ _ s v m Hv Hm), sint_range|].
    intros _ s' (Hf & Hmh & Hoth & Hfit).
    apply post_bind, post_client. intros v' Hv'. apply post_ret. cbn [fst].
    split; [reflexivity|]. split; [exact Hf|]. split; [exact Hmh|]. split; [exact Hoth|].
    intros Hfits. destruct (Hfit Hfits) as (v2 & Hv2 & Ex & Ew).
    exists v2. split; [exact Hv2 | congruence].
  - apply post_bind.
    eapply post_mono; [apply (post_resize_column c _ _ _ _ s v m Hv Hm), sint_range|].
    intros _ s' (Hf & Hmh & Hoth & Hfit).
    apply post_bind, post_client. intros v' Hv'. apply post_ret. cbn [fst].
    split; [reflexivity|]. split; [exact Hf|]. split; [exact Hmh|]. split; [exact Hoth|].
    intros Hfits. destruct (Hfit Hfits) as (v2 & Hv2 & Ex & Ew).
    exists v2. split; [exact Hv2 | congruence].
Qed.

(** The second loop of [tile], from the [K]-th tiled client on: every
    tiled client of the list is given its column, and no other client is
    written. *)
Lemma tile_loop_places mid m n s0 l :
  NoDup l ->
  (forall d v, d ∈ l -> Plug.client_heap s0 !! d = Some v -> Client.mon v = mid) ->
  Plug.mon_heap s0 !! mid = Some m ->
  forall K my ty s,
    0 <= K -> K + tiled_count s0 l < 2 ^ 32 ->
    frame s0 s -> Plug.mon_heap s = Plug.mon_heap s0 ->
    (forall d, d ∈ l -> Plug.client_heap s !! d = Plug.client_heap s0 !! d) ->
    post (for_tiled l (tile_step cfg m n (tile_mw m n)) (K, my, ty)) s (fun _ s' =>
      frame s s'
      /\ Plug.mon_heap s' = Plug.mon_heap s
      /\ (forall d, d ∉ l -> Plug.client_heap s' !! d = Plug.client_heap s !! d)
      /\ forall (j : nat) d v,
           List.filter (tiled_pure s0) l !! j = Some d ->
           Plug.client_heap s0 !! d = Some v ->
           fits cfg s0 v m (fst (tile_column m n (K + Z.of_nat j) (Client.bw v)))
             (snd (tile_column m n (K + Z.of_nat j) (Client.bw v))) ->
           client_has d (fun v' =>
             (Client.x v', Client.w v') = tile_column m n (K + Z.of_nat j) (Client.bw v))
             s').
Proof.
  intros Hnd Hmon Hm. unfold for_tiled.
  induction l as [|c l IH]; intros K my ty s HK Hcount Hf0 Hmh Hsame; simpl.
  - apply post_ret. split; [reflexivity|]. split; [reflexivity|].
    split; [reflexivity|]. intros j d v Hj. destruct j; discriminate.
  - apply NoDup_cons in Hnd as [Hc Hnd]. rewrite tiled_count_cons in Hcount.
    pose proof (tiled_count_nonneg s0 l) as Hnn.
    assert (forall d v, d ∈ l -> Plug.client_heap s0 !! d = Some v -> Client.mon v = mid)
      as Hmon' by (intros d v Hd; apply Hmon; right; exact Hd).
    apply post_bind, post_bind.
    eapply post_mono; [apply post_tiled|]. intros b s' [-> ->].
    rewrite (frame_tiled_pure _ _ c Hf0).
    destruct (tiled_pure s0 c) eqn:Et.
    + destruct (tiled_pure_client _ _ Et) as [v Hv0].
      assert (Plug.client_heap s !! c = Some v) as Hv
        by (rewrite Hsame; [exact Hv0 | left]).
      assert (Plug.mon_heap s !! Client.mon v = Some m) as Hmv.
      { rewrite Hmh, (Hmon c v); [exact Hm | left | exact Hv0]. }
      eapply post_mono; [apply (tile_step_places m n K my ty c s v Hv Hmv)|].
      intros [[i' my'] ty'] s1 (Hi & Hf1 & Hmh1 & Hoth1 & Hfit1). simpl in Hi. subst i'.
      unfold addu. rewrite uint_small by lia.
      eapply post_mono.
      * apply (IH Hnd Hmon' (K + 1) my' ty' s1); try lia.
        -- etransitivity; eassumption.
        -- congruence.
        -- intros d Hd. rewrite Hoth1; [apply Hsame; right; exact Hd|].
           intros ->. contradiction.
      * intros _ s2 (Hf2 & Hmh2 & Hoth2 & Hpl2).
        split; [etransitivity; eassumption|]. split; [congruence|]. split.
        -- intros d Hd. apply not_elem_of_cons in Hd as [Hdc Hdl].
           rewrite Hoth2 by exact Hdl. apply Hoth1, Hdc.
        -- intros j d v1 Hj Hv1 Hfits. destruct j as [|j]; simpl in Hj.
           ++ injection Hj as <-. rewrite Hv0 in Hv1. injection Hv1 as <-.
              rewrite Z.add_0_r in *.
              destruct (Hfit1 (fits_frame _ _ _ _ _ _ _ Hf0 Hfits)) as (v2 & Hv2 & E).
              exists v2. split; [|exact E]. rewrite Hoth2 by exact Hc. exact Hv2.
           ++ replace (K + Z.of_nat (S j)) with (K + 1 + Z.of_nat j) in * by lia.
              exact (Hpl2 j d v1 Hj Hv1 Hfits).
    + apply post_ret.
      eapply post_mono.
      * apply (IH Hnd Hmon' K my ty s); try lia; try assumption.
        intros d Hd. apply Hsame. right. exact Hd.
      * intros _ s2 (Hf2 & Hmh2 & Hoth2 & Hpl2).
        split; [exact Hf2|]. split; [exact Hmh2|]. split; [|exact Hpl2].
        intros d Hd. apply not_elem_of_cons in Hd as [_ Hd]. apply Hoth2, Hd.
Qed.

Lemma tile_column_full m n i bw :
  0 <= Monitor.nmaster m < 2 ^ 31 ->
  int_range (Monitor.wx m) ->
  0 <= i < n ->
  Monitor.nmaster m = 0 \/ n <= Monitor.nmaster m ->
  tile_column m n i bw = (Monitor.wx m, sint (Monitor.ww m - 2 * bw)).
Proof.
  intros Hnm Hwx Hi Hcase. unfold tile_column, tile_mw.
  rewrite (uint_small (Monitor.nmaster m)) by lia.
  destruct Hcase as [H0|Hle].
  - rewrite H0. destruct (Z.ltb_spec i 0); [lia|]. destruct (Z.ltb_spec 0 n); [|lia].
    cbn [truthy Z.eqb negb]. f_equal.
    + rewrite <- (sint_small (Monitor.wx m)) at 2 by exact Hwx.
      apply sint_eqm32. unfold addu. rewrite !eqm32_uint.
      replace (Monitor.wx m + 0) with (Monitor.wx m) by lia. reflexivity.
    + apply sint_eqm32. unfold subu, muli. rewrite !eqm32_uint, !eqm32_sint.
      replace (Monitor.ww m - 0) with (Monitor.ww m) by lia. reflexivity.
  - destruct (Z.ltb_spec i (Monitor.nmaster m)); [|lia].
    destruct (Z.ltb_spec (Monitor.nmaster m) n); [lia|]. f_equal.
    apply sint_eqm32. unfold subu, muli. rewrite !eqm32_uint, !eqm32_sint. reflexivity.
Qed.

(** C5, as amended. With [n > 0] visible tiled clients on the monitor of
    a linked state none of whose size increments traps: the master width
    [mw] is 0 when [nmaster = 0], the whole width [ww] when
    [n <= nmaster], and [ww * mfact] otherwise; the column [tile] asks for
    the [i]-th tiled client is [x = wx], [w = mw - 2 * bw] for
    [i < nmaster] and [x = wx + mw], [w = ww - mw - 2 * bw] after, which in
    the first two cases is [x = wx], [w = ww - 2 * bw] for every client.
    [tile] returns; in the first two cases its calls of [resize] are one
    per tiled client, in the order of the client list, each for that
    column; and in every case a tiled client has its column stored in [x]
    and [w] afterwards whenever [applysizehints] leaves the column alone
    ([fits]). *)
Theorem tile_master_width_and_columns s mid m :
  linked s -> hints_safe s ->
  Plug.mon_heap s !! mid = Some m ->
  0 <= Monitor.nmaster m < 2 ^ 31 ->
  int_range (Monitor.wx m) ->
  0 < tiled_count s (Monitor.clients m) < 2 ^ 32 ->
  let n := tiled_count s (Monitor.clients m) in
  (Monitor.nmaster m = 0 -> tile_mw m n = 0)
  /\ (n <= Monitor.nmaster m -> tile_mw m n = uint (Monitor.ww m))
  /\ (0 < Monitor.nmaster m < n ->
      tile_mw m n
      = float_to_uint (F32.mul (F32.of_int (Monitor.ww m)) (Monitor.mfact m)))
  /\ (forall i bw,
        tile_column m n i bw
        = if i <? Monitor.nmaster m
          then (Monitor.wx m, sint (tile_mw m n -ᵤ uint (2 *ₛ bw)))
          else (sint (uint (Monitor.wx m) +ᵤ tile_mw m n),
                sint (uint (Monitor.ww m) -ᵤ tile_mw m n -ᵤ uint (2 *ₛ bw))))
  /\ (forall i bw,
        0 <= i < n -> Monitor.nmaster m = 0 \/ n <= Monitor.nmaster m ->
        tile_column m n i bw = (Monitor.wx m, sint (Monitor.ww m - 2 * bw)))
  /\ total (tile cfg mid) s (fun _ s' =>
       (Monitor.nmaster m = 0 \/ n <= Monitor.nmaster m ->
        calls_rel (map (full_width_column m (bw_of s))
                     (List.filter (tiled_pure s) (Monitor.clients m))) s s')
       /\ forall (i : nat) c v,
            List.filter (tiled_pure s) (Monitor.clients m) !! i = Some c ->
            Plug.client_heap s !! c = Some v ->
            fits cfg s v m (fst (tile_column m n (Z.of_nat i) (Client.bw v)))
              (snd (tile_column m n (Z.of_nat i) (Client.bw v))) ->
            client_has c (fun v' =>
              (Client.x v', Client.w v') = tile_column m n (Z.of_nat i) (Client.bw v))
              s').
Proof.
  intros Hlinked Hsafe Hm Hnm Hwx Hn n.
  pose proof (linked_wf _ Hlinked) as Hwf.
  assert (uint (Monitor.nmaster m) = Monitor.nmaster m) as Hu
    by (apply uint_small; lia).
  assert (Monitor.nmaster m = 0 -> tile_mw m n = 0) as H1.
  { intros H0. unfold tile_mw. rewrite Hu, H0.
    destruct (Z.ltb_spec 0 n); [reflexivity | lia]. }
  assert (n <= Monitor.nmaster m -> tile_mw m n = uint (Monitor.ww m)) as H2.
  { intros Hle. unfold tile_mw. rewrite Hu.
    destruct (Z.ltb_spec (Monitor.nmaster m) n); [lia | reflexivity]. }
  split; [exact H1|]. split; [exact H2|]. split.
  { intros Hlt. unfold tile_mw. rewrite Hu.
    destruct (Z.ltb_spec (Monitor.nmaster m) n); [|lia].
    replace (truthy (Monitor.nmaster m)) with true; [reflexivity|].
    symmetry. apply truthy_true. lia. }
  split.
  { intros i bw. unfold tile_column. rewrite Hu. reflexivity. }
  split.
  { intros i bw Hi Hcase. apply tile_column_full; assumption. }
  apply total_intro.
  { apply defined_tile; [exact Hwf | exact Hsafe | eexists; exact Hm]. }
  unfold tile. apply post_bind, post_monitor. intros m' Hm'. simplify_eq.
  apply post_bind. eapply post_mono; [apply (post_count_tiled _ 0 s); lia|].
  intros n' s' [-> ->]. rewrite Z.add_0_l. fold n.
  destruct (Z.eqb_spec n 0) as [Hz|_]; [lia|].
  apply post_bind.
  assert (post (for_tiled (Monitor.clients m) (tile_step cfg m n (tile_mw m n)) (0, 0, 0)) s
            (fun _ s' =>
               Monitor.nmaster m = 0 \/ n <= Monitor.nmaster m ->
               calls_rel (map (full_width_column m (bw_of s))
                            (List.filter (tiled_pure s) (Monitor.clients m))) s s'))
    as Pcalls.
  { intros a s' Hrun Hcase. revert a s' Hrun.
    change (post (for_tiled (Monitor.clients m) (tile_step cfg m n (tile_mw m n))
                    (0, 0, 0)) s
              (fun _ s' =>
                 calls_rel (map (full_width_column m (bw_of s))
                              (List.filter (tiled_pure s) (Monitor.clients m))) s s')).
    eapply post_mono.
    - apply (tile_loop_columns cfg m (bw_of s) Hwx n (tile_mw m n) n s (Monitor.clients m)
               ltac:(lia) 0 0 0 s); try reflexivity; try lia.
      + apply bw_is_bw_of.
      + intros K' HK. unfold column_case. rewrite Hu.
        destruct Hcase as [H0|Hle].
        * right. split; [auto|]. apply Z.ltb_ge. lia.
        * left. split; [auto|]. apply Z.ltb_lt. lia.
    - intros _ s1 [_ Hc]. exact Hc. }
  pose proof Hlinked as (_ & _ & _ & Hlm & _).
  destruct (Hlm mid m Hm) as (Hnd & _ & _ & Hmon & _).
  assert (0 + tiled_count s (Monitor.clients m) < 2 ^ 32) as Hbound by lia.
  pose proof (tile_loop_places mid m n s (Monitor.clients m) Hnd Hmon Hm 0 0 0 s
                ltac:(lia) Hbound ltac:(reflexivity) eq_refl (fun _ _ => eq_refl))
    as Pplaces.
  eapply post_mono; [exact (post_conj _ _ _ _ Pcalls Pplaces)|].
  intros _ s1 [Hcalls (_ & _ & _ & Hplaces)]. apply post_ret. split.
  - intros Hcase. apply Hcalls, Hcase.
  - intros i c v Hi Hv Hfits.
    exact (Hplaces i c v Hi Hv Hfits).
Qed.

End Tile.

Lemma tile_master_width_and_columns_witness :
  tile_mw two_master_monitor 2 = 1920
  /\ total (tile sample_cfg 0%nat) two_master_state (fun _ s' =>
       calls_rel [(1%nat, 0, 1918); (2%nat, 0, 1918)] two_master_state s'
       /\ client_has 1%nat (fun v => (Client.x v, Client.w v) = (0, 1918)) s'
       /\ client_has 2%nat (fun v => (Client.x v, Client.w v) = (0, 1918)) s').
Proof.
  destruct (tile_master_width_and_columns sample_cfg two_master_state 0%nat
              two_master_monitor) as (_ & Hmw & _ & _ & _ & Hrun).
  - apply linkedb_spec. vm_compute. reflexivity.
  - apply hints_safeb_spec. vm_compute. reflexivity.
  - reflexivity.
  - simpl. lia.
  - unfold int_range. simpl. lia.
  - vm_compute. split; reflexivity.
  - split.
    + apply Hmw. vm_compute. discriminate.
    + destruct Hrun as (a & s' & Hs & Hc & Hp). exists a, s'. split; [exact Hs|].
      split; [apply Hc; right; vm_compute; discriminate|].
      split.
      * apply (Hp 0%nat 1%nat (sample_client 101 0 20 958 1058 0));
          [reflexivity | reflexivity |].
        change (fits sample_cfg two_master_state (sample_client 101 0 20 958 1058 0)
                  two_master_monitor 0 1918).
        unfold fits, in_bounds. cbn. repeat (split; [lia|]). left. reflexivity.
      * apply (Hp 1%nat 2%nat (sample_client 102 960 20 958 1058 0));
          [reflexivity | reflexivity |].
        change (fits sample_cfg two_master_state (sample_client 102 960 20 958 1058 0)
                  two_master_monitor 0 1918).
        unfold fits, in_bounds. cbn. repeat (split; [lia|]). left. reflexivity.
Defined.

(** The column itself need not be what a tiled client stores: with
    [resizehints] on, [applysizehints] cuts the width [ww - 2 * bw = 1918]
    asked for client 1 down to its maximum width of 800. *)
Lemma tile_column_counterexample :
  tile_column two_master_monitor 2 0 1 = (0, 1918)
  /\ exists s',
       tile hinting_cfg 0%nat max_width_state = Some (tt, s')
       /\ client_has 1%nat (fun v => (Client.x v, Client.w v) = (0, 800)) s'.
Proof.
  split; [vm_compute; reflexivity|].
  eexists. split; [vm_compute; reflexivity|].
  eexists. split; [vm_compute; reflexivity | reflexivity].
Qed.

(** ** Rules *)

Lemma append_cons a (s t : string) : (String a s ++ t)%string = String a (s ++ t)%string.
Proof. reflexivity. Qed.

Lemma append_nil (t : string) : (EmptyString ++ t)%string = t.
Proof. reflexivity. Qed.

Lemma prefix_spec p : forall t,
  String.prefix p t = true <-> exists post, t = (p ++ post)%string.
Proof.
  induction p as [|a p IH]; intros t.
  - split; [intros _; exists t; reflexivity | intros _; destruct t; reflexivity].
  - destruct t as [|b t]; cbn [String.prefix].
    + split; [discriminate | intros [post H]; discriminate].
    + destruct (Ascii.ascii_dec a b) as [->|Hne].
      * rewrite IH. split; intros [post H]; exists post;
          rewrite append_cons in *; congruence.
      * split; [discriminate | intros [post H]; rewrite append_cons in H; congruence].
Qed.

Lemma strstr_spec t : forall p, strstr t p = true <-> is_substring p t.
Proof.
  unfold is_substring. induction t as [|a t IH]; intros p.
  - cbn [strstr]. destruct (String.prefix p "") eqn:E.
    + split; [|reflexivity]. intros _. apply prefix_spec in E as [post E].
      exists ""%string, post. exact E.
    + split; [discriminate|]. intros (pre & post & H).
      destruct pre; [|discriminate]. rewrite append_nil in H.
      assert (String.prefix p "" = true) by (apply prefix_spec; eauto). congruence.
  - cbn [strstr]. destruct (String.prefix p (String a t)) eqn:E.
    + split; [|reflexivity]. intros _. apply prefix_spec in E as [post E].
      exists ""%string, post. exact E.
    + rewrite IH. split.
      * intros (pre & post & ->). exists (String a pre), post. reflexivity.
      * intros (pre & post & H). destruct pre as [|b pre].
        -- rewrite append_nil in H. assert (String.prefix p (String a t) = true)
             by (apply prefix_spec; eauto). congruence.
        -- rewrite append_cons in H. injection H as _ ->. eauto.
Qed.

Lemma pattern_matches_spec p t :
  pattern_matches p t = true <-> (forall q, p = Some q -> is_substring q t).
Proof.
  destruct p as [q|]; simpl.
  - rewrite strstr_spec. split; [intros H q' [= <-]; exact H | auto].
  - split; [discriminate | reflexivity].
Qed.

Lemma rule_matches_spec r class instance title :
  pattern_matches (r_title r) title && pattern_matches (r_class r) class
  && pattern_matches (r_instance r) instance = true
  <-> spec_rule_matches r class instance title.
Proof.
  unfold spec_rule_matches. rewrite !andb_true_iff, !pattern_matches_spec. tauto.
Qed.

Lemma monitor_numbered_run n s : forall ms,
  (forall m, m ∈ ms -> valid_monitor s m) ->
  monitor_numbered n ms s
  = Some (List.find (fun mid => match Plug.mon_heap s !! mid with
                                | Some m => Monitor.num m =? n
                                | None => false
                                end) ms, s).
Proof.
  induction ms as [|mid ms IH]; intros Hvalid; [reflexivity|].
  destruct (Hvalid mid) as [m Hm]; [left|].
  cbn [monitor_numbered List.find].
  rewrite (bind_step _ _ _ _ _ (run_monitor _ _ _ Hm)). rewrite Hm.
  destruct (Monitor.num m =? n); [reflexivity|].
  apply IH. intros m' Hm'. apply Hvalid. right. exact Hm'.
Qed.

Section Rules.

Variable cfg : Config.

(** The loop of [applyrules] over the rules from [l] on. *)
Lemma applyrules_loop c class instance title s0 : forall l s1 v1,
  Plug.client_heap s1 !! c = Some v1 ->
  Plug.mon_heap s1 = Plug.mon_heap s0 ->
  Plug.mons s1 = Plug.mons s0 ->
  (forall m, m ∈ Plug.mons s0 -> valid_monitor s0 m) ->
  exists s2 v2,
    forM l
      (fun r =>
         when (pattern_matches (r_title r) title
               && pattern_matches (r_class r) class
               && pattern_matches (r_instance r) instance)
           (upd_client c (fun v =>
              Client.set_tags (Z.lor (Client.tags v) (r_tags r))
                (Client.set_isfloating (r_isfloating r) v));;
            ms ← gets Plug.mons;
            m ← monitor_numbered (r_monitor r) ms;
            match m with
            | Some mid => upd_client c (Client.set_mon mid)
            | None => mret tt
            end)) s1 = Some (tt, s2)
    /\ Plug.client_heap s2 !! c = Some v2
    /\ Plug.mon_heap s2 = Plug.mon_heap s0
    /\ Plug.mons s2 = Plug.mons s0
    /\ Plug.xlog s2 = Plug.xlog s1
    /\ spec_rules s0 class instance title l
         (Client.tags v1, Client.isfloating v1, Client.mon v1)
         (Client.tags v2, Client.isfloating v2, Client.mon v2).
Proof.
  induction l as [|r l IH]; intros s1 v1 Hv1 Hheap Hmons Hvalid.
  - exists s1, v1. repeat split; try assumption. constructor.
  - cbn [forM].
    destruct (pattern_matches (r_title r) title && pattern_matches (r_class r) class
              && pattern_matches (r_instance r) instance) eqn:Ematch.
    + apply rule_matches_spec in Ematch.
      set (v1' := Client.set_tags (Z.lor (Client.tags v1) (r_tags r))
                    (Client.set_isfloating (r_isfloating r) v1)).
      set (s1' := Plug.set_client_heap (<[c := v1']> (Plug.client_heap s1)) s1).
      assert (forall m, m ∈ Plug.mons s1' -> valid_monitor s1' m) as Hvalid'.
      { intros m Hin. unfold valid_monitor. change (Plug.mon_heap s1') with (Plug.mon_heap s1).
        rewrite Hheap. apply Hvalid. change (Plug.mons s1') with (Plug.mons s1) in Hin.
        rewrite <- Hmons. exact Hin. }
      pose proof (monitor_numbered_run (r_monitor r) s1' (Plug.mons s1') Hvalid') as Hnum.
      change (Plug.mon_heap s1') with (Plug.mon_heap s1) in Hnum.
      change (Plug.mons s1') with (Plug.mons s1) in Hnum at 2.
      rewrite Hheap, Hmons in Hnum. fold (spec_monitor_indexed s0 (r_monitor r)) in Hnum.
      destruct (spec_monitor_indexed s0 (r_monitor r)) as [mid|] eqn:Efind.
      * set (v2 := Client.set_mon mid v1').
        set (s2 := Plug.set_client_heap (<[c := v2]> (Plug.client_heap s1')) s1').
        destruct (IH s2 v2) as (s3 & v3 & Hrun & Hv3 & Hh3 & Hm3 & Hl3 & Hspec);
          [apply lookup_insert_eq | exact Hheap | exact Hmons | exact Hvalid |].
        exists s3, v3. split; [|split; [exact Hv3|split; [exact Hh3|split; [exact Hm3|split]]]].
        -- rewrite (bind_step _ _ s1 tt s2); [exact Hrun|]. unfold when.
           rewrite (bind_step _ _ _ _ _ (run_upd_client _ _ _ _ Hv1)).
           rewrite (bind_step _ _ s1' (Plug.mons s1') s1') by reflexivity.
           rewrite (bind_step _ _ _ _ _ Hnum).
           apply run_upd_client, lookup_insert_eq.
        -- rewrite Hl3. reflexivity.
        -- apply spec_rules_match; [exact Ematch|]. rewrite Efind. exact Hspec.
      * destruct (IH s1' v1') as (s3 & v3 & Hrun & Hv3 & Hh3 & Hm3 & Hl3 & Hspec);
          [apply lookup_insert_eq | exact Hheap | exact Hmons | exact Hvalid |].
        exists s3, v3. split; [|split; [exact Hv3|split; [exact Hh3|split; [exact Hm3|split]]]].
        -- rewrite (bind_step _ _ s1 tt s1'); [exact Hrun|]. unfold when.
           rewrite (bind_step _ _ _ _ _ (run_upd_client _ _ _ _ Hv1)).
           rewrite (bind_step _ _ s1' (Plug.mons s1') s1') by reflexivity.
           rewrite (bind_step _ _ _ _ _ Hnum). reflexivity.
        -- rewrite Hl3. reflexivity.
        -- apply spec_rules_match; [exact Ematch|]. rewrite Efind. exact Hspec.
    + assert (~ spec_rule_matches r class instance title) as Hno.
      { rewrite <- rule_matches_spec. rewrite Ematch. discriminate. }
      destruct (IH s1 v1 Hv1 Hheap Hmons Hvalid) as (s3 & v3 & Hrun & Hrest).
      exists s3, v3. split; [|destruct Hrest as (? & ? & ? & ? & ?); auto 10 using spec_rules_skip].
      rewrite (bind_step _ _ s1 tt s1); [exact Hrun | reflexivity].
Qed.

Lemma spec_monitor_indexed_valid s n mid :
  spec_monitor_indexed s n = Some mid -> valid_monitor s mid.
Proof.
  unfold spec_monitor_indexed, valid_monitor. intros H.
  apply List.find_some in H as [_ H].
  destruct (Plug.mon_heap s !! mid); [eauto | discriminate].
Qed.

Lemma spec_rules_valid s class instance title l a b :
  spec_rules s class instance title l a b ->
  valid_monitor s (snd a) -> valid_monitor s (snd b).
Proof.
  induction 1 as [acc | r rs tags fl mon acc Hmatch Hrest IH | r rs acc acc' Hno Hrest IH];
    intros Hvalid; [exact Hvalid | | exact (IH Hvalid)].
  apply IH. cbn [snd] in *.
  destruct (spec_monitor_indexed s (r_monitor r)) as [mid|] eqn:E; [|exact Hvalid].
  exact (spec_monitor_indexed_valid s _ mid E).
Qed.

(** C6. [applyrules] returns, and leaves in the client what the rules
    give in the words above, from no tags, not floating and the monitor
    the client is on: the floating flag and the monitor they end with, and
    for the tags, those within the tag count if there is one, the selected
    tagset of that monitor otherwise.  The class and the instance are those
    of the class hint, [broken] where it has none; the title is the name of
    the client.  The monitors themselves are left as they are. *)
Theorem applyrules_refines c s v :
  wf s ->
  Plug.client_heap s !! c = Some v ->
  let ch := XGetClassHint (Plug.xsrv s) (Client.win v) in
  let class := from_option id (Plug.broken s) (snd ch) in
  let instance := from_option id (Plug.broken s) (fst ch) in
  total (applyrules cfg c) s (fun _ s' =>
    exists tags fl mon mv,
      spec_rules s class instance (Client.name v) (rules cfg)
        (0, 0, Client.mon v) (tags, fl, mon)
      /\ Plug.mon_heap s !! mon = Some mv
      /\ Plug.mon_heap s' = Plug.mon_heap s
      /\ client_has c (fun v' =>
           Client.isfloating v' = fl /\ Client.mon v' = mon
           /\ (Z.land tags (TAGMASK cfg) <> 0 ->
               Client.tags v' = Z.land tags (TAGMASK cfg))
           /\ (Z.land tags (TAGMASK cfg) = 0 ->
               Client.tags v' = tagset mv (Monitor.seltags mv))) s').
Proof.
  intros Hwf Hv ch class instance. unfold total, applyrules.
  set (v1 := Client.set_tags 0 (Client.set_isfloating 0 v)).
  set (s1 := Plug.set_client_heap (<[c := v1]> (Plug.client_heap s)) s).
  rewrite (bind_step _ _ _ _ _ (run_upd_client _ _ _ _ Hv)). fold v1 s1.
  assert (Plug.client_heap s1 !! c = Some v1) as Hv1 by apply lookup_insert_eq.
  rewrite (bind_step _ _ _ _ _ (run_client _ _ _ Hv1)).
  rewrite (bind_step _ _ s1 (Plug.xsrv s) s1) by reflexivity.
  rewrite (bind_step _ _ s1 (Plug.broken s) s1) by reflexivity.
  change (Client.win v1) with (Client.win v). change (Client.name v1) with (Client.name v).
  fold ch class instance.
  destruct (applyrules_loop c class instance (Client.name v) s (rules cfg) s1 v1 Hv1)
    as (s2 & v2 & Hrun & Hv2 & Hh2 & Hm2 & _ & Hspec);
    [reflexivity | reflexivity | apply Hwf |].
  rewrite (bind_step _ _ _ _ _ Hrun).
  rewrite (bind_step _ _ _ _ _ (run_client _ _ _ Hv2)).
  change (Client.tags v1, Client.isfloating v1, Client.mon v1)
    with (0, 0, Client.mon v) in Hspec.
  destruct (spec_rules_valid _ _ _ _ _ _ _ Hspec) as [mv Hmv].
  { eapply wf_client_monitor; eassumption. }
  cbn [snd] in Hmv. unfold truthy.
  destruct (Z.eqb_spec (Z.land (Client.tags v2) (TAGMASK cfg)) 0) as [Hz|Hnz]; cbn [negb].
  - rewrite <- Hh2 in Hmv.
    rewrite (bind_step _ _ _ _ _ (run_monitor _ _ _ Hmv)).
    rewrite (run_upd_client _ _ _ _ Hv2). do 2 eexists. split; [reflexivity|].
    exists (Client.tags v2), (Client.isfloating v2), (Client.mon v2), mv.
    split; [exact Hspec|]. split; [rewrite <- Hh2; exact Hmv|]. split; [exact Hh2|].
    eexists. split; [apply lookup_insert_eq|].
    split; [reflexivity|]. split; [reflexivity|]. split; [intros; contradiction | reflexivity].
  - rewrite (run_upd_client _ _ _ _ Hv2). do 2 eexists. split; [reflexivity|].
    exists (Client.tags v2), (Client.isfloating v2), (Client.mon v2), mv.
    split; [exact Hspec|]. split; [exact Hmv|]. split; [exact Hh2|].
    eexists. split; [apply lookup_insert_eq|].
    split; [reflexivity|]. split; [reflexivity|]. split; [reflexivity | intros; contradiction].
Qed.

End Rules.

Lemma applyrules_refines_witness :
  total (applyrules gimp_cfg 1%nat) gimp_state (fun _ s' =>
    exists tags fl mon mv,
      spec_rules gimp_state "Gimp" "gimp" "xterm" (rules gimp_cfg)
        (0, 0, 0%nat) (tags, fl, mon)
      /\ Plug.mon_heap gimp_state !! mon = Some mv
      /\ Plug.mon_heap s' = Plug.mon_heap gimp_state
      /\ client_has 1%nat (fun v' =>
           Client.isfloating v' = fl /\ Client.mon v' = mon
           /\ (Z.land tags (TAGMASK gimp_cfg) <> 0 ->
               Client.tags v' = Z.land tags (TAGMASK gimp_cfg))
           /\ (Z.land tags (TAGMASK gimp_cfg) = 0 ->
               Client.tags v' = tagset mv (Monitor.seltags mv))) s').
Proof.
  apply (applyrules_refines gimp_cfg 1%nat gimp_state (sample_client 101 0 20 958 1058 0)).
  - apply wfb_spec. vm_compute. reflexivity.
  - vm_compute. reflexivity.
Defined.

(** The rule for Gimp on a window of that class: tag 4, floating, and
    the monitor the client is on. *)
Lemma applyrules_gimp :
  exists s', applyrules gimp_cfg 1%nat gimp_state = Some (tt, s')
    /\ client_has 1%nat (fun v => Client.tags v = 8 /\ Client.isfloating v = 1
                                  /\ Client.mon v = 0%nat) s'.
Proof.
  eexists. split; [vm_compute; reflexivity|].
  eexists. split; [vm_compute; reflexivity|]. repeat split.
Qed.

(** * Further properties of the code *)

(** ** Runs that leave the monitors alone *)

#[global] Instance still_preorder : PreOrder still.
Proof.
  split.
  - intros s. split; [reflexivity | split; [|split]; reflexivity].
  - intros s1 s2 s3 (Hf1 & Hm1 & Hs1 & Hh1) (Hf2 & Hm2 & Hs2 & Hh2).
    split; [etransitivity; eassumption | split; [|split]];
      [congruence | congruence | etransitivity; eassumption].
Qed.

Lemma still_emit e : preserves still (emit e).
Proof.
  apply preserves_emit; tc_solve. intros s.
  split; [repeat split|]. split; [reflexivity|]. split; [reflexivity|].
  apply hinted_same; reflexivity.
Qed.

Lemma still_upd_client s c v v' :
  Plug.client_heap s !! c = Some v ->
  client_core v' = client_core v ->
  hint_key (Plug.xsrv s) v' = hint_key (Plug.xsrv s) v ->
  still s (Plug.set_client_heap (<[c := v']> (Plug.client_heap s)) s).
Proof.
  intros Hv Hc Hk. split; [eapply frame_upd_client; eassumption|].
  split; [reflexivity|]. split; [reflexivity|].
  eapply hinted_upd_client; eassumption.
Qed.

Lemma still_hinted {A} (m : M A) : preserves still m -> preserves hinted m.
Proof. intros H s a s' Hrun. exact (proj2 (proj2 (proj2 (H s a s' Hrun)))). Qed.

Lemma hints_safe_still s s' : still s s' -> hints_safe s -> hints_safe s'.
Proof. intros (_ & _ & _ & Hh). apply hints_safe_hinted, Hh. Qed.

Lemma still_frame {A} (m : M A) : preserves still m -> preserves frame m.
Proof. intros H s a s' Hrun. exact (proj1 (H s a s' Hrun)). Qed.

Lemma still_shape s s' : still s s' -> shape s s'.
Proof.
  intros ((Hc & _ & Hp) & Hm & Hs & _). repeat split.
  - intros c. specialize (Hc c).
    destruct (Plug.client_heap s' !! c) as [v'|], (Plug.client_heap s !! c) as [v|];
      simpl in *; try discriminate; [|reflexivity].
    f_equal. apply mon_core. congruence.
  - intros m. rewrite Hm. reflexivity.
  - unfold plug_core in Hp. congruence.
  - exact Hs.
Qed.

Create HintDb stills discriminated.
#[global] Hint Resolve still_emit : stills.

Ltac still_step :=
  lazymatch goal with
  | |- preserves still (upd_client _ _) =>
      apply preserves_upd_client; tc_solve; intros ? ? ?;
      eapply still_upd_client;
      [eassumption | reflexivity | apply hint_key_fields; reflexivity]
  | |- preserves still _ => first [pres_step | solve [auto with stills]]
  end.

Ltac still_pres := repeat still_step.

Section Still.

Variable cfg : Config.

Lemma still_applysizehints c x y w h i : preserves still (applysizehints cfg c x y w h i).
Proof.
  intros s r s' [->|(v & Hv & E & ->)]%applysizehints_state; [reflexivity|].
  eapply still_upd_client;
    [exact Hv | apply frame_sizehints_of | apply hint_key_sizehints_of, E].
Qed.
#[local] Hint Resolve still_applysizehints : stills.

Lemma still_configure c : preserves still (configure c).
Proof. unfold configure. still_pres. Qed.
#[local] Hint Resolve still_configure : stills.

Lemma still_resizeclient c x y w h : preserves still (resizeclient c x y w h).
Proof. unfold resizeclient. still_pres. Qed.
#[local] Hint Resolve still_resizeclient : stills.

Lemma still_resize c x y w h i : preserves still (resize cfg c x y w h i).
Proof. unfold resize. still_pres. Qed.
#[local] Hint Resolve still_resize : stills.

Lemma still_ISVISIBLE c : preserves still (ISVISIBLE c).
Proof. unfold ISVISIBLE. still_pres. Qed.
#[local] Hint Resolve still_ISVISIBLE : stills.

Lemma still_updatenumlockmask : preserves still updatenumlockmask.
Proof.
  unfold updatenumlockmask. still_pres.
  apply preserves_modify; tc_solve. intros s.
  split; [repeat split|]. split; [reflexivity|]. split; [reflexivity|].
  apply hinted_same; reflexivity.
Qed.
#[local] Hint Resolve still_updatenumlockmask : stills.

Lemma still_grabbuttons c f : preserves still (grabbuttons c f).
Proof. unfold grabbuttons. still_pres. Qed.
#[local] Hint Resolve still_grabbuttons : stills.

Lemma still_unfocus c f : preserves still (unfocus c f).
Proof. unfold unfocus. still_pres. Qed.
#[local] Hint Resolve still_unfocus : stills.

Lemma still_seturgent c u : preserves still (seturgent c u).
Proof. unfold seturgent. still_pres. Qed.
#[local] Hint Resolve still_seturgent : stills.

Lemma still_first_visible l : preserves still (first_visible l).
Proof. induction l as [|c l IH]; simpl; still_pres. Qed.
#[local] Hint Resolve still_first_visible : stills.

Lemma still_sendevent c p : preserves still (sendevent c p).
Proof. unfold sendevent. still_pres. Qed.
#[local] Hint Resolve still_sendevent : stills.

Lemma still_setfocus c : preserves still (setfocus c).
Proof. unfold setfocus. still_pres. Qed.
#[local] Hint Resolve still_setfocus : stills.

Lemma still_setclientstate c st : preserves still (setclientstate c st).
Proof. unfold setclientstate. still_pres. Qed.
#[local] Hint Resolve still_setclientstate : stills.

Lemma still_drawbar m : preserves still (drawbar m).
Proof. unfold drawbar. still_pres. Qed.
#[local] Hint Resolve still_drawbar : stills.

Lemma still_drawbars : preserves still drawbars.
Proof. unfold drawbars. still_pres. Qed.
#[local] Hint Resolve still_drawbars : stills.

Lemma still_restack m : preserves still (restack m).
Proof. unfold restack. still_pres. Qed.
#[local] Hint Resolve still_restack : stills.

Lemma still_showhide l : preserves still (showhide cfg l).
Proof. induction l as [|c l IH]; simpl; still_pres. Qed.
#[local] Hint Resolve still_showhide : stills.

Lemma still_wintoclient w : preserves still (wintoclient w).
Proof. unfold wintoclient. still_pres. Qed.
#[local] Hint Resolve still_wintoclient : stills.

End Still.

#[global] Hint Resolve still_applysizehints still_configure
  still_resizeclient still_resize still_ISVISIBLE still_updatenumlockmask
  still_grabbuttons still_unfocus still_seturgent still_first_visible
  still_sendevent still_setfocus still_setclientstate still_drawbar still_drawbars
  still_restack still_showhide still_wintoclient : stills.

(** ** Runs that keep a well-formed state well-formed *)

#[global] Instance sound_preorder : PreOrder sound.
Proof.
  split.
  - intros s. split; [auto | split; auto].
  - intros s1 s2 s3 (Hw1 & Hc1 & Hm1) (Hw2 & Hc2 & Hm2).
    split; [auto | split; [intros c Hc; auto | intros m Hm; auto]].
Qed.

Lemma shape_sound s s' : shape s s' -> sound s s'.
Proof.
  intros Hs. split; [|split].
  - intros Hwf. eapply wf_shape; eassumption.
  - intros c. apply shape_valid_client, Hs.
  - intros m. apply shape_valid_monitor, Hs.
Qed.

Lemma preserves_shape_sound {A} (m : M A) : preserves shape m -> preserves sound m.
Proof. intros H s a s' Hrun. apply shape_sound. eapply H, Hrun. Qed.

Lemma preserves_still_shape {A} (m : M A) : preserves still m -> preserves shape m.
Proof. intros H s a s' Hrun. apply still_shape. eapply H, Hrun. Qed.

(** Writing a monitor whose pointers are valid. *)
Lemma wf_upd_monitor s m mv mv' :
  wf s -> Plug.mon_heap s !! m = Some mv ->
  valid_clients s (Monitor.clients mv') -> valid_clients s (Monitor.stack mv') ->
  valid_pointer s (Monitor.sel mv') ->
  wf (Plug.set_mon_heap (<[m := mv']> (Plug.mon_heap s)) s).
Proof.
  intros (W1 & W2 & W3 & W4) Hm Hc Hst Hse.
  assert (forall d, valid_monitor s d ->
            valid_monitor (Plug.set_mon_heap (<[m := mv']> (Plug.mon_heap s)) s) d) as Hvm.
  { intros d [dv Hd]. unfold valid_monitor. cbn.
    destruct (decide (m = d)) as [<-|Hne];
      [rewrite lookup_insert_eq | rewrite lookup_insert_ne by assumption]; eauto. }
  split; [|split; [|split]].
  - intros c v Hv. apply Hvm. eapply W1, Hv.
  - intros d dv Hd. cbn in Hd. destruct (decide (m = d)) as [<-|Hne].
    + rewrite lookup_insert_eq in Hd. injection Hd as <-. auto.
    + rewrite lookup_insert_ne in Hd by assumption. apply (W2 d dv Hd).
  - intros d Hd. apply Hvm, W3, Hd.
  - apply Hvm, W4.
Qed.

Lemma sound_upd_monitor s m mv mv' :
  Plug.mon_heap s !! m = Some mv ->
  (wf s -> valid_clients s (Monitor.clients mv') /\ valid_clients s (Monitor.stack mv')
           /\ valid_pointer s (Monitor.sel mv')) ->
  sound s (Plug.set_mon_heap (<[m := mv']> (Plug.mon_heap s)) s).
Proof.
  intros Hm Hv. split; [|split].
  - intros Hwf. destruct (Hv Hwf) as (? & ? & ?). eapply wf_upd_monitor; eassumption.
  - intros c Hc. exact Hc.
  - intros d [dv Hd]. unfold valid_monitor. cbn.
    destruct (decide (m = d)) as [<-|Hne];
      [rewrite lookup_insert_eq | rewrite lookup_insert_ne by assumption]; eauto.
Qed.

Lemma unlink_subseteq c l d : d ∈ unlink c l -> d ∈ l.
Proof.
  induction l as [|e l IH]; simpl; [trivial|].
  destruct (decide (e = c)) as [->|Hne]; intros H.
  - right. exact H.
  - apply elem_of_cons in H as [->|H]; [left | right; auto].
Qed.

(** [ISVISIBLE] and the searches for a visible client read the state. *)
Lemma ISVISIBLE_run s c :
  wf s -> valid_client s c -> ISVISIBLE c s = Some (visible_in s c, s).
Proof.
  intros Hwf [v Hv]. destruct (wf_client_monitor _ _ _ Hwf Hv) as [m Hm].
  unfold ISVISIBLE, visible_in.
  rewrite (bind_step _ _ _ _ _ (run_client _ _ _ Hv)).
  rewrite (bind_step _ _ _ _ _ (run_monitor _ _ _ Hm)).
  rewrite Hv, Hm. reflexivity.
Qed.

Lemma first_visible_run s l :
  wf s -> valid_clients s l -> first_visible l s = Some (List.find (visible_in s) l, s).
Proof.
  intros Hwf. induction l as [|c l IH]; intros Hl; [reflexivity|].
  apply valid_clients_cons in Hl as [Hc Hl]. cbn [first_visible List.find].
  rewrite (bind_step _ _ _ _ _ (ISVISIBLE_run s c Hwf Hc)).
  destruct (visible_in s c); [reflexivity | apply IH, Hl].
Qed.

Lemma find_elem_of {A} (p : A -> bool) l x : List.find p l = Some x -> x ∈ l /\ p x = true.
Proof. intros H. apply List.find_some in H as [H1 H2]. split; [apply list_elem_of_In, H1 | exact H2]. Qed.

Lemma post_of_run {A} (m : M A) s a s' (Q : A -> Plug.t -> Prop) :
  m s = Some (a, s') -> Q a s' -> post m s Q.
Proof. intros H HQ a' s'' H'. rewrite H in H'. injection H' as <- <-. exact HQ. Qed.

(** The surgery on the lists. *)
Lemma sound_attachstack c : preserves sound (attachstack c).
Proof.
  apply preserves_post. intros s. unfold attachstack.
  apply post_bind, post_client. intros v Hv.
  apply post_upd_monitor. intros mv Hmv.
  eapply sound_upd_monitor; [exact Hmv|]. intros Hwf. cbn. split; [|split].
  - eapply wf_monitor_clients; eassumption.
  - intros d Hd. apply elem_of_cons in Hd as [->|Hd]; [eexists; exact Hv|].
    eapply wf_monitor_stack; eassumption.
  - eapply wf_monitor_sel; eassumption.
Qed.

Lemma sound_attach c : preserves sound (attach c).
Proof.
  apply preserves_post. intros s. unfold attach.
  apply post_bind, post_client. intros v Hv.
  apply post_upd_monitor. intros mv Hmv.
  eapply sound_upd_monitor; [exact Hmv|]. intros Hwf. cbn. split; [|split].
  - intros d Hd. apply elem_of_cons in Hd as [->|Hd]; [eexists; exact Hv|].
    eapply wf_monitor_clients; eassumption.
  - eapply wf_monitor_stack; eassumption.
  - eapply wf_monitor_sel; eassumption.
Qed.

Lemma sound_detach c : preserves sound (detach c).
Proof.
  apply preserves_post. intros s. unfold detach.
  apply post_bind, post_client. intros v Hv.
  apply post_upd_monitor. intros mv Hmv.
  eapply sound_upd_monitor; [exact Hmv|]. intros Hwf. cbn. split; [|split].
  - intros d Hd. apply unlink_subseteq in Hd.
    eapply wf_monitor_clients; eassumption.
  - eapply wf_monitor_stack; eassumption.
  - eapply wf_monitor_sel; eassumption.
Qed.


Lemma post_ISVISIBLE c s (Q : bool -> Plug.t -> Prop) :
  Q (visible_in s c) s -> post (ISVISIBLE c) s Q.
Proof.
  intros H. unfold ISVISIBLE. apply post_bind, post_client. intros v Hv.
  apply post_bind, post_monitor. intros m Hm. apply post_ret.
  unfold visible_in in H. rewrite Hv, Hm in H. exact H.
Qed.

Lemma post_first_visible l s (Q : option CId -> Plug.t -> Prop) :
  Q (List.find (visible_in s) l) s -> post (first_visible l) s Q.
Proof.
  induction l as [|c l IH]; intros H; cbn [first_visible].
  - apply post_ret. exact H.
  - apply post_bind, post_ISVISIBLE. cbn [List.find] in H.
    destruct (visible_in s c); [apply post_ret | apply IH]; exact H.
Qed.

(** Visibility depends on the frame only. *)
Lemma frame_client_None s s' c :
  frame s s' -> Plug.client_heap s' !! c = None -> Plug.client_heap s !! c = None.
Proof.
  intros (Hc & _) H. specialize (Hc c). rewrite H in Hc.
  destruct (Plug.client_heap s !! c); [discriminate | reflexivity].
Qed.

Lemma frame_monitor_None s s' m :
  frame s s' -> Plug.mon_heap s' !! m = None -> Plug.mon_heap s !! m = None.
Proof.
  intros (_ & Hm & _) H. specialize (Hm m). rewrite H in Hm.
  destruct (Plug.mon_heap s !! m); [discriminate | reflexivity].
Qed.

Lemma visible_core v v' m m' :
  client_core v' = client_core v -> monitor_core m' = monitor_core m ->
  visible v' m' = visible v m.
Proof.
  unfold client_core, monitor_core, visible, tagset. intros Hc Hm.
  injection Hc as _ _ _ _ _ -> _. injection Hm as -> -> -> _. reflexivity.
Qed.

Lemma visible_in_frame s s' c : frame s s' -> visible_in s' c = visible_in s c.
Proof.
  intros Hf. unfold visible_in.
  destruct (Plug.client_heap s' !! c) as [v'|] eqn:Ev'.
  - destruct (frame_client_inv _ _ _ _ Hf Ev') as (v & -> & Hc).
    rewrite (mon_core _ _ Hc).
    destruct (Plug.mon_heap s' !! Client.mon v) as [m'|] eqn:Em'.
    + destruct (frame_monitor_inv _ _ _ _ Hf Em') as (m & -> & Hm).
      apply visible_core; assumption.
    + rewrite (frame_monitor_None _ _ _ Hf Em'). reflexivity.
  - rewrite (frame_client_None _ _ _ Hf Ev'). reflexivity.
Qed.

Lemma find_ext_in {A} (p q : A -> bool) l :
  (forall x, p x = q x) -> List.find p l = List.find q l.
Proof. intros H. induction l as [|x l IH]; simpl; [reflexivity|]. rewrite H, IH. reflexivity. Qed.

Lemma frame_upd_monitor_state s m v v' :
  Plug.mon_heap s !! m = Some v -> monitor_core v' = monitor_core v ->
  frame s (Plug.set_mon_heap (<[m := v']> (Plug.mon_heap s)) s).
Proof. apply frame_upd_monitor. Qed.

Lemma post_detachstack c s (Q : unit -> Plug.t -> Prop) :
  (forall v mv, Plug.client_heap s !! c = Some v ->
     Plug.mon_heap s !! Client.mon v = Some mv ->
     Q tt (Plug.set_mon_heap
             (<[Client.mon v := detachstack_monitor s c mv]> (Plug.mon_heap s)) s)) ->
  post (detachstack c) s Q.
Proof.
  intros H. unfold detachstack.
  apply post_bind, post_client. intros v Hv.
  apply post_bind, post_upd_monitor. intros mv Hmv.
  set (mv1 := Monitor.set_stack (unlink c (Monitor.stack mv)) mv).
  set (s1 := Plug.set_mon_heap (<[Client.mon v := mv1]> (Plug.mon_heap s)) s).
  apply post_bind, post_monitor. intros mv1' Hmv1.
  unfold s1 in Hmv1. cbn in Hmv1. rewrite lookup_insert_eq in Hmv1. injection Hmv1 as <-.
  specialize (H v mv Hv Hmv). unfold detachstack_monitor in H. fold mv1 in H.
  change (Monitor.sel mv1) with (Monitor.sel mv).
  destruct (bool_decide (Monitor.sel mv = Some c)); cbn [when].
  - apply post_bind, post_first_visible. apply post_upd_monitor. intros mv2 Hmv2.
    unfold s1 in Hmv2. cbn in Hmv2. rewrite lookup_insert_eq in Hmv2. injection Hmv2 as <-.
    unfold s1. cbn. rewrite insert_insert_eq.
    assert (frame s s1) as Hf by (eapply frame_upd_monitor; [exact Hmv | reflexivity]).
    rewrite (find_ext_in _ (visible_in s)) by (intros x; apply visible_in_frame, Hf).
    exact H.
  - apply post_ret. exact H.
Qed.

Lemma sound_detachstack c : preserves sound (detachstack c).
Proof.
  apply preserves_post. intros s. apply post_detachstack. intros v mv Hv Hmv.
  eapply sound_upd_monitor; [exact Hmv|]. intros Hwf.
  assert (valid_clients s (unlink c (Monitor.stack mv))) as Hst.
  { intros d Hd. apply unlink_subseteq in Hd. eapply wf_monitor_stack; eassumption. }
  unfold detachstack_monitor. destruct (bool_decide (Monitor.sel mv = Some c)); cbn.
  - split; [eapply wf_monitor_clients; eassumption|]. split; [exact Hst|].
    intros d Hd. apply find_elem_of in Hd as [Hd _]. apply Hst, Hd.
  - split; [eapply wf_monitor_clients; eassumption|]. split; [exact Hst|].
    eapply wf_monitor_sel; eassumption.
Qed.

Create HintDb sounds discriminated.
#[global] Hint Resolve sound_attachstack sound_attach sound_detach sound_detachstack : sounds.

(** The shape of the state under the functions that leave the monitors alone. *)
Section StillShape.

Variable cfg : Config.

Lemma shape_updatenumlockmask : preserves shape updatenumlockmask.
Proof. apply preserves_still_shape, still_updatenumlockmask. Qed.

Lemma shape_grabbuttons c f : preserves shape (grabbuttons c f).
Proof. apply preserves_still_shape, still_grabbuttons. Qed.

Lemma shape_unfocus c f : preserves shape (unfocus c f).
Proof. apply preserves_still_shape, still_unfocus. Qed.

Lemma shape_seturgent c u : preserves shape (seturgent c u).
Proof. apply preserves_still_shape, still_seturgent. Qed.

Lemma shape_first_visible l : preserves shape (first_visible l).
Proof. apply preserves_still_shape, still_first_visible. Qed.

Lemma shape_sendevent c p : preserves shape (sendevent c p).
Proof. apply preserves_still_shape, still_sendevent. Qed.

Lemma shape_setfocus c : preserves shape (setfocus c).
Proof. apply preserves_still_shape, still_setfocus. Qed.

Lemma shape_setclientstate c st : preserves shape (setclientstate c st).
Proof. apply preserves_still_shape, still_setclientstate. Qed.

Lemma shape_drawbars : preserves shape drawbars.
Proof. apply preserves_still_shape, still_drawbars. Qed.

Lemma shape_wintoclient w : preserves shape (wintoclient w).
Proof. apply preserves_still_shape, still_wintoclient. Qed.

End StillShape.

#[global] Hint Resolve shape_updatenumlockmask shape_grabbuttons shape_unfocus
  shape_seturgent shape_first_visible shape_sendevent shape_setfocus
  shape_setclientstate shape_drawbars shape_wintoclient : shapes.

Section MoreDefined.

Variable cfg : Config.

Lemma defined_updatenumlockmask s : defined updatenumlockmask s.
Proof. unfold updatenumlockmask. def_run. Qed.
#[local] Hint Resolve defined_updatenumlockmask : defs.

Lemma defined_grabbuttons c f s : wf s -> valid_client s c -> defined (grabbuttons c f) s.
Proof. intros Hwf Hc. unfold grabbuttons. def_run. Qed.
#[local] Hint Resolve defined_grabbuttons : defs.

Lemma defined_unfocus c f s : wf s -> valid_pointer s c -> defined (unfocus c f) s.
Proof. intros Hwf Hc. unfold unfocus. destruct c as [c|]; def_run. Qed.
#[local] Hint Resolve defined_unfocus : defs.

Lemma defined_seturgent c u s : wf s -> valid_client s c -> defined (seturgent c u) s.
Proof. intros Hwf Hc. unfold seturgent. def_run. Qed.
#[local] Hint Resolve defined_seturgent : defs.

Lemma defined_first_visible l s : wf s -> valid_clients s l -> defined (first_visible l) s.
Proof. intros Hwf Hl. unfold defined. rewrite first_visible_run by assumption. eauto. Qed.
#[local] Hint Resolve defined_first_visible : defs.

Lemma defined_sendevent c p s : wf s -> valid_client s c -> defined (sendevent c p) s.
Proof. intros Hwf Hc. unfold sendevent. def_run. Qed.
#[local] Hint Resolve defined_sendevent : defs.

Lemma defined_setfocus c s : wf s -> valid_client s c -> defined (setfocus c) s.
Proof. intros Hwf Hc. unfold setfocus. def_run. Qed.
#[local] Hint Resolve defined_setfocus : defs.

Lemma defined_drawbars s : wf s -> defined drawbars s.
Proof.
  intros Hwf. unfold drawbars. apply defined_bind; [apply defined_gets | apply post_gets].
  assert (forall l s1, wf s1 -> (forall m, m ∈ l -> valid_monitor s1 m) ->
            defined (forM l drawbar) s1) as Hloop.
  { induction l as [|m l IH]; intros s1 Hwf1 Hl; simpl; [apply defined_ret|].
    apply defined_bind_shape; [apply shape_drawbar | apply defined_drawbar; [exact Hwf1|] |].
    - apply Hl. left.
    - intros _ s2 Hs. apply IH; [eapply wf_shape; eassumption|].
      intros d Hd. eapply shape_valid_monitor; [exact Hs|]. apply Hl. right. exact Hd. }
  apply Hloop; [exact Hwf | apply Hwf].
Qed.
#[local] Hint Resolve defined_drawbars : defs.

Lemma defined_attachstack c s : wf s -> valid_client s c -> defined (attachstack c) s.
Proof. intros Hwf Hc. unfold attachstack. def_run. Qed.

Lemma defined_attach c s : wf s -> valid_client s c -> defined (attach c) s.
Proof. intros Hwf Hc. unfold attach. def_run. Qed.

Lemma defined_detach c s : wf s -> valid_client s c -> defined (detach c) s.
Proof. intros Hwf Hc. unfold detach. def_run. Qed.

End MoreDefined.

#[global] Hint Resolve defined_updatenumlockmask defined_grabbuttons defined_unfocus
  defined_seturgent defined_first_visible defined_sendevent defined_setfocus
  defined_drawbars defined_attachstack defined_attach defined_detach : defs.

Lemma defined_bind_sound {A B} (m : M A) (k : A -> M B) s :
  preserves sound m ->
  defined m s ->
  (forall a s1, sound s s1 -> defined (k a) s1) ->
  defined (m ≫= k) s.
Proof.
  intros Hs Hm Hk. apply defined_bind; [exact Hm|].
  intros a s1 H. apply Hk. eapply Hs, H.
Qed.

Lemma valid_clients_sound s s' l : sound s s' -> valid_clients s l -> valid_clients s' l.
Proof. intros (_ & Hs & _) H c Hc. apply Hs, H, Hc. Qed.

Lemma valid_pointer_sound s s' p : sound s s' -> valid_pointer s p -> valid_pointer s' p.
Proof. intros (_ & Hs & _) H c Hc. apply Hs, H, Hc. Qed.

Ltac transport2 Hs :=
  repeat match goal with
  | H : wf ?s |- _ =>
      lazymatch type of Hs with sound s _ => apply (proj1 Hs) in H end
  | H : valid_client ?s _ |- _ =>
      lazymatch type of Hs with sound s _ => apply (proj1 (proj2 Hs)) in H end
  | H : valid_monitor ?s _ |- _ =>
      lazymatch type of Hs with sound s _ => apply (proj2 (proj2 Hs)) in H end
  | H : valid_clients ?s _ |- _ =>
      lazymatch type of Hs with sound s _ => apply (valid_clients_sound _ _ _ Hs) in H end
  | H : valid_pointer ?s _ |- _ =>
      lazymatch type of Hs with sound s _ => apply (valid_pointer_sound _ _ _ Hs) in H end
  end.

Ltac sound_pres :=
  first [ solve [auto with sounds]
        | apply preserves_shape_sound; solve [shape_pres] ].

Ltac def_step2 :=
  lazymatch goal with
  | |- defined (for_tiled _ _ _) _ => def_loop
  | |- defined (foldM _ _ _) _ => def_loop
  | |- defined (mret _) _ => apply defined_ret
  | |- defined (ret _) _ => apply defined_ret
  | |- defined (client _ ≫= _) _ =>
      apply defined_bind;
      [ apply defined_client; valid_solve
      | apply post_client;
        let v := fresh "v" in let Hv := fresh "Hv" in intros v Hv; learn_client Hv ]
  | |- defined (monitor _ ≫= _) _ =>
      apply defined_bind;
      [ apply defined_monitor; valid_solve
      | apply post_monitor;
        let v := fresh "mv" in let Hv := fresh "Hmv" in intros v Hv; learn_monitor Hv ]
  | |- defined (gets _ ≫= _) _ =>
      apply defined_bind; [apply defined_gets | apply post_gets]
  | |- defined (_ ≫= _) _ =>
      apply defined_bind_sound;
      [ sound_pres
      |
      | let s1 := fresh "s" in let Hs := fresh "Hs" in intros ? s1 Hs; transport2 Hs ]
  | |- defined (when _ _) _ => apply defined_when; intros ?
  | |- defined (if ?b then _ else _) _ => destruct b eqn:?
  | |- defined (match ?o with Some _ => _ | None => _ end) _ => destruct o eqn:?
  | |- defined (match ?o with ArrTile => _ | ArrMonocle => _ end) _ => destruct o eqn:?
  | |- defined (match ?p with (_, _) => _ end) _ => destruct p
  | |- defined (client _) _ => apply defined_client; valid_solve
  | |- defined (monitor _) _ => apply defined_monitor; valid_solve
  | |- defined (upd_client _ _) _ => apply defined_upd_client; valid_solve
  | |- defined (upd_monitor _ _) _ => apply defined_upd_monitor; valid_solve
  | |- defined (emit _) _ => apply defined_emit
  | |- defined (gets _) _ => apply defined_gets
  | |- defined (modify _) _ => apply defined_modify
  | |- defined _ _ => solve [auto with defs]
  end.

Ltac def_run2 := repeat def_step2.

(** Writes of a monitor that keep a well-formed state well-formed whatever
    the state. *)
Lemma sound_unlink_stack m c :
  preserves sound
    (upd_monitor m (fun mv => Monitor.set_stack (unlink c (Monitor.stack mv)) mv)).
Proof.
  apply preserves_upd_monitor; tc_solve. intros s mv Hmv.
  eapply sound_upd_monitor; [exact Hmv|]. intros Hwf. cbn. split; [|split].
  - eapply wf_monitor_clients; eassumption.
  - intros d Hd. apply unlink_subseteq in Hd. eapply wf_monitor_stack; eassumption.
  - eapply wf_monitor_sel; eassumption.
Qed.
#[global] Hint Resolve sound_unlink_stack : sounds.

Section FocusDefined.

Variable cfg : Config.

Lemma defined_detachstack c s : wf s -> valid_client s c -> defined (detachstack c) s.
Proof.
  intros Hwf Hc. unfold detachstack. def_run2.
Qed.

End FocusDefined.

(** ** Runs, step by step *)

Lemma bind_assoc {A B C} (m : M A) (k1 : A -> M B) (k2 : B -> M C) s :
  ((m ≫= k1) ≫= k2) s = (m ≫= λ a, k1 a ≫= k2) s.
Proof. unfold mbind, M_bind, bind. destruct (m s) as [[a s1]|]; reflexivity. Qed.

Lemma run_still {A} (m : M A) s :
  wf s -> defined m s -> preserves still m ->
  exists a s1, m s = Some (a, s1) /\ still s s1 /\ wf s1.
Proof.
  intros Hwf [[a s1] Hrun] Hst. exists a, s1. split; [exact Hrun|].
  pose proof (Hst _ _ _ Hrun) as H. split; [exact H|].
  eapply wf_shape; [exact Hwf | apply still_shape, H].
Qed.

Lemma run_upd_monitor m f s v :
  Plug.mon_heap s !! m = Some v ->
  upd_monitor m f s
  = Some (tt, Plug.set_mon_heap (<[m := f v]> (Plug.mon_heap s)) s).
Proof.
  intros H. unfold upd_monitor. rewrite (bind_step _ _ _ _ _ (run_monitor _ _ _ H)).
  reflexivity.
Qed.

Lemma still_valid_client s s' c : still s s' -> valid_client s c -> valid_client s' c.
Proof. intros H. apply shape_valid_client, still_shape, H. Qed.

Lemma still_client s s' c v :
  still s s' -> Plug.client_heap s !! c = Some v ->
  exists v', Plug.client_heap s' !! c = Some v' /\ client_core v' = client_core v.
Proof. intros (Hf & _). apply frame_client, Hf. Qed.

Lemma wf_set_selmon s m : wf s -> valid_monitor s m -> wf (Plug.set_selmon m s).
Proof. intros (W1 & W2 & W3 & W4) Hm. split; [|split; [|split]]; assumption. Qed.

Lemma focus_target_valid s c :
  wf s -> valid_pointer s c -> valid_pointer s (focus_target s c).
Proof.
  intros Hwf Hc. unfold focus_target.
  destruct (match c with Some c0 => visible_in s c0 | None => false end); [exact Hc|].
  destruct (Plug.mon_heap s !! Plug.selmon s) as [m|] eqn:Hm; [|intros ? [=]].
  intros d Hd. apply find_elem_of in Hd as [Hd _].
  eapply wf_monitor_stack; eassumption.
Qed.

Lemma focus_target_visible s c f :
  focus_target s c = Some f -> visible_in s f = true.
Proof.
  unfold focus_target.
  destruct c as [c0|].
  - destruct (visible_in s c0) eqn:E.
    + intros [= <-]. exact E.
    + destruct (Plug.mon_heap s !! Plug.selmon s); [|discriminate].
      intros H. apply find_elem_of in H. apply H.
  - destruct (Plug.mon_heap s !! Plug.selmon s); [|discriminate].
    intros H. apply find_elem_of in H. apply H.
Qed.

Section FocusRun.

Variable cfg : Config.

(** [focus(c)], from a well-formed state: it returns; the frame is kept;
    the client it gives the focus to goes to the head of the stack of its
    monitor and is selected there, and its monitor is the selected one;
    with no client to give the focus to, the selected monitor has no
    selection.  No other monitor is written. *)
Lemma focus_run c s :
  wf s -> valid_pointer s c ->
  exists s',
    focus c s = Some (tt, s') /\ wf s' /\ frame s s'
    /\ match focus_target s c with
       | Some f =>
           exists v mv,
             Plug.client_heap s !! f = Some v
             /\ Plug.mon_heap s !! Client.mon v = Some mv
             /\ Plug.selmon s' = Client.mon v
             /\ Plug.mon_heap s' = <[Client.mon v := focused_monitor f mv]> (Plug.mon_heap s)
       | None =>
           exists mv,
             Plug.mon_heap s !! Plug.selmon s = Some mv
             /\ Plug.selmon s' = Plug.selmon s
             /\ Plug.mon_heap s'
                = <[Plug.selmon s := Monitor.set_sel None mv]> (Plug.mon_heap s)
       end.
Proof.
  intros Hwf Hc. unfold focus.
  destruct (proj2 (proj2 (proj2 Hwf))) as [msel Hmsel].
  (* the client to focus *)
  rewrite (bind_step _ _ s (focus_target s c) s).
  2:{ unfold focus_target. destruct c as [c0|].
      - rewrite (bind_step _ _ _ _ _ (ISVISIBLE_run s c0 Hwf (Hc c0 eq_refl))).
        destruct (visible_in s c0); [reflexivity|].
        rewrite (bind_step _ _ s (Plug.selmon s) s) by reflexivity.
        rewrite (bind_step _ _ _ _ _ (run_monitor _ _ _ Hmsel)). rewrite Hmsel.
        apply first_visible_run; [exact Hwf | eapply wf_monitor_stack; eassumption].
      - rewrite (bind_step _ _ s false s) by reflexivity. cbv iota.
        rewrite (bind_step _ _ s (Plug.selmon s) s) by reflexivity.
        rewrite (bind_step _ _ _ _ _ (run_monitor _ _ _ Hmsel)). rewrite Hmsel.
        apply first_visible_run; [exact Hwf | eapply wf_monitor_stack; eassumption]. }
  pose proof (focus_target_valid s c Hwf Hc) as Hf.
  rewrite (bind_step _ _ s (Plug.selmon s) s) by reflexivity.
  rewrite (bind_step _ _ _ _ _ (run_monitor _ _ _ Hmsel)).
  (* the former selection loses the focus *)
  destruct (run_still
              (when (bool_decide (is_Some (Monitor.sel msel))
                     && negb (bool_decide (Monitor.sel msel = focus_target s c)))
                 (unfocus (Monitor.sel msel) 0)) s Hwf)
    as ([] & s1 & Hrun1 & Hst1 & Hwf1).
  { apply defined_when. intros _. apply defined_unfocus; [exact Hwf|].
    eapply wf_monitor_sel; eassumption. }
  { apply preserves_when; tc_solve. apply still_unfocus. }
  rewrite (bind_step _ _ _ _ _ Hrun1).
  destruct Hst1 as (Hfr1 & Hmh1 & Hsm1 & HhintHst1).
  destruct (focus_target s c) as [f|] eqn:Etarget.
  - (* a client takes the focus *)
    destruct (Hf f eq_refl) as [v Hv].
    destruct (frame_client _ _ _ _ Hfr1 Hv) as (v1 & Hv1 & Hcore1).
    pose proof (mon_core _ _ Hcore1) as Hmon1.
    destruct (wf_client_monitor _ _ _ Hwf Hv) as [mv Hmv].
    rewrite bind_assoc. rewrite (bind_step _ _ _ _ _ (run_client _ _ _ Hv1)).
    rewrite bind_assoc. rewrite (bind_step _ _ s1 (Plug.selmon s1) s1) by reflexivity.
    rewrite bind_assoc.
    set (s2 := Plug.set_selmon (Client.mon v) s1).
    assert (wf s2) as Hwf2.
    { apply wf_set_selmon; [exact Hwf1|]. unfold valid_monitor. rewrite Hmh1. eauto. }
    rewrite (bind_step _ _ s1 tt s2).
    2:{ destruct (bool_decide (Client.mon v1 = Plug.selmon s1)) eqn:E; cbn [negb when].
        - apply bool_decide_eq_true_1 in E. unfold s2. rewrite <- Hmon1, E.
          destruct s1; reflexivity.
        - unfold s2. rewrite Hmon1. reflexivity. }
    assert (valid_client s2 f) as Hvf2 by (eexists; exact Hv1).
    rewrite bind_assoc.
    destruct (run_still (when (truthy (Client.isurgent v1)) (seturgent f 0)) s2 Hwf2)
      as ([] & s3 & Hrun3 & Hst3 & Hwf3).
    { apply defined_when. intros _. apply defined_seturgent; assumption. }
    { apply preserves_when; tc_solve. apply still_seturgent. }
    rewrite (bind_step _ _ _ _ _ Hrun3).
    destruct Hst3 as (Hfr3 & Hmh3 & Hsm3 & HhintHst3).
    destruct (frame_client _ _ _ _ Hfr3 Hv1) as (v3 & Hv3 & Hcore3).
    pose proof (mon_core _ _ Hcore3) as Hmon3.
    assert (Plug.mon_heap s3 !! Client.mon v3 = Some mv) as Hmv3.
    { rewrite Hmh3. change (Plug.mon_heap s2) with (Plug.mon_heap s1).
      rewrite Hmh1, Hmon3, Hmon1. exact Hmv. }
    rewrite bind_assoc.
    set (s4 := Plug.set_mon_heap
                 (<[Client.mon v3 := detachstack_monitor s3 f mv]> (Plug.mon_heap s3)) s3).
    assert (detachstack f s3 = Some (tt, s4)) as Hrun4.
    { destruct (defined_detachstack f s3 Hwf3 (ex_intro _ v3 Hv3)) as [[[] s4'] Hrun].
      rewrite Hrun. f_equal. f_equal.
      refine (post_detachstack f s3 (fun _ s' => s' = s4) _ tt s4' Hrun).
      intros v' mv' Hv' Hmv'. rewrite Hv3 in Hv'. injection Hv' as <-.
      rewrite Hmv3 in Hmv'. injection Hmv' as <-. reflexivity. }
    rewrite (bind_step _ _ _ _ _ Hrun4).
    assert (sound s3 s4) as Hs4 by (eapply sound_detachstack; exact Hrun4).
    pose proof (proj1 Hs4 Hwf3) as Hwf4.
    assert (Plug.client_heap s4 !! f = Some v3) as Hv4 by exact Hv3.
    rewrite bind_assoc.
    set (mv4 := detachstack_monitor s3 f mv) in *.
    set (mv5 := Monitor.set_stack (f :: Monitor.stack mv4) mv4).
    set (s5 := Plug.set_mon_heap (<[Client.mon v3 := mv5]> (Plug.mon_heap s4)) s4).
    assert (attachstack f s4 = Some (tt, s5)) as Hrun5.
    { unfold attachstack. rewrite (bind_step _ _ _ _ _ (run_client _ _ _ Hv4)).
      refine (run_upd_monitor _ (fun m => Monitor.set_stack (f :: Monitor.stack m) m)
                s4 mv4 _).
      unfold s4. cbn. apply lookup_insert_eq. }
    rewrite (bind_step _ _ _ _ _ Hrun5).
    assert (sound s4 s5) as Hs5 by (eapply sound_attachstack; exact Hrun5).
    pose proof (proj1 Hs5 Hwf4) as Hwf5.
    assert (Plug.client_heap s5 !! f = Some v3) as Hv5 by exact Hv3.
    assert (valid_client s5 f) as Hvf5 by (eexists; exact Hv5).
    destruct (run_still
                (grabbuttons f 1 ≫= λ _ : (),
                   emit (EvSetWindowBorder (Client.win v1) true) ≫= λ _ : (), setfocus f)
                s5 Hwf5)
      as ([] & s6 & Hrun6 & Hst6 & Hwf6).
    { def_run2. }
    { still_pres. }
    rewrite (bind_step _ _ _ _ _ Hrun6).
    destruct Hst6 as (Hfr6 & Hmh6 & Hsm6 & HhintHst6).
    rewrite (bind_step _ _ s6 (Plug.selmon s6) s6) by reflexivity.
    assert (Plug.selmon s6 = Client.mon v) as Hsel6.
    { rewrite Hsm6. change (Plug.selmon s5) with (Plug.selmon s3). rewrite Hsm3. reflexivity. }
    assert (Plug.mon_heap s6 = <[Client.mon v := mv5]> (Plug.mon_heap s)) as Hheap6.
    { rewrite Hmh6. unfold s5, s4. cbn. rewrite insert_insert_eq.
      rewrite Hmh3. change (Plug.mon_heap s2) with (Plug.mon_heap s1).
      rewrite Hmh1, Hmon3, Hmon1. reflexivity. }
    set (s7 := Plug.set_mon_heap
                 (<[Client.mon v := Monitor.set_sel (Some f) mv5]> (Plug.mon_heap s6)) s6).
    assert (upd_monitor (Plug.selmon s6) (Monitor.set_sel (Some f)) s6 = Some (tt, s7)) as Hrun7.
    { rewrite Hsel6. refine (run_upd_monitor _ (Monitor.set_sel (Some f)) s6 mv5 _).
      rewrite Hheap6. apply lookup_insert_eq. }
    rewrite (bind_step _ _ _ _ _ Hrun7).
    assert (wf s7) as Hwf7.
    { eapply wf_upd_monitor; [exact Hwf6 | rewrite Hheap6; apply lookup_insert_eq | | |].
      - change (valid_clients s6 (Monitor.clients mv5)).
        eapply wf_monitor_clients; [exact Hwf6 | rewrite Hheap6; apply lookup_insert_eq].
      - change (valid_clients s6 (Monitor.stack mv5)).
        eapply wf_monitor_stack; [exact Hwf6 | rewrite Hheap6; apply lookup_insert_eq].
      - intros d [= <-]. eapply still_valid_client; [|exact Hvf5].
        split; [exact Hfr6 | split; [|split]; assumption]. }
    destruct (run_still drawbars s7 Hwf7 (defined_drawbars s7 Hwf7) still_drawbars)
      as ([] & s8 & Hrun8 & Hst8 & Hwf8).
    exists s8. split; [exact Hrun8|]. split; [exact Hwf8|].
    destruct Hst8 as (Hfr8 & Hmh8 & Hsm8 & HhintHst8).
    assert (frame s s7) as Hfr7.
    { transitivity s1; [exact Hfr1|]. transitivity s3.
      { transitivity s2; [|exact Hfr3]. repeat split. }
      transitivity s6.
      { transitivity s5; [|exact Hfr6]. transitivity s4.
        - eapply frame_detachstack. exact Hrun4.
        - eapply frame_attachstack. exact Hrun5. }
      eapply frame_upd_monitor; [rewrite Hheap6; apply lookup_insert_eq | reflexivity]. }
    split; [transitivity s7; assumption|].
    exists v, mv. split; [exact Hv|]. split; [exact Hmv|]. split.
    + rewrite Hsm8. exact Hsel6.
    + rewrite Hmh8. unfold s7. cbn. rewrite Hheap6, insert_insert_eq.
      f_equal. unfold mv5, mv4, detachstack_monitor, focused_monitor.
      destruct (bool_decide (Monitor.sel mv = Some f)); reflexivity.
  - (* no client takes the focus *)
    rewrite bind_assoc. rewrite (bind_step _ _ s1 (Plug.root s1) s1) by reflexivity.
    rewrite bind_assoc. rewrite (bind_step _ _ s1 (Plug.netatom s1) s1) by reflexivity.
    rewrite bind_assoc.
    match goal with
    | |- context [(emit ?e ≫= ?k) s1] =>
        rewrite (bind_step (emit e) k s1 tt (Plug.set_xlog (Plug.xlog s1 ++ [e]) s1))
          by reflexivity
    end.
    match goal with
    | |- context [(emit ?e ≫= ?k) ?s0] =>
        rewrite (bind_step (emit e) k s0 tt (Plug.set_xlog (Plug.xlog s0 ++ [e]) s0))
          by reflexivity
    end.
    match goal with
    | |- context [(gets Plug.selmon ≫= ?k) ?s0] => set (s3 := s0)
    end.
    rewrite (bind_step _ _ s3 (Plug.selmon s3) s3) by reflexivity.
    change (Plug.selmon s3) with (Plug.selmon s1). rewrite Hsm1.
    assert (Plug.mon_heap s3 !! Plug.selmon s = Some msel) as Hm3.
    { change (Plug.mon_heap s3) with (Plug.mon_heap s1). rewrite Hmh1. exact Hmsel. }
    rewrite (bind_step _ _ _ _ _ (run_upd_monitor _ _ _ _ Hm3)).
    set (s4 := Plug.set_mon_heap _ s3).
    assert (wf s3) as Hwf3 by exact Hwf1.
    assert (wf s4) as Hwf4.
    { eapply wf_upd_monitor; [exact Hwf3 | exact Hm3 | | |].
      - exact (wf_monitor_clients _ _ _ Hwf3 Hm3).
      - exact (wf_monitor_stack _ _ _ Hwf3 Hm3).
      - intros d [=]. }
    destruct (run_still drawbars s4 Hwf4 (defined_drawbars s4 Hwf4) still_drawbars)
      as ([] & s5 & Hrun5 & Hst5 & Hwf5).
    exists s5. split; [exact Hrun5|]. split; [exact Hwf5|].
    destruct Hst5 as (Hfr5 & Hmh5 & Hsm5 & HhintHst5).
    split.
    + transitivity s1; [exact Hfr1|]. transitivity s4; [|exact Hfr5].
      transitivity s3; [repeat split|].
      eapply frame_upd_monitor; [exact Hm3 | reflexivity].
    + exists msel. split; [exact Hmsel|]. split.
      * rewrite Hsm5. exact Hsm1.
      * rewrite Hmh5. unfold s4. cbn. change (Plug.mon_heap s3) with (Plug.mon_heap s1).
        rewrite Hmh1. reflexivity.
Qed.

End FocusRun.

(** ** Linked lists *)

Lemma unlink_elem_of c l d : NoDup l -> d ∈ unlink c l <-> d ∈ l /\ d <> c.
Proof.
  induction l as [|e l IH]; intros Hnd; simpl.
  - split; [intros H; inversion H | intros [H _]; inversion H].
  - apply NoDup_cons in Hnd as [He Hnd]. destruct (decide (e = c)) as [->|Hne].
    + rewrite elem_of_cons. split.
      * intros H. split; [right; exact H | intros ->; contradiction].
      * intros [[->|H] Hd]; [contradiction | exact H].
    + rewrite !elem_of_cons, (IH Hnd). split.
      * intros [->|[H Hd]]; [split; [left; reflexivity | exact Hne] | split; [right|]; assumption].
      * intros [[->|H] Hd]; [left; reflexivity | right; split; assumption].
Qed.

Lemma unlink_NoDup c l : NoDup l -> NoDup (unlink c l).
Proof.
  induction l as [|e l IH]; intros Hnd; simpl; [constructor|].
  apply NoDup_cons in Hnd as [He Hnd]. destruct (decide (e = c)); [exact Hnd|].
  apply NoDup_cons. split; [|apply IH, Hnd].
  intros H. apply He. apply unlink_subseteq in H. exact H.
Qed.

Lemma unlink_not_elem_of c l : c ∉ l -> unlink c l = l.
Proof.
  induction l as [|e l IH]; intros H; simpl; [reflexivity|].
  apply not_elem_of_cons in H as [Hne H].
  destruct (decide (e = c)) as [->|_]; [contradiction|]. rewrite IH by exact H. reflexivity.
Qed.

Lemma frame_mons s s' : frame s s' -> Plug.mons s' = Plug.mons s.
Proof. intros (_ & _ & H). unfold plug_core in H. congruence. Qed.

Lemma clients_core m m' : monitor_core m' = monitor_core m -> Monitor.clients m' = Monitor.clients m.
Proof. unfold monitor_core. intros H. injection H. intros. congruence. Qed.

(** A run that keeps the frame and writes the stack and the selection of
    one monitor. *)
Lemma linked_upd s s' m mv mv' :
  linked s -> wf s' -> frame s s' ->
  Plug.mon_heap s !! m = Some mv ->
  Plug.mon_heap s' = <[m := mv']> (Plug.mon_heap s) ->
  NoDup (Monitor.stack mv') ->
  (forall c, c ∈ Monitor.stack mv' <-> c ∈ Monitor.stack mv) ->
  (forall c, Monitor.sel mv' = Some c -> c ∈ Monitor.stack mv') ->
  linked s'.
Proof.
  intros (Hwf & Hnd & Hall & Hlm & Hatt) Hwf' Hfr Hmv Hheap Hnds Hst Hsel.
  assert (Monitor.clients mv' = Monitor.clients mv) as Hcl.
  { destruct (frame_monitor _ _ _ _ Hfr Hmv) as (mv2 & Hmv2 & Hcore).
    rewrite Hheap, lookup_insert_eq in Hmv2. injection Hmv2 as <-.
    apply clients_core, Hcore. }
  assert (forall c v', Plug.client_heap s' !! c = Some v' ->
            exists v, Plug.client_heap s !! c = Some v /\ Client.mon v' = Client.mon v) as Hmon.
  { intros c v' Hv'. destruct (frame_client_inv _ _ _ _ Hfr Hv') as (v & Hv & Hcore).
    exists v. split; [exact Hv | apply mon_core, Hcore]. }
  split; [exact Hwf'|]. split; [rewrite (frame_mons _ _ Hfr); exact Hnd|].
  split; [|split].
  - intros m0 [mv0 Hmv0]. rewrite (frame_mons _ _ Hfr). apply Hall.
    destruct (frame_monitor_inv _ _ _ _ Hfr Hmv0) as (mv1 & Hmv1 & _). eexists; exact Hmv1.
  - intros m0 mv0 Hmv0. rewrite Hheap in Hmv0.
    destruct (decide (m = m0)) as [<-|Hne].
    + rewrite lookup_insert_eq in Hmv0. injection Hmv0 as <-.
      destruct (Hlm m mv Hmv) as (L1 & L2 & L3 & L4 & L5).
      split; [rewrite Hcl; exact L1|]. split; [exact Hnds|]. split; [|split].
      * intros c. rewrite Hst, Hcl. apply L3.
      * intros c v' Hin Hv'. destruct (Hmon c v' Hv') as (v & Hv & ->).
        rewrite Hcl in Hin. exact (L4 c v Hin Hv).
      * exact Hsel.
    + rewrite lookup_insert_ne in Hmv0 by assumption.
      destruct (Hlm m0 mv0 Hmv0) as (L1 & L2 & L3 & L4 & L5).
      split; [exact L1|]. split; [exact L2|]. split; [exact L3|]. split; [|exact L5].
      intros c v' Hin Hv'. destruct (Hmon c v' Hv') as (v & Hv & ->).
      exact (L4 c v Hin Hv).
  - intros c v' Hv'. destruct (Hmon c v' Hv') as (v & Hv & ->).
    destruct (Hatt c v Hv) as (mv0 & Hmv0 & Hin).
    destruct (frame_monitor _ _ _ _ Hfr Hmv0) as (mv1 & Hmv1 & Hcore).
    exists mv1. split; [exact Hmv1|]. rewrite (clients_core _ _ Hcore). exact Hin.
Qed.

Lemma linked_attached s c v :
  linked s -> Plug.client_heap s !! c = Some v ->
  exists mv, Plug.mon_heap s !! Client.mon v = Some mv
             /\ c ∈ Monitor.clients mv /\ c ∈ Monitor.stack mv.
Proof.
  intros (_ & _ & _ & Hlm & Hatt) Hv. destruct (Hatt c v Hv) as (mv & Hmv & Hin).
  exists mv. split; [exact Hmv|]. split; [exact Hin|].
  destruct (Hlm _ _ Hmv) as (_ & _ & L3 & _). apply L3, Hin.
Qed.

Lemma linked_shape s s' : linked s -> shape s s' -> linked s'.
Proof.
  intros Hl Hs. pose proof Hl as (Hwf & Hnd & Hall & Hlm & Hatt).
  pose proof Hs as (Hc & Hm & Hmons & Hsel).
  split; [eapply wf_shape; eassumption|]. split; [rewrite Hmons; exact Hnd|].
  split; [|split].
  - intros m [mv' Hmv']. rewrite Hmons. apply Hall.
    destruct (shape_monitor _ _ _ _ Hs Hmv') as (mv & Hmv & _). eexists; exact Hmv.
  - intros m mv' Hmv'. destruct (shape_monitor _ _ _ _ Hs Hmv') as (mv & Hmv & Hsh).
    unfold monitor_shape in Hsh. injection Hsh as Hcl Hst Hse.
    destruct (Hlm m mv Hmv) as (L1 & L2 & L3 & L4 & L5).
    split; [rewrite Hcl; exact L1|]. split; [rewrite Hst; exact L2|]. split; [|split].
    + intros c. rewrite Hcl, Hst. apply L3.
    + intros c v' Hin Hv'. destruct (shape_client _ _ _ _ Hs Hv') as (v & Hv & ->).
      rewrite Hcl in Hin. exact (L4 c v Hin Hv).
    + intros c. rewrite Hse, Hst. apply L5.
  - intros c v' Hv'. destruct (shape_client _ _ _ _ Hs Hv') as (v & Hv & ->).
    destruct (Hatt c v Hv) as (mv & Hmv & Hin).
    pose proof (proj1 (proj2 Hs) (Client.mon v)) as Hm'. rewrite Hmv in Hm'.
    destruct (Plug.mon_heap s' !! Client.mon v) as [mv'|]; [|discriminate].
    exists mv'. split; [reflexivity|]. cbn in Hm'. unfold monitor_shape in Hm'.
    injection Hm' as -> _ _. exact Hin.
Qed.

Section FocusLinked.

Variable cfg : Config.

Lemma linked_focus c s s' :
  linked s -> valid_pointer s c -> focus c s = Some (tt, s') -> linked s'.
Proof.
  intros Hl Hc Hrun. pose proof (linked_wf _ Hl) as Hwf.
  destruct (focus_run c s Hwf Hc) as (s'' & Hrun' & Hwf' & Hfr & Hcase).
  rewrite Hrun in Hrun'. injection Hrun' as <-.
  destruct (focus_target s c) as [f|].
  - destruct Hcase as (v & mv & Hv & Hmv & _ & Hheap).
    destruct (linked_attached _ _ _ Hl Hv) as (mv0 & Hmv0 & Hin & Hst).
    rewrite Hmv in Hmv0. injection Hmv0 as <-.
    pose proof (proj1 (proj2 (proj2 (proj2 Hl))) _ _ Hmv) as (_ & L2 & _).
    eapply linked_upd; try eassumption; unfold focused_monitor; cbn.
    + apply NoDup_cons. split; [|apply unlink_NoDup, L2].
      rewrite (unlink_elem_of _ _ _ L2). intros [_ H]. apply H. reflexivity.
    + intros d. rewrite elem_of_cons, (unlink_elem_of _ _ _ L2). split.
      * intros [->|[H _]]; assumption.
      * intros H. destruct (decide (d = f)) as [->|Hne]; [left; reflexivity | right; auto].
    + intros d [= <-]. left.
  - destruct Hcase as (mv & Hmv & _ & Hheap).
    pose proof (proj1 (proj2 (proj2 (proj2 Hl))) _ _ Hmv) as (_ & L2 & _).
    eapply linked_upd; try eassumption; cbn.
    + reflexivity.
    + intros d [=].
Qed.

End FocusLinked.

Lemma linked_set_selmon s m : linked s -> valid_monitor s m -> linked (Plug.set_selmon m s).
Proof.
  intros (Hwf & Hrest) Hm. split; [apply wf_set_selmon; assumption | exact Hrest].
Qed.

Lemma linked_still s s' : linked s -> still s s' -> linked s'.
Proof. intros Hl Hs. eapply linked_shape; [exact Hl | apply still_shape, Hs]. Qed.

Lemma defined_setclientstate c st s :
  valid_client s c -> defined (setclientstate (Some c) st) s.
Proof.
  intros [v Hv]. unfold defined, setclientstate.
  rewrite (bind_step _ _ s c s) by reflexivity.
  rewrite (bind_step _ _ _ _ _ (run_client _ _ _ Hv)). eexists. reflexivity.
Qed.
#[global] Hint Resolve defined_setclientstate : defs.

Lemma focus_target_of_visible s c : visible_in s c = true -> focus_target s (Some c) = Some c.
Proof. intros H. unfold focus_target. rewrite H. reflexivity. Qed.

Lemma visible_in_valid s c : visible_in s c = true -> valid_client s c.
Proof.
  unfold visible_in, valid_client. destruct (Plug.client_heap s !! c); [eauto | discriminate].
Qed.

(** A run that writes the lists and the selection of one monitor, and
    moves no client to another monitor. *)
Lemma linked_upd_lists s s' m mv mv' :
  linked s -> wf s' ->
  (forall c, Client.mon <$> Plug.client_heap s' !! c = Client.mon <$> Plug.client_heap s !! c) ->
  Plug.mons s' = Plug.mons s ->
  Plug.mon_heap s !! m = Some mv ->
  Plug.mon_heap s' = <[m := mv']> (Plug.mon_heap s) ->
  NoDup (Monitor.clients mv') ->
  (forall c, c ∈ Monitor.clients mv' <-> c ∈ Monitor.clients mv) ->
  NoDup (Monitor.stack mv') ->
  (forall c, c ∈ Monitor.stack mv' <-> c ∈ Monitor.stack mv) ->
  (forall c, Monitor.sel mv' = Some c -> c ∈ Monitor.stack mv') ->
  linked s'.
Proof.
  intros (Hwf & Hnd & Hall & Hlm & Hatt) Hwf' Hcm Hmons Hmv Hheap Hndc Hcl Hnds Hst Hsel.
  assert (forall c v', Plug.client_heap s' !! c = Some v' ->
            exists v, Plug.client_heap s !! c = Some v /\ Client.mon v' = Client.mon v) as Hmon.
  { intros c v' Hv'. specialize (Hcm c). rewrite Hv' in Hcm.
    destruct (Plug.client_heap s !! c) as [v|]; [|discriminate].
    exists v. split; [reflexivity|]. cbn in Hcm. congruence. }
  split; [exact Hwf'|]. split; [rewrite Hmons; exact Hnd|].
  split; [|split].
  - intros m0 [mv0 Hmv0]. rewrite Hmons. apply Hall. rewrite Hheap in Hmv0.
    destruct (decide (m = m0)) as [<-|Hne]; [eexists; exact Hmv|].
    rewrite lookup_insert_ne in Hmv0 by assumption. eexists; exact Hmv0.
  - intros m0 mv0 Hmv0. rewrite Hheap in Hmv0.
    destruct (decide (m = m0)) as [<-|Hne].
    + rewrite lookup_insert_eq in Hmv0. injection Hmv0 as <-.
      destruct (Hlm m mv Hmv) as (L1 & L2 & L3 & L4 & L5).
      split; [exact Hndc|]. split; [exact Hnds|]. split; [|split].
      * intros c. rewrite Hst, Hcl. apply L3.
      * intros c v' Hin Hv'. destruct (Hmon c v' Hv') as (v & Hv & ->).
        apply Hcl in Hin. exact (L4 c v Hin Hv).
      * exact Hsel.
    + rewrite lookup_insert_ne in Hmv0 by assumption.
      destruct (Hlm m0 mv0 Hmv0) as (L1 & L2 & L3 & L4 & L5).
      split; [exact L1|]. split; [exact L2|]. split; [exact L3|]. split; [|exact L5].
      intros c v' Hin Hv'. destruct (Hmon c v' Hv') as (v & Hv & ->).
      exact (L4 c v Hin Hv).
  - intros c v' Hv'. destruct (Hmon c v' Hv') as (v & Hv & ->).
    destruct (Hatt c v Hv) as (mv0 & Hmv0 & Hin). rewrite Hheap.
    destruct (decide (m = Client.mon v)) as [E|Hne].
    + rewrite <- E in *. rewrite lookup_insert_eq. exists mv'. split; [reflexivity|].
      rewrite Hmv in Hmv0. injection Hmv0 as <-. apply Hcl, Hin.
    + rewrite lookup_insert_ne by assumption. eauto.
Qed.

(** ** Looking windows up *)

Lemma find_app {A} (p : A -> bool) l1 l2 :
  List.find p (l1 ++ l2)
  = match List.find p l1 with Some x => Some x | None => List.find p l2 end.
Proof.
  induction l1 as [|x l1 IH]; simpl; [reflexivity|].
  destruct (p x); [reflexivity | exact IH].
Qed.

Lemma wintoclient_inner w s l acc :
  valid_clients s l ->
  foldM l
    (fun found c =>
       match found with
       | Some _ => mret found
       | None => v ← client c; mret (if Client.win v =? w then Some c else None)
       end) acc s
  = Some (match acc with Some _ => acc | None => List.find (has_window s w) l end, s).
Proof.
  revert acc. induction l as [|c l IH]; intros acc Hl; cbn [foldM List.find].
  - destruct acc; reflexivity.
  - apply valid_clients_cons in Hl as [[v Hv] Hl].
    destruct acc as [a|].
    + rewrite (bind_step _ _ s (Some a) s) by reflexivity. apply (IH (Some a) Hl).
    + rewrite (bind_step _ _ s (if Client.win v =? w then Some c else None) s)
        by (rewrite (bind_step _ _ _ _ _ (run_client _ _ _ Hv)); reflexivity).
      rewrite (IH _ Hl).
      assert (has_window s w c = (Client.win v =? w)) as ->
        by (unfold has_window; rewrite Hv; reflexivity).
      destruct (Client.win v =? w); reflexivity.
Qed.

Lemma wintoclient_run w s :
  wf s -> wintoclient w s = Some (List.find (has_window s w) (managed_list s), s).
Proof.
  intros Hwf. unfold wintoclient, managed_list.
  rewrite (bind_step _ _ s (Plug.mons s) s) by reflexivity.
  assert (forall ms acc, (forall m, m ∈ ms -> valid_monitor s m) ->
    foldM ms
      (fun found mid =>
         match found with
         | Some _ => mret found
         | None =>
             m ← monitor mid;
             foldM (Monitor.clients m)
               (fun found c =>
                  match found with
                  | Some _ => mret found
                  | None => v ← client c; mret (if Client.win v =? w then Some c else None)
                  end) None
         end) acc s
    = Some (match acc with
            | Some _ => acc
            | None => List.find (has_window s w)
                        (concat (map (fun m => from_option Monitor.clients []
                                                 (Plug.mon_heap s !! m)) ms))
            end, s)) as Hloop.
  { induction ms as [|m ms IH]; intros acc Hms; cbn [foldM map concat].
    - destruct acc; reflexivity.
    - destruct (Hms m) as [mv Hmv]; [left|].
      assert (forall d, d ∈ ms -> valid_monitor s d) as Hms' by (intros d Hd; apply Hms; right; exact Hd).
      destruct acc as [a|].
      + rewrite (bind_step _ _ s (Some a) s) by reflexivity. apply (IH (Some a) Hms').
      + rewrite (bind_step _ _ s (List.find (has_window s w) (Monitor.clients mv)) s).
        2:{ rewrite (bind_step _ _ _ _ _ (run_monitor _ _ _ Hmv)).
            apply (wintoclient_inner w s _ None).
            eapply wf_monitor_clients; eassumption. }
        rewrite (IH _ Hms'), find_app, Hmv. cbn.
        destruct (List.find (has_window s w) (Monitor.clients mv)); reflexivity. }
  apply (Hloop _ None). apply Hwf.
Qed.

(** X1. [wintoclient(w)] returns, leaves the state as it is, and finds a
    managed client whose window is [w] when there is one: the result is
    null exactly when no managed client has the window. *)
Theorem wintoclient_finds w s :
  wf s ->
  exists r, wintoclient w s = Some (r, s)
    /\ (forall c, r = Some c ->
          managed s c /\ client_has c (fun v => Client.win v = w) s)
    /\ (r = None ->
          forall c v, managed s c -> Plug.client_heap s !! c = Some v -> Client.win v <> w).
Proof.
  intros Hwf. eexists. split; [apply wintoclient_run, Hwf|]. split.
  - intros c Hc. apply find_elem_of in Hc as [Hin Hw]. split.
    + apply managed_list_spec, Hin.
    + unfold has_window in Hw. destruct (Plug.client_heap s !! c) as [v|] eqn:Hv; [|discriminate].
      exists v. split; [exact Hv|]. cbn in Hw. apply Z.eqb_eq, Hw.
  - intros Hnone c v Hman Hv Hw.
    apply managed_list_spec, list_elem_of_In in Hman.
    pose proof (List.find_none _ _ Hnone c Hman) as H.
    unfold has_window in H. rewrite Hv in H. cbn in H. apply Z.eqb_neq in H. contradiction.
Qed.

Lemma wintoclient_finds_witness :
  exists r, wintoclient 102 sample_state = Some (r, sample_state)
    /\ (forall c, r = Some c ->
          managed sample_state c /\ client_has c (fun v => Client.win v = 102) sample_state)
    /\ (r = None ->
          forall c v, managed sample_state c ->
            Plug.client_heap sample_state !! c = Some v -> Client.win v <> 102).
Proof.
  apply (wintoclient_finds 102 sample_state). apply wfb_spec. vm_compute. reflexivity.
Defined.

Lemma recttomon_loop x y w h s : forall ms r area,
  (forall m, m ∈ ms -> valid_monitor s m) ->
  foldM ms
    (fun '(r, area) mid =>
       m ← monitor mid;
       let a := INTERSECT x y w h m in
       mret (if area <? a then (mid, a) else (r, area))) (r, area) s
  = Some (fold_left (fun '(r, area) m =>
                       let a := area_on s x y w h m in
                       if area <? a then (m, a) else (r, area)) ms (r, area), s).
Proof.
  induction ms as [|m ms IH]; intros r area Hms; cbn [foldM fold_left]; [reflexivity|].
  destruct (Hms m) as [mv Hmv]; [left|].
  rewrite (bind_step _ _ s
             (if area <? INTERSECT x y w h mv then (m, INTERSECT x y w h mv) else (r, area)) s)
    by (rewrite (bind_step _ _ _ _ _ (run_monitor _ _ _ Hmv)); reflexivity).
  assert (area_on s x y w h m = INTERSECT x y w h mv) as Ha
    by (unfold area_on; rewrite Hmv; reflexivity).
  rewrite Ha.
  destruct (area <? INTERSECT x y w h mv); apply IH; intros d Hd; apply Hms; right; exact Hd.
Qed.

Lemma best_area (f : MonId -> Z) : forall ms r a,
  let '(r', a') := fold_left (fun '(r, area) m => let a := f m in
                                if area <? a then (m, a) else (r, area)) ms (r, a) in
  a <= a' /\ (forall m, m ∈ ms -> f m <= a')
  /\ ((r', a') = (r, a) \/ (r' ∈ ms /\ f r' = a' /\ a < a')).
Proof.
  induction ms as [|m ms IH]; intros r a; cbn [fold_left].
  - split; [lia|]. split; [intros m H; inversion H | left; reflexivity].
  - destruct (Z.ltb_spec a (f m)) as [Hlt|Hge].
    + specialize (IH m (f m)).
      destruct (fold_left _ ms (m, f m)) as [r' a'].
      destruct IH as (H1 & H2 & H3). split; [lia|]. split.
      * intros d Hd. apply elem_of_cons in Hd as [->|Hd]; [exact H1 | apply H2, Hd].
      * right. destruct H3 as [[= -> ->]|(Hin & Hf & Hlt')].
        -- split; [left|]. split; [reflexivity | exact Hlt].
        -- split; [right; exact Hin|]. split; [exact Hf | lia].
    + specialize (IH r a).
      destruct (fold_left _ ms (r, a)) as [r' a'].
      destruct IH as (H1 & H2 & H3). split; [exact H1|]. split.
      * intros d Hd. apply elem_of_cons in Hd as [->|Hd]; [lia | apply H2, Hd].
      * destruct H3 as [H3|(Hin & Hf & Hlt')]; [left; exact H3|].
        right. split; [right; exact Hin|]. split; assumption.
Qed.

(** X2. [recttomon] returns, leaves the state as it is, and gives the
    monitor whose window area overlaps the rectangle most; when no monitor
    of the list overlaps it, the selected monitor. *)
Theorem recttomon_largest x y w h s :
  wf s ->
  exists r, recttomon x y w h s = Some (r, s)
    /\ ((r = Plug.selmon s
         /\ forall m mv, m ∈ Plug.mons s -> Plug.mon_heap s !! m = Some mv ->
              INTERSECT x y w h mv <= 0)
        \/ (exists rv, r ∈ Plug.mons s /\ Plug.mon_heap s !! r = Some rv
              /\ 0 < INTERSECT x y w h rv
              /\ forall m mv, m ∈ Plug.mons s -> Plug.mon_heap s !! m = Some mv ->
                   INTERSECT x y w h mv <= INTERSECT x y w h rv)).
Proof.
  intros Hwf. unfold recttomon.
  rewrite (bind_step _ _ s (Plug.mons s) s) by reflexivity.
  rewrite (bind_step _ _ s (Plug.selmon s) s) by reflexivity.
  rewrite (bind_step _ _ _ _ _
             (recttomon_loop x y w h s (Plug.mons s) (Plug.selmon s) 0
                (proj1 (proj2 (proj2 Hwf))))).
  pose proof (best_area (area_on s x y w h) (Plug.mons s) (Plug.selmon s) 0) as Hbest.
  destruct (fold_left _ (Plug.mons s) (Plug.selmon s, 0)) as [r a].
  destruct Hbest as (H0 & Hmax & Hcase).
  exists r. split; [reflexivity|].
  assert (forall m mv, Plug.mon_heap s !! m = Some mv ->
            area_on s x y w h m = INTERSECT x y w h mv) as Harea.
  { intros m mv Hmv. unfold area_on. rewrite Hmv. reflexivity. }
  destruct Hcase as [[= -> ->]|(Hin & Hf & Hlt)].
  - left. split; [reflexivity|]. intros m mv Hm Hmv.
    rewrite <- (Harea m mv Hmv). apply Hmax, Hm.
  - right. destruct (proj1 (proj2 (proj2 Hwf)) r Hin) as [rv Hrv].
    exists rv. rewrite <- (Harea r rv Hrv), Hf.
    split; [exact Hin|]. split; [exact Hrv|]. split; [exact Hlt|].
    intros m mv Hm Hmv. rewrite <- (Harea m mv Hmv). apply Hmax, Hm.
Qed.

Lemma recttomon_largest_witness :
  exists r, recttomon 2000 500 1 1 two_monitor_state = Some (r, two_monitor_state)
    /\ ((r = Plug.selmon two_monitor_state
         /\ forall m mv, m ∈ Plug.mons two_monitor_state ->
              Plug.mon_heap two_monitor_state !! m = Some mv ->
              INTERSECT 2000 500 1 1 mv <= 0)
        \/ (exists rv, r ∈ Plug.mons two_monitor_state
              /\ Plug.mon_heap two_monitor_state !! r = Some rv
              /\ 0 < INTERSECT 2000 500 1 1 rv
              /\ forall m mv, m ∈ Plug.mons two_monitor_state ->
                   Plug.mon_heap two_monitor_state !! m = Some mv ->
                   INTERSECT 2000 500 1 1 mv <= INTERSECT 2000 500 1 1 rv)).
Proof.
  apply (recttomon_largest 2000 500 1 1 two_monitor_state).
  apply wfb_spec. vm_compute. reflexivity.
Defined.

Ltac wrap_simpl :=
  unfold addi, subi, muli in *;
  repeat match goal with
         | |- context [sint ?z] => rewrite (sint_small z) by (unfold int_range; lia)
         | H : context [sint ?z] |- _ => rewrite (sint_small z) in H by (unfold int_range; lia)
         end.

Ltac plain a :=
  lazymatch a with context [if _ then _ else _] => fail | _ => idtac end.

Ltac if_cases :=
  repeat (wrap_simpl;
          match goal with
          | |- context [if ?a <=? ?b then _ else _] =>
              plain a; plain b; destruct (Z.leb_spec a b)
          | |- context [if ?a <? ?b then _ else _] =>
              plain a; plain b; destruct (Z.ltb_spec a b)
          end);
  wrap_simpl.

(** X3. For a point, [INTERSECT] is 1 when the point lies in the window
    area of the monitor and 0 otherwise: the bar is not part of it. *)
Theorem INTERSECT_point x y m :
  in_bounds x -> in_bounds y ->
  in_bounds (Monitor.wx m) -> in_bounds (Monitor.wy m) ->
  0 <= Monitor.ww m <= 2 ^ 28 -> 0 <= Monitor.wh m <= 2 ^ 28 ->
  INTERSECT x y 1 1 m
  = if (Monitor.wx m <=? x) && (x <? Monitor.wx m + Monitor.ww m)
       && (Monitor.wy m <=? y) && (y <? Monitor.wy m + Monitor.wh m)
    then 1 else 0.
Proof.
  unfold in_bounds, INTERSECT, MAX, MIN. intros Hx Hy Hwx Hwy Hww Hwh.
  destruct (Z.leb_spec (Monitor.wx m) x); destruct (Z.ltb_spec x (Monitor.wx m + Monitor.ww m));
    destruct (Z.leb_spec (Monitor.wy m) y);
    destruct (Z.ltb_spec y (Monitor.wy m + Monitor.wh m)); cbn [andb];
    if_cases; try lia;
    repeat rewrite sint_small by (unfold int_range; nia); nia.
Qed.

Lemma INTERSECT_point_witness :
  INTERSECT 100 10 1 1 sample_monitor = 0 /\ INTERSECT 100 20 1 1 sample_monitor = 1.
Proof.
  split.
  - rewrite (INTERSECT_point 100 10 sample_monitor); [reflexivity | ..];
      unfold in_bounds; cbn; lia.
  - rewrite (INTERSECT_point 100 20 sample_monitor); [reflexivity | ..];
      unfold in_bounds; cbn; lia.
Defined.

Lemma wintomon_bars w s : forall ms acc,
  (forall m, m ∈ ms -> valid_monitor s m) ->
  foldM ms
    (fun found mid =>
       match found with
       | Some _ => mret found
       | None => m ← monitor mid; mret (if w =? Monitor.barwin m then Some mid else None)
       end) acc s
  = Some (match acc with Some _ => acc | None => List.find (has_barwin s w) ms end, s).
Proof.
  induction ms as [|m ms IH]; intros acc Hms; cbn [foldM List.find].
  - destruct acc; reflexivity.
  - destruct (Hms m) as [mv Hmv]; [left|].
    assert (forall d, d ∈ ms -> valid_monitor s d) as Hms'
      by (intros d Hd; apply Hms; right; exact Hd).
    destruct acc as [a|].
    + rewrite (bind_step _ _ s (Some a) s) by reflexivity. apply (IH (Some a) Hms').
    + rewrite (bind_step _ _ s (if w =? Monitor.barwin mv then Some m else None) s)
        by (rewrite (bind_step _ _ _ _ _ (run_monitor _ _ _ Hmv)); reflexivity).
      rewrite (IH _ Hms').
      assert (has_barwin s w m = (w =? Monitor.barwin mv)) as ->
        by (unfold has_barwin; rewrite Hmv; reflexivity).
      destruct (w =? Monitor.barwin mv); reflexivity.
Qed.

(** X4. Away from the pointer, [wintomon(w)] returns and leaves the state
    as it is; it gives the monitor whose bar is [w]; failing that the
    monitor of a managed client whose window is [w]; failing that the
    selected monitor. *)
Theorem wintomon_owner w s :
  wf s ->
  (w =? Plug.root s) = false \/ XQueryPointer (Plug.xsrv s) = None ->
  exists r, wintomon w s = Some (r, s)
    /\ ((exists rv, r ∈ Plug.mons s /\ Plug.mon_heap s !! r = Some rv
                    /\ Monitor.barwin rv = w)
        \/ ((forall m mv, m ∈ Plug.mons s -> Plug.mon_heap s !! m = Some mv ->
               Monitor.barwin mv <> w)
            /\ ((exists c v, managed s c /\ Plug.client_heap s !! c = Some v
                             /\ Client.win v = w /\ r = Client.mon v)
                \/ ((forall c v, managed s c -> Plug.client_heap s !! c = Some v ->
                       Client.win v <> w)
                    /\ r = Plug.selmon s)))).
Proof.
  intros Hwf Hroot. unfold wintomon.
  rewrite (bind_step _ _ s (Plug.root s) s) by reflexivity.
  rewrite (bind_step _ _ s (Plug.xsrv s) s) by reflexivity.
  assert ((if w =? Plug.root s then XQueryPointer (Plug.xsrv s) else None) = None) as ->.
  { destruct Hroot as [-> | ->]; [reflexivity | destruct (w =? Plug.root s); reflexivity]. }
  rewrite (bind_step _ _ s (Plug.mons s) s) by reflexivity.
  rewrite (bind_step _ _ _ _ _
             (wintomon_bars w s (Plug.mons s) None (proj1 (proj2 (proj2 Hwf))))).
  destruct (List.find (has_barwin s w) (Plug.mons s)) as [m|] eqn:Ebar.
  - exists m. split; [reflexivity|]. left.
    apply find_elem_of in Ebar as [Hin Hbar]. unfold has_barwin in Hbar.
    destruct (Plug.mon_heap s !! m) as [mv|] eqn:Hmv; [|discriminate].
    exists mv. split; [exact Hin|]. split; [first [exact Hmv | reflexivity]|].
    cbn in Hbar. apply Z.eqb_eq in Hbar. congruence.
  - assert (forall m mv, m ∈ Plug.mons s -> Plug.mon_heap s !! m = Some mv ->
              Monitor.barwin mv <> w) as Hnobar.
    { intros m mv Hin Hmv Hw. apply list_elem_of_In in Hin.
      pose proof (List.find_none _ _ Ebar m Hin) as H. unfold has_barwin in H.
      rewrite Hmv in H. cbn in H. apply Z.eqb_neq in H. congruence. }
    rewrite (bind_step _ _ _ _ _ (wintoclient_run w s Hwf)).
    destruct (List.find (has_window s w) (managed_list s)) as [c|] eqn:Ewin.
    + apply find_elem_of in Ewin as [Hin Hw]. unfold has_window in Hw.
      destruct (Plug.client_heap s !! c) as [v|] eqn:Hv; [|discriminate].
      rewrite (bind_step _ _ _ _ _ (run_client _ _ _ Hv)).
      exists (Client.mon v). split; [reflexivity|]. right. split; [exact Hnobar|]. left.
      exists c, v. split; [apply managed_list_spec, Hin|]. split; [first [exact Hv | reflexivity]|].
      split; [apply Z.eqb_eq, Hw | reflexivity].
    + exists (Plug.selmon s). split; [reflexivity|]. right. split; [exact Hnobar|]. right.
      split; [|reflexivity]. intros c v Hman Hv Hw.
      apply managed_list_spec, list_elem_of_In in Hman.
      pose proof (List.find_none _ _ Ewin c Hman) as H. unfold has_window in H.
      rewrite Hv in H. cbn in H. apply Z.eqb_neq in H. contradiction.
Qed.

Lemma wintomon_owner_witness :
  exists r, wintomon 901 two_monitor_state = Some (r, two_monitor_state)
    /\ ((exists rv, r ∈ Plug.mons two_monitor_state
                    /\ Plug.mon_heap two_monitor_state !! r = Some rv
                    /\ Monitor.barwin rv = 901)
        \/ ((forall m mv, m ∈ Plug.mons two_monitor_state ->
               Plug.mon_heap two_monitor_state !! m = Some mv -> Monitor.barwin mv <> 901)
            /\ ((exists c v, managed two_monitor_state c
                             /\ Plug.client_heap two_monitor_state !! c = Some v
                             /\ Client.win v = 901 /\ r = Client.mon v)
                \/ ((forall c v, managed two_monitor_state c ->
                       Plug.client_heap two_monitor_state !! c = Some v ->
                       Client.win v <> 901)
                    /\ r = Plug.selmon two_monitor_state)))).
Proof.
  apply (wintomon_owner 901 two_monitor_state).
  - apply wfb_spec. vm_compute. reflexivity.
  - left. reflexivity.
Defined.

Lemma find_none_of {A} (p : A -> bool) l :
  (forall x, x ∈ l -> p x = false) -> List.find p l = None.
Proof.
  induction l as [|x l IH]; intros H; simpl; [reflexivity|].
  rewrite (H x) by left. apply IH. intros y Hy. apply H. right. exact Hy.
Qed.

Lemma wintoclient_none w s :
  wf s ->
  (forall c v, managed s c -> Plug.client_heap s !! c = Some v -> Client.win v <> w) ->
  wintoclient w s = Some (None, s).
Proof.
  intros Hwf Hno. rewrite (wintoclient_run w s Hwf). f_equal. f_equal.
  apply find_none_of. intros c Hc. unfold has_window.
  destruct (Plug.client_heap s !! c) as [v|] eqn:Hv; [|reflexivity]. cbn.
  apply Z.eqb_neq. apply (Hno c v); [apply managed_list_spec, Hc | exact Hv].
Qed.

(** X5. A ConfigureRequest for a window that no managed client has is
    passed on to the server as it came (same mask, same values), followed
    by a sync; nothing else is written. *)
Theorem configurerequest_unmanaged ev s :
  wf s ->
  (forall c v, managed s c -> Plug.client_heap s !! c = Some v ->
     Client.win v <> cr_window ev) ->
  configurerequest ev s
  = Some (tt, Plug.set_xlog
                (Plug.xlog s ++
                 [EvConfigureWindow (cr_window ev) (cr_value_mask ev) (cr_x ev) (cr_y ev)
                    (cr_width ev) (cr_height ev) (cr_border_width ev) (cr_above ev)
                    (cr_detail ev);
                  EvSync]) s).
Proof.
  intros Hwf Hno. unfold configurerequest.
  rewrite (bind_step _ _ _ _ _ (wintoclient_none _ s Hwf Hno)).
  unfold emit, modify, mbind, M_bind, bind. cbn. rewrite <- app_assoc. reflexivity.
Qed.

Lemma configurerequest_unmanaged_witness :
  configurerequest (mkConfigureRequest 555 1 2 30 40 0 0 0 (Z.lor CWX CWWidth)) sample_state
  = Some (tt, Plug.set_xlog
                [EvConfigureWindow 555 (Z.lor CWX CWWidth) 1 2 30 40 0 0 0; EvSync]
                sample_state).
Proof.
  apply (configurerequest_unmanaged
           (mkConfigureRequest 555 1 2 30 40 0 0 0 (Z.lor CWX CWWidth)) sample_state).
  - apply wfb_spec. vm_compute. reflexivity.
  - intros c v Hman Hv. apply managed_list_spec in Hman. vm_compute in Hman.
    apply elem_of_cons in Hman as [->|Hman];
      [|apply elem_of_cons in Hman as [->|Hman]; [|inversion Hman]];
      vm_compute in Hv; injection Hv as <-; discriminate.
Defined.

(** ** The focus *)

Section Focus.

Variable cfg : Config.

(** X6. From a linked state, [focus(c)] returns and leaves a linked state
    with the same frame.  The selected monitor then selects the client the
    focus goes to: [c] if it is visible, otherwise the first visible client
    of the stack of the selected monitor, otherwise none.  That client is
    at the head of the stack of the selected monitor, which is its own. *)
Theorem focus_selects c s :
  linked s -> valid_pointer s c ->
  total (focus c) s (fun _ s' =>
    linked s' /\ frame s s'
    /\ exists mv', Plug.mon_heap s' !! Plug.selmon s' = Some mv'
         /\ Monitor.sel mv' = focus_target s c
         /\ forall f, focus_target s c = Some f ->
              visible_in s' f = true /\ head (Monitor.stack mv') = Some f
              /\ client_has f (fun v => Client.mon v = Plug.selmon s') s').
Proof.
  intros Hl Hc. pose proof (linked_wf _ Hl) as Hwf.
  destruct (focus_run c s Hwf Hc) as (s' & Hrun & Hwf' & Hfr & Hcase).
  exists tt, s'. split; [exact Hrun|].
  split; [exact (linked_focus c s s' Hl Hc Hrun)|]. split; [exact Hfr|].
  destruct (focus_target s c) as [f|] eqn:Et.
  - destruct Hcase as (v & mv & Hv & Hmv & Hsel & Hheap).
    exists (focused_monitor f mv). rewrite Hheap, Hsel, lookup_insert_eq.
    split; [reflexivity|]. split; [reflexivity|]. intros f' [= <-].
    split; [|split; [reflexivity|]].
    + rewrite (visible_in_frame _ _ _ Hfr). apply (focus_target_visible s c f Et).
    + destruct (frame_client _ _ _ _ Hfr Hv) as (v' & Hv' & Hcore).
      exists v'. split; [exact Hv' | apply mon_core, Hcore].
  - destruct Hcase as (mv & Hmv & Hsel & Hheap).
    exists (Monitor.set_sel None mv). rewrite Hheap, Hsel, lookup_insert_eq.
    split; [reflexivity|]. split; [reflexivity|]. intros f [=].
Qed.

End Focus.

Lemma focus_selects_witness :
  total (focus (Some 2%nat)) sample_state (fun _ s' =>
    linked s' /\ frame sample_state s'
    /\ exists mv', Plug.mon_heap s' !! Plug.selmon s' = Some mv'
         /\ Monitor.sel mv' = focus_target sample_state (Some 2%nat)
         /\ forall f, focus_target sample_state (Some 2%nat) = Some f ->
              visible_in s' f = true /\ head (Monitor.stack mv') = Some f
              /\ client_has f (fun v => Client.mon v = Plug.selmon s') s').
Proof.
  apply (focus_selects (Some 2%nat) sample_state).
  - apply linkedb_spec. vm_compute. reflexivity.
  - intros c [= <-]. eexists. vm_compute. reflexivity.
Defined.

(** The end of [enternotify] and of other handlers: the focus goes to a
    visible client, its window is raised and its state set. *)
Lemma focus_raise_run c w st s :
  linked s -> visible_in s c = true ->
  total (focus (Some c);; emit (EvRaiseWindow w);; setclientstate (Some c) st) s
    (fun _ s' =>
       linked s'
       /\ exists mv', Plug.mon_heap s' !! Plug.selmon s' = Some mv'
            /\ Monitor.sel mv' = Some c
            /\ client_has c (fun v => Client.mon v = Plug.selmon s') s').
Proof.
  intros Hl Hvis. pose proof (linked_wf _ Hl) as Hwf.
  pose proof (visible_in_valid _ _ Hvis) as Hvalid.
  assert (valid_pointer s (Some c)) as Hc by (intros d [= <-]; exact Hvalid).
  destruct (focus_run (Some c) s Hwf Hc) as (s1 & Hrun & Hwf1 & Hfr & Hcase).
  pose proof (linked_focus _ _ _ Hl Hc Hrun) as Hl1.
  rewrite (focus_target_of_visible _ _ Hvis) in Hcase.
  destruct Hcase as (v & mv & Hv & Hmv & Hsel & Hheap).
  destruct (frame_client _ _ _ _ Hfr Hv) as (v1 & Hv1 & Hcore).
  destruct (run_still (emit (EvRaiseWindow w);; setclientstate (Some c) st) s1 Hwf1)
    as ([] & s2 & Hrun2 & Hst2 & Hwf2).
  { apply defined_bind; [apply defined_emit | apply post_emit].
    apply defined_setclientstate. eexists. exact Hv1. }
  { still_pres. }
  exists tt, s2. split.
  { rewrite (bind_step _ _ _ _ _ Hrun). exact Hrun2. }
  split; [eapply linked_still; eassumption|].
  destruct Hst2 as (Hfr2 & Hmh2 & Hsm2 & _).
  exists (focused_monitor c mv). rewrite Hmh2, Hsm2, Hheap, Hsel, lookup_insert_eq.
  split; [reflexivity|]. split; [reflexivity|].
  destruct (frame_client _ _ _ _ Hfr2 Hv1) as (v2 & Hv2 & Hcore2).
  exists v2. split; [exact Hv2|]. rewrite (mon_core _ _ Hcore2). apply mon_core, Hcore.
Qed.

(** X7. An EnterNotify that passes the first test, on the window of a
    managed client that is visible: the handler returns; afterwards the
    monitor of the client is the selected one and selects the client; the
    state stays linked. *)
Theorem enternotify_focuses ev s c :
  linked s ->
  ((negb (xc_mode ev =? NotifyNormal) || (xc_detail ev =? NotifyInferior))
   && negb (xc_window ev =? Plug.root s)) = false ->
  wintoclient (xc_window ev) s = Some (Some c, s) ->
  visible_in s c = true ->
  total (enternotify ev) s (fun _ s' =>
    linked s'
    /\ exists mv', Plug.mon_heap s' !! Plug.selmon s' = Some mv'
         /\ Monitor.sel mv' = Some c
         /\ client_has c (fun v => Client.mon v = Plug.selmon s') s').
Proof.
  intros Hl Hpass Hc Hvis. pose proof (linked_wf _ Hl) as Hwf.
  destruct (visible_in_valid _ _ Hvis) as [v Hv].
  destruct (proj2 (proj2 (proj2 Hwf))) as [smv Hsmv].
  unfold total, enternotify.
  rewrite (bind_step _ _ s (Plug.root s) s) by reflexivity. rewrite Hpass.
  rewrite (bind_step _ _ _ _ _ Hc).
  rewrite (bind_step _ _ s (Client.mon v) s)
    by (rewrite (bind_step _ _ _ _ _ (run_client _ _ _ Hv)); reflexivity).
  rewrite (bind_step _ _ s (Plug.selmon s) s) by reflexivity.
  destruct (bool_decide (Client.mon v = Plug.selmon s)) eqn:Emon; cbn [negb].
  - apply bool_decide_eq_true_1 in Emon.
    rewrite (bind_step _ _ _ _ _ (run_monitor _ _ _ Hsmv)).
    destruct (bool_decide (Some c = Monitor.sel smv)) eqn:Esel.
    + apply bool_decide_eq_true_1 in Esel. exists tt, s. split; [reflexivity|].
      split; [exact Hl|]. exists smv. split; [exact Hsmv|]. split; [congruence|].
      exists v. split; [exact Hv | exact Emon].
    + apply (focus_raise_run c (xc_window ev) NormalState s Hl Hvis).
  - rewrite (bind_step _ _ _ _ _ (run_monitor _ _ _ Hsmv)).
    destruct (run_still (unfocus (Monitor.sel smv) 1) s Hwf)
      as ([] & s1 & Hrun1 & Hst1 & Hwf1).
    { apply defined_unfocus; [exact Hwf | eapply wf_monitor_sel; eassumption]. }
    { apply still_unfocus. }
    rewrite (bind_step _ _ _ _ _ Hrun1).
    set (s2 := Plug.set_selmon (Client.mon v) s1).
    rewrite (bind_step _ _ s1 tt s2) by reflexivity.
    assert (linked s2) as Hl2.
    { apply linked_set_selmon; [eapply linked_still; eassumption|].
      eapply shape_valid_monitor; [apply still_shape, Hst1|].
      eapply wf_client_monitor; eassumption. }
    assert (visible_in s2 c = true) as Hvis2.
    { rewrite <- Hvis. apply (visible_in_frame s s2).
      transitivity s1; [apply Hst1 | repeat split]. }
    apply (focus_raise_run c (xc_window ev) NormalState s2 Hl2 Hvis2).
Qed.

Lemma enternotify_focuses_witness :
  total (enternotify (mkCrossing 102 NotifyNormal 0)) sample_state (fun _ s' =>
    linked s'
    /\ exists mv', Plug.mon_heap s' !! Plug.selmon s' = Some mv'
         /\ Monitor.sel mv' = Some 2%nat
         /\ client_has 2%nat (fun v => Client.mon v = Plug.selmon s') s').
Proof.
  apply (enternotify_focuses (mkCrossing 102 NotifyNormal 0) sample_state 2%nat).
  - apply linkedb_spec. vm_compute. reflexivity.
  - reflexivity.
  - vm_compute. reflexivity.
  - vm_compute. reflexivity.
Defined.

(** ** The lists of a monitor *)

(** X8. From a linked state, [detachstack(c)] returns; it takes [c] off
    the stack of its monitor and keeps the other clients there in their
    order; if [c] was the selection, the first visible client left on the
    stack is selected, or none; otherwise the selection stays.  In no case
    is [c] left selected.  Nothing else is written. *)
Theorem detachstack_unselects c s v mv :
  linked s ->
  Plug.client_heap s !! c = Some v ->
  Plug.mon_heap s !! Client.mon v = Some mv ->
  total (detachstack c) s (fun _ s' =>
    exists mv',
      s' = Plug.set_mon_heap (<[Client.mon v := mv']> (Plug.mon_heap s)) s
      /\ Monitor.stack mv' = List.filter (fun d => negb (bool_decide (d = c))) (Monitor.stack mv)
      /\ Monitor.clients mv' = Monitor.clients mv
      /\ Monitor.sel mv' <> Some c
      /\ (Monitor.sel mv <> Some c -> Monitor.sel mv' = Monitor.sel mv)
      /\ (Monitor.sel mv = Some c ->
          Monitor.sel mv' = List.find (visible_in s) (Monitor.stack mv'))).
Proof.
  intros Hl Hv Hmv. pose proof (linked_wf _ Hl) as Hwf.
  apply total_intro; [apply defined_detachstack; [exact Hwf | eexists; exact Hv]|].
  apply post_detachstack. intros v' mv0 Hv' Hmv'.
  rewrite Hv in Hv'. injection Hv' as <-. rewrite Hmv in Hmv'. injection Hmv' as <-.
  destruct (proj1 (proj2 (proj2 (proj2 Hl))) _ _ Hmv) as (_ & L2 & _ & _ & L5).
  exists (detachstack_monitor s c mv). split; [reflexivity|].
  assert (unlink c (Monitor.stack mv)
          = List.filter (fun d => negb (bool_decide (d = c))) (Monitor.stack mv)) as Hfilter.
  { clear L5. induction (Monitor.stack mv) as [|d l IH]; simpl; [reflexivity|].
    apply NoDup_cons in L2 as [Hd L2].
    destruct (decide (d = c)) as [->|Hne].
    - rewrite bool_decide_eq_true_2 by reflexivity. cbn.
      rewrite <- (IH L2). symmetry. apply unlink_not_elem_of, Hd.
    - rewrite bool_decide_eq_false_2 by exact Hne. cbn. rewrite (IH L2). reflexivity. }
  unfold detachstack_monitor.
  destruct (bool_decide (Monitor.sel mv = Some c)) eqn:Esel; cbn.
  - apply bool_decide_eq_true_1 in Esel.
    split; [exact Hfilter|]. split; [reflexivity|]. split; [|split].
    + intros Hfind. apply find_elem_of in Hfind as [Hin _].
      apply (unlink_elem_of _ _ _ L2) in Hin as [_ Hne]. apply Hne. reflexivity.
    + intros Hne. contradiction.
    + intros _. reflexivity.
  - apply bool_decide_eq_false_1 in Esel.
    split; [exact Hfilter|]. split; [reflexivity|]. split; [exact Esel|].
    split; [reflexivity | intros H; contradiction].
Qed.

Lemma detachstack_unselects_witness :
  total (detachstack 1%nat) sample_state (fun _ s' =>
    exists mv',
      s' = Plug.set_mon_heap (<[0%nat := mv']> (Plug.mon_heap sample_state)) sample_state
      /\ Monitor.stack mv' = [2%nat]
      /\ Monitor.sel mv' <> Some 1%nat).
Proof.
  destruct (detachstack_unselects 1%nat sample_state
              (sample_client 101 0 20 958 1058 0) sample_monitor)
    as (u & s' & Hrun & mv' & Hs & Hst & _ & Hsel & _).
  - apply linkedb_spec. vm_compute. reflexivity.
  - vm_compute. reflexivity.
  - vm_compute. reflexivity.
  - exists u, s'. split; [exact Hrun|]. exists mv'. split; [exact Hs|].
    split; [exact Hst | exact Hsel].
Defined.

(** ** The client list *)

Lemma detach_run c s v mv :
  Plug.client_heap s !! c = Some v -> Plug.mon_heap s !! Client.mon v = Some mv ->
  detach c s
  = Some (tt, Plug.set_mon_heap
                (<[Client.mon v := Monitor.set_clients (unlink c (Monitor.clients mv)) mv]>
                   (Plug.mon_heap s)) s).
Proof.
  intros Hv Hmv. unfold detach. rewrite (bind_step _ _ _ _ _ (run_client _ _ _ Hv)).
  exact (run_upd_monitor _ (fun m => Monitor.set_clients (unlink c (Monitor.clients m)) m)
           s mv Hmv).
Qed.

Lemma attach_run c s v mv :
  Plug.client_heap s !! c = Some v -> Plug.mon_heap s !! Client.mon v = Some mv ->
  attach c s
  = Some (tt, Plug.set_mon_heap
                (<[Client.mon v := Monitor.set_clients (c :: Monitor.clients mv) mv]>
                   (Plug.mon_heap s)) s).
Proof.
  intros Hv Hmv. unfold attach. rewrite (bind_step _ _ _ _ _ (run_client _ _ _ Hv)).
  exact (run_upd_monitor _ (fun m => Monitor.set_clients (c :: Monitor.clients m) m)
           s mv Hmv).
Qed.

Lemma attachstack_run c s v mv :
  Plug.client_heap s !! c = Some v -> Plug.mon_heap s !! Client.mon v = Some mv ->
  attachstack c s
  = Some (tt, Plug.set_mon_heap
                (<[Client.mon v := Monitor.set_stack (c :: Monitor.stack mv) mv]>
                   (Plug.mon_heap s)) s).
Proof.
  intros Hv Hmv. unfold attachstack. rewrite (bind_step _ _ _ _ _ (run_client _ _ _ Hv)).
  exact (run_upd_monitor _ (fun m => Monitor.set_stack (c :: Monitor.stack m) m)
           s mv Hmv).
Qed.

(** Visibility reads the tags of the client and the selected tag set of
    its monitor, nothing else. *)
Lemma visible_in_upd_monitor s m mv mv' c :
  Plug.mon_heap s !! m = Some mv ->
  tagset mv' (Monitor.seltags mv') = tagset mv (Monitor.seltags mv) ->
  visible_in (Plug.set_mon_heap (<[m := mv']> (Plug.mon_heap s)) s) c = visible_in s c.
Proof.
  intros Hmv Ht. unfold visible_in. cbn.
  destruct (Plug.client_heap s !! c) as [v|]; [|reflexivity].
  destruct (decide (m = Client.mon v)) as [E|Hne].
  - rewrite <- E. rewrite lookup_insert_eq, Hmv. unfold visible. rewrite Ht. reflexivity.
  - rewrite lookup_insert_ne by assumption. reflexivity.
Qed.

Lemma unlink_filter c l :
  NoDup l -> unlink c l = List.filter (fun d => negb (bool_decide (d = c))) l.
Proof.
  induction l as [|d l IH]; simpl; [reflexivity|]. intros Hnd.
  apply NoDup_cons in Hnd as [Hd Hnd].
  destruct (decide (d = c)) as [->|Hne].
  - rewrite bool_decide_eq_true_2 by reflexivity. cbn.
    rewrite <- (IH Hnd). symmetry. apply unlink_not_elem_of, Hd.
  - rewrite bool_decide_eq_false_2 by exact Hne. cbn. rewrite (IH Hnd). reflexivity.
Qed.

Section Pop.

Variable cfg : Config.

Lemma pop_run c s v mv :
  linked s -> hints_safe s ->
  Plug.client_heap s !! c = Some v ->
  Plug.mon_heap s !! Client.mon v = Some mv ->
  exists s' mv',
    pop cfg c s = Some (tt, s') /\ linked s'
    /\ Plug.mon_heap s' !! Client.mon v = Some mv'
    /\ Monitor.clients mv' = c :: unlink c (Monitor.clients mv)
    /\ (forall d, client_core <$> Plug.client_heap s' !! d
                  = client_core <$> Plug.client_heap s !! d)
    /\ (forall m, m <> Client.mon v ->
          Monitor.clients <$> Plug.mon_heap s' !! m
          = Monitor.clients <$> Plug.mon_heap s !! m)
    /\ (visible_in s c = true ->
        Plug.selmon s' = Client.mon v /\ Monitor.sel mv' = Some c
        /\ head (Monitor.stack mv') = Some c).
Proof.
  intros Hl Hsafe Hv Hmv. pose proof (linked_wf _ Hl) as Hwf.
  set (m := Client.mon v) in *.
  set (mv1 := Monitor.set_clients (unlink c (Monitor.clients mv)) mv).
  set (s1 := Plug.set_mon_heap (<[m := mv1]> (Plug.mon_heap s)) s).
  set (mv2 := Monitor.set_clients (c :: Monitor.clients mv1) mv1).
  set (s2 := Plug.set_mon_heap (<[m := mv2]> (Plug.mon_heap s)) s).
  assert (Plug.mon_heap s1 !! m = Some mv1) as Hmv1.
  { unfold s1. cbn. apply lookup_insert_eq. }
  assert (attach c s1 = Some (tt, s2)) as Hatt.
  { rewrite (attach_run c s1 v mv1 Hv Hmv1). unfold s2, s1. cbn.
    fold m mv2. rewrite insert_insert_eq. reflexivity. }
  destruct (proj1 (proj2 (proj2 (proj2 Hl))) _ _ Hmv) as (L1 & L2 & L3 & L4 & L5).
  destruct (linked_attached _ _ _ Hl Hv) as (mv0 & Hmv0 & Hin & Hst).
  fold m in Hmv0. rewrite Hmv in Hmv0. injection Hmv0 as <-.
  assert (forall d, d ∈ c :: unlink c (Monitor.clients mv) <-> d ∈ Monitor.clients mv) as Hsame.
  { intros d. rewrite elem_of_cons, (unlink_elem_of _ _ _ L1). split.
    - intros [->|[H _]]; assumption.
    - intros H. destruct (decide (d = c)) as [->|Hne]; [left; reflexivity | right; auto]. }
  assert (wf s2) as Hwf2.
  { eapply wf_upd_monitor; [exact Hwf | exact Hmv | | |].
    - intros d Hd. change (d ∈ c :: unlink c (Monitor.clients mv)) in Hd.
      apply Hsame in Hd. eapply wf_monitor_clients; eassumption.
    - exact (wf_monitor_stack _ _ _ Hwf Hmv).
    - exact (wf_monitor_sel _ _ _ Hwf Hmv). }
  assert (linked s2) as Hl2.
  { apply (linked_upd_lists s s2 m mv mv2 Hl Hwf2).
    - intros d. reflexivity.
    - reflexivity.
    - exact Hmv.
    - reflexivity.
    - cbn. apply NoDup_cons. split; [|apply unlink_NoDup, L1].
      rewrite (unlink_elem_of _ _ _ L1). intros [_ H]. apply H. reflexivity.
    - exact Hsame.
    - exact L2.
    - intros d. reflexivity.
    - exact L5. }
  assert (valid_pointer s2 (Some c)) as Hc2.
  { intros d [= <-]. exists v. exact Hv. }
  destruct (focus_run (Some c) s2 Hwf2 Hc2) as (s3 & Hfocus & Hwf3 & Hfr & Hcase).
  pose proof (linked_focus _ _ _ Hl2 Hc2 Hfocus) as Hl3.
  assert (Plug.client_heap s2 !! c = Some v) as Hv2 by exact Hv.
  destruct (frame_client _ _ _ _ Hfr Hv2) as (v3 & Hv3 & Hcore3).
  assert (Client.mon v3 = m) as Hm3 by (apply mon_core, Hcore3).
  assert (Plug.mon_heap s2 !! m = Some mv2) as Hmv2.
  { unfold s2. cbn. apply lookup_insert_eq. }
  destruct (frame_monitor _ _ _ _ Hfr Hmv2) as (mv3 & Hmv3 & Hmcore3).
  assert (valid_monitor s3 m) as Hvm3 by (eexists; exact Hmv3).
  assert (hints_safe s3) as Hsafe3
    by exact (hints_safe_run _ _ _ _ (hinted_focus _) Hfocus Hsafe).
  destruct (defined_arrange_mon cfg m s3 Hwf3 Hsafe3 Hvm3) as [[[] s4] Harr].
  pose proof (frame_arrange cfg _ _ _ _ Harr) as Hfr4.
  pose proof (shape_arrange cfg _ _ _ _ Harr) as Hsh4.
  destruct (frame_monitor _ _ _ _ Hfr4 Hmv3) as (mv4 & Hmv4 & Hmcore4).
  exists s4, mv4. split; [|split; [|split; [|split; [|split; [|split]]]]].
  - unfold pop.
    rewrite (bind_step _ _ _ _ _ (detach_run c s v mv Hv Hmv)).
    fold m mv1 s1. rewrite (bind_step _ _ _ _ _ Hatt).
    rewrite (bind_step _ _ _ _ _ Hfocus).
    rewrite (bind_step _ _ _ _ _ (run_client _ _ _ Hv3)).
    rewrite Hm3. exact Harr.
  - eapply linked_shape; eassumption.
  - exact Hmv4.
  - rewrite (clients_core _ _ Hmcore4), (clients_core _ _ Hmcore3). reflexivity.
  - intros d. destruct Hfr4 as (F4 & _). destruct Hfr as (F3 & _).
    rewrite F4, F3. reflexivity.
  - intros m0 Hne. destruct Hfr4 as (_ & F4 & _). destruct Hfr as (_ & F3 & _).
    specialize (F4 m0). specialize (F3 m0).
    assert (Plug.mon_heap s2 !! m0 = Plug.mon_heap s !! m0) as E.
    { unfold s2. cbn. apply lookup_insert_ne. congruence. }
    rewrite E in F3.
    destruct (Plug.mon_heap s4 !! m0) as [a4|], (Plug.mon_heap s3 !! m0) as [a3|],
      (Plug.mon_heap s !! m0) as [a|]; cbn in *; try discriminate; try reflexivity.
    f_equal. transitivity (Monitor.clients a3); apply clients_core; congruence.
  - intros Hvis.
    assert (visible_in s2 c = true) as Hvis2.
    { unfold s2. rewrite (visible_in_upd_monitor s m mv mv2 c Hmv); [exact Hvis | reflexivity]. }
    rewrite (focus_target_of_visible _ _ Hvis2) in Hcase.
    destruct Hcase as (v' & mv' & Hv' & Hmv' & Hsel & Hheap).
    rewrite Hv2 in Hv'. injection Hv' as <-. fold m in Hmv', Hsel, Hheap.
    rewrite Hmv2 in Hmv'. injection Hmv' as <-.
    rewrite Hheap, lookup_insert_eq in Hmv3. injection Hmv3 as <-.
    destruct (shape_monitor _ _ _ _ Hsh4 Hmv4) as (mv3' & Hmv3' & Hshape).
    rewrite Hheap, lookup_insert_eq in Hmv3'. injection Hmv3' as <-.
    unfold monitor_shape in Hshape. injection Hshape as E1 E2 E3.
    destruct Hsh4 as (_ & _ & _ & Hselmon).
    split; [rewrite Hselmon; exact Hsel|]. split; [rewrite E3; reflexivity|].
    rewrite E2. reflexivity.
Qed.

(** X9. From a linked state none of whose size increments traps,
    [pop(c)] returns and leaves a linked state in which [c] is the first
    client of its monitor, followed by the other clients of that monitor
    in the order they had; every client keeps its fullscreen, floating and
    minimized flags, its border widths, saved floating state, tags,
    monitor, window and name (its urgency flag and its size hints, with
    the flag of a fixed size, may change), and the client lists of the
    other monitors are as before.  A visible [c] is then the selection of
    its monitor, which is the selected monitor, and heads the focus
    stack. *)
Theorem pop_moves_to_front c s v mv :
  linked s -> hints_safe s ->
  Plug.client_heap s !! c = Some v ->
  Plug.mon_heap s !! Client.mon v = Some mv ->
  total (pop cfg c) s (fun _ s' =>
    linked s'
    /\ exists mv',
        Plug.mon_heap s' !! Client.mon v = Some mv'
        /\ Monitor.clients mv'
           = c :: List.filter (fun d => negb (bool_decide (d = c))) (Monitor.clients mv)
        /\ (forall d, client_core <$> Plug.client_heap s' !! d
                      = client_core <$> Plug.client_heap s !! d)
        /\ (forall m, m <> Client.mon v ->
              Monitor.clients <$> Plug.mon_heap s' !! m
              = Monitor.clients <$> Plug.mon_heap s !! m)
        /\ (visible_in s c = true ->
            Plug.selmon s' = Client.mon v /\ Monitor.sel mv' = Some c
            /\ head (Monitor.stack mv') = Some c)).
Proof.
  intros Hl Hsafe Hv Hmv.
  destruct (pop_run c s v mv Hl Hsafe Hv Hmv)
    as (s' & mv' & Hrun & Hl' & Hmv' & Hcl & Hcore & Hoth & Hvis).
  exists tt, s'. split; [exact Hrun|]. split; [exact Hl'|].
  exists mv'. split; [exact Hmv'|]. split; [|auto].
  rewrite Hcl. f_equal. apply unlink_filter.
  exact (proj1 (proj1 (proj2 (proj2 (proj2 Hl))) _ _ Hmv)).
Qed.

End Pop.

Lemma pop_moves_to_front_witness :
  total (pop sample_cfg 2%nat) sample_state (fun _ s' =>
    exists mv', Plug.mon_heap s' !! 0%nat = Some mv'
                /\ Monitor.clients mv' = [2%nat; 1%nat]).
Proof.
  destruct (pop_moves_to_front sample_cfg 2%nat sample_state
              (sample_client 102 960 20 958 1058 0) sample_monitor)
    as (u & s' & Hrun & _ & mv' & Hmv' & Hcl & _).
  - apply linkedb_spec. vm_compute. reflexivity.
  - apply hints_safeb_spec. vm_compute. reflexivity.
  - vm_compute. reflexivity.
  - vm_compute. reflexivity.
  - exists u, s'. split; [exact Hrun|]. exists mv'. split; [exact Hmv' | exact Hcl].
Defined.

(** ** [zoom] *)

Lemma tiled_run c s :
  wf s -> valid_client s c -> tiled c s = Some (tiled_pure s c, s).
Proof.
  intros Hwf Hc. destruct (defined_tiled c s Hwf Hc) as [[b s'] Hrun].
  destruct (post_tiled c s _ _ Hrun) as [-> ->]. exact Hrun.
Qed.

Lemma nexttiled_run s : forall l,
  wf s -> valid_clients s l ->
  nexttiled l s = Some (dropwhile_untiled s l, s).
Proof.
  induction l as [|c l IH]; intros Hwf Hl; [reflexivity|].
  apply valid_clients_cons in Hl as [Hc Hl].
  cbn [nexttiled dropwhile_untiled].
  rewrite (bind_step _ _ _ _ _ (tiled_run c s Hwf Hc)).
  destruct (tiled_pure s c); [reflexivity | apply IH; assumption].
Qed.

Lemma dropwhile_untiled_filter s l :
  match dropwhile_untiled s l with
  | [] => List.filter (tiled_pure s) l = []
  | d :: next => List.filter (tiled_pure s) l = d :: List.filter (tiled_pure s) next
                 /\ d ∈ l /\ (forall e, e ∈ next -> e ∈ l)
  end.
Proof.
  induction l as [|c l IH]; cbn; [reflexivity|].
  destruct (tiled_pure s c) eqn:E.
  - split; [reflexivity|]. split; [left | intros e He; right; exact He].
  - destruct (dropwhile_untiled s l) as [|d next]; [exact IH|].
    destruct IH as (IH1 & IH2 & IH3).
    split; [exact IH1|]. split; [right; exact IH2 | intros e He; right; auto].
Qed.

Section Zoom.

Variable cfg : Config.

(** X10. [zoom] on a linked state none of whose size increments traps,
    whose selected monitor has an arranging layout and a selection [c]
    that does not float: it returns, and the client it
    promotes is [c], or, when [c] already is the first tiled client of the
    monitor, the second tiled one.  That client becomes the first client
    of the monitor, before the others in their order; with [c] the only
    tiled client the state is left as it is. *)
Theorem zoom_promotes s smv c v :
  linked s -> hints_safe s ->
  Plug.mon_heap s !! Plug.selmon s = Some smv ->
  is_Some (arrange_fn (lt smv (Monitor.sellt smv))) ->
  Monitor.sel smv = Some c ->
  Plug.client_heap s !! c = Some v ->
  Client.isfloating v = 0 ->
  total (zoom cfg) s (fun _ s' =>
    match zoom_target s smv c with
    | Some t =>
        linked s'
        /\ exists mv',
            Plug.mon_heap s' !! Plug.selmon s = Some mv'
            /\ Monitor.clients mv'
               = t :: List.filter (fun d => negb (bool_decide (d = t))) (Monitor.clients smv)
    | None => s' = s
    end).
Proof.
  intros Hl Hsafe Hsm Harr Hsel Hv Hfl. pose proof (linked_wf _ Hl) as Hwf.
  destruct (proj1 (proj2 (proj2 (proj2 Hl))) _ _ Hsm) as (L1 & L2 & L3 & L4 & L5).
  assert (forall d, d ∈ Monitor.clients smv ->
            exists dv, Plug.client_heap s !! d = Some dv /\ Client.mon dv = Plug.selmon s)
    as Hon.
  { intros d Hd. destruct (wf_monitor_clients _ _ _ Hwf Hsm d Hd) as [dv Hdv].
    exists dv. split; [exact Hdv | exact (L4 d dv Hd Hdv)]. }
  assert (forall t, t ∈ Monitor.clients smv ->
    total (pop cfg t) s (fun _ s' =>
      linked s'
      /\ exists mv',
          Plug.mon_heap s' !! Plug.selmon s = Some mv'
          /\ Monitor.clients mv'
             = t :: List.filter (fun d => negb (bool_decide (d = t))) (Monitor.clients smv)))
    as Hpop.
  { intros t Ht. destruct (Hon t Ht) as (tv & Htv & Hmon).
    rewrite <- Hmon in Hsm.
    destruct (pop_run cfg t s tv smv Hl Hsafe Htv Hsm)
      as (s' & mv' & Hrun & Hl' & Hmv' & Hcl & _).
    exists tt, s'. split; [exact Hrun|]. split; [exact Hl'|].
    exists mv'. rewrite <- Hmon. split; [exact Hmv'|].
    rewrite Hcl. f_equal. apply unlink_filter, L1. }
  assert (c ∈ Monitor.clients smv) as Hc by (apply L3, L5, Hsel).
  pose proof (wf_monitor_clients _ _ _ Hwf Hsm) as Hvalid.
  unfold total, zoom.
  rewrite (bind_step _ _ s (Plug.selmon s) s) by reflexivity.
  rewrite (bind_step _ _ _ _ _ (run_monitor _ _ _ Hsm)).
  rewrite (bool_decide_eq_true_2 _ Harr). cbn [negb]. cbv iota.
  rewrite Hsel. rewrite (bind_step _ _ _ _ _ (run_client _ _ _ Hv)).
  rewrite Hfl. change (truthy 0) with false. cbv iota.
  rewrite (bind_step _ _ _ _ _ (nexttiled_run s _ Hwf Hvalid)).
  unfold zoom_target.
  pose proof (dropwhile_untiled_filter s (Monitor.clients smv)) as Hdrop.
  destruct (dropwhile_untiled s (Monitor.clients smv)) as [|d next].
  - rewrite Hdrop. cbn [head]. rewrite bool_decide_eq_false_2 by discriminate.
    apply Hpop, Hc.
  - destruct Hdrop as (Hfilter & Hd & Hnext). rewrite Hfilter. cbn [head].
    destruct (decide (d = c)) as [->|Hne].
    + rewrite !bool_decide_eq_true_2 by reflexivity.
      assert (valid_clients s next) as Hvnext by (intros e He; apply Hvalid, Hnext, He).
      rewrite (bind_step _ _ _ _ _ (nexttiled_run s _ Hwf Hvnext)).
      pose proof (dropwhile_untiled_filter s next) as Hdrop2.
      destruct (dropwhile_untiled s next) as [|c' next'].
      * rewrite Hdrop2. cbn. exists tt, s. split; reflexivity.
      * destruct Hdrop2 as (Hfilter2 & Hc' & _). rewrite Hfilter2. cbn [lookup list_lookup].
        apply Hpop, Hnext, Hc'.
    + rewrite bool_decide_eq_false_2 by exact Hne.
      rewrite bool_decide_eq_false_2 by congruence.
      apply Hpop, Hc.
Qed.

End Zoom.

Lemma zoom_promotes_witness :
  total (zoom sample_cfg) sample_state (fun _ s' =>
    exists mv', Plug.mon_heap s' !! 0%nat = Some mv'
                /\ Monitor.clients mv' = [2%nat; 1%nat]).
Proof.
  destruct (zoom_promotes sample_cfg sample_state sample_monitor 1%nat
              (sample_client 101 0 20 958 1058 0))
    as (u & s' & Hrun & H).
  - apply linkedb_spec. vm_compute. reflexivity.
  - apply hints_safeb_spec. vm_compute. reflexivity.
  - vm_compute. reflexivity.
  - vm_compute. eexists. reflexivity.
  - reflexivity.
  - vm_compute. reflexivity.
  - reflexivity.
  - exists u, s'. split; [exact Hrun|].
    assert (zoom_target sample_state sample_monitor 1%nat = Some 2%nat) as E
      by (vm_compute; reflexivity).
    rewrite E in H. destruct H as (_ & mv' & Hmv' & Hcl).
    exists mv'. split; [exact Hmv' | exact Hcl].
Defined.

(** ** The ring of monitors *)

Lemma next_monitor_lookup m : forall l i,
  NoDup l -> l !! i = Some m -> next_monitor m l = Some (l !! S i).
Proof.
  induction l as [|d l IH]; intros i Hnd Hi; [discriminate|].
  apply NoDup_cons in Hnd as [Hd Hnd]. cbn [next_monitor].
  destruct i as [|i]; cbn in Hi.
  - injection Hi as ->. rewrite decide_True by reflexivity.
    cbn. destruct l; reflexivity.
  - rewrite decide_False.
    + cbn. apply IH; assumption.
    + intros ->. apply Hd. eapply list_elem_of_lookup_2, Hi.
Qed.

Lemma last_monitor_run s : forall l,
  l <> [] -> (forall m, m ∈ l -> valid_monitor s m) ->
  exists m, last_monitor l s = Some (m, s) /\ l !! (length l - 1)%nat = Some m.
Proof.
  induction l as [|d l IH]; intros Hne Hval; [contradiction|].
  destruct (Hval d) as [dv Hdv]; [left|].
  cbn [last_monitor]. rewrite (bind_step _ _ _ _ _ (run_monitor _ _ _ Hdv)).
  destruct l as [|e l].
  - exists d. split; reflexivity.
  - destruct IH as (m & Hrun & Hm); [discriminate | intros ? ?; apply Hval; right; assumption|].
    exists m. split; [exact Hrun|]. cbn in Hm |- *. rewrite Nat.sub_0_r in Hm. exact Hm.
Qed.

Lemma monitor_before_run s sm : forall l i,
  NoDup l -> (forall m, m ∈ l -> valid_monitor s m) ->
  l !! S i = Some sm ->
  exists m, monitor_before sm l s = Some (m, s) /\ l !! i = Some m.
Proof.
  induction l as [|d l IH]; intros i Hnd Hval Hi; [discriminate|].
  apply NoDup_cons in Hnd as [Hd Hnd].
  destruct (Hval d) as [dv Hdv]; [left|].
  cbn [monitor_before]. rewrite (bind_step _ _ _ _ _ (run_monitor _ _ _ Hdv)).
  cbn in Hi. destruct i as [|i].
  - destruct l as [|e l]; [discriminate|]. cbn in Hi. injection Hi as ->.
    cbn [head]. rewrite bool_decide_eq_true_2 by reflexivity.
    exists d. split; reflexivity.
  - destruct l as [|e l]; [discriminate|].
    cbn [head]. rewrite bool_decide_eq_false_2.
    + destruct (IH i Hnd) as (m & Hrun & Hm);
        [intros ? ?; apply Hval; right; assumption | exact Hi|].
      exists m. split; [exact Hrun | exact Hm].
    + intros [= ->]. apply NoDup_cons in Hnd as [He _]. apply He.
      cbn in Hi. eapply list_elem_of_lookup_2, Hi.
Qed.

Lemma dirtomon_run dir s i :
  wf s -> NoDup (Plug.mons s) ->
  Plug.mons s !! i = Some (Plug.selmon s) ->
  dirtomon dir s
  = Some (Plug.mons s !! ring_step dir (length (Plug.mons s)) i, s).
Proof.
  intros Hwf Hnd Hi. pose proof Hwf as (_ & _ & Hmons & [smv Hsm]).
  pose proof (lookup_lt_Some _ _ _ Hi) as Hlt.
  unfold dirtomon, ring_step.
  rewrite (bind_step _ _ s (Plug.selmon s) s) by reflexivity.
  rewrite (bind_step _ _ s (Plug.mons s) s) by reflexivity.
  destruct (0 <? dir).
  - rewrite (bind_step _ _ _ _ _ (run_monitor _ _ _ Hsm)).
    rewrite (next_monitor_lookup _ _ _ Hnd Hi).
    rewrite (bind_step _ _ s (Plug.mons s !! S i) s) by reflexivity.
    destruct (decide (S i < length (Plug.mons s))%nat) as [Hin|Hout].
    + rewrite Nat.mod_small by exact Hin.
      destruct (lookup_lt_is_Some_2 _ _ Hin) as [m Hm]. rewrite Hm. reflexivity.
    + assert (S i = length (Plug.mons s)) as E by lia.
      rewrite lookup_ge_None_2 by lia. rewrite E, Nat.Div0.mod_same.
      rewrite head_lookup. reflexivity.
  - destruct (decide (i = 0%nat)) as [->|Hpos].
    + rewrite head_lookup, Hi. rewrite bool_decide_eq_true_2 by reflexivity.
      destruct (last_monitor_run s (Plug.mons s)) as (m & Hrun & Hm).
      * intros E. rewrite E in Hi. discriminate.
      * exact Hmons.
      * rewrite (bind_step _ _ _ _ _ Hrun).
        replace ((0 + length (Plug.mons s) - 1) mod length (Plug.mons s))%nat
          with (length (Plug.mons s) - 1)%nat
          by (symmetry; apply Nat.mod_small; lia).
        rewrite Hm. reflexivity.
    + rewrite bool_decide_eq_false_2.
      * destruct i as [|j]; [contradiction|].
        destruct (monitor_before_run s (Plug.selmon s) (Plug.mons s) j Hnd Hmons Hi)
          as (m & Hrun & Hm).
        rewrite (bind_step _ _ _ _ _ Hrun).
        replace ((S j + length (Plug.mons s) - 1) mod length (Plug.mons s))%nat with j.
        -- rewrite Hm. reflexivity.
        -- replace (S j + length (Plug.mons s) - 1)%nat
             with (j + 1 * length (Plug.mons s))%nat by lia.
           rewrite Nat.Div0.mod_add. symmetry. apply Nat.mod_small. lia.
      * rewrite head_lookup. intros E.
        assert (i = 0%nat); [|contradiction].
        eapply NoDup_lookup; eassumption.
Qed.

(** X11. On a linked state whose selected monitor is at position [i] of
    the [n] monitors, [dirtomon(dir)] writes nothing and returns the
    monitor at position [i + 1] for a positive [dir] and at [i - 1]
    otherwise, both modulo [n]: the list of monitors is walked as a
    ring. *)
Theorem dirtomon_ring dir s i :
  linked s ->
  Plug.mons s !! i = Some (Plug.selmon s) ->
  exists m,
    dirtomon dir s = Some (Some m, s)
    /\ Plug.mons s !! ring_step dir (length (Plug.mons s)) i = Some m.
Proof.
  intros Hl Hi. pose proof (linked_wf _ Hl) as Hwf.
  rewrite (dirtomon_run dir s i Hwf (proj1 (proj2 Hl)) Hi).
  pose proof (lookup_lt_Some _ _ _ Hi) as Hlt.
  destruct (lookup_lt_is_Some_2 (Plug.mons s)
              (ring_step dir (length (Plug.mons s)) i)) as [m Hm].
  - unfold ring_step. destruct (0 <? dir); apply Nat.mod_upper_bound; lia.
  - exists m. rewrite Hm. split; reflexivity.
Qed.

Lemma dirtomon_ring_witness :
  exists m, dirtomon (-1) two_monitor_state = Some (Some m, two_monitor_state)
            /\ Plug.mons two_monitor_state !! 1%nat = Some m.
Proof.
  apply (dirtomon_ring (-1) two_monitor_state 0%nat).
  - apply linkedb_spec. vm_compute. reflexivity.
  - vm_compute. reflexivity.
Defined.

(** ** Runs that write only the log *)

#[global] Instance calm_preorder : PreOrder calm.
Proof.
  split.
  - intros s. repeat split.
  - intros s1 s2 s3 (A1 & B1 & C1 & D1) (A2 & B2 & C2 & D2).
    split; [|split; [|split]]; congruence.
Qed.

Lemma calm_still s s' : calm s s' -> still s s'.
Proof.
  intros (A & B & C & D). split; [|split; [exact B | split; [exact C|]]].
  - split; [|split]; [intros c; rewrite A; reflexivity | intros m; rewrite B; reflexivity
                     | exact D].
  - apply hinted_same; [exact A | unfold plug_core in D; congruence].
Qed.

Lemma calm_emit e : preserves calm (emit e).
Proof. apply preserves_emit; tc_solve. intros s. repeat split. Qed.

Lemma calm_updatenumlockmask : preserves calm updatenumlockmask.
Proof.
  unfold updatenumlockmask. repeat pres_step.
  apply preserves_modify; tc_solve. intros s. repeat split.
Qed.

Lemma calm_grabbuttons c f : preserves calm (grabbuttons c f).
Proof.
  unfold grabbuttons. repeat pres_step;
    first [apply calm_updatenumlockmask | apply calm_emit].
Qed.

Lemma calm_unfocus c f : preserves calm (unfocus c f).
Proof.
  unfold unfocus. repeat pres_step; first [apply calm_grabbuttons | apply calm_emit].
Qed.

Lemma calm_visible_in s s' c : calm s s' -> visible_in s' c = visible_in s c.
Proof. intros (A & B & _). unfold visible_in. rewrite A, B. reflexivity. Qed.

Lemma unfocus_run c f s :
  wf s -> valid_pointer s c ->
  exists s1, unfocus c f s = Some (tt, s1) /\ calm s s1 /\ wf s1.
Proof.
  intros Hwf Hc. destruct (defined_unfocus c f s Hwf Hc) as [[[] s1] Hrun].
  exists s1. split; [exact Hrun|].
  pose proof (calm_unfocus c f _ _ _ Hrun) as Hcalm. split; [exact Hcalm|].
  eapply wf_shape; [exact Hwf | apply still_shape, calm_still, Hcalm].
Qed.

Lemma ring_step_moves dir n i : (i < n)%nat -> (1 < n)%nat -> ring_step dir n i <> i.
Proof.
  intros Hi Hn. unfold ring_step. destruct (0 <? dir).
  - destruct (decide (S i < n)%nat).
    + rewrite Nat.mod_small by assumption. lia.
    + replace (S i) with n by lia. rewrite Nat.Div0.mod_same. lia.
  - destruct i as [|j].
    + rewrite Nat.mod_small by lia. lia.
    + replace (S j + n - 1)%nat with (j + 1 * n)%nat by lia.
      rewrite Nat.Div0.mod_add, Nat.mod_small by lia. lia.
Qed.

Section FocusMon.

Variable cfg : Config.

(** X12. [focusmon(dir)] on a linked state, with [m] the monitor next to
    the selected one in the direction [dir]: with a single monitor the
    state is left as it is; with more, [m] is another monitor and becomes
    the selected one, its selection is the first visible client of its
    focus stack or none, the other monitors are as before, the frame is
    kept and the state is linked. *)
Theorem focusmon_moves dir s i m mv :
  linked s ->
  Plug.mons s !! i = Some (Plug.selmon s) ->
  Plug.mons s !! ring_step dir (length (Plug.mons s)) i = Some m ->
  Plug.mon_heap s !! m = Some mv ->
  total (focusmon dir) s (fun _ s' =>
    if bool_decide (length (Plug.mons s) = 1%nat) then s' = s
    else
      m <> Plug.selmon s /\ Plug.selmon s' = m
      /\ linked s' /\ frame s s'
      /\ (exists mv', Plug.mon_heap s' !! m = Some mv'
            /\ Monitor.sel mv' = List.find (visible_in s) (Monitor.stack mv))
      /\ (forall k, k <> m -> Plug.mon_heap s' !! k = Plug.mon_heap s !! k)).
Proof.
  intros Hl Hi Hstep Hmv. pose proof (linked_wf _ Hl) as Hwf.
  pose proof Hl as (_ & Hnd & _ & Hlm & _).
  pose proof Hwf as (_ & _ & Hmons & [smv Hsm]).
  pose proof (lookup_lt_Some _ _ _ Hi) as Hlt.
  unfold total, focusmon.
  rewrite (bind_step _ _ s (Plug.mons s) s) by reflexivity.
  destruct (Plug.mons s) as [|first rest] eqn:Ems; [cbn in Hlt; lia|].
  cbn [head]. rewrite (bind_step _ _ s first s) by reflexivity.
  destruct (Hmons first) as [fv Hfv]; [left|].
  rewrite (bind_step _ _ _ _ _ (run_monitor _ _ _ Hfv)).
  cbn [tail]. destruct rest as [|second rest].
  - rewrite bool_decide_eq_true_2 by reflexivity. exists tt, s. split; reflexivity.
  - rewrite bool_decide_eq_false_2 by (cbn; lia).
    rewrite <- Ems in *.
    assert (1 < length (Plug.mons s))%nat as Hn by (rewrite Ems; cbn; lia).
    assert (m <> Plug.selmon s) as Hne.
    { intros ->. apply (ring_step_moves dir _ i Hlt Hn).
      eapply NoDup_lookup; eassumption. }
    rewrite (bind_step _ _ _ _ _ (dirtomon_run dir s i Hwf Hnd Hi)).
    rewrite Hstep.
    rewrite (bind_step _ _ s (Plug.selmon s) s) by reflexivity.
    rewrite bool_decide_eq_false_2 by congruence.
    rewrite (bind_step _ _ _ _ _ (run_monitor _ _ _ Hsm)).
    destruct (unfocus_run (Monitor.sel smv) 0 s Hwf (wf_monitor_sel _ _ _ Hwf Hsm))
      as (s1 & Hunf & Hcalm & Hwf1).
    rewrite (bind_step _ _ _ _ _ Hunf).
    rewrite (bind_step _ _ s1 m s1) by reflexivity.
    rewrite (bind_step _ _ s1 tt (Plug.set_selmon m s1)) by reflexivity.
    set (s2 := Plug.set_selmon m s1).
    pose proof Hcalm as (Hch & Hmh & Hsel1 & Hcore1).
    assert (valid_monitor s1 m) as Hvm1 by (exists mv; rewrite Hmh; exact Hmv).
    assert (linked s2) as Hl2.
    { apply linked_set_selmon; [|exact Hvm1].
      eapply linked_still; [exact Hl | apply calm_still, Hcalm]. }
    assert (frame s s2) as Hfr2.
    { destruct (calm_still _ _ Hcalm) as ((F1 & F2 & F3) & _).
      split; [exact F1 | split; [exact F2 | exact F3]]. }
    assert (valid_pointer s2 None) as Hnone by (intros ? [=]).
    destruct (focus_run None s2 (linked_wf _ Hl2) Hnone) as (s3 & Hfocus & Hwf3 & Hfr3 & Hcase).
    exists tt, s3. split; [exact Hfocus|].
    split; [exact Hne|].
    assert (forall d, visible_in s2 d = visible_in s d) as Hvis.
    { intros d. unfold s2. unfold visible_in. cbn. rewrite Hch, Hmh. reflexivity. }
    assert (focus_target s2 None = List.find (visible_in s) (Monitor.stack mv)) as Htarget.
    { unfold focus_target. cbn. rewrite Hmh, Hmv. apply find_ext_in. intros d. apply Hvis. }
    rewrite Htarget in Hcase.
    assert (Plug.selmon s3 = m
            /\ Plug.mon_heap s3
               = <[m := Monitor.set_sel (List.find (visible_in s) (Monitor.stack mv))
                          (match List.find (visible_in s) (Monitor.stack mv) with
                           | Some f => Monitor.set_stack (f :: unlink f (Monitor.stack mv)) mv
                           | None => mv
                           end)]> (Plug.mon_heap s)) as [Hselmon Hheap].
    { destruct (List.find (visible_in s) (Monitor.stack mv)) as [f|] eqn:Efind.
      - destruct Hcase as (v & mv0 & Hv & Hmv0 & Hs3 & Hh3).
        apply find_elem_of in Efind as [Hin _].
        destruct (Hlm _ _ Hmv) as (_ & _ & L3 & L4 & _).
        change (Plug.client_heap s1 !! f = Some v) in Hv. rewrite Hch in Hv.
        assert (Client.mon v = m) as Hmon by (apply (L4 f v); [apply L3, Hin | exact Hv]).
        rewrite Hmon in *.
        change (Plug.mon_heap s1 !! m = Some mv0) in Hmv0. rewrite Hmh, Hmv in Hmv0.
        injection Hmv0 as <-.
        split; [exact Hs3|]. rewrite Hh3. unfold s2. cbn. rewrite Hmh. reflexivity.
      - destruct Hcase as (mv0 & Hmv0 & Hs3 & Hh3).
        change (Plug.mon_heap s1 !! m = Some mv0) in Hmv0. rewrite Hmh, Hmv in Hmv0.
        injection Hmv0 as <-.
        split; [exact Hs3|]. rewrite Hh3. unfold s2. cbn. rewrite Hmh. reflexivity. }
    split; [exact Hselmon|].
    split; [exact (linked_focus _ _ _ Hl2 Hnone Hfocus)|].
    split; [etransitivity; eassumption|].
    split.
    + eexists. rewrite Hheap, lookup_insert_eq. split; reflexivity.
    + intros k Hk. rewrite Hheap. apply lookup_insert_ne. congruence.
Qed.

End FocusMon.

Lemma focusmon_moves_witness :
  total (focusmon 1) two_monitor_state (fun _ s' => Plug.selmon s' = 1%nat).
Proof.
  destruct (focusmon_moves 1 two_monitor_state 0%nat 1%nat second_monitor)
    as (u & s' & Hrun & H).
  - apply linkedb_spec. vm_compute. reflexivity.
  - vm_compute. reflexivity.
  - vm_compute. reflexivity.
  - vm_compute. reflexivity.
  - exists u, s'. split; [exact Hrun|]. apply H.
Defined.

(** ** Moving a client to another monitor *)

Lemma detachstack_run c s v mv :
  wf s -> Plug.client_heap s !! c = Some v -> Plug.mon_heap s !! Client.mon v = Some mv ->
  detachstack c s
  = Some (tt, Plug.set_mon_heap
                (<[Client.mon v := detachstack_monitor s c mv]> (Plug.mon_heap s)) s).
Proof.
  intros Hwf Hv Hmv.
  destruct (defined_detachstack c s Hwf) as [[[] s'] Hrun]; [eexists; exact Hv|].
  rewrite Hrun. f_equal. f_equal.
  exact (post_detachstack c s (fun _ s' => s' = _) (fun v0 mv0 Hv0 Hmv0 =>
           ltac:(rewrite Hv in Hv0; injection Hv0 as <-;
                 rewrite Hmv in Hmv0; injection Hmv0 as <-; reflexivity)) _ _ Hrun).
Qed.

Lemma linked_move s s' c v v' a m mva mvt mva' mvt' :
  linked s ->
  Plug.client_heap s !! c = Some v -> Client.mon v = a -> a <> m ->
  Plug.mon_heap s !! a = Some mva -> Plug.mon_heap s !! m = Some mvt ->
  Plug.client_heap s' = <[c := v']> (Plug.client_heap s) -> Client.mon v' = m ->
  Plug.mon_heap s' = <[m := mvt']> (<[a := mva']> (Plug.mon_heap s)) ->
  Plug.mons s' = Plug.mons s -> Plug.selmon s' = Plug.selmon s ->
  Monitor.clients mva' = unlink c (Monitor.clients mva) ->
  Monitor.stack mva' = unlink c (Monitor.stack mva) ->
  (forall d, Monitor.sel mva' = Some d -> d ∈ Monitor.stack mva') ->
  Monitor.clients mvt' = c :: Monitor.clients mvt ->
  Monitor.stack mvt' = c :: Monitor.stack mvt ->
  Monitor.sel mvt' = Monitor.sel mvt ->
  linked s'.
Proof.
  intros Hl Hv Ha Hne Hmva Hmvt Hch Hm' Hmh Hmons Hselmon Ca Sa Sela Ct St Selt.
  pose proof Hl as (Hwf & Hnd & Hall & Hlm & Hatt).
  pose proof Hwf as (W1 & W2 & W3 & W4).
  destruct (Hlm _ _ Hmva) as (A1 & A2 & A3 & A4 & A5).
  destruct (Hlm _ _ Hmvt) as (T1 & T2 & T3 & T4 & T5).
  assert (forall d, valid_client s d -> valid_client s' d) as Hvc.
  { intros d [dv Hd]. unfold valid_client. rewrite Hch.
    destruct (decide (c = d)) as [<-|Hcd];
      [rewrite lookup_insert_eq | rewrite lookup_insert_ne by assumption]; eauto. }
  assert (forall k, valid_monitor s k <-> valid_monitor s' k) as Hvm.
  { intros k. unfold valid_monitor. rewrite Hmh.
    destruct (decide (m = k)) as [<-|Hmk].
    - rewrite lookup_insert_eq. split; eauto.
    - rewrite lookup_insert_ne by assumption.
      destruct (decide (a = k)) as [<-|Hak].
      + rewrite lookup_insert_eq. split; eauto.
      + rewrite lookup_insert_ne by assumption. reflexivity. }
  assert (c ∉ Monitor.clients mvt) as Hnot.
  { intros Hin. apply Hne. rewrite <- Ha. exact (T4 c v Hin Hv). }
  assert (forall d dv, d <> c -> Plug.client_heap s' !! d = Some dv ->
            Plug.client_heap s !! d = Some dv) as Hold.
  { intros d dv Hd. rewrite Hch, lookup_insert_ne by congruence. auto. }
  assert (forall k mvk, Plug.mon_heap s' !! k = Some mvk ->
            (k = m /\ mvk = mvt') \/ (k = a /\ mvk = mva')
            \/ (k <> m /\ k <> a /\ Plug.mon_heap s !! k = Some mvk)) as Hcases.
  { intros k mvk. rewrite Hmh. destruct (decide (m = k)) as [<-|Hmk].
    - rewrite lookup_insert_eq. intros [= <-]. left. auto.
    - rewrite lookup_insert_ne by assumption. destruct (decide (a = k)) as [<-|Hak].
      + rewrite lookup_insert_eq. intros [= <-]. right. left. auto.
      + rewrite lookup_insert_ne by assumption. intros H. right. right. auto. }
  assert (wf s') as Hwf'.
  { split; [|split; [|split]].
    - intros d dv. rewrite Hch. destruct (decide (c = d)) as [<-|Hcd].
      + rewrite lookup_insert_eq. intros [= <-]. rewrite Hm'. apply Hvm. eexists; exact Hmvt.
      + rewrite lookup_insert_ne by assumption. intros Hd. apply Hvm. eapply W1, Hd.
    - intros k mvk Hk. destruct (Hcases k mvk Hk) as [[-> ->]|[[-> ->]|(_ & _ & Hk0)]].
      + rewrite Ct, St, Selt. split; [|split].
        * intros d [->|Hd]%elem_of_cons; [apply Hvc; eexists; exact Hv|].
          apply Hvc. exact (wf_monitor_clients _ _ _ Hwf Hmvt d Hd).
        * intros d [->|Hd]%elem_of_cons; [apply Hvc; eexists; exact Hv|].
          apply Hvc. exact (wf_monitor_stack _ _ _ Hwf Hmvt d Hd).
        * intros d Hd. apply Hvc. exact (wf_monitor_sel _ _ _ Hwf Hmvt d Hd).
      + rewrite Ca, Sa. split; [|split].
        * intros d Hd%unlink_subseteq. apply Hvc.
          exact (wf_monitor_clients _ _ _ Hwf Hmva d Hd).
        * intros d Hd%unlink_subseteq. apply Hvc.
          exact (wf_monitor_stack _ _ _ Hwf Hmva d Hd).
        * intros d Hd. apply Sela in Hd. rewrite Sa in Hd. apply unlink_subseteq in Hd.
          apply Hvc. exact (wf_monitor_stack _ _ _ Hwf Hmva d Hd).
      + destruct (W2 k mvk Hk0) as (V1 & V2 & V3).
        split; [|split]; intros d Hd; apply Hvc; auto.
    - intros k Hk. rewrite Hmons in Hk. apply Hvm, W3, Hk.
    - rewrite Hselmon. apply Hvm, W4. }
  split; [exact Hwf'|]. split; [rewrite Hmons; exact Hnd|]. split; [|split].
  - intros k Hk. rewrite Hmons. apply Hall, Hvm, Hk.
  - intros k mvk Hk. unfold linked_monitor.
    destruct (Hcases k mvk Hk) as [[-> ->]|[[-> ->]|(Hkm & Hka & Hk0)]].
    + rewrite Ct, St, Selt. split; [|split; [|split; [|split]]].
      * apply NoDup_cons. split; assumption.
      * apply NoDup_cons. split; [rewrite T3; exact Hnot | exact T2].
      * intros d. rewrite !elem_of_cons, T3. reflexivity.
      * intros d dv [->|Hd]%elem_of_cons Hdv.
        -- rewrite Hch, lookup_insert_eq in Hdv. injection Hdv as <-. exact Hm'.
        -- apply (T4 d dv Hd). apply Hold; [|exact Hdv]. intros ->. contradiction.
      * intros d Hd. right. apply T5, Hd.
    + rewrite Ca, Sa. split; [|split; [|split; [|split]]].
      * apply unlink_NoDup, A1.
      * apply unlink_NoDup, A2.
      * intros d. rewrite (unlink_elem_of _ _ _ A1), (unlink_elem_of _ _ _ A2), A3.
        reflexivity.
      * intros d dv Hd Hdv. apply (unlink_elem_of _ _ _ A1) in Hd as [Hd Hdc].
        apply (A4 d dv Hd). apply Hold; assumption.
      * intros d Hd. rewrite <- Sa. apply Sela, Hd.
    + destruct (Hlm _ _ Hk0) as (K1 & K2 & K3 & K4 & K5).
      split; [exact K1|]. split; [exact K2|]. split; [exact K3|]. split; [|exact K5].
      intros d dv Hd Hdv. apply (K4 d dv Hd). apply Hold; [|exact Hdv].
      intros ->. apply Hka. rewrite <- Ha. symmetry. exact (K4 c v Hd Hv).
  - intros d dv. rewrite Hch. destruct (decide (c = d)) as [<-|Hcd].
    + rewrite lookup_insert_eq. intros [= <-]. rewrite Hm'.
      exists mvt'. rewrite Hmh, lookup_insert_eq. split; [reflexivity|].
      rewrite Ct. left.
    + rewrite lookup_insert_ne by assumption. intros Hd.
      destruct (Hatt d dv Hd) as (mvd & Hmvd & Hin). rewrite Hmh.
      destruct (decide (m = Client.mon dv)) as [E|Hmk].
      * rewrite <- E in *. rewrite lookup_insert_eq. exists mvt'. split; [reflexivity|].
        rewrite Hmvt in Hmvd. injection Hmvd as <-. rewrite Ct. right. exact Hin.
      * rewrite lookup_insert_ne by assumption.
        destruct (decide (a = Client.mon dv)) as [E|Hak].
        -- rewrite <- E in *. rewrite lookup_insert_eq. exists mva'. split; [reflexivity|].
           rewrite Hmva in Hmvd. injection Hmvd as <-.
           rewrite Ca. apply (unlink_elem_of _ _ _ A1). split; [exact Hin | congruence].
        -- rewrite lookup_insert_ne by assumption. eauto.
Qed.

Section SendMon.

Variable cfg : Config.

Lemma defined_arrange_all s : wf s -> hints_safe s -> defined (arrange cfg None) s.
Proof.
  intros Hwf Hsafe. unfold arrange.
  assert (forall l, (forall k, k ∈ l -> valid_monitor s k) ->
            forall s0, wf s0 -> hints_safe s0 -> shape s s0 ->
            exists s1, forM l (fun mid => v ← monitor mid; showhide cfg (Monitor.stack v)) s0
                       = Some (tt, s1) /\ shape s s1 /\ hints_safe s1) as Hshow.
  { induction l as [|k l IH]; intros Hl s0 Hwf0 Hsafe0 Hsh0.
    - exists s0. split; [reflexivity | split; [exact Hsh0 | exact Hsafe0]].
    - assert (valid_monitor s0 k) as [kv Hkv]
        by (eapply shape_valid_monitor; [exact Hsh0 | apply Hl; left]).
      destruct (defined_showhide cfg (Monitor.stack kv) s0 Hwf0 Hsafe0
                  (wf_monitor_stack _ _ _ Hwf0 Hkv)) as [[[] s1] Hrun].
      pose proof (shape_showhide cfg _ _ _ _ Hrun) as Hsh1.
      pose proof (hints_safe_run _ _ _ _ (hinted_showhide cfg _) Hrun Hsafe0) as Hsafe1.
      destruct (IH ltac:(intros k0 Hk0; apply Hl; right; exact Hk0) s1)
        as (s2 & Hrun2 & Hsh2 & Hsafe2).
      + eapply wf_shape; eassumption.
      + exact Hsafe1.
      + etransitivity; eassumption.
      + exists s2. split; [|split; [exact Hsh2 | exact Hsafe2]]. cbn [forM].
        rewrite (bind_step _ _ s0 tt s1); [exact Hrun2|].
        rewrite (bind_step _ _ _ _ _ (run_monitor _ _ _ Hkv)). exact Hrun. }
  assert (forall l, (forall k, k ∈ l -> valid_monitor s k) ->
            forall s0, wf s0 -> hints_safe s0 -> shape s s0 ->
            defined (forM l (arrangemon cfg)) s0) as Harr.
  { induction l as [|k l IH]; intros Hl s0 Hwf0 Hsafe0 Hsh0.
    - eexists. reflexivity.
    - assert (valid_monitor s0 k) as Hk
        by (eapply shape_valid_monitor; [exact Hsh0 | apply Hl; left]).
      destruct (defined_arrangemon cfg k s0 Hwf0 Hsafe0 Hk) as [[[] s1] Hrun].
      pose proof (shape_arrangemon cfg _ _ _ _ Hrun) as Hsh1.
      pose proof (hints_safe_run _ _ _ _ (hinted_arrangemon cfg _) Hrun Hsafe0) as Hsafe1.
      cbn [forM]. unfold defined. rewrite (bind_step _ _ s0 tt s1) by exact Hrun.
      apply IH.
      + intros k0 Hk0. apply Hl. right. exact Hk0.
      + eapply wf_shape; eassumption.
      + exact Hsafe1.
      + etransitivity; eassumption. }
  pose proof Hwf as (_ & _ & Hmons & _).
  unfold defined. rewrite (bind_step _ _ s (Plug.mons s) s) by reflexivity.
  destruct (Hshow (Plug.mons s) Hmons s Hwf Hsafe) as (s1 & Hrun & Hsh1 & Hsafe1);
    [reflexivity|].
  rewrite (bind_step _ _ _ _ _ Hrun).
  apply (Harr (Plug.mons s) Hmons s1);
    [eapply wf_shape; eassumption | exact Hsafe1 | exact Hsh1].
Qed.

Lemma sendmon_run c m s v mva mvt :
  linked s -> hints_safe s ->
  Plug.client_heap s !! c = Some v ->
  Client.mon v <> m ->
  Plug.mon_heap s !! Client.mon v = Some mva ->
  Plug.mon_heap s !! m = Some mvt ->
  exists s' mva' mvt',
    sendmon cfg c (Some m) s = Some (tt, s') /\ linked s'
    /\ client_has c (fun v' =>
         Client.mon v' = m /\ Client.tags v' = tagset mvt (Monitor.seltags mvt)
         /\ Client.isfloating v' = Client.isfloating v
         /\ Client.isfullscreen v' = Client.isfullscreen v) s'
    /\ Plug.mon_heap s' !! Client.mon v = Some mva'
    /\ Plug.mon_heap s' !! m = Some mvt'
    /\ Monitor.clients mva' = unlink c (Monitor.clients mva)
    /\ Monitor.clients mvt' = c :: Monitor.clients mvt
    /\ Plug.selmon s' = Plug.selmon s
    /\ (forall d, d <> c -> client_core <$> Plug.client_heap s' !! d
                            = client_core <$> Plug.client_heap s !! d).
Proof.
  intros Hl Hsafe Hv Hne Hmva Hmvt. pose proof (linked_wf _ Hl) as Hwf.
  set (a := Client.mon v) in *.
  pose proof Hl as (_ & _ & _ & Hlm & _).
  destruct (Hlm _ _ Hmva) as (A1 & A2 & A3 & A4 & A5).
  (* unfocus *)
  assert (valid_pointer s (Some c)) as Hc by (intros d [= <-]; eexists; exact Hv).
  destruct (unfocus_run (Some c) 1 s Hwf Hc) as (s1 & Hunf & Hcalm & Hwf1).
  pose proof Hcalm as (Hch1 & Hmh1 & Hsel1 & Hcore1).
  assert (Plug.client_heap s1 !! c = Some v) as Hv1 by (rewrite Hch1; exact Hv).
  assert (Plug.mon_heap s1 !! a = Some mva) as Hmva1 by (rewrite Hmh1; exact Hmva).
  (* detach *)
  set (mva1 := Monitor.set_clients (unlink c (Monitor.clients mva)) mva).
  set (s2 := Plug.set_mon_heap (<[a := mva1]> (Plug.mon_heap s1)) s1).
  pose proof (detach_run c s1 v mva Hv1 Hmva1) as Hdet. fold a mva1 s2 in Hdet.
  assert (wf s2) as Hwf2.
  { eapply wf_upd_monitor; [exact Hwf1 | exact Hmva1 | | |].
    - intros d Hd%unlink_subseteq. apply (wf_monitor_clients _ _ _ Hwf1 Hmva1), Hd.
    - exact (wf_monitor_stack _ _ _ Hwf1 Hmva1).
    - exact (wf_monitor_sel _ _ _ Hwf1 Hmva1). }
  assert (Plug.mon_heap s2 !! a = Some mva1) as Hmva2 by (cbn; apply lookup_insert_eq).
  (* detachstack *)
  set (mva2 := detachstack_monitor s2 c mva1).
  set (s3 := Plug.set_mon_heap (<[a := mva2]> (Plug.mon_heap s1)) s1).
  assert (detachstack c s2 = Some (tt, s3)) as Hdst.
  { rewrite (detachstack_run c s2 v mva1 Hwf2 Hv1 Hmva2). fold a mva2.
    unfold s3, s2. cbn. rewrite insert_insert_eq. reflexivity. }
  assert (Plug.mon_heap s3 !! m = Some mvt) as Hmvt3.
  { unfold s3. cbn. rewrite lookup_insert_ne by exact Hne. rewrite Hmh1. exact Hmvt. }
  (* the assignments *)
  set (v' := Client.set_tags (tagset mvt (Monitor.seltags mvt)) (Client.set_mon m v)).
  set (s4 := Plug.set_client_heap (<[c := v']> (Plug.client_heap s1)) s3).
  assert (upd_client c (fun v => Client.set_tags (tagset mvt (Monitor.seltags mvt))
                                   (Client.set_mon m v)) s3 = Some (tt, s4)) as Hupd.
  { exact (run_upd_client c _ s3 v Hv1). }
  assert (Plug.client_heap s4 !! c = Some v') as Hv4 by (cbn; apply lookup_insert_eq).
  (* attach, attachstack *)
  set (mvt1 := Monitor.set_clients (c :: Monitor.clients mvt) mvt).
  set (s5 := Plug.set_mon_heap (<[m := mvt1]> (Plug.mon_heap s3)) s4).
  assert (attach c s4 = Some (tt, s5)) as Hatt.
  { exact (attach_run c s4 v' mvt Hv4 Hmvt3). }
  set (mvt2 := Monitor.set_stack (c :: Monitor.stack mvt) mvt1).
  set (s6 := Plug.set_mon_heap (<[m := mvt2]> (<[a := mva2]> (Plug.mon_heap s1))) s4).
  assert (attachstack c s5 = Some (tt, s6)) as Hats.
  { rewrite (attachstack_run c s5 v' mvt1); [| exact Hv4 | cbn; apply lookup_insert_eq].
    unfold s6, s5. cbn. rewrite insert_insert_eq. reflexivity. }
  assert (linked s6) as Hl6.
  { apply (linked_move s s6 c v v' a m mva mvt mva2 mvt2 Hl Hv eq_refl Hne Hmva Hmvt).
    - cbn. rewrite Hch1. reflexivity.
    - reflexivity.
    - cbn. rewrite Hmh1. reflexivity.
    - cbn. unfold plug_core in Hcore1. congruence.
    - cbn. exact Hsel1.
    - unfold mva2, detachstack_monitor.
      destruct (bool_decide (Monitor.sel mva1 = Some c)); reflexivity.
    - unfold mva2, detachstack_monitor.
      destruct (bool_decide (Monitor.sel mva1 = Some c)); reflexivity.
    - intros d. unfold mva2, detachstack_monitor.
      destruct (bool_decide (Monitor.sel mva1 = Some c)) eqn:E; cbn.
      + intros Hd. apply find_elem_of in Hd. apply Hd.
      + apply bool_decide_eq_false_1 in E. change (Monitor.sel mva <> Some c) in E.
        intros Hd. apply (unlink_elem_of _ _ _ A2). split; [apply A5, Hd | congruence].
    - reflexivity.
    - reflexivity.
    - reflexivity. }
  (* focus, arrange *)
  assert (valid_pointer s6 None) as Hnone by (intros ? [=]).
  destruct (focus_run None s6 (linked_wf _ Hl6) Hnone) as (s7 & Hfocus & Hwf7 & Hfr7 & _).
  pose proof (linked_focus _ _ _ Hl6 Hnone Hfocus) as Hl7.
  assert (hints_safe s7) as Hsafe7.
  { apply (hints_safe_run _ _ _ _ (hinted_focus _) Hfocus).
    apply (hints_safe_run _ _ _ _ (hinted_attachstack _) Hats).
    apply (hints_safe_run _ _ _ _ (hinted_attach _) Hatt).
    refine (hints_safe_run _ _ _ _ _ Hupd _); [hinted_pres|].
    apply (hints_safe_run _ _ _ _ (hinted_detachstack _) Hdst).
    apply (hints_safe_run _ _ _ _ (hinted_detach _) Hdet).
    apply (hints_safe_run _ _ _ _ (hinted_unfocus _ _) Hunf). exact Hsafe. }
  destruct (defined_arrange_all s7 Hwf7 Hsafe7) as [[[] s8] Harr].
  pose proof (frame_arrange cfg _ _ _ _ Harr) as Hfr8.
  pose proof (shape_arrange cfg _ _ _ _ Harr) as Hsh8.
  assert (frame s6 s8) as Hfr by (etransitivity; eassumption).
  destruct (frame_client _ _ _ _ Hfr Hv4) as (v8 & Hv8 & Hcore8).
  assert (Plug.mon_heap s6 !! a = Some mva2) as Hmva6.
  { cbn. rewrite lookup_insert_ne by (intros E; apply Hne; symmetry; exact E).
    apply lookup_insert_eq. }
  assert (Plug.mon_heap s6 !! m = Some mvt2) as Hmvt6 by (cbn; apply lookup_insert_eq).
  destruct (frame_monitor _ _ _ _ Hfr Hmva6) as (mva8 & Hmva8 & Hacore).
  destruct (frame_monitor _ _ _ _ Hfr Hmvt6) as (mvt8 & Hmvt8 & Htcore).
  exists s8, mva8, mvt8.
  split.
  { unfold sendmon. rewrite (bind_step _ _ _ _ _ (run_client _ _ _ Hv)).
    rewrite bool_decide_eq_false_2 by (fold a; congruence).
    rewrite (bind_step _ _ _ _ _ Hunf), (bind_step _ _ _ _ _ Hdet),
      (bind_step _ _ _ _ _ Hdst).
    rewrite (bind_step _ _ s3 m s3) by reflexivity.
    rewrite (bind_step _ _ _ _ _ (run_monitor _ _ _ Hmvt3)).
    rewrite (bind_step _ _ _ _ _ Hupd), (bind_step _ _ _ _ _ Hatt),
      (bind_step _ _ _ _ _ Hats), (bind_step _ _ _ _ _ Hfocus).
    exact Harr. }
  split; [eapply linked_shape; eassumption|].
  split.
  { exists v8. split; [exact Hv8|]. unfold client_core in Hcore8.
    injection Hcore8 as E1 E2 E3 E4 E5 E6 E7 E8 E9 E10.
    rewrite E8, E6, E2, E1. repeat split. }
  split; [exact Hmva8|]. split; [exact Hmvt8|].
  split.
  { rewrite (clients_core _ _ Hacore). unfold mva2, detachstack_monitor.
    destruct (bool_decide (Monitor.sel mva1 = Some c)); reflexivity. }
  split; [rewrite (clients_core _ _ Htcore); reflexivity|].
  split.
  { destruct Hsh8 as (_ & _ & _ & ->).
    destruct (focus_run None s6 (linked_wf _ Hl6) Hnone) as (s7' & Hfocus' & _ & _ & Hcase).
    rewrite Hfocus in Hfocus'. injection Hfocus' as <-.
    destruct (focus_target s6 None) as [f|] eqn:Et.
    - destruct Hcase as (fv & fmv & Hfv & Hfmv & Hs & _). rewrite Hs.
      unfold focus_target in Et. cbn -[visible_in] in Et.
      destruct (_ !! Plug.selmon s1) as [smv|] eqn:Esm; [|discriminate].
      apply find_elem_of in Et as [Hin _].
      pose proof Hl6 as (_ & _ & _ & Hlm6 & _).
      destruct (Hlm6 (Plug.selmon s1) smv Esm) as (_ & _ & L3 & L4 & _).
      rewrite (L4 f fv (proj1 (L3 f) Hin) Hfv). exact Hsel1.
    - destruct Hcase as (_ & _ & Hs & _). rewrite Hs. exact Hsel1. }
  intros d Hd. destruct Hfr as (F & _). rewrite F. cbn.
  rewrite lookup_insert_ne by congruence. rewrite Hch1. reflexivity.
Qed.

(** X13. [sendmon(c, m)] on a linked state none of whose size increments
    traps, for a monitor [m] other than the one of [c]: it returns and
    leaves a linked state; [c] is then a client of [m] with the tags [m]
    shows, floating and fullscreen as it was, and is the first client of
    [m]; the monitor it leaves has its other clients in their order; the
    selected monitor is the same, and every other client keeps its
    fullscreen, floating and minimized flags, its border widths, saved
    floating state, tags, monitor, window and name (its urgency flag and
    its size hints, with the flag of a fixed size, may change). *)
Theorem sendmon_moves c m s v mva mvt :
  linked s -> hints_safe s ->
  Plug.client_heap s !! c = Some v ->
  Client.mon v <> m ->
  Plug.mon_heap s !! Client.mon v = Some mva ->
  Plug.mon_heap s !! m = Some mvt ->
  total (sendmon cfg c (Some m)) s (fun _ s' =>
    linked s'
    /\ client_has c (fun v' =>
         Client.mon v' = m /\ Client.tags v' = tagset mvt (Monitor.seltags mvt)
         /\ Client.isfloating v' = Client.isfloating v
         /\ Client.isfullscreen v' = Client.isfullscreen v) s'
    /\ (exists mva' mvt',
          Plug.mon_heap s' !! Client.mon v = Some mva'
          /\ Plug.mon_heap s' !! m = Some mvt'
          /\ Monitor.clients mva'
             = List.filter (fun d => negb (bool_decide (d = c))) (Monitor.clients mva)
          /\ Monitor.clients mvt' = c :: Monitor.clients mvt)
    /\ Plug.selmon s' = Plug.selmon s
    /\ (forall d, d <> c -> client_core <$> Plug.client_heap s' !! d
                            = client_core <$> Plug.client_heap s !! d)).
Proof.
  intros Hl Hsafe Hv Hne Hmva Hmvt.
  destruct (sendmon_run c m s v mva mvt Hl Hsafe Hv Hne Hmva Hmvt)
    as (s' & mva' & mvt' & Hrun & Hl' & Hc & Ha & Ht & Hca & Hct & Hsel & Hoth).
  exists tt, s'. split; [exact Hrun|]. split; [exact Hl'|]. split; [exact Hc|].
  split; [|split; assumption].
  exists mva', mvt'. split; [exact Ha|]. split; [exact Ht|]. split; [|exact Hct].
  rewrite Hca. apply unlink_filter.
  exact (proj1 (proj1 (proj2 (proj2 (proj2 Hl))) _ _ Hmva)).
Qed.

End SendMon.

Lemma sendmon_moves_witness :
  total (sendmon sample_cfg 1%nat (Some 1%nat)) two_monitor_state (fun _ s' =>
    client_has 1%nat (fun v' => Client.mon v' = 1%nat) s').
Proof.
  destruct (sendmon_moves sample_cfg 1%nat 1%nat two_monitor_state
              (sample_client 101 0 20 958 1058 0) sample_monitor second_monitor)
    as (u & s' & Hrun & _ & (v' & Hv' & Hmon & _) & _).
  - apply linkedb_spec. vm_compute. reflexivity.
  - apply hints_safeb_spec. vm_compute. reflexivity.
  - vm_compute. reflexivity.
  - vm_compute. discriminate.
  - vm_compute. reflexivity.
  - vm_compute. reflexivity.
  - exists u, s'. split; [exact Hrun|]. exists v'. split; [exact Hv' | exact Hmon].
Defined.

Section TagMon.

Variable cfg : Config.

(** X14. [tagmon(dir)] on a linked state none of whose size increments
    traps, with more than one monitor and a selection [c] on the selected
    monitor: it returns, and [c] goes to the monitor [m]
    next to the selected one in the direction [dir], which is another
    monitor, and takes the tags [m] shows; the selected monitor stays the
    selected one, and the state stays linked. *)
Theorem tagmon_sends dir s i m smv c mvt :
  linked s -> hints_safe s ->
  Plug.mons s !! i = Some (Plug.selmon s) ->
  (1 < length (Plug.mons s))%nat ->
  Plug.mons s !! ring_step dir (length (Plug.mons s)) i = Some m ->
  Plug.mon_heap s !! Plug.selmon s = Some smv ->
  Monitor.sel smv = Some c ->
  Plug.mon_heap s !! m = Some mvt ->
  total (tagmon cfg dir) s (fun _ s' =>
    linked s' /\ m <> Plug.selmon s /\ Plug.selmon s' = Plug.selmon s
    /\ client_has c (fun v' =>
         Client.mon v' = m /\ Client.tags v' = tagset mvt (Monitor.seltags mvt)) s'
    /\ exists smv' mvt',
         Plug.mon_heap s' !! Plug.selmon s = Some smv'
         /\ Plug.mon_heap s' !! m = Some mvt'
         /\ (c ∉ Monitor.clients smv') /\ (c ∈ Monitor.clients mvt')).
Proof.
  intros Hl Hsafe Hi Hn Hstep Hsm Hsel Hmvt. pose proof (linked_wf _ Hl) as Hwf.
  pose proof Hl as (_ & Hnd & _ & Hlm & _).
  pose proof Hwf as (_ & _ & Hmons & _).
  pose proof (lookup_lt_Some _ _ _ Hi) as Hlt.
  destruct (Hlm _ _ Hsm) as (L1 & L2 & L3 & L4 & L5).
  assert (c ∈ Monitor.clients smv) as Hc by (apply L3, L5, Hsel).
  destruct (wf_monitor_clients _ _ _ Hwf Hsm c Hc) as [v Hv].
  pose proof (L4 c v Hc Hv) as Hmon.
  assert (m <> Plug.selmon s) as Hne.
  { intros E. rewrite E in Hstep. apply (ring_step_moves dir _ i Hlt Hn).
    exact (NoDup_lookup _ _ _ _ Hnd Hstep Hi). }
  rewrite <- Hmon in Hsm.
  destruct (sendmon_run cfg c m s v smv mvt Hl Hsafe Hv) as
    (s' & mva' & mvt' & Hrun & Hl' & Hhas & Ha & Ht & Hca & Hct & Hselmon & _);
    [congruence | exact Hsm | exact Hmvt |].
  assert (dirtomon dir s = Some (Some m, s)) as Hdir
    by (rewrite (dirtomon_run dir s i Hwf Hnd Hi), Hstep; reflexivity).
  exists tt, s'. split.
  - unfold tagmon.
    rewrite (bind_step _ _ s (Plug.selmon s) s) by reflexivity.
    rewrite <- Hmon. rewrite (bind_step _ _ _ _ _ (run_monitor _ _ _ Hsm)).
    rewrite Hsel.
    rewrite (bind_step _ _ s (Plug.mons s) s) by reflexivity.
    destruct (Plug.mons s) as [|first [|second rest]] eqn:Ems; [cbn in Hn; lia..|].
    cbn [head]. rewrite (bind_step _ _ s first s) by reflexivity.
    destruct (Hmons first) as [fv Hfv]; [left|].
    rewrite (bind_step _ _ _ _ _ (run_monitor _ _ _ Hfv)).
    cbn [tail].
    rewrite (bind_step _ _ s (Some m) s); [exact Hrun | exact Hdir].
  - split; [exact Hl'|]. split; [exact Hne|]. split; [exact Hselmon|].
    split.
    + destruct Hhas as (v' & Hv' & H1 & H2 & _). exists v'. auto.
    + exists mva', mvt'. rewrite <- Hmon. split; [exact Ha|]. split; [exact Ht|].
      split.
      * rewrite Hca, (unlink_elem_of _ _ _ L1). intros [_ H]. apply H. reflexivity.
      * rewrite Hct. left.
Qed.

End TagMon.

Lemma tagmon_sends_witness :
  total (tagmon sample_cfg 1) two_monitor_state (fun _ s' =>
    client_has 1%nat (fun v' => Client.mon v' = 1%nat) s').
Proof.
  destruct (tagmon_sends sample_cfg 1 two_monitor_state 0%nat 1%nat sample_monitor
              1%nat second_monitor)
    as (u & s' & Hrun & _ & _ & _ & (v' & Hv' & Hmon & _) & _).
  - apply linkedb_spec. vm_compute. reflexivity.
  - apply hints_safeb_spec. vm_compute. reflexivity.
  - vm_compute. reflexivity.
  - vm_compute. lia.
  - vm_compute. reflexivity.
  - vm_compute. reflexivity.
  - reflexivity.
  - vm_compute. reflexivity.
  - exists u, s'. split; [exact Hrun|]. exists v'. split; [exact Hv' | exact Hmon].
Defined.

(** ** What arranging leaves alone *)

#[global] Instance laid_preorder : PreOrder laid.
Proof.
  split.
  - intros s. split; [reflexivity | split; [|split]; reflexivity].
  - intros s1 s2 s3 (F1 & S1 & M1 & H1) (F2 & S2 & M2 & H2).
    split; [etransitivity; eassumption|]. split; [congruence|].
    split; [|etransitivity; eassumption].
    intros m. rewrite M2, M1. reflexivity.
Qed.

Lemma still_laid s s' : still s s' -> laid s s'.
Proof.
  intros (F & Hm & Hs & Hh). split; [exact F|]. split; [exact Hs|].
  split; [|exact Hh]. intros m. rewrite Hm. reflexivity.
Qed.

Lemma laid_hinted {A} (m : M A) : preserves laid m -> preserves hinted m.
Proof. intros H s a s' Hrun. exact (proj2 (proj2 (proj2 (H s a s' Hrun)))). Qed.

Lemma hints_safe_laid s s' : laid s s' -> hints_safe s -> hints_safe s'.
Proof. intros (_ & _ & _ & Hh). apply hints_safe_hinted, Hh. Qed.

Lemma preserves_still_laid {A} (m : M A) : preserves still m -> preserves laid m.
Proof. intros H s a s' Hrun. apply still_laid. eapply H, Hrun. Qed.

Lemma laid_ltsymbol m x : preserves laid (upd_monitor m (Monitor.set_ltsymbol x)).
Proof.
  apply preserves_upd_monitor. intros s v Hv.
  split; [eapply frame_upd_monitor; [exact Hv | reflexivity]|].
  split; [reflexivity|].
  split; [|apply hinted_same; reflexivity].
  intros k. cbn. destruct (decide (m = k)) as [<-|Hne].
  - rewrite lookup_insert_eq, Hv. reflexivity.
  - rewrite lookup_insert_ne by assumption. reflexivity.
Qed.

Lemma laid_shape s s' : laid s s' -> shape s s'.
Proof.
  intros ((Hc & Hm & Hp) & Hs & Hl & _). split; [|split; [|split]].
  - intros c. specialize (Hc c).
    destruct (Plug.client_heap s' !! c) as [v'|], (Plug.client_heap s !! c) as [v|];
      simpl in *; try discriminate; [|reflexivity].
    f_equal. apply mon_core. congruence.
  - intros m. specialize (Hl m).
    destruct (Plug.mon_heap s' !! m) as [v'|], (Plug.mon_heap s !! m) as [v|];
      simpl in *; try discriminate; [|reflexivity].
    apply (inj Some) in Hl. f_equal.
    change (monitor_shape (Monitor.set_ltsymbol EmptyString v')
            = monitor_shape (Monitor.set_ltsymbol EmptyString v)).
    rewrite Hl. reflexivity.
  - unfold plug_core in Hp. congruence.
  - exact Hs.
Qed.

Lemma laid_monitor s s' m v :
  laid s s' -> Plug.mon_heap s !! m = Some v ->
  exists v', Plug.mon_heap s' !! m = Some v'
             /\ Monitor.set_ltsymbol EmptyString v' = Monitor.set_ltsymbol EmptyString v.
Proof.
  intros (_ & _ & Hl & _) Hv. specialize (Hl m). rewrite Hv in Hl.
  destruct (Plug.mon_heap s' !! m) as [v'|]; [|discriminate].
  apply (inj Some) in Hl. eauto.
Qed.

Section Laid.

Variable cfg : Config.

Lemma still_tiled c : preserves still (tiled c).
Proof. unfold tiled. still_pres. Qed.

Lemma still_for_tiled {B} l (body : B -> CId -> M B) b :
  (forall b c, preserves still (body b c)) -> preserves still (for_tiled l body b).
Proof.
  intros H. unfold for_tiled. apply preserves_foldM; tc_solve. intros b0 c.
  apply preserves_bind; tc_solve; [apply still_tiled|]. intros [|]; [apply H|].
  apply preserves_ret; tc_solve.
Qed.

Lemma still_tile_step m n mw st c : preserves still (tile_step cfg m n mw st c).
Proof. unfold tile_step. destruct st as [[i my] ty]. still_pres. Qed.

Lemma still_tile m : preserves still (tile cfg m).
Proof.
  unfold tile. still_pres; apply still_for_tiled; intros;
    first [apply still_tile_step | still_pres].
Qed.

Lemma laid_monocle m : preserves laid (monocle cfg m).
Proof.
  unfold monocle.
  apply preserves_bind; tc_solve; [apply preserves_monitor; tc_solve|]. intros mv.
  apply preserves_bind; tc_solve.
  { apply preserves_still_laid. still_pres. }
  intros n. apply preserves_bind; tc_solve.
  { apply preserves_when; tc_solve. apply laid_ltsymbol. }
  intros _. apply preserves_still_laid, still_for_tiled. intros _ c. still_pres.
Qed.

Lemma laid_arrangemon m : preserves laid (arrangemon cfg m).
Proof.
  unfold arrangemon.
  apply preserves_bind; tc_solve; [apply preserves_monitor; tc_solve|]. intros mv.
  apply preserves_bind; tc_solve; [apply laid_ltsymbol|]. intros _.
  destruct (arrange_fn (lt mv (Monitor.sellt mv))) as [[|]|].
  - apply preserves_still_laid, still_tile.
  - apply laid_monocle.
  - apply preserves_ret; tc_solve.
Qed.

Lemma laid_arrange m : preserves laid (arrange cfg m).
Proof.
  unfold arrange. destruct m as [mid|].
  - apply preserves_bind; tc_solve; [apply preserves_monitor; tc_solve|]. intros mv.
    apply preserves_bind; tc_solve; [apply preserves_still_laid, still_showhide|].
    intros _. apply preserves_bind; tc_solve; [apply laid_arrangemon|].
    intros _. apply preserves_still_laid, still_restack.
  - apply preserves_bind; tc_solve; [apply preserves_gets; tc_solve|]. intros ms.
    apply preserves_bind; tc_solve.
    + apply preserves_forM; tc_solve. intros mid.
      apply preserves_bind; tc_solve; [apply preserves_monitor; tc_solve|]. intros mv.
      apply preserves_still_laid, still_showhide.
    + intros _. apply preserves_forM; tc_solve. intros mid. apply laid_arrangemon.
Qed.

Lemma arrange_run m s :
  wf s -> hints_safe s -> (forall mid, m = Some mid -> valid_monitor s mid) ->
  exists s', arrange cfg m s = Some (tt, s') /\ laid s s' /\ wf s'.
Proof.
  intros Hwf Hsafe Hm.
  assert (defined (arrange cfg m) s) as [[[] s'] Hrun].
  { destruct m as [mid|];
      [apply defined_arrange_mon; auto | apply defined_arrange_all; assumption]. }
  exists s'. split; [exact Hrun|].
  pose proof (laid_arrange m _ _ _ Hrun) as Hlaid. split; [exact Hlaid|].
  eapply wf_shape; [exact Hwf | apply laid_shape, Hlaid].
Qed.

(** X15. [arrange(m)] on a well-formed state none of whose size
    increments traps, for a monitor [m] or for all of them: it returns; it
    only adds to the log of requests; every client keeps its fullscreen,
    floating and minimized flags, its border widths, saved floating state,
    tags, monitor, window and name; no monitor has a field written but its
    layout symbol; the selected monitor and the list of monitors stay.
    What [arrange] writes is the geometry of clients, the size hints it
    loads for them (with the flag of a fixed size) and layout symbols. *)
Theorem arrange_only_places m s :
  wf s -> hints_safe s ->
  (forall mid, m = Some mid -> valid_monitor s mid) ->
  total (arrange cfg m) s (fun _ s' =>
    wf s' /\ log_grows s s'
    /\ (forall c, client_core <$> Plug.client_heap s' !! c
                  = client_core <$> Plug.client_heap s !! c)
    /\ (forall k, Monitor.set_ltsymbol EmptyString <$> Plug.mon_heap s' !! k
                  = Monitor.set_ltsymbol EmptyString <$> Plug.mon_heap s !! k)
    /\ Plug.selmon s' = Plug.selmon s /\ Plug.mons s' = Plug.mons s).
Proof.
  intros Hwf Hsafe Hm.
  destruct (arrange_run m s Hwf Hsafe Hm) as (s' & Hrun & Hlaid & Hwf').
  exists tt, s'. split; [exact Hrun|].
  pose proof (laid_shape _ _ Hlaid) as Hsh.
  destruct Hlaid as ((Hc & _ & Hp) & Hs & Hl & _).
  split; [exact Hwf'|].
  split; [exact (log_arrange cfg m _ _ _ Hrun)|].
  split; [exact Hc|]. split; [exact Hl|]. split; [exact Hs|].
  apply Hsh.
Qed.

End Laid.

Lemma arrange_only_places_witness :
  total (arrange sample_cfg (Some 0%nat)) sample_state (fun _ s' =>
    Plug.selmon s' = 0%nat /\ Plug.mons s' = [0%nat]).
Proof.
  destruct (arrange_only_places sample_cfg (Some 0%nat) sample_state)
    as (u & s' & Hrun & _ & _ & _ & _ & Hsel & Hmons).
  - apply wfb_spec. vm_compute. reflexivity.
  - apply hints_safeb_spec. vm_compute. reflexivity.
  - intros mid [= <-]. vm_compute. eexists. reflexivity.
  - exists u, s'. split; [exact Hrun|]. split; [exact Hsel | exact Hmons].
Defined.

(** The hypothesis on the size increments is needed: with a width
    increment of -1 and a base width that takes the width to the least
    [int], the remainder in [applysizehints] traps and [arrange] has no
    result. *)
Lemma arrange_hostile_trap :
  ~ hints_safe hostile_state
  /\ arrange sample_cfg (Some 0%nat) hostile_state = None.
Proof.
  split; [|vm_compute; reflexivity].
  intros H.
  assert (Plug.client_heap hostile_state !! 1%nat
          = Some (Client.set_incw (-1)
                    (Client.set_basew (-2147483628) (sample_client 101 0 20 20 100 1))))
    as Hv by (vm_compute; reflexivity).
  destruct (H _ _ Hv) as [Hw _]. apply Hw. reflexivity.
Qed.

(** ** The bar *)

(** X16. [updatebarpos] on a monitor whose height holds the bar: a shown
    bar and the window area are adjacent strips that together make up the
    monitor, the bar above the window area when it is a top bar and below
    it otherwise; a hidden bar is placed right above the screen, and the
    window area is the whole monitor. *)
Theorem barpos_partition bh m :
  0 <= bh <= Monitor.mh m ->
  in_bounds (Monitor.my m) -> in_bounds (Monitor.mh m) ->
  let m' := barpos bh m in
  if truthy (Monitor.showbar m) then
    Monitor.wh m' + bh = Monitor.mh m
    /\ Z.min (Monitor.by_ m') (Monitor.wy m') = Monitor.my m
    /\ Z.max (Monitor.by_ m' + bh) (Monitor.wy m' + Monitor.wh m')
       = Monitor.my m + Monitor.mh m
    /\ (if truthy (Monitor.topbar m)
        then Monitor.by_ m' + bh = Monitor.wy m'
        else Monitor.wy m' + Monitor.wh m' = Monitor.by_ m')
  else
    Monitor.wy m' = Monitor.my m /\ Monitor.wh m' = Monitor.mh m
    /\ Monitor.by_ m' + bh = 0.
Proof.
  unfold in_bounds. intros Hbh Hmy Hmh. unfold barpos. cbn.
  destruct (truthy (Monitor.showbar m)); cbn.
  - destruct (truthy (Monitor.topbar m)); cbn; wrap_simpl;
      repeat rewrite sint_small by (unfold int_range; lia); lia.
  - wrap_simpl. repeat rewrite sint_small by (unfold int_range; lia). lia.
Qed.

Lemma barpos_partition_witness :
  Monitor.wh (barpos 20 sample_monitor) + 20 = 1080
  /\ Monitor.by_ (barpos 20 sample_monitor) + 20 = Monitor.wy (barpos 20 sample_monitor).
Proof.
  pose proof (barpos_partition 20 sample_monitor) as H.
  cbv zeta in H. change (truthy (Monitor.showbar sample_monitor)) with true in H.
  change (truthy (Monitor.topbar sample_monitor)) with true in H. cbv iota in H.
  destruct H as (H1 & _ & _ & H2).
  - vm_compute. split; discriminate.
  - unfold in_bounds. vm_compute. split; discriminate.
  - unfold in_bounds. vm_compute. split; discriminate.
  - split; [exact H1 | exact H2].
Defined.

Lemma barpos_ext bh m1 m2 :
  Monitor.my m1 = Monitor.my m2 -> Monitor.mh m1 = Monitor.mh m2 ->
  Monitor.topbar m1 = Monitor.topbar m2 ->
  truthy (Monitor.showbar m1) = truthy (Monitor.showbar m2) ->
  Monitor.wy (barpos bh m1) = Monitor.wy (barpos bh m2)
  /\ Monitor.wh (barpos bh m1) = Monitor.wh (barpos bh m2)
  /\ Monitor.by_ (barpos bh m1) = Monitor.by_ (barpos bh m2).
Proof.
  intros E1 E2 E3 E4. unfold barpos. cbn. rewrite E1, E2, E3, E4.
  destruct (truthy (Monitor.showbar m2)); cbn; [|auto].
  destruct (truthy (Monitor.topbar m2)); cbn; auto.
Qed.

Lemma barpos_keeps bh m :
  Monitor.my (barpos bh m) = Monitor.my m /\ Monitor.mh (barpos bh m) = Monitor.mh m
  /\ Monitor.topbar (barpos bh m) = Monitor.topbar m
  /\ Monitor.showbar (barpos bh m) = Monitor.showbar m
  /\ monitor_shape (barpos bh m) = monitor_shape m.
Proof.
  unfold barpos. cbn. destruct (truthy (Monitor.showbar m)); cbn; auto.
Qed.

Lemma truthy_of_bool b : truthy (of_bool b) = b.
Proof. destruct b; reflexivity. Qed.

Section Bar.

Variable cfg : Config.

Lemma hinted_togglebar : preserves hinted (togglebar cfg).
Proof. unfold togglebar, updatebarpos. hinted_pres. Qed.

Lemma togglebar_run s mv :
  wf s -> hints_safe s -> Plug.mon_heap s !! Plug.selmon s = Some mv ->
  exists s' mv',
    togglebar cfg s = Some (tt, s') /\ wf s'
    /\ Plug.selmon s' = Plug.selmon s /\ Plug.bh s' = Plug.bh s
    /\ Plug.mon_heap s' !! Plug.selmon s = Some mv'
    /\ Monitor.set_ltsymbol EmptyString mv'
       = Monitor.set_ltsymbol EmptyString
           (barpos (Plug.bh s)
              (Monitor.set_showbar (of_bool (negb (truthy (Monitor.showbar mv)))) mv)).
Proof.
  intros Hwf Hsafe Hmv.
  set (sm := Plug.selmon s) in *.
  set (mv1 := Monitor.set_showbar (of_bool (negb (truthy (Monitor.showbar mv)))) mv).
  set (s1 := Plug.set_mon_heap (<[sm := mv1]> (Plug.mon_heap s)) s).
  set (mv2 := barpos (Plug.bh s) mv1).
  set (s2 := Plug.set_mon_heap (<[sm := mv2]> (Plug.mon_heap s)) s).
  set (s3 := Plug.set_xlog
               (Plug.xlog s ++ [EvMoveResizeWindow (Monitor.barwin mv2) (Monitor.wx mv2)
                                  (Monitor.by_ mv2) (Monitor.ww mv2) (Plug.bh s)]) s2).
  assert (wf s2) as Hwf2.
  { destruct (barpos_keeps (Plug.bh s) mv1) as (_ & _ & _ & _ & Hshape).
    fold mv2 in Hshape. unfold monitor_shape in Hshape. injection Hshape as E1 E2 E3.
    eapply wf_upd_monitor; [exact Hwf | exact Hmv | | |].
    - rewrite E1. exact (wf_monitor_clients _ _ _ Hwf Hmv).
    - rewrite E2. exact (wf_monitor_stack _ _ _ Hwf Hmv).
    - rewrite E3. exact (wf_monitor_sel _ _ _ Hwf Hmv). }
  assert (wf s3) as Hwf3 by (apply wf_set_xlog, Hwf2).
  assert (Plug.mon_heap s3 !! sm = Some mv2) as Hmv3 by (cbn; apply lookup_insert_eq).
  destruct (arrange_run cfg (Some sm) s3 Hwf3 Hsafe) as (s4 & Harr & Hlaid & Hwf4).
  { intros mid [= <-]. eexists. exact Hmv3. }
  destruct (laid_monitor _ _ _ _ Hlaid Hmv3) as (mv4 & Hmv4 & Heq).
  exists s4, mv4. split.
  { unfold togglebar.
    rewrite (bind_step _ _ s sm s) by reflexivity.
    rewrite (bind_step _ _ s tt s1)
      by exact (run_upd_monitor sm
                  (fun m => Monitor.set_showbar (of_bool (negb (truthy (Monitor.showbar m)))) m)
                  s mv Hmv).
    rewrite (bind_step _ _ s1 tt s2).
    2:{ unfold updatebarpos. rewrite (bind_step _ _ s1 (Plug.bh s) s1) by reflexivity.
        rewrite (run_upd_monitor sm (barpos (Plug.bh s)) s1 mv1)
          by (cbn; apply lookup_insert_eq).
        unfold s1, s2. cbn. rewrite insert_insert_eq. reflexivity. }
    rewrite (bind_step _ _ s2 mv2 s2)
      by (apply run_monitor; cbn; apply lookup_insert_eq).
    rewrite (bind_step _ _ s2 (Plug.bh s) s2) by reflexivity.
    rewrite (bind_step _ _ s2 tt s3) by reflexivity.
    exact Harr. }
  split; [exact Hwf4|].
  destruct Hlaid as ((_ & _ & Hcore) & Hsel & _).
  split; [rewrite Hsel; reflexivity|].
  split; [unfold plug_core in Hcore; cbn in Hcore; congruence|].
  split; [exact Hmv4 | exact Heq].
Qed.

(** X17. Two calls of [togglebar] on a well-formed state none of whose
    size increments traps, whose selected monitor has its bar placed by
    [updatebarpos]: they return, the bar is shown again
    exactly when it was, and the bar and the window area are back where
    they were. *)
Theorem togglebar_roundtrip s mv :
  wf s -> hints_safe s ->
  Plug.mon_heap s !! Plug.selmon s = Some mv ->
  bar_placed (Plug.bh s) mv ->
  total (togglebar cfg;; togglebar cfg) s (fun _ s' =>
    Plug.selmon s' = Plug.selmon s
    /\ exists mv',
        Plug.mon_heap s' !! Plug.selmon s = Some mv'
        /\ truthy (Monitor.showbar mv') = truthy (Monitor.showbar mv)
        /\ Monitor.wy mv' = Monitor.wy mv /\ Monitor.wh mv' = Monitor.wh mv
        /\ Monitor.by_ mv' = Monitor.by_ mv).
Proof.
  intros Hwf Hsafe Hmv (P1 & P2 & P3).
  destruct (togglebar_run s mv Hwf Hsafe Hmv)
    as (s1 & mv1 & Hrun1 & Hwf1 & Hsel1 & Hbh1 & Hmv1 & Heq1).
  rewrite <- Hsel1 in Hmv1.
  pose proof (hints_safe_run _ _ _ _ hinted_togglebar Hrun1 Hsafe) as Hsafe1.
  destruct (togglebar_run s1 mv1 Hwf1 Hsafe1 Hmv1)
    as (s2 & mv2 & Hrun2 & Hwf2 & Hsel2 & Hbh2 & Hmv2 & Heq2).
  exists tt, s2. split; [rewrite (bind_step _ _ _ _ _ Hrun1); exact Hrun2|].
  split; [congruence|].
  exists mv2. rewrite <- Hsel1. split; [exact Hmv2|].
  set (a := Monitor.set_showbar (of_bool (negb (truthy (Monitor.showbar mv)))) mv) in *.
  set (b := Monitor.set_showbar (of_bool (negb (truthy (Monitor.showbar mv1)))) mv1) in *.
  destruct (barpos_keeps (Plug.bh s) a) as (K1 & K2 & K3 & K4 & _).
  assert (Monitor.my mv1 = Monitor.my mv) as Emy
    by (transitivity (Monitor.my (barpos (Plug.bh s) a));
        [exact (f_equal Monitor.my Heq1) | exact K1]).
  assert (Monitor.mh mv1 = Monitor.mh mv) as Emh
    by (transitivity (Monitor.mh (barpos (Plug.bh s) a));
        [exact (f_equal Monitor.mh Heq1) | exact K2]).
  assert (Monitor.topbar mv1 = Monitor.topbar mv) as Etop
    by (transitivity (Monitor.topbar (barpos (Plug.bh s) a));
        [exact (f_equal Monitor.topbar Heq1) | exact K3]).
  assert (Monitor.showbar mv1 = of_bool (negb (truthy (Monitor.showbar mv)))) as Eshow
    by (transitivity (Monitor.showbar (barpos (Plug.bh s) a));
        [exact (f_equal Monitor.showbar Heq1) | exact K4]).
  assert (truthy (Monitor.showbar b) = truthy (Monitor.showbar mv)) as Eb.
  { unfold b. cbn. rewrite Eshow, !truthy_of_bool. apply negb_involutive. }
  destruct (barpos_keeps (Plug.bh s1) b) as (_ & _ & _ & K4' & _).
  destruct (barpos_ext (Plug.bh s1) b mv) as (B1 & B2 & B3);
    [exact Emy | exact Emh | exact Etop | exact Eb |].
  rewrite Hbh1 in *.
  split.
  { rewrite <- Eb, <- K4'. exact (f_equal (fun m => truthy (Monitor.showbar m)) Heq2). }
  split; [rewrite P1, <- B1; exact (f_equal Monitor.wy Heq2)|].
  split; [rewrite P2, <- B2; exact (f_equal Monitor.wh Heq2)|].
  rewrite P3, <- B3. exact (f_equal Monitor.by_ Heq2).
Qed.

(** X18. [incnmaster(i)] on a well-formed state none of whose size
    increments traps: it returns, and the
    number of masters of the selected monitor is then the old one plus
    [i], or 0 if that is negative; it is never negative.  No other field
    of a monitor is written but layout symbols. *)
Theorem incnmaster_nonnegative i s mv :
  wf s -> hints_safe s ->
  Plug.mon_heap s !! Plug.selmon s = Some mv ->
  int_range (Monitor.nmaster mv + i) ->
  total (incnmaster cfg i) s (fun _ s' =>
    exists mv',
      Plug.mon_heap s' !! Plug.selmon s = Some mv'
      /\ Monitor.nmaster mv' = Z.max (Monitor.nmaster mv + i) 0
      /\ 0 <= Monitor.nmaster mv'
      /\ Monitor.set_ltsymbol EmptyString mv'
         = Monitor.set_ltsymbol EmptyString
             (Monitor.set_nmaster (Monitor.nmaster mv') mv)).
Proof.
  intros Hwf Hsafe Hmv Hrange.
  set (sm := Plug.selmon s) in *.
  set (mv1 := Monitor.set_nmaster (MAX (Monitor.nmaster mv +ₛ i) 0) mv).
  set (s1 := Plug.set_mon_heap (<[sm := mv1]> (Plug.mon_heap s)) s).
  assert (wf s1) as Hwf1.
  { eapply wf_upd_monitor; [exact Hwf | exact Hmv | | |].
    - exact (wf_monitor_clients _ _ _ Hwf Hmv).
    - exact (wf_monitor_stack _ _ _ Hwf Hmv).
    - exact (wf_monitor_sel _ _ _ Hwf Hmv). }
  assert (Plug.mon_heap s1 !! sm = Some mv1) as Hmv1 by (cbn; apply lookup_insert_eq).
  destruct (arrange_run cfg (Some sm) s1 Hwf1 Hsafe) as (s2 & Harr & Hlaid & Hwf2).
  { intros mid [= <-]. eexists. exact Hmv1. }
  destruct (laid_monitor _ _ _ _ Hlaid Hmv1) as (mv2 & Hmv2 & Heq).
  exists tt, s2. split.
  { unfold incnmaster. rewrite (bind_step _ _ s sm s) by reflexivity.
    rewrite (bind_step _ _ s tt s1); [exact Harr|].
    exact (run_upd_monitor sm
             (fun m => Monitor.set_nmaster (MAX (Monitor.nmaster m +ₛ i) 0) m) s mv Hmv). }
  exists mv2. split; [exact Hmv2|].
  assert (Monitor.nmaster mv2 = Z.max (Monitor.nmaster mv + i) 0) as En.
  { transitivity (Monitor.nmaster mv1); [exact (f_equal Monitor.nmaster Heq)|].
    unfold mv1. cbn. unfold addi. rewrite sint_small by exact Hrange.
    unfold MAX. destruct (Z.ltb_spec 0 (Monitor.nmaster mv + i)); lia. }
  split; [exact En|]. split; [lia|].
  assert (Monitor.nmaster mv2 = Monitor.nmaster mv1) as E
    by exact (f_equal Monitor.nmaster Heq).
  rewrite Heq, E. reflexivity.
Qed.

End Bar.

Lemma togglebar_roundtrip_witness :
  total (togglebar sample_cfg;; togglebar sample_cfg) sample_state (fun _ s' =>
    exists mv', Plug.mon_heap s' !! 0%nat = Some mv'
                /\ Monitor.wy mv' = 20 /\ Monitor.wh mv' = 1060).
Proof.
  destruct (togglebar_roundtrip sample_cfg sample_state sample_monitor)
    as (u & s' & Hrun & _ & mv' & Hmv' & _ & Hwy & Hwh & _).
  - apply wfb_spec. vm_compute. reflexivity.
  - apply hints_safeb_spec. vm_compute. reflexivity.
  - vm_compute. reflexivity.
  - vm_compute. repeat split.
  - exists u, s'. split; [exact Hrun|]. exists mv'. split; [exact Hmv'|].
    split; [exact Hwy | exact Hwh].
Defined.

Lemma incnmaster_nonnegative_witness :
  total (incnmaster sample_cfg (-5)) sample_state (fun _ s' =>
    exists mv', Plug.mon_heap s' !! 0%nat = Some mv' /\ Monitor.nmaster mv' = 0).
Proof.
  destruct (incnmaster_nonnegative sample_cfg (-5) sample_state sample_monitor)
    as (u & s' & Hrun & mv' & Hmv' & Hn & _).
  - apply wfb_spec. vm_compute. reflexivity.
  - apply hints_safeb_spec. vm_compute. reflexivity.
  - vm_compute. reflexivity.
  - unfold int_range. vm_compute. split; [discriminate | reflexivity].
  - exists u, s'. split; [exact Hrun|]. exists mv'. split; [exact Hmv' | exact Hn].
Defined.

(** ** Views and tags *)

Lemma monitor_core_ltsymbol a b :
  Monitor.set_ltsymbol EmptyString a = Monitor.set_ltsymbol EmptyString b ->
  monitor_core a = monitor_core b /\ monitor_shape a = monitor_shape b.
Proof.
  intros H.
  change (monitor_core (Monitor.set_ltsymbol EmptyString a)
          = monitor_core (Monitor.set_ltsymbol EmptyString b)
          /\ monitor_shape (Monitor.set_ltsymbol EmptyString a)
             = monitor_shape (Monitor.set_ltsymbol EmptyString b)).
  rewrite H. split; reflexivity.
Qed.

Section Views.

Variable cfg : Config.

(** [focus(NULL); arrange(selmon)], the end of the commands that change
    what is shown. *)
Lemma hinted_view ui : preserves hinted (view cfg ui).
Proof. unfold view. hinted_pres. Qed.

Lemma hinted_toggleview ui : preserves hinted (toggleview cfg ui).
Proof. unfold toggleview. hinted_pres. Qed.

Lemma refocus_run s mv :
  linked s -> hints_safe s -> Plug.mon_heap s !! Plug.selmon s = Some mv ->
  exists s' mv',
    (focus None;; sm ← gets Plug.selmon; arrange cfg (Some sm)) s = Some (tt, s')
    /\ linked s' /\ frame s s' /\ Plug.selmon s' = Plug.selmon s
    /\ Plug.mon_heap s' !! Plug.selmon s = Some mv'
    /\ monitor_core mv' = monitor_core mv
    /\ Monitor.sel mv' = List.find (visible_in s) (Monitor.stack mv).
Proof.
  intros Hl Hsafe Hmv. pose proof (linked_wf _ Hl) as Hwf.
  pose proof Hl as (_ & _ & _ & Hlm & _).
  assert (valid_pointer s None) as Hnone by (intros ? [=]).
  destruct (focus_run None s Hwf Hnone) as (s1 & Hfocus & Hwf1 & Hfr1 & Hcase).
  pose proof (hints_safe_run _ _ _ _ (hinted_focus _) Hfocus Hsafe) as Hsafe1.
  pose proof (linked_focus _ _ _ Hl Hnone Hfocus) as Hl1.
  assert (focus_target s None = List.find (visible_in s) (Monitor.stack mv)) as Htarget
    by (unfold focus_target; rewrite Hmv; reflexivity).
  rewrite Htarget in Hcase.
  assert (exists mv1, Plug.selmon s1 = Plug.selmon s
            /\ Plug.mon_heap s1 !! Plug.selmon s = Some mv1
            /\ monitor_core mv1 = monitor_core mv
            /\ Monitor.sel mv1 = List.find (visible_in s) (Monitor.stack mv))
    as (mv1 & Hsel1 & Hmv1 & Hcore1 & Hs1).
  { destruct (List.find (visible_in s) (Monitor.stack mv)) as [f|] eqn:Efind.
    - destruct Hcase as (v & mv0 & Hv & Hmv0 & Hs3 & Hh3).
      apply find_elem_of in Efind as [Hin _].
      destruct (Hlm _ _ Hmv) as (_ & _ & L3 & L4 & _).
      assert (Client.mon v = Plug.selmon s) as Hmon
        by (apply (L4 f v); [apply L3, Hin | exact Hv]).
      rewrite Hmon in *. rewrite Hmv in Hmv0. injection Hmv0 as <-.
      exists (focused_monitor f mv). split; [exact Hs3|].
      split; [rewrite Hh3; apply lookup_insert_eq|]. split; reflexivity.
    - destruct Hcase as (mv0 & Hmv0 & Hs3 & Hh3).
      rewrite Hmv in Hmv0. injection Hmv0 as <-.
      exists (Monitor.set_sel None mv). split; [exact Hs3|].
      split; [rewrite Hh3; apply lookup_insert_eq|]. split; reflexivity. }
  destruct (arrange_run cfg (Some (Plug.selmon s)) s1 Hwf1 Hsafe1)
    as (s2 & Harr & Hlaid & Hwf2).
  { intros mid [= <-]. eexists. exact Hmv1. }
  destruct (laid_monitor _ _ _ _ Hlaid Hmv1) as (mv2 & Hmv2 & Heq).
  destruct (monitor_core_ltsymbol _ _ Heq) as (Hcore2 & Hshape2).
  exists s2, mv2. split.
  { rewrite (bind_step _ _ _ _ _ Hfocus).
    rewrite (bind_step _ _ s1 (Plug.selmon s) s1) by (rewrite <- Hsel1; reflexivity).
    exact Harr. }
  split; [eapply linked_shape; [exact Hl1 | apply laid_shape, Hlaid]|].
  split; [etransitivity; [exact Hfr1 | apply Hlaid]|].
  split; [destruct Hlaid as (_ & -> & _); exact Hsel1|].
  split; [exact Hmv2|]. split; [congruence|].
  unfold monitor_shape in Hshape2. injection Hshape2 as _ _ E. congruence.
Qed.

(** Rewriting the selected monitor without touching its lists. *)
Lemma linked_retag s mv mv' :
  linked s -> Plug.mon_heap s !! Plug.selmon s = Some mv ->
  monitor_shape mv' = monitor_shape mv ->
  linked (Plug.set_mon_heap (<[Plug.selmon s := mv']> (Plug.mon_heap s)) s).
Proof.
  intros Hl Hmv Hshape. unfold monitor_shape in Hshape. injection Hshape as E1 E2 E3.
  pose proof (linked_wf _ Hl) as Hwf.
  destruct (proj1 (proj2 (proj2 (proj2 Hl))) _ _ Hmv) as (L1 & L2 & L3 & L4 & L5).
  apply (linked_upd_lists s _ (Plug.selmon s) mv mv' Hl).
  - eapply wf_upd_monitor; [exact Hwf | exact Hmv | | |].
    + rewrite E1. exact (wf_monitor_clients _ _ _ Hwf Hmv).
    + rewrite E2. exact (wf_monitor_stack _ _ _ Hwf Hmv).
    + rewrite E3. exact (wf_monitor_sel _ _ _ Hwf Hmv).
  - intros c. reflexivity.
  - reflexivity.
  - exact Hmv.
  - reflexivity.
  - rewrite E1. exact L1.
  - intros c. rewrite E1. reflexivity.
  - rewrite E2. exact L2.
  - intros c. rewrite E2. reflexivity.
  - rewrite E3, E2. exact L5.
Qed.

Lemma view_run ui s mv :
  linked s -> hints_safe s -> Plug.mon_heap s !! Plug.selmon s = Some mv ->
  Z.land ui (TAGMASK cfg) <> tagset mv (Monitor.seltags mv) ->
  let mv1 := Monitor.set_seltags (Z.lxor (Monitor.seltags mv) 1) mv in
  let mv2 := if truthy (Z.land ui (TAGMASK cfg))
             then set_tagset (Monitor.seltags mv1) (Z.land ui (TAGMASK cfg)) mv1
             else mv1 in
  let s2 := Plug.set_mon_heap (<[Plug.selmon s := mv2]> (Plug.mon_heap s)) s in
  exists s' mv',
    view cfg ui s = Some (tt, s')
    /\ linked s' /\ frame s2 s' /\ Plug.selmon s' = Plug.selmon s
    /\ Plug.mon_heap s' !! Plug.selmon s = Some mv'
    /\ monitor_core mv' = monitor_core mv2
    /\ Monitor.sel mv' = List.find (visible_in s2) (Monitor.stack mv).
Proof.
  intros Hl Hsafe Hmv Hne mv1 mv2 s2.
  assert (monitor_shape mv2 = monitor_shape mv) as Hshape.
  { unfold mv2, set_tagset. destruct (truthy _); [|reflexivity].
    destruct (Monitor.seltags mv1 =? 0); reflexivity. }
  pose proof (linked_retag s mv mv2 Hl Hmv Hshape) as Hl2. fold s2 in Hl2.
  assert (Plug.mon_heap s2 !! Plug.selmon s2 = Some mv2) as Hmv2
    by (cbn; apply lookup_insert_eq).
  destruct (refocus_run s2 mv2 Hl2 Hsafe Hmv2)
    as (s' & mv' & Hrun & Hl' & Hfr & Hsel & Hmv' & Hcore & Hs).
  exists s', mv'. split.
  { unfold view.
    rewrite (bind_step _ _ s (Plug.selmon s) s) by reflexivity.
    rewrite (bind_step _ _ _ _ _ (run_monitor _ _ _ Hmv)).
    destruct (Z.eqb_spec (Z.land ui (TAGMASK cfg)) (tagset mv (Monitor.seltags mv)));
      [contradiction|].
    set (s1 := Plug.set_mon_heap (<[Plug.selmon s := mv1]> (Plug.mon_heap s)) s).
    rewrite (bind_step _ _ s tt s1)
      by exact (run_upd_monitor (Plug.selmon s)
                  (fun m => Monitor.set_seltags (Z.lxor (Monitor.seltags m) 1) m) s mv Hmv).
    rewrite (bind_step _ _ s1 tt s2); [exact Hrun|].
    unfold mv2, s2. destruct (truthy (Z.land ui (TAGMASK cfg))); cbn [when].
    - rewrite (run_upd_monitor (Plug.selmon s)
                 (fun m => set_tagset (Monitor.seltags m) (Z.land ui (TAGMASK cfg)) m)
                 s1 mv1) by (cbn; apply lookup_insert_eq).
      unfold s1. cbn. rewrite insert_insert_eq. reflexivity.
    - reflexivity. }
  split; [exact Hl'|]. split; [exact Hfr|]. split; [exact Hsel|].
  split; [exact Hmv'|]. split; [exact Hcore|].
  rewrite Hs. unfold monitor_shape in Hshape. injection Hshape as _ E _. rewrite E.
  reflexivity.
Qed.

(** Visibility reads the tags and the monitor of the client, and the
    selected tag set of that monitor. *)
Lemma visible_in_ext s s' c :
  (forall d, client_core <$> Plug.client_heap s' !! d
             = client_core <$> Plug.client_heap s !! d) ->
  (forall m, (fun mv => tagset mv (Monitor.seltags mv)) <$> Plug.mon_heap s' !! m
             = (fun mv => tagset mv (Monitor.seltags mv)) <$> Plug.mon_heap s !! m) ->
  visible_in s' c = visible_in s c.
Proof.
  intros Hc Hm. unfold visible_in. specialize (Hc c).
  destruct (Plug.client_heap s' !! c) as [v'|], (Plug.client_heap s !! c) as [v|];
    cbn in Hc; try discriminate; [|reflexivity].
  apply (inj Some) in Hc. pose proof (mon_core _ _ Hc) as Hmon. rewrite Hmon.
  specialize (Hm (Client.mon v)).
  destruct (Plug.mon_heap s' !! Client.mon v) as [mv'|],
    (Plug.mon_heap s !! Client.mon v) as [mv|]; cbn in Hm; try discriminate; [|reflexivity].
  apply (inj Some) in Hm. unfold visible. rewrite Hm.
  unfold client_core in Hc. injection Hc as _ _ _ _ _ -> _ _ _ _. reflexivity.
Qed.

Lemma tagset_core a b :
  monitor_core a = monitor_core b ->
  Monitor.seltags a = Monitor.seltags b /\ Monitor.tagset0 a = Monitor.tagset0 b
  /\ Monitor.tagset1 a = Monitor.tagset1 b.
Proof. unfold monitor_core. intros H. injection H. intros. auto. Qed.

Lemma lxor_1_1 z : Z.lxor (Z.lxor z 1) 1 = z.
Proof. rewrite Z.lxor_assoc. change (Z.lxor 1 1) with 0. apply Z.lxor_0_r. Qed.

(** What a run that rewrites the selected monitor and then keeps the
    frame leaves of the other monitors and of the clients. *)
Lemma frame_after_retag s mv2 s' :
  frame (Plug.set_mon_heap (<[Plug.selmon s := mv2]> (Plug.mon_heap s)) s) s' ->
  (forall d, client_core <$> Plug.client_heap s' !! d
             = client_core <$> Plug.client_heap s !! d)
  /\ (forall m, m <> Plug.selmon s ->
        monitor_core <$> Plug.mon_heap s' !! m = monitor_core <$> Plug.mon_heap s !! m).
Proof.
  intros (Hc & Hm & _). split; [exact Hc|]. intros m Hne. rewrite Hm. cbn.
  rewrite lookup_insert_ne by congruence. reflexivity.
Qed.

(** X19. [view(ui)] for tags that are not the ones shown, followed by
    [view(0)], on a linked state none of whose size increments traps: they
    return, the selected monitor shows the tags it
    showed before, the same clients are visible as before, and the tags
    [ui] are kept as the previous view, so that another [view(0)] goes
    back to them. *)
Theorem view_previous ui s mv :
  linked s -> hints_safe s ->
  Plug.mon_heap s !! Plug.selmon s = Some mv ->
  Monitor.seltags mv = 0 \/ Monitor.seltags mv = 1 ->
  Z.land ui (TAGMASK cfg) <> 0 ->
  Z.land ui (TAGMASK cfg) <> tagset mv (Monitor.seltags mv) ->
  total (view cfg ui;; view cfg 0) s (fun _ s' =>
    linked s' /\ Plug.selmon s' = Plug.selmon s
    /\ (exists mv',
          Plug.mon_heap s' !! Plug.selmon s = Some mv'
          /\ Monitor.seltags mv' = Monitor.seltags mv
          /\ tagset mv' (Monitor.seltags mv') = tagset mv (Monitor.seltags mv)
          /\ tagset mv' (Z.lxor (Monitor.seltags mv') 1) = Z.land ui (TAGMASK cfg))
    /\ forall c, visible_in s' c = visible_in s c).
Proof.
  intros Hl Hsafe Hmv Hsel Hnz Hne.
  destruct (view_run ui s mv Hl Hsafe Hmv Hne)
    as (s1 & mv1 & Hrun1 & Hl1 & Hfr1 & Hsel1 & Hmv1 & Hcore1 & _).
  pose proof (hints_safe_run _ _ _ _ (hinted_view ui) Hrun1 Hsafe) as Hsafe1.
  cbv zeta in Hfr1, Hcore1. rewrite (proj2 (truthy_true _) Hnz) in Hfr1, Hcore1.
  destruct (tagset_core _ _ Hcore1) as (T1 & T2 & T3).
  assert (Monitor.seltags mv1 = Z.lxor (Monitor.seltags mv) 1
          /\ tagset mv1 (Monitor.seltags mv1) = Z.land ui (TAGMASK cfg)
          /\ tagset mv1 (Monitor.seltags mv) = tagset mv (Monitor.seltags mv))
    as (Hsw & Hshown & Hkept).
  { unfold tagset. rewrite T1, T2, T3.
    destruct Hsel as [E | E]; rewrite E; cbn; auto. }
  rewrite <- Hsel1 in Hmv1.
  destruct (view_run 0 s1 mv1 Hl1 Hsafe1 Hmv1)
    as (s2 & mv2 & Hrun2 & Hl2 & Hfr2 & Hsel2 & Hmv2 & Hcore2 & _).
  { rewrite Z.land_0_l, Hshown. congruence. }
  cbv zeta in Hfr2, Hcore2. rewrite Z.land_0_l in Hfr2, Hcore2.
  change (truthy 0) with false in Hfr2, Hcore2. cbv iota in Hfr2, Hcore2.
  destruct (tagset_core _ _ Hcore2) as (U1 & U2 & U3).
  change (Monitor.seltags mv2 = Z.lxor (Monitor.seltags mv1) 1) in U1.
  change (Monitor.tagset0 mv2 = Monitor.tagset0 mv1) in U2.
  change (Monitor.tagset1 mv2 = Monitor.tagset1 mv1) in U3.
  rewrite Hsw, lxor_1_1 in U1.
  destruct (frame_after_retag _ _ _ Hfr1) as (Hc1 & Hm1).
  destruct (frame_after_retag _ _ _ Hfr2) as (Hc2 & Hm2).
  exists tt, s2. split; [rewrite (bind_step _ _ _ _ _ Hrun1); exact Hrun2|].
  split; [exact Hl2|]. split; [congruence|].
  assert (tagset mv2 (Monitor.seltags mv2) = tagset mv (Monitor.seltags mv)) as Hback.
  { rewrite <- Hkept. unfold tagset. rewrite U1, U2, U3. reflexivity. }
  split.
  - exists mv2. rewrite <- Hsel1. split; [exact Hmv2|]. split; [exact U1|].
    split; [exact Hback|].
    rewrite <- Hshown. unfold tagset. rewrite U1, U2, U3, Hsw. reflexivity.
  - intros c. apply visible_in_ext.
    + intros d. rewrite Hc2, Hc1. reflexivity.
    + intros m. destruct (decide (m = Plug.selmon s)) as [->|Hm].
      * rewrite <- Hsel1 at 1. rewrite Hmv2, Hmv. cbn. rewrite Hback. reflexivity.
      * assert (monitor_core <$> Plug.mon_heap s2 !! m
                = monitor_core <$> Plug.mon_heap s !! m) as E
          by (rewrite Hm2, Hm1 by congruence; reflexivity).
        destruct (Plug.mon_heap s2 !! m) as [a|], (Plug.mon_heap s !! m) as [b|];
          cbn in E |- *; try discriminate; [|reflexivity].
        apply (inj Some) in E. destruct (tagset_core _ _ E) as (V1 & V2 & V3).
        unfold tagset. rewrite V1, V2, V3. reflexivity.
Qed.

Lemma toggleview_run ui s mv :
  linked s -> hints_safe s -> Plug.mon_heap s !! Plug.selmon s = Some mv ->
  let new := Z.lxor (tagset mv (Monitor.seltags mv)) (Z.land ui (TAGMASK cfg)) in
  let mv2 := set_tagset (Monitor.seltags mv) new mv in
  let s2 := Plug.set_mon_heap (<[Plug.selmon s := mv2]> (Plug.mon_heap s)) s in
  new <> 0 ->
  exists s' mv',
    toggleview cfg ui s = Some (tt, s')
    /\ linked s' /\ frame s2 s' /\ Plug.selmon s' = Plug.selmon s
    /\ Plug.mon_heap s' !! Plug.selmon s = Some mv'
    /\ monitor_core mv' = monitor_core mv2.
Proof.
  intros Hl Hsafe Hmv new mv2 s2 Hnz.
  assert (monitor_shape mv2 = monitor_shape mv) as Hshape.
  { unfold mv2, set_tagset. destruct (Monitor.seltags mv =? 0); reflexivity. }
  pose proof (linked_retag s mv mv2 Hl Hmv Hshape) as Hl2. fold s2 in Hl2.
  assert (Plug.mon_heap s2 !! Plug.selmon s2 = Some mv2) as Hmv2
    by (cbn; apply lookup_insert_eq).
  destruct (refocus_run s2 mv2 Hl2 Hsafe Hmv2)
    as (s' & mv' & Hrun & Hl' & Hfr & Hsel & Hmv' & Hcore & _).
  exists s', mv'. split.
  { unfold toggleview.
    rewrite (bind_step _ _ s (Plug.selmon s) s) by reflexivity.
    rewrite (bind_step _ _ _ _ _ (run_monitor _ _ _ Hmv)).
    fold new. rewrite (proj2 (truthy_true _) Hnz). cbn [when].
    rewrite (bind_step _ _ s tt s2); [exact Hrun|].
    exact (run_upd_monitor (Plug.selmon s)
             (fun m => set_tagset (Monitor.seltags m) new m) s mv Hmv). }
  auto 10.
Qed.

Lemma tagset_set_tagset i x m : tagset (set_tagset i x m) i = x.
Proof. unfold tagset, set_tagset. destruct (i =? 0); reflexivity. Qed.

Lemma tagset_seltags_core a b :
  monitor_core a = monitor_core b ->
  tagset a (Monitor.seltags a) = tagset b (Monitor.seltags b).
Proof.
  intros H. destruct (tagset_core _ _ H) as (E1 & E2 & E3).
  unfold tagset. rewrite E1, E2, E3. reflexivity.
Qed.

Lemma seltags_set_tagset i x m : Monitor.seltags (set_tagset i x m) = Monitor.seltags m.
Proof. unfold set_tagset. destruct (i =? 0); reflexivity. Qed.

Lemma visible_in_after_retag s s' mv mv' :
  Plug.mon_heap s !! Plug.selmon s = Some mv ->
  Plug.mon_heap s' !! Plug.selmon s = Some mv' ->
  tagset mv' (Monitor.seltags mv') = tagset mv (Monitor.seltags mv) ->
  (forall d, client_core <$> Plug.client_heap s' !! d
             = client_core <$> Plug.client_heap s !! d) ->
  (forall m, m <> Plug.selmon s ->
     monitor_core <$> Plug.mon_heap s' !! m = monitor_core <$> Plug.mon_heap s !! m) ->
  forall c, visible_in s' c = visible_in s c.
Proof.
  intros Hmv Hmv' Ht Hc Hm c. apply visible_in_ext; [exact Hc|].
  intros m. destruct (decide (m = Plug.selmon s)) as [->|Hne].
  - rewrite Hmv', Hmv. cbn. rewrite Ht. reflexivity.
  - specialize (Hm m Hne).
    destruct (Plug.mon_heap s' !! m) as [a|], (Plug.mon_heap s !! m) as [b|];
      cbn in Hm |- *; try discriminate; [|reflexivity].
    apply (inj Some) in Hm. rewrite (tagset_seltags_core _ _ Hm). reflexivity.
Qed.

(** X20. Two calls of [toggleview(ui)] on a linked state none of whose
    size increments traps, whose selected monitor shows some tag: they
    return, the monitor shows the tags it showed before and
    the same clients are visible as before; a call that would leave no tag
    shown does nothing. *)
Theorem toggleview_roundtrip ui s mv :
  linked s -> hints_safe s ->
  Plug.mon_heap s !! Plug.selmon s = Some mv ->
  tagset mv (Monitor.seltags mv) <> 0 ->
  total (toggleview cfg ui;; toggleview cfg ui) s (fun _ s' =>
    linked s' /\ Plug.selmon s' = Plug.selmon s
    /\ (exists mv',
          Plug.mon_heap s' !! Plug.selmon s = Some mv'
          /\ Monitor.seltags mv' = Monitor.seltags mv
          /\ tagset mv' (Monitor.seltags mv') = tagset mv (Monitor.seltags mv))
    /\ (forall c, visible_in s' c = visible_in s c)
    /\ (Z.land ui (TAGMASK cfg) = tagset mv (Monitor.seltags mv) -> s' = s)).
Proof.
  intros Hl Hsafe Hmv Hshown.
  set (x := Z.land ui (TAGMASK cfg)).
  set (t0 := tagset mv (Monitor.seltags mv)) in *.
  destruct (Z.eq_dec (Z.lxor t0 x) 0) as [Hz|Hnz].
  - assert (toggleview cfg ui s = Some (tt, s)) as Hnop.
    { unfold toggleview.
      rewrite (bind_step _ _ s (Plug.selmon s) s) by reflexivity.
      rewrite (bind_step _ _ _ _ _ (run_monitor _ _ _ Hmv)).
      fold t0 x. rewrite Hz. reflexivity. }
    exists tt, s. split; [rewrite (bind_step _ _ _ _ _ Hnop); exact Hnop|].
    split; [exact Hl|]. split; [reflexivity|].
    split; [exists mv; auto|]. split; reflexivity.
  - destruct (toggleview_run ui s mv Hl Hsafe Hmv Hnz)
      as (s1 & mv1 & Hrun1 & Hl1 & Hfr1 & Hsel1 & Hmv1 & Hcore1).
    pose proof (hints_safe_run _ _ _ _ (hinted_toggleview ui) Hrun1 Hsafe) as Hsafe1.
    fold t0 x in Hfr1, Hcore1.
    pose proof (tagset_seltags_core _ _ Hcore1) as Ht1.
    rewrite seltags_set_tagset, tagset_set_tagset in Ht1.
    destruct (tagset_core _ _ Hcore1) as (S1 & _ & _).
    rewrite seltags_set_tagset in S1.
    rewrite <- Hsel1 in Hmv1.
    assert (Z.lxor (tagset mv1 (Monitor.seltags mv1)) x = t0) as Hback.
    { rewrite Ht1, Z.lxor_assoc, Z.lxor_nilpotent. apply Z.lxor_0_r. }
    destruct (toggleview_run ui s1 mv1 Hl1 Hsafe1 Hmv1)
      as (s2 & mv2 & Hrun2 & Hl2 & Hfr2 & Hsel2 & Hmv2 & Hcore2).
    { fold x. rewrite Hback. exact Hshown. }
    fold x in Hfr2, Hcore2. rewrite Hback in Hfr2, Hcore2.
    pose proof (tagset_seltags_core _ _ Hcore2) as Ht2.
    rewrite seltags_set_tagset, tagset_set_tagset in Ht2.
    destruct (tagset_core _ _ Hcore2) as (S2 & _ & _).
    rewrite seltags_set_tagset in S2.
    destruct (frame_after_retag _ _ _ Hfr1) as (Hc1 & Hm1).
    destruct (frame_after_retag _ _ _ Hfr2) as (Hc2 & Hm2).
    rewrite Hsel1 in Hmv2.
    exists tt, s2. split; [rewrite (bind_step _ _ _ _ _ Hrun1); exact Hrun2|].
    split; [exact Hl2|]. split; [congruence|].
    split; [exists mv2; split; [exact Hmv2 | split; [congruence | exact Ht2]]|].
    split.
    + apply (visible_in_after_retag s s2 mv mv2 Hmv Hmv2 Ht2).
      * intros d. rewrite Hc2, Hc1. reflexivity.
      * intros m Hne. rewrite Hm2, Hm1 by congruence. reflexivity.
    + intros E. exfalso. apply Hnz. rewrite E. apply Z.lxor_nilpotent.
Qed.

Lemma linked_upd_client_core s c v v' :
  linked s -> Plug.client_heap s !! c = Some v -> Client.mon v' = Client.mon v ->
  linked (Plug.set_client_heap (<[c := v']> (Plug.client_heap s)) s).
Proof.
  intros Hl Hv Hmon. eapply linked_shape; [exact Hl|].
  eapply shape_upd_client; eassumption.
Qed.

(** X21. [tag(ui)] on a linked state none of whose size increments
    traps, whose selected monitor has the selection [c], for [ui] with a
    tag within the tag count: it returns, [c] then has exactly the tags of
    [ui] within the tag count, and is floating, fullscreen and on its
    monitor as before; if none of these tags is shown, [c] is no longer
    visible and is not the selection any more.  The state stays linked,
    and the selected monitor keeps its tag sets, its client list, its
    layouts and its geometry (its focus stack may be reordered, and its
    selection and layout symbol may change). *)
Theorem tag_retags ui s mv c v :
  linked s -> hints_safe s ->
  Plug.mon_heap s !! Plug.selmon s = Some mv ->
  Monitor.sel mv = Some c ->
  Plug.client_heap s !! c = Some v ->
  Z.land ui (TAGMASK cfg) <> 0 ->
  total (tag cfg ui) s (fun _ s' =>
    linked s' /\ Plug.selmon s' = Plug.selmon s
    /\ client_has c (fun v' =>
         Client.tags v' = Z.land ui (TAGMASK cfg)
         /\ Client.mon v' = Client.mon v
         /\ Client.isfloating v' = Client.isfloating v
         /\ Client.isfullscreen v' = Client.isfullscreen v) s'
    /\ exists mv',
         Plug.mon_heap s' !! Plug.selmon s = Some mv'
         /\ monitor_core mv' = monitor_core mv
         /\ (Z.land (Z.land ui (TAGMASK cfg)) (tagset mv (Monitor.seltags mv)) = 0 ->
             visible_in s' c = false /\ Monitor.sel mv' <> Some c)).
Proof.
  intros Hl Hsafe Hmv Hsel Hv Hnz.
  set (x := Z.land ui (TAGMASK cfg)) in *.
  set (v1 := Client.set_tags x v).
  set (s1 := Plug.set_client_heap (<[c := v1]> (Plug.client_heap s)) s).
  assert (linked s1) as Hl1 by (apply (linked_upd_client_core s c v v1 Hl Hv); reflexivity).
  assert (Plug.mon_heap s1 !! Plug.selmon s1 = Some mv) as Hmv1 by exact Hmv.
  assert (hints_safe s1) as Hsafe1.
  { apply (hints_safe_upd_client s c v v1 Hv); [|exact Hsafe].
    apply hint_key_fields; reflexivity. }
  destruct (refocus_run s1 mv Hl1 Hsafe1 Hmv1)
    as (s' & mv' & Hrun & Hl' & Hfr & Hselmon & Hmv' & Hcore & Hs).
  assert (Plug.client_heap s1 !! c = Some v1) as Hv1 by (cbn; apply lookup_insert_eq).
  destruct (frame_client _ _ _ _ Hfr Hv1) as (v' & Hv' & Hvcore).
  pose proof (linked_wf _ Hl) as Hwf.
  destruct (proj1 (proj2 (proj2 (proj2 Hl))) _ _ Hmv) as (_ & _ & L3 & L4 & L5).
  assert (Client.mon v = Plug.selmon s) as Hmon
    by (apply (L4 c v); [apply L3, L5, Hsel | exact Hv]).
  exists tt, s'. split.
  { unfold tag.
    rewrite (bind_step _ _ s (Plug.selmon s) s) by reflexivity.
    rewrite (bind_step _ _ _ _ _ (run_monitor _ _ _ Hmv)).
    rewrite Hsel. rewrite bool_decide_eq_true_2 by eauto.
    fold x. rewrite (proj2 (truthy_true _) Hnz). cbn [andb when].
    rewrite (bind_step _ _ s c s) by reflexivity.
    rewrite (bind_step _ _ s tt s1) by exact (run_upd_client c _ s v Hv).
    exact Hrun. }
  split; [exact Hl'|]. split; [exact Hselmon|].
  split.
  { exists v'. split; [exact Hv'|]. unfold client_core in Hvcore.
    injection Hvcore as E1 E2 E3 E4 E5 E6 E7 E8 E9 E10.
    rewrite E6, E8, E2, E1. repeat split. }
  exists mv'. split; [exact Hmv'|]. split; [exact Hcore|].
  intros Hhidden.
  assert (visible_in s1 c = false) as Hvis1.
  { unfold visible_in. rewrite Hv1. change (Client.mon v1) with (Client.mon v).
    rewrite Hmon. change (Plug.mon_heap s1) with (Plug.mon_heap s). rewrite Hmv.
    unfold visible. change (Client.tags v1) with x. rewrite Hhidden. reflexivity. }
  split.
  - rewrite (visible_in_frame _ _ c Hfr). exact Hvis1.
  - rewrite Hs. intros Hfind. apply find_elem_of in Hfind as [_ Hvis]. congruence.
Qed.

End Views.

Lemma toggleview_roundtrip_witness :
  total (toggleview sample_cfg 2;; toggleview sample_cfg 2) sample_state (fun _ s' =>
    forall c, visible_in s' c = visible_in sample_state c).
Proof.
  destruct (toggleview_roundtrip sample_cfg 2 sample_state sample_monitor)
    as (u & s' & Hrun & _ & _ & _ & Hvis & _).
  - apply linkedb_spec. vm_compute. reflexivity.
  - apply hints_safeb_spec. vm_compute. reflexivity.
  - vm_compute. reflexivity.
  - vm_compute. discriminate.
  - exists u, s'. split; [exact Hrun | exact Hvis].
Defined.

Lemma tag_retags_witness :
  total (tag sample_cfg 2) sample_state (fun _ s' =>
    client_has 1%nat (fun v' => Client.tags v' = 2) s' /\ visible_in s' 1%nat = false).
Proof.
  destruct (tag_retags sample_cfg 2 sample_state sample_monitor 1%nat
              (sample_client 101 0 20 958 1058 0))
    as (u & s' & Hrun & _ & _ & (v' & Hv' & Ht & _) & mv' & _ & _ & Hout).
  - apply linkedb_spec. vm_compute. reflexivity.
  - apply hints_safeb_spec. vm_compute. reflexivity.
  - vm_compute. reflexivity.
  - reflexivity.
  - vm_compute. reflexivity.
  - vm_compute. discriminate.
  - exists u, s'. split; [exact Hrun|]. split.
    + exists v'. split; [exact Hv' | exact Ht].
    + apply Hout. vm_compute. reflexivity.
Defined.

Lemma view_previous_witness :
  total (view sample_cfg 2;; view sample_cfg 0) sample_state (fun _ s' =>
    forall c, visible_in s' c = visible_in sample_state c).
Proof.
  destruct (view_previous sample_cfg 2 sample_state sample_monitor)
    as (u & s' & Hrun & _ & _ & _ & Hvis).
  - apply linkedb_spec. vm_compute. reflexivity.
  - apply hints_safeb_spec. vm_compute. reflexivity.
  - vm_compute. reflexivity.
  - left. reflexivity.
  - vm_compute. discriminate.
  - vm_compute. discriminate.
  - exists u, s'. split; [exact Hrun | exact Hvis].
Defined.

(** ** The monocle layout *)

Lemma visible_count_cons s c l :
  visible_count s (c :: l) = (if visible_in s c then 1 else 0) + visible_count s l.
Proof. unfold visible_count. simpl. destruct (visible_in s c); simpl length; lia. Qed.

Lemma visible_count_bound s l : 0 <= visible_count s l <= Z.of_nat (length l).
Proof.
  unfold visible_count. split; [lia|].
  apply inj_le. induction l as [|c l IH]; simpl; [lia|].
  destruct (visible_in s c); simpl; lia.
Qed.

Lemma post_count_visible l k s :
  0 <= k -> k + visible_count s l < 2 ^ 32 ->
  post (foldM l (fun n c => vis ← ISVISIBLE c; mret (if vis : bool then n +ᵤ 1 else n)) k) s
    (fun n s' => s' = s /\ n = k + visible_count s l).
Proof.
  revert k. induction l as [|c l IH]; intros k Hk Hbound; simpl.
  - apply post_ret. split; [reflexivity|]. unfold visible_count. simpl. lia.
  - rewrite visible_count_cons in Hbound |- *.
    pose proof (visible_count_bound s l).
    apply post_bind, post_bind, post_ISVISIBLE. apply post_ret.
    destruct (visible_in s c).
    + unfold addu. rewrite uint_small by lia.
      eapply post_mono; [apply (IH (k + 1)); lia|].
      intros n s' [-> ->]. split; [reflexivity | lia].
    + eapply post_mono; [apply (IH k); lia|].
      intros n s' [-> ->]. split; [reflexivity | lia].
Qed.

Lemma set_mon_heap_id s m mv :
  Plug.mon_heap s !! m = Some mv ->
  Plug.set_mon_heap (<[m := mv]> (Plug.mon_heap s)) s = s.
Proof.
  destruct s as [a1 a2 a3 a4 a5 a6 a7 a8 a9 a10 a11 h a13 a14 a15]. cbn. intros H.
  rewrite (insert_id h m mv H). reflexivity.
Qed.

Section Monocle.

Variable cfg : Config.

Lemma monocle_loop mid m s0 l :
  forall s,
    still s0 s -> Plug.mon_heap s0 !! mid = Some m ->
    post (for_tiled l
            (fun (_ : unit) c =>
               v ← client c;
               m ← monitor mid;
               resize cfg c (Monitor.wx m) (Monitor.wy m)
                 (Monitor.ww m -ₛ 2 *ₛ Client.bw v) (Monitor.wh m -ₛ 2 *ₛ Client.bw v) 0)
            tt) s
      (fun _ s' =>
         still s s'
         /\ calls_rel (map (full_width_column m (bw_of s0))
                         (List.filter (tiled_pure s0) l)) s s').
Proof.
  unfold for_tiled.
  induction l as [|c l IH]; intros s Hst Hm; simpl.
  - apply post_ret. split; [reflexivity | apply calls_rel_refl].
  - apply post_bind, post_bind.
    eapply post_mono; [apply post_tiled|]. intros b s' [-> ->].
    pose proof Hst as (Hf0 & Hmh & _).
    rewrite (frame_tiled_pure _ _ c Hf0).
    destruct (tiled_pure s0 c).
    + apply post_bind, post_client. intros v Hv.
      apply post_bind, post_monitor. intros m' Hm'.
      rewrite Hmh, Hm in Hm'. injection Hm' as <-.
      assert (bw_is (bw_of s0) s) as Hbw
        by (eapply bw_is_frame; [exact Hf0 | apply bw_is_bw_of]).
      eapply post_mono.
      { apply post_conj.
        - eapply (post_preserves still); [apply still_resize | intros ? ? H; exact H].
        - apply (resize_calls_rel cfg (bw_of s0)), Hbw. }
      intros [] s1 [Hst1 [Hf1 Hc1]].
      eapply post_mono; [apply (IH s1); [etransitivity; eassumption | exact Hm]|].
      intros [] s2 [Hst2 Hc2]. split; [etransitivity; eassumption|].
      simpl map. apply (calls_rel_trans [_] _ s s1 s2); [|exact Hc2].
      unfold full_width_column. rewrite <- (Hbw c v Hv).
      replace (sint (Monitor.ww m - 2 * Client.bw v))
        with (Monitor.ww m -ₛ 2 *ₛ Client.bw v); [exact Hc1|].
      unfold subi, muli. apply sint_eqm32. rewrite eqm32_sint. reflexivity.
    + apply post_ret. apply (IH s); assumption.
Qed.

Lemma monocle_loop_places mid m s0 l :
  NoDup l ->
  (forall d v, d ∈ l -> Plug.client_heap s0 !! d = Some v -> Client.mon v = mid) ->
  forall s,
    frame s0 s -> Plug.mon_heap s !! mid = Some m ->
    (forall d, d ∈ l -> Plug.client_heap s !! d = Plug.client_heap s0 !! d) ->
    post (for_tiled l
            (fun (_ : unit) c =>
               v ← client c;
               m ← monitor mid;
               resize cfg c (Monitor.wx m) (Monitor.wy m)
                 (Monitor.ww m -ₛ 2 *ₛ Client.bw v) (Monitor.wh m -ₛ 2 *ₛ Client.bw v) 0)
            tt) s
      (fun _ s' =>
         frame s s'
         /\ Plug.mon_heap s' = Plug.mon_heap s
         /\ (forall d, d ∉ l -> Plug.client_heap s' !! d = Plug.client_heap s !! d)
         /\ forall d v,
              d ∈ l -> tiled_pure s0 d = true -> Plug.client_heap s0 !! d = Some v ->
              fits cfg s0 v m (Monitor.wx m) (Monitor.ww m -ₛ 2 *ₛ Client.bw v) ->
              client_has d (fun v' =>
                Client.x v' = Monitor.wx m
                /\ Client.w v' = Monitor.ww m -ₛ 2 *ₛ Client.bw v) s').
Proof.
  intros Hnd Hmon. unfold for_tiled.
  induction l as [|c l IH]; intros s Hf0 Hm Hsame; simpl.
  - apply post_ret. split; [reflexivity|]. split; [reflexivity|].
    split; [reflexivity|]. intros d v Hd. apply elem_of_nil in Hd. contradiction.
  - apply NoDup_cons in Hnd as [Hc Hnd].
    assert (forall d v, d ∈ l -> Plug.client_heap s0 !! d = Some v -> Client.mon v = mid)
      as Hmon' by (intros d v Hd; apply Hmon; right; exact Hd).
    apply post_bind, post_bind.
    eapply post_mono; [apply post_tiled|]. intros b s' [-> ->].
    rewrite (frame_tiled_pure _ _ c Hf0).
    destruct (tiled_pure s0 c) eqn:Et.
    + destruct (tiled_pure_client _ _ Et) as [v Hv0].
      assert (Plug.client_heap s !! c = Some v) as Hv
        by (rewrite Hsame; [exact Hv0 | left]).
      assert (Plug.mon_heap s !! Client.mon v = Some m) as Hmv
        by (rewrite (Hmon c v); [exact Hm | left | exact Hv0]).
      apply post_bind, post_client. intros v1 Hv1. rewrite Hv in Hv1. injection Hv1 as <-.
      apply post_bind, post_monitor. intros m1 Hm1. rewrite Hm in Hm1. injection Hm1 as <-.
      eapply post_mono.
      { apply (post_resize_column cfg c _ _ _ _ s v m Hv Hmv). unfold subi. apply sint_range. }
      intros [] s1 (Hf1 & Hmh1 & Hoth1 & Hfit1).
      eapply post_mono.
      * apply (IH Hnd Hmon' s1).
        -- etransitivity; eassumption.
        -- rewrite Hmh1. exact Hm.
        -- intros d Hd. rewrite Hoth1; [apply Hsame; right; exact Hd|].
           intros ->. contradiction.
      * intros [] s2 (Hf2 & Hmh2 & Hoth2 & Hpl2).
        split; [etransitivity; eassumption|]. split; [congruence|]. split.
        -- intros d Hd. apply not_elem_of_cons in Hd as [Hdc Hdl].
           rewrite Hoth2 by exact Hdl. apply Hoth1, Hdc.
        -- intros d v1 Hd Htd Hv1 Hfits. apply elem_of_cons in Hd as [->|Hd].
           ++ rewrite Hv0 in Hv1. injection Hv1 as <-.
              destruct (Hfit1 (fits_frame _ _ _ _ _ _ _ Hf0 Hfits)) as (v2 & Hv2 & E).
              exists v2. split; [|exact E]. rewrite Hoth2 by exact Hc. exact Hv2.
           ++ exact (Hpl2 d v1 Hd Htd Hv1 Hfits).
    + apply post_ret.
      eapply post_mono.
      * apply (IH Hnd Hmon' s); try assumption.
        intros d Hd. apply Hsame. right. exact Hd.
      * intros [] s2 (Hf2 & Hmh2 & Hoth2 & Hpl2).
        split; [exact Hf2|]. split; [exact Hmh2|]. split.
        -- intros d Hd. apply not_elem_of_cons in Hd as [_ Hd]. apply Hoth2, Hd.
        -- intros d v1 Hd Htd Hv1 Hfits. apply elem_of_cons in Hd as [->|Hd].
           ++ rewrite Et in Htd. discriminate.
           ++ exact (Hpl2 d v1 Hd Htd Hv1 Hfits).
Qed.

(** X22. [monocle(m)] on a well-formed state none of whose size
    increments traps: it returns; its calls of
    [resize] are one per client of [m] that is visible and not floating, in
    the order of the client list, each for [x = wx] and [w = ww - 2 * bw];
    the layout symbol becomes the number [n] of visible clients of [m],
    floating ones included, in brackets, and stays as it is when there is
    none; and when the client list of [m] has no repetition and holds
    clients of [m] only, each of these clients has [x = wx] and
    [w = ww - 2 * bw] stored afterwards whenever [applysizehints] leaves
    that column alone ([fits]). *)
Theorem monocle_fills s mid m :
  wf s -> hints_safe s ->
  Plug.mon_heap s !! mid = Some m ->
  Z.of_nat (length (Monitor.clients m)) < 2 ^ 32 ->
  total (monocle cfg mid) s (fun _ s' =>
    calls_rel (map (full_width_column m (bw_of s))
                 (List.filter (tiled_pure s) (Monitor.clients m))) s s'
    /\ (exists m',
          Plug.mon_heap s' !! mid = Some m'
          /\ Monitor.ltsymbol m'
             = (if 0 <? visible_count s (Monitor.clients m)
                then monocle_symbol (visible_count s (Monitor.clients m))
                else Monitor.ltsymbol m))
    /\ (NoDup (Monitor.clients m) ->
        (forall c v, c ∈ Monitor.clients m -> Plug.client_heap s !! c = Some v ->
           Client.mon v = mid) ->
        forall c v,
          c ∈ Monitor.clients m -> tiled_pure s c = true ->
          Plug.client_heap s !! c = Some v ->
          fits cfg s v m (Monitor.wx m) (Monitor.ww m -ₛ 2 *ₛ Client.bw v) ->
          client_has c (fun v' =>
            Client.x v' = Monitor.wx m
            /\ Client.w v' = Monitor.ww m -ₛ 2 *ₛ Client.bw v) s')).
Proof.
  intros Hwf Hsafe Hm Hlen.
  apply total_intro; [apply defined_monocle; [exact Hwf | exact Hsafe | eexists; exact Hm]|].
  unfold monocle. apply post_bind, post_monitor. intros m0 Hm0.
  rewrite Hm in Hm0. injection Hm0 as <-.
  pose proof (visible_count_bound s (Monitor.clients m)) as Hb.
  apply post_bind.
  eapply post_mono; [apply (post_count_visible _ 0 s); lia|].
  intros n s1 [-> ->]. rewrite Z.add_0_l.
  set (n := visible_count s (Monitor.clients m)) in *.
  set (m1 := if 0 <? n then Monitor.set_ltsymbol (monocle_symbol n) m else m).
  set (s1 := Plug.set_mon_heap (<[mid := m1]> (Plug.mon_heap s)) s).
  { apply post_bind.
    assert (post (when (0 <? n) (upd_monitor mid (Monitor.set_ltsymbol (monocle_symbol n)))) s
              (fun _ s' => s' = s1)) as Hupd.
    { unfold s1, m1. destruct (0 <? n); cbn [when].
      - apply post_upd_monitor. intros m0 Hm0. rewrite Hm in Hm0. injection Hm0 as <-.
        reflexivity.
      - apply post_ret. symmetry. apply set_mon_heap_id, Hm. }
    eapply post_mono; [exact Hupd|]. intros [] s' ->.
    assert (Plug.mon_heap s1 !! mid = Some m1) as Hm1 by (cbn; apply lookup_insert_eq).
    assert (frame s s1) as Hf1.
    { eapply frame_upd_monitor; [exact Hm|]. unfold m1. destruct (0 <? n); reflexivity. }
    assert (Plug.xlog s1 = Plug.xlog s) as Hlog by reflexivity.
    assert (forall c, tiled_pure s1 c = tiled_pure s c) as Htp
      by (intros c; apply frame_tiled_pure, Hf1).
    assert (forall c, bw_of s1 c = bw_of s c) as Hbw by reflexivity.
    assert (post (for_tiled (Monitor.clients m)
                    (fun (_ : unit) c =>
                       v ← client c;
                       m ← monitor mid;
                       resize cfg c (Monitor.wx m) (Monitor.wy m)
                         (Monitor.ww m -ₛ 2 *ₛ Client.bw v)
                         (Monitor.wh m -ₛ 2 *ₛ Client.bw v) 0) tt) s1
              (fun _ s' =>
                 NoDup (Monitor.clients m) ->
                 (forall c v, c ∈ Monitor.clients m -> Plug.client_heap s !! c = Some v ->
                    Client.mon v = mid) ->
                 forall c v,
                   c ∈ Monitor.clients m -> tiled_pure s c = true ->
                   Plug.client_heap s !! c = Some v ->
                   fits cfg s v m (Monitor.wx m) (Monitor.ww m -ₛ 2 *ₛ Client.bw v) ->
                   client_has c (fun v' =>
                     Client.x v' = Monitor.wx m
                     /\ Client.w v' = Monitor.ww m -ₛ 2 *ₛ Client.bw v) s')) as Pplaces.
    { intros a s' Hrun Hnd Hmon c v Hc Htc Hv Hfits.
      destruct (monocle_loop_places mid m1 s1 (Monitor.clients m) Hnd Hmon s1
                  ltac:(reflexivity) Hm1 (fun _ _ => eq_refl) a s' Hrun)
        as (_ & _ & _ & Hpl).
      assert (fits cfg s1 v m1 (Monitor.wx m1) (Monitor.ww m1 -ₛ 2 *ₛ Client.bw v))
        as Hfits1 by (unfold m1; destruct (0 <? n); exact Hfits).
      destruct (Hpl c v Hc ltac:(rewrite Htp; exact Htc) Hv Hfits1) as (v' & Hv' & E).
      exists v'. split; [exact Hv'|]. unfold m1 in E. destruct (0 <? n); exact E. }
    eapply post_mono.
    { apply (post_conj _ _ _ _
               (monocle_loop mid m1 s1 (Monitor.clients m) s1 ltac:(reflexivity) Hm1)
               Pplaces). }
    intros [] s2 [[Hst (l & Hl & Hcalls)] Hplaces]. split; [|split; [|exact Hplaces]].
    - exists l. split; [rewrite Hl, Hlog; reflexivity|]. rewrite Hcalls.
      replace (List.filter (tiled_pure s1) (Monitor.clients m))
        with (List.filter (tiled_pure s) (Monitor.clients m))
        by (apply filter_ext; intros c; symmetry; apply Htp).
      apply map_ext. intros c. unfold full_width_column, m1.
      destruct (0 <? n); reflexivity.
    - exists m1. destruct Hst as (_ & Hmh & _). rewrite Hmh.
      split; [exact Hm1|]. unfold m1. destruct (0 <? n); reflexivity. }
Qed.

End Monocle.

Lemma monocle_fills_witness :
  total (monocle sample_cfg 0%nat) sample_state (fun _ s' =>
    exists m', Plug.mon_heap s' !! 0%nat = Some m' /\ Monitor.ltsymbol m' = "[2]"%string).
Proof.
  destruct (monocle_fills sample_cfg sample_state 0%nat sample_monitor)
    as (u & s' & Hrun & _ & (m' & Hm' & Hsym) & _).
  - apply wfb_spec. vm_compute. reflexivity.
  - apply hints_safeb_spec. vm_compute. reflexivity.
  - vm_compute. reflexivity.
  - vm_compute. reflexivity.
  - exists u, s'. split; [exact Hrun|]. exists m'. split; [exact Hm'|].
    rewrite Hsym. vm_compute. reflexivity.
Defined.

(** ** The Num_Lock mask *)

Lemma numlock_fold k : forall rows i mask,
  0 <= i -> i + Z.of_nat (length rows) <= 8 ->
  (mask = 0 \/ exists j, 0 <= j < i /\ mask = 2 ^ j) ->
  let r := snd (fold_left
                  (fun '(i, mask) row =>
                     (i + 1, if existsb (Z.eqb k) row then uint (Z.shiftl 1 i) else mask))
                  rows (i, mask)) in
  r = 0 \/ exists j, 0 <= j < 8 /\ r = 2 ^ j.
Proof.
  induction rows as [|row rows IH]; intros i mask Hi Hlen Hmask; cbn [fold_left snd].
  - destruct Hmask as [->|(j & Hj & ->)]; [left; reflexivity|].
    right. exists j. cbn [length] in Hlen. split; [lia | reflexivity].
  - cbn [length] in Hlen. apply IH; [lia | lia |].
    destruct (existsb (Z.eqb k) row).
    + right. exists i. split; [lia|].
      rewrite Z.shiftl_1_l. apply uint_small. split; [lia|].
      apply Z.pow_lt_mono_r; lia.
    + destruct Hmask as [->|(j & Hj & ->)]; [left; reflexivity|].
      right. exists j. split; [lia | reflexivity].
Qed.

(** X23. The mask [updatenumlockmask] stores is 0 or a single one of the
    eight modifier bits, and it is 0 when no row of the modifier map holds
    the keycode of Num_Lock. *)
Theorem updatenumlockmask_single_bit s :
  total updatenumlockmask s (fun _ s' =>
    let mask := Plug.numlockmask s' in
    (mask = 0 \/ exists j, 0 <= j < 8 /\ mask = 2 ^ j)
    /\ (forallb (fun row => negb (existsb (Z.eqb (numlock_keycode (Plug.xsrv s))) row))
          (firstn 8 (modifiermap (Plug.xsrv s))) = true -> mask = 0)
    /\ s' = Plug.set_numlockmask mask s).
Proof.
  eexists tt, _. split; [reflexivity|]. cbn [Plug.numlockmask Plug.set_numlockmask].
  split; [|split; [|reflexivity]].
  - unfold numlock_of. apply numlock_fold; [lia | | left; reflexivity].
    rewrite length_firstn. lia.
  - unfold numlock_of.
    assert (forall rows i,
              forallb (fun row => negb (existsb (Z.eqb (numlock_keycode (Plug.xsrv s))) row))
                rows = true ->
              snd (fold_left
                     (fun '(i, mask) row =>
                        (i + 1, if existsb (Z.eqb (numlock_keycode (Plug.xsrv s))) row
                                then uint (Z.shiftl 1 i) else mask))
                     rows (i, 0)) = 0) as Hgen.
    { induction rows as [|row rows IH]; intros i H; [reflexivity|].
      cbn [forallb] in H. apply andb_prop in H as [H1 H2]. cbn [fold_left].
      apply negb_true_iff in H1. rewrite H1. apply IH, H2. }
    apply Hgen.
Qed.

(** ** Tags of the clients *)

Lemma tagged_core : core_property tagged.
Proof.
  intros v v' Hcore. unfold tagged, client_core in *.
  injection Hcore as _ _ _ _ _ -> _ _ _ _. trivial.
Qed.

Lemma taggedb_spec v : taggedb v = true <-> tagged v.
Proof. apply truthy_true. Qed.

Section Tagged.

Variable cfg : Config.

Lemma refocus_tagged :
  preserves (inv_rel tagged)
    (focus None;; sm ← gets Plug.selmon; arrange cfg (Some sm)).
Proof. apply inv_rel_frame; [apply tagged_core | pres]. Qed.

Lemma tag_tagged ui : preserves (inv_rel tagged) (tag cfg ui).
Proof.
  unfold tag.
  apply preserves_bind; tc_solve; [apply preserves_gets; tc_solve|]. intros sm.
  apply preserves_bind; tc_solve; [apply preserves_monitor; tc_solve|]. intros m.
  destruct (bool_decide (is_Some (Monitor.sel m)) && truthy (Z.land ui (TAGMASK cfg)))
    eqn:E; cbn [when]; [|apply preserves_ret; tc_solve].
  apply andb_prop in E as [_ E]. apply truthy_true in E.
  apply preserves_bind; tc_solve; [apply preserves_deref; tc_solve|]. intros sel.
  apply preserves_bind; tc_solve; [|intros _; apply refocus_tagged].
  apply inv_rel_upd_client. intros v _. exact E.
Qed.

Lemma toggletag_tagged ui : preserves (inv_rel tagged) (toggletag cfg ui).
Proof.
  unfold toggletag.
  apply preserves_bind; tc_solve; [apply preserves_gets; tc_solve|]. intros sm.
  apply preserves_bind; tc_solve; [apply preserves_monitor; tc_solve|]. intros m.
  destruct (Monitor.sel m) as [sel|]; [|apply preserves_ret; tc_solve].
  apply preserves_bind; tc_solve; [apply preserves_client; tc_solve|]. intros v.
  destruct (truthy (Z.lxor (Client.tags v) (Z.land ui (TAGMASK cfg)))) eqn:E; cbn [when];
    [|apply preserves_ret; tc_solve].
  apply truthy_true in E.
  apply preserves_bind; tc_solve; [|intros _; apply refocus_tagged].
  apply inv_rel_upd_client. intros v0 _. exact E.
Qed.

(** X24. If every managed client has a tag, then so it is after [tag]
    and after [toggletag], whatever their argument: a call that would
    leave the selected client without a tag does nothing. *)
Theorem client_tags_nonempty ui s s' :
  client_inv tagged s ->
  tag cfg ui s = Some (tt, s') \/ toggletag cfg ui s = Some (tt, s') ->
  client_inv tagged s'.
Proof.
  intros Hinv [H|H].
  - exact (tag_tagged ui s tt s' H Hinv).
  - exact (toggletag_tagged ui s tt s' H Hinv).
Qed.

End Tagged.

Lemma client_tags_nonempty_witness :
  exists s', toggletag sample_cfg 2 sample_state = Some (tt, s')
             /\ client_inv tagged s'.
Proof.
  eexists. split; [vm_compute; reflexivity|].
  refine (client_tags_nonempty sample_cfg 2 sample_state _ _ _).
  - apply (client_invb_spec taggedb); [apply taggedb_spec|]. vm_compute. reflexivity.
  - right. vm_compute. reflexivity.
Defined.

(** ** Floating *)

Section Floating.

Variable cfg : Config.

(** X25. [togglefloating] on a well-formed state none of whose size
    increments traps, whose selected monitor has the selection [c]: it
    returns; a fullscreen [c] is left as it is, with the whole state;
    otherwise [c] is floating afterwards exactly if it was not floating or
    is of fixed size, and its fullscreen and minimized flags, its border
    widths, saved floating state, tags, monitor, window and name are as
    before, as are those and the floating flag of every other client (the
    urgency flag is not written; the size hints, with the flag of a fixed
    size, may be loaded); no monitor has a field written but its layout
    symbol. *)
Theorem togglefloating_flips s mv c v :
  wf s -> hints_safe s ->
  Plug.mon_heap s !! Plug.selmon s = Some mv ->
  Monitor.sel mv = Some c ->
  Plug.client_heap s !! c = Some v ->
  total (togglefloating cfg) s (fun _ s' =>
    if truthy (Client.isfullscreen v) then s' = s
    else
      client_has c (fun v' =>
        client_core v'
        = client_core
            (Client.set_isfloating
               (of_bool (negb (truthy (Client.isfloating v)) || truthy (Client.isfixed v)))
               v)) s'
      /\ (forall d, d <> c -> client_core <$> Plug.client_heap s' !! d
                              = client_core <$> Plug.client_heap s !! d)
      /\ (forall k, Monitor.set_ltsymbol EmptyString <$> Plug.mon_heap s' !! k
                    = Monitor.set_ltsymbol EmptyString <$> Plug.mon_heap s !! k)
      /\ Plug.selmon s' = Plug.selmon s).
Proof.
  intros Hwf Hsafe Hmv Hsel Hv. unfold total, togglefloating.
  rewrite (bind_step _ _ s (Plug.selmon s) s) by reflexivity.
  rewrite (bind_step _ _ _ _ _ (run_monitor _ _ _ Hmv)).
  rewrite Hsel. rewrite (bind_step _ _ _ _ _ (run_client _ _ _ Hv)).
  destruct (truthy (Client.isfullscreen v)); [exists tt, s; split; reflexivity|].
  set (v1 := Client.set_isfloating
               (of_bool (negb (truthy (Client.isfloating v)) || truthy (Client.isfixed v))) v).
  set (s1 := Plug.set_client_heap (<[c := v1]> (Plug.client_heap s)) s).
  rewrite (bind_step _ _ s tt s1) by exact (run_upd_client c _ s v Hv).
  assert (Plug.client_heap s1 !! c = Some v1) as Hv1 by (cbn; apply lookup_insert_eq).
  assert (shape s s1) as Hsh1 by (eapply shape_upd_client; [exact Hv | reflexivity]).
  assert (wf s1) as Hwf1 by (eapply wf_shape; eassumption).
  assert (hints_safe s1) as Hsafe1.
  { apply (hints_safe_upd_client s c v v1 Hv); [|exact Hsafe].
    apply hint_key_fields; reflexivity. }
  rewrite (bind_step _ _ _ _ _ (run_client _ _ _ Hv1)).
  assert (exists s2, when (truthy (Client.isfloating v1))
                       (resize cfg c (Client.x v1) (Client.y v1) (Client.w v1)
                          (Client.h v1) 0) s1 = Some (tt, s2)
                     /\ still s1 s2 /\ wf s2) as (s2 & Hres & Hst2 & Hwf2).
  { destruct (truthy (Client.isfloating v1)); cbn [when].
    - destruct (defined_resize cfg c (Client.x v1) (Client.y v1) (Client.w v1)
                  (Client.h v1) 0 s1 Hwf1 Hsafe1) as [[[] s2] Hrun]; [eexists; exact Hv1|].
      exists s2. split; [exact Hrun|].
      pose proof (still_resize cfg _ _ _ _ _ _ _ _ _ Hrun) as Hst. split; [exact Hst|].
      eapply wf_shape; [exact Hwf1 | apply still_shape, Hst].
    - exists s1. split; [reflexivity|]. split; [reflexivity | exact Hwf1]. }
  rewrite (bind_step _ _ _ _ _ Hres).
  destruct (arrange_run cfg (Some (Plug.selmon s)) s2 Hwf2 (hints_safe_still _ _ Hst2 Hsafe1))
    as (s3 & Harr & Hlaid & Hwf3).
  { intros mid [= <-]. pose proof Hst2 as (_ & E & _). unfold valid_monitor.
    rewrite E. eexists. exact Hmv. }
  exists tt, s3. split; [exact Harr|].
  destruct Hst2 as ((Hc2 & _) & Hmh2 & Hsel2 & _).
  destruct Hlaid as ((Hc3 & _) & Hsel3 & Hm3 & _).
  split; [|split; [|split]].
  - assert (client_core <$> Plug.client_heap s3 !! c = Some (client_core v1)) as E
      by (rewrite Hc3, Hc2, Hv1; reflexivity).
    unfold client_has.
    destruct (Plug.client_heap s3 !! c) as [v3|]; [|discriminate].
    exists v3. split; [reflexivity|]. apply (inj Some) in E. exact E.
  - intros d Hd. rewrite Hc3, Hc2. cbn. rewrite lookup_insert_ne by congruence.
    reflexivity.
  - intros k. rewrite Hm3, Hmh2. reflexivity.
  - rewrite Hsel3, Hsel2. reflexivity.
Qed.

End Floating.

Lemma togglefloating_flips_witness :
  total (togglefloating sample_cfg) sample_state (fun _ s' =>
    client_has 1%nat (fun v' => Client.isfloating v' = 1) s').
Proof.
  destruct (togglefloating_flips sample_cfg sample_state sample_monitor 1%nat
              (sample_client 101 0 20 958 1058 0))
    as (u & s' & Hrun & H).
  - apply wfb_spec. vm_compute. reflexivity.
  - apply hints_safeb_spec. vm_compute. reflexivity.
  - vm_compute. reflexivity.
  - reflexivity.
  - vm_compute. reflexivity.
  - exists u, s'. split; [exact Hrun|].
    change (truthy (Client.isfullscreen (sample_client 101 0 20 958 1058 0))) with false in H.
    destruct H as ((v' & Hv' & Hcore) & _). exists v'. split; [exact Hv'|].
    unfold client_core in Hcore. injection Hcore as _ E _ _ _ _ _ _ _ _. exact E.
Defined.

(** ** Requests of clients *)

Lemma seturgent_run c u s v :
  Plug.client_heap s !! c = Some v ->
  exists l,
    seturgent c u s
    = Some (tt, Plug.set_xlog (Plug.xlog s ++ l)
                  (Plug.set_client_heap (<[c := Client.set_isurgent u v]> (Plug.client_heap s))
                     s)).
Proof.
  intros Hv. unfold seturgent.
  set (s1 := Plug.set_client_heap (<[c := Client.set_isurgent u v]> (Plug.client_heap s)) s).
  rewrite (bind_step _ _ s tt s1) by exact (run_upd_client c _ s v Hv).
  assert (Plug.client_heap s1 !! c = Some (Client.set_isurgent u v)) as Hv1
    by (cbn; apply lookup_insert_eq).
  rewrite (bind_step _ _ _ _ _ (run_client _ _ _ Hv1)).
  rewrite (bind_step _ _ s1 (Plug.xsrv s) s1) by reflexivity.
  destruct (XGetWMHints (Plug.xsrv s) (Client.win (Client.set_isurgent u v))) as [flags|].
  - eexists [_]. reflexivity.
  - exists []. cbn. rewrite app_nil_r. destruct s. reflexivity.
Qed.

Section Requests.

Variable cfg : Config.

(** X26. A client message of type [_NET_ACTIVE_WINDOW] for the window of
    a managed client [c], on a well-formed state: [c] is marked urgent
    unless it is the selection of the selected monitor or is urgent
    already, and that is all: the message writes no monitor, so it moves no
    focus and changes no selection, and no other field of a client. *)
Theorem clientmessage_activate ev s c v mv :
  wf s ->
  List.find (has_window s (cm_window ev)) (managed_list s) = Some c ->
  Plug.client_heap s !! c = Some v ->
  Plug.mon_heap s !! Plug.selmon s = Some mv ->
  cm_message_type ev <> Plug.netatom s NetWMState ->
  cm_message_type ev = Plug.netatom s NetActiveWindow ->
  total (clientmessage cfg ev) s (fun _ s' =>
    Plug.mon_heap s' = Plug.mon_heap s /\ Plug.selmon s' = Plug.selmon s
    /\ Plug.client_heap s'
       = (if negb (bool_decide (Some c = Monitor.sel mv)) && negb (truthy (Client.isurgent v))
          then <[c := Client.set_isurgent 1 v]> (Plug.client_heap s)
          else Plug.client_heap s)).
Proof.
  intros Hwf Hfind Hv Hmv Hstate Hactive. unfold total, clientmessage.
  rewrite (bind_step _ _ _ _ _ (wintoclient_run (cm_window ev) s Hwf)). rewrite Hfind.
  rewrite (bind_step _ _ s (Plug.netatom s) s) by reflexivity.
  destruct (Z.eqb_spec (cm_message_type ev) (Plug.netatom s NetWMState)); [contradiction|].
  destruct (Z.eqb_spec (cm_message_type ev) (Plug.netatom s NetActiveWindow));
    [|contradiction].
  rewrite (bind_step _ _ s (Plug.selmon s) s) by reflexivity.
  rewrite (bind_step _ _ _ _ _ (run_monitor _ _ _ Hmv)).
  rewrite (bind_step _ _ _ _ _ (run_client _ _ _ Hv)).
  destruct (negb (bool_decide (Some c = Monitor.sel mv)) && negb (truthy (Client.isurgent v)));
    cbn [when].
  - destruct (seturgent_run c 1 s v Hv) as (l & Hrun). rewrite Hrun.
    eexists tt, _. split; [reflexivity|]. repeat split.
  - exists tt, s. repeat split.
Qed.

End Requests.

Lemma clientmessage_activate_witness :
  total (clientmessage sample_cfg (mkClientMessage 102 306 0 0 0)) sample_state (fun _ s' =>
    Plug.mon_heap s' = Plug.mon_heap sample_state).
Proof.
  destruct (clientmessage_activate sample_cfg (mkClientMessage 102 306 0 0 0) sample_state 2%nat
              (sample_client 102 960 20 958 1058 0) sample_monitor)
    as (u & s' & Hrun & Hm & _).
  - apply wfb_spec. vm_compute. reflexivity.
  - vm_compute. reflexivity.
  - vm_compute. reflexivity.
  - vm_compute. reflexivity.
  - vm_compute. discriminate.
  - vm_compute. reflexivity.
  - exists u, s'. split; [exact Hrun | exact Hm].
Defined.

(** ** Moving the focus along the client list *)

Lemma after_app c pre next : c ∉ pre -> after c (pre ++ c :: next) = Some next.
Proof.
  induction pre as [|d pre IH]; intros Hc; cbn [app after].
  - rewrite decide_True by reflexivity. reflexivity.
  - rewrite decide_False by (intros ->; apply Hc; left). apply IH.
    intros H. apply Hc. right. exact H.
Qed.

Lemma upto_app c pre next : c ∉ pre -> upto c (pre ++ c :: next) = Some (pre, c :: next).
Proof.
  induction pre as [|d pre IH]; intros Hc; cbn [app upto].
  - rewrite decide_True by reflexivity. reflexivity.
  - rewrite decide_False by (intros ->; apply Hc; left).
    rewrite IH by (intros H; apply Hc; right; exact H). reflexivity.
Qed.

Lemma last_visible_run s : forall l acc,
  wf s -> valid_clients s l ->
  last_visible l acc s
  = Some (match last (List.filter (visible_in s) l) with
          | Some d => Some d
          | None => acc
          end, s).
Proof.
  unfold last_visible.
  induction l as [|c l IH]; intros acc Hwf Hl; [reflexivity|].
  apply valid_clients_cons in Hl as [Hc Hl]. cbn [foldM List.filter].
  rewrite (bind_step _ _ s (if visible_in s c then Some c else acc) s).
  2:{ rewrite (bind_step _ _ _ _ _ (ISVISIBLE_run s c Hwf Hc)). reflexivity. }
  rewrite (IH _ Hwf Hl).
  destruct (visible_in s c); [|reflexivity].
  rewrite last_cons. destruct (last (List.filter (visible_in s) l)); reflexivity.
Qed.

Section FocusStack.

Variable cfg : Config.

Lemma restack_run m s :
  wf s -> valid_monitor s m ->
  exists s', restack m s = Some (tt, s') /\ still s s'.
Proof.
  intros Hwf Hm. destruct (defined_restack m s Hwf Hm) as [[[] s'] Hrun].
  exists s'. split; [exact Hrun | exact (still_restack _ _ _ _ Hrun)].
Qed.

(** X27. [focusstack(i)] on a linked state whose selected monitor has the
    selection [c] between the clients [pre] and [next], [c] not being a
    fullscreen client held by [lockfullscreen]: the selection goes to the
    next visible client after [c] in the client list for a positive [i],
    to the last visible one before [c] otherwise, around the ends of the
    list; the selected monitor and the frame are kept and the state stays
    linked.  With no visible client the state is left as it is. *)
Theorem focusstack_cycles i s mv c v pre next :
  linked s ->
  Plug.mon_heap s !! Plug.selmon s = Some mv ->
  Monitor.sel mv = Some c ->
  Monitor.clients mv = pre ++ c :: next ->
  Plug.client_heap s !! c = Some v ->
  truthy (Client.isfullscreen v) && truthy (lockfullscreen cfg) = false ->
  total (focusstack cfg i) s (fun _ s' =>
    match focusstack_target s i pre c next with
    | Some d =>
        d ∈ Monitor.clients mv /\ visible_in s d = true
        /\ linked s' /\ frame s s' /\ Plug.selmon s' = Plug.selmon s
        /\ exists mv', Plug.mon_heap s' !! Plug.selmon s = Some mv'
                       /\ Monitor.sel mv' = Some d
    | None => s' = s
    end).
Proof.
  intros Hl Hmv Hsel Hlist Hv Hlock. pose proof (linked_wf _ Hl) as Hwf.
  destruct (proj1 (proj2 (proj2 (proj2 Hl))) _ _ Hmv) as (L1 & L2 & L3 & L4 & L5).
  pose proof (wf_monitor_clients _ _ _ Hwf Hmv) as Hvalid.
  rewrite Hlist in L1, Hvalid.
  assert (c ∉ pre) as Hpre.
  { apply NoDup_app in L1 as (_ & H & _). intros Hin. apply (H c Hin). left. }
  assert (valid_clients s pre) as Hvpre
    by (intros d Hd; apply Hvalid, elem_of_app; left; exact Hd).
  assert (valid_clients s (c :: next)) as Hvpost
    by (intros d Hd; apply Hvalid, elem_of_app; right; exact Hd).
  assert (valid_clients s next) as Hvnext
    by (intros d Hd; apply Hvpost; right; exact Hd).
  (* the search *)
  assert (exists t,
    (if 0 <? i then
       next ← deref (after c (Monitor.clients mv));
       c0 ← first_visible next;
       match c0 with
       | Some _ => mret c0
       | None => first_visible (Monitor.clients mv)
       end
     else
       '(pre, post) ← deref (upto c (Monitor.clients mv));
       c0 ← last_visible pre None;
       match c0 with
       | Some _ => mret c0
       | None => last_visible post None
       end) s = Some (t, s)
    /\ t = focusstack_target s i pre c next) as (t & Hsearch & Ht).
  { unfold focusstack_target. rewrite Hlist. destruct (0 <? i).
    - rewrite (after_app c pre next Hpre).
      rewrite (bind_step _ _ s next s) by reflexivity.
      rewrite (bind_step _ _ _ _ _ (first_visible_run s next Hwf Hvnext)).
      rewrite find_app.
      destruct (List.find (visible_in s) next) as [d|] eqn:Efind.
      + eexists. split; reflexivity.
      + rewrite (first_visible_run s _ Hwf Hvalid).
        eexists. split; [reflexivity|].
        rewrite !find_app. cbn [List.find].
        destruct (List.find (visible_in s) pre); [reflexivity|].
        destruct (visible_in s c); [reflexivity|]. exact Efind.
    - rewrite (upto_app c pre next Hpre).
      rewrite (bind_step _ _ s (pre, c :: next) s) by reflexivity.
      rewrite (bind_step _ _ _ _ _ (last_visible_run s pre None Hwf Hvpre)).
      change (c :: next ++ pre) with ((c :: next) ++ pre).
      rewrite List.filter_app, last_app.
      destruct (last (List.filter (visible_in s) pre)) as [d|].
      + eexists. split; reflexivity.
      + rewrite (last_visible_run s (c :: next) None Hwf Hvpost).
        eexists. split; [reflexivity|].
        destruct (last (List.filter (visible_in s) (c :: next))); reflexivity. }
  assert (forall d, t = Some d -> d ∈ Monitor.clients mv /\ visible_in s d = true) as Hgood.
  { intros d ->. symmetry in Ht. unfold focusstack_target in Ht. rewrite Hlist.
    destruct (0 <? i).
    - apply find_elem_of in Ht as [Hin Hvis]. split; [|exact Hvis].
      rewrite !elem_of_app in Hin. rewrite elem_of_app, elem_of_cons.
      destruct Hin as [H|[H|H]]; [auto | auto |].
      apply list_elem_of_singleton in H. auto.
    - apply last_Some_elem_of in Ht. apply list_elem_of_In, List.filter_In in Ht as [Hin Hvis].
      split; [|exact Hvis]. apply list_elem_of_In in Hin.
      change (c :: next ++ pre) with ((c :: next) ++ pre) in Hin.
      rewrite elem_of_app in Hin. rewrite elem_of_app. tauto. }
  unfold total, focusstack.
  rewrite (bind_step _ _ s (Plug.selmon s) s) by reflexivity.
  rewrite (bind_step _ _ _ _ _ (run_monitor _ _ _ Hmv)).
  rewrite Hsel. rewrite (bind_step _ _ _ _ _ (run_client _ _ _ Hv)).
  rewrite Hlock. rewrite (bind_step _ _ _ _ _ Hsearch). rewrite <- Ht.
  destruct t as [d|]; [|exists tt, s; split; reflexivity].
  destruct (Hgood d eq_refl) as [Hin Hvis].
  destruct (wf_monitor_clients _ _ _ Hwf Hmv d Hin) as [dv Hdv].
  pose proof (L4 d dv Hin Hdv) as Hdmon.
  assert (valid_pointer s (Some d)) as Hd by (intros ? [= <-]; eexists; exact Hdv).
  destruct (focus_run (Some d) s Hwf Hd) as (s1 & Hfocus & Hwf1 & Hfr1 & Hcase).
  rewrite (focus_target_of_visible _ _ Hvis) in Hcase.
  destruct Hcase as (dv' & dmv & Hdv' & Hdmv & Hsel1 & Hheap1).
  rewrite Hdv in Hdv'. injection Hdv' as <-. rewrite Hdmon in *.
  rewrite Hmv in Hdmv. injection Hdmv as <-.
  pose proof (linked_focus _ _ _ Hl Hd Hfocus) as Hl1.
  destruct (restack_run (Plug.selmon s) s1 Hwf1) as (s2 & Hrestack & Hst2).
  { unfold valid_monitor. rewrite Hheap1, lookup_insert_eq. eauto. }
  exists tt, s2. split.
  { rewrite (bind_step _ _ _ _ _ Hfocus).
    rewrite (bind_step _ _ s1 (Plug.selmon s) s1) by (rewrite <- Hsel1; reflexivity).
    exact Hrestack. }
  split; [exact Hin|]. split; [exact Hvis|].
  split; [eapply linked_still; eassumption|].
  split; [etransitivity; [exact Hfr1 | apply Hst2]|].
  destruct Hst2 as (_ & Hmh2 & Hsel2 & _).
  split; [congruence|].
  exists (focused_monitor d mv). rewrite Hmh2, Hheap1, lookup_insert_eq.
  split; reflexivity.
Qed.

End FocusStack.

Lemma focusstack_cycles_witness :
  total (focusstack sample_cfg 1) sample_state (fun _ s' =>
    exists mv', Plug.mon_heap s' !! 0%nat = Some mv' /\ Monitor.sel mv' = Some 2%nat).
Proof.
  destruct (focusstack_cycles sample_cfg 1 sample_state sample_monitor 1%nat
              (sample_client 101 0 20 958 1058 0) [] [2%nat])
    as (u & s' & Hrun & H).
  - apply linkedb_spec. vm_compute. reflexivity.
  - vm_compute. reflexivity.
  - reflexivity.
  - reflexivity.
  - vm_compute. reflexivity.
  - reflexivity.
  - exists u, s'. split; [exact Hrun|].
    assert (focusstack_target sample_state 1 [] 1%nat [2%nat] = Some 2%nat) as E
      by (vm_compute; reflexivity).
    rewrite E in H. destruct H as (_ & _ & _ & _ & _ & H). exact H.
Defined.
